(** * Layout engine of the Chen-model ER diagram generator

    A shallow embedding of the layout modules of the repository
    ([js/layout/utils.js], [initialLayout.js], [componentSpread.js],
    [arrangeLayout.js], [forceAlignLayout.js]) together with the
    properties stated about them.

    Conventions of the embedding.
    - A JavaScript number is idealised as a real number ([R]); [Math.sqrt],
      [Math.sin], [Math.cos] and [Math.PI] are the real functions and
      constant, [Math.floor] is [Int_part].
    - A [Map] keyed by node id is a [gmap string _]; a [Set] of ids, whose
      iteration order is its insertion order, is a duplicate-free list.
    - An [Array] is a list; [push] appends at the end.  A stack used with
      [push]/[pop] is a list whose head is the top.
    - A [while] loop is a function recursive on a fuel argument that
      returns [None] when the fuel runs out; each such loop comes with a
      lemma giving a fuel that suffices. *)

From Stdlib Require Import Reals Lra Lia ZArith Psatz.
From stdpp Require Import gmap strings list sorting.

(** Comparisons of reals are decided classically. *)
Global Instance R_eq_dec : EqDecision R := Req_dec_T.
Global Instance Rle_decision (a b : R) : Decision (a <= b)%R := Rle_dec a b.
Global Instance Rlt_decision (a b : R) : Decision (a < b)%R := Rlt_dec a b.

(** ** JavaScript helpers *)

Module JS.

(** [Math.hypot(a, b)] *)
Definition hypot (a b : R) : R := sqrt (a * a + b * b).

(** [Math.floor(a)] *)
Definition floor (a : R) : Z := Int_part a.

(** [Math.round(a)]: the nearest integer, halves rounded up. *)
Definition round (a : R) : Z := Int_part (a + / 2).

(** Truncation towards zero, as used by the [%] operator. *)
Definition trunc (a : R) : Z :=
  if Rle_dec 0 a then Int_part a else (- Int_part (- a))%Z.

(** [a % m]: the remainder has the sign of the dividend. *)
Definition rem (a m : R) : R := (a - m * IZR (trunc (a / m)))%R.

(** [v || d] on numbers: [0] is falsy. *)
Definition orElse (v d : R) : R := if Req_dec_T v 0 then d else v.

(** [Math.sign(a)] *)
Definition sign (a : R) : R :=
  if Rlt_dec 0 a then 1%R else if Rlt_dec a 0 then (-1)%R else 0%R.

(** [Math.atan2(b, a)] *)
Definition atan2 (b a : R) : R :=
  if Rlt_dec 0 a then atan (b / a)
  else if Rlt_dec a 0 then
    (if Rle_dec 0 b then atan (b / a) + PI else atan (b / a) - PI)%R
  else if Rlt_dec 0 b then (PI / 2)%R
  else if Rlt_dec b 0 then (- (PI / 2))%R
  else 0%R.

(** [Math.max(...l)] and [Math.min(...l)] for a list that the caller has
    made non-empty; [d] stands for the value on the empty list, which is
    infinite in JavaScript. *)
Definition maxOf (d : R) (l : list R) : R :=
  match l with
  | [] => d
  | a :: l' => foldl Rmax a l'
  end.

Definition minOf (d : R) (l : list R) : R :=
  match l with
  | [] => d
  | a :: l' => foldl Rmin a l'
  end.

(** Sum of a list of numbers ([reduce((s, v) => s + v, 0)]). *)
Definition sum (l : list R) : R := foldl Rplus 0%R l.

(** [set.add(v)] on an insertion-ordered set. *)
Definition setAdd (v : string) (s : list string) : list string :=
  if decide (v ∈ s) then s else s ++ [v].

(** [str.charCodeAt(i)] for all [i], in order. *)
Fixpoint charCodes (s : string) : list Z :=
  match s with
  | EmptyString => []
  | String c s' => Z.of_N (Ascii.N_of_ascii c) :: charCodes s'
  end.

(** [ToInt32]: wrap an integer into the signed 32-bit range. *)
Definition toInt32 (z : Z) : Z := ((z + 2 ^ 31) mod 2 ^ 32 - 2 ^ 31)%Z.

(** Stable insertion sort, standing for [Array.prototype.sort] with a
    comparator [(a, b) => ...] whose result is [<= 0] exactly when
    [leb a b] holds. *)
Section Sort.
Context {A : Type} (leb : A → A → bool).

Fixpoint insertSorted (a : A) (l : list A) : list A :=
  match l with
  | [] => [a]
  | b :: l' => if leb b a then b :: insertSorted a l' else a :: b :: l'
  end.

Definition sortBy (l : list A) : list A :=
  foldl (λ acc a, insertSorted a acc) [] l.
End Sort.

(** [a.localeCompare(b) <= 0]: ids are compared code unit by code unit. *)
Definition localeLeb (a b : string) : bool := String.leb a b.

(** Numeric comparator [(a, b) => a - b]. *)
Definition numLeb (a b : R) : bool := bool_decide (a <= b)%R.

End JS.

(** ** Data model *)

Inductive NodeType := entity | attribute | relationship.

Global Instance NodeType_eq_dec : EqDecision NodeType.
Proof. solve_decision. Defined.

(** A position [{x, y}]. *)
Record Pos := mkPos { px : R; py : R }.

(** The bounding box reported by the renderer for a node. *)
Record BBox := mkBBox {
  minX : R; maxX : R; minY : R; maxY : R;
  centerX : R; centerY : R;
  bwidth : R; bheight : R
}.

(** A rendered node: its model ([getModel()]) and its box ([getBBox()]). *)
Record Node := mkNode {
  n_id : string;
  n_type : NodeType;
  n_x : R;
  n_y : R;
  n_parentEntity : option string;
  n_bbox : BBox
}.

Record Edge := mkEdge { e_source : string; e_target : string }.

(** The graph instance handed to the layout functions. *)
Record Graph := mkGraph {
  getNodes : list Node;
  getEdges : list Edge;
  g_width : R;
  g_height : R
}.

(** [graph.findById(id)] *)
Definition findById (g : Graph) (i : string) : option Node :=
  List.find (λ n, bool_decide (n_id n = i)) (getNodes g).

(** Target-position map *)
Abbreviation Targets := (gmap string Pos).

(** Undirected adjacency: [Map<id, Set<id>>]. *)
Abbreviation Adjacency := (gmap string (list string)).

Definition addNeighbor (a b : string) (adj : Adjacency) : Adjacency :=
  <[a := JS.setAdd b (default [] (adj !! a))]> adj.

Definition addEdge (adj : Adjacency) (s t : string) : Adjacency :=
  addNeighbor t s (addNeighbor s t adj).

(** ** Deterministic utilities ([utils.js]) *)

Module Utils.

(** One round of the loop body of [deterministicHash]:
    [hash = ((hash << 5) - hash) + char; hash = hash & hash]. *)
Definition hashStep (hash char : Z) : Z :=
  JS.toInt32 (JS.toInt32 (JS.toInt32 hash * 32) - hash + char).

Definition deterministicHash (str : string) (extraSeed : Z) : Z :=
  Z.abs (foldl hashStep extraSeed (JS.charCodes str)).

Definition deterministicRandom (seed extraSeed : R) : R :=
  let x := (sin (seed + extraSeed * 1000) * 10000)%R in
  (x - IZR (JS.floor x) - / 2)%R.

Definition normalizeAngle (a : R) : R :=
  let ang := JS.rem a (PI * 2) in
  if Rlt_dec ang 0 then (ang + PI * 2)%R else ang.

Definition getRadius (b : BBox) : R :=
  (sqrt (bwidth b * bwidth b + bheight b * bheight b) / 2)%R.

End Utils.

(** ** Depth-first component decomposition

    The three decompositions of the engine run the same loop: a stack
    seeded with one unvisited id, [pop], record, then push every
    neighbour not yet visited.  They differ in the order of the roots and
    in the order in which the neighbours of a node are listed. *)

Module Decompose.

(** [neighbors.forEach(nb => { if (!visited.has(nb)) { visited.add(nb);
    stack.push(nb); } })] *)
Definition pushUnvisited (nbs : list string)
    (st : gset string * list string) : gset string * list string :=
  foldl (λ '(visited, stack) nb,
           if decide (nb ∈ visited) then (visited, stack)
           else ({[nb]} ∪ visited, nb :: stack))
        st nbs.

(** [while (stack.length) { const cur = stack.pop(); comp.push(cur); ... }] *)
Fixpoint dfs (fuel : nat) (nbrs : string → list string)
    (visited : gset string) (stack comp : list string)
    : option (gset string * list string) :=
  match stack with
  | [] => Some (visited, comp)
  | cur :: rest =>
      match fuel with
      | O => None
      | S fuel' =>
          let '(visited', stack') := pushUnvisited (nbrs cur) (visited, rest) in
          dfs fuel' nbrs visited' stack' (comp ++ [cur])
      end
  end.

(** The outer [forEach] over the candidate roots. *)
Fixpoint components (fuel : nat) (nbrs : string → list string)
    (roots : list string) (visited : gset string)
    : option (list (list string)) :=
  match roots with
  | [] => Some []
  | r :: roots' =>
      if decide (r ∈ visited) then components fuel nbrs roots' visited
      else
        '(visited', comp) ← dfs fuel nbrs ({[r]} ∪ visited) [r] [];
        comps ← components fuel nbrs roots' visited';
        Some (comp :: comps)
  end.

(** Ids mentioned by an adjacency, as keys or as neighbours. *)
Definition adjIds (adj : Adjacency) : gset string :=
  dom adj ∪ ⋃ ((λ kv : string * list string, list_to_set kv.2) <$> map_to_list adj).

(** A fuel that always suffices for [dfs] over [adj] from [roots]. *)
Definition fuelFor (adj : Adjacency) (roots : list string) : nat :=
  S (size (adjIds adj ∪ list_to_set roots)).

End Decompose.

(** ** Component spread ([componentSpread.js]) *)

Module ComponentSpread.

(** [adj]: built from every edge of the graph. *)
Definition buildAdj (edges : list Edge) : Adjacency :=
  foldl (λ adj e, addEdge adj (e_source e) (e_target e)) ∅ edges.

(** [Array.from(neighbors).sort((a, b) => a.localeCompare(b))], empty when
    the node has no adjacency entry. *)
Definition sortedNeighbors (adj : Adjacency) (cur : string) : list string :=
  match adj !! cur with
  | None => []
  | Some neighbors => JS.sortBy JS.localeLeb neighbors
  end.

(** [sortedNodes]: the nodes in the order of their ids. *)
Definition sortedNodes (nodes : list Node) : list Node :=
  JS.sortBy (λ a b, JS.localeLeb (n_id a) (n_id b)) nodes.

(** The ids of the components, in the order in which they are found. *)
Definition componentIds (g : Graph) : option (list (list string)) :=
  let adj := buildAdj (getEdges g) in
  let roots := n_id <$> sortedNodes (getNodes g) in
  Decompose.components (Decompose.fuelFor adj roots) (sortedNeighbors adj) roots ∅.

(** [components]: each id is resolved with [graph.findById]; a component
    is kept when it has at least one node. *)
Definition components (g : Graph) : list (list Node) :=
  match componentIds g with
  | None => []
  | Some comps =>
      filter (λ comp : list Node, length comp ≠ 0)
             ((λ ids : list string, omap (findById g) ids) <$> comps)
  end.

Record Meta := mkMeta { m_comp : list Node; m_radius : R; m_center : Pos }.

Definition compMeta (comp : list Node) : Meta :=
  let boxes := n_bbox <$> comp in
  let minX := JS.minOf 0 (minX <$> boxes) in
  let maxX := JS.maxOf 0 (maxX <$> boxes) in
  let minY := JS.minOf 0 (minY <$> boxes) in
  let maxY := JS.maxOf 0 (maxY <$> boxes) in
  let cx := JS.sum (centerX <$> boxes) in
  let cy := JS.sum (centerY <$> boxes) in
  let width := Rmax 40 (maxX - minX) in
  let height := Rmax 40 (maxY - minY) in
  let radius := (sqrt (width * width + height * height) / 2 + 40)%R in
  mkMeta comp radius
    (mkPos (cx / INR (length comp)) (cy / INR (length comp))).

Definition gap : R := 50.

Definition totalSpan (metas : list Meta) : R :=
  foldl (λ sum c, sum + m_radius c * 2 + gap)%R 0%R metas.

Definition orbitRadius (metas : list Meta) : R :=
  Rmin
    (Rmax
       (Rmax (totalSpan metas / (2 * PI))
             (JS.maxOf 0 (m_radius <$> metas) + gap + 40))
       240)
    520.

(** The body of [meta.comp.forEach(node => ...)]: the offset of the node
    from the old centre, rotated and moved to the new centre. *)
Definition placeNode (center targetCenter : Pos) (cosA sinA : R)
    (node : Node) : Pos :=
  let relX := (n_x node - px center)%R in
  let relY := (n_y node - py center)%R in
  let rx := (relX * cosA - relY * sinA)%R in
  let ry := (relX * sinA + relY * cosA)%R in
  mkPos (px targetCenter + rx) (py targetCenter + ry).

(** The body of [compMeta.forEach(meta => ...)], on the pair of the
    target map and [angleCursor]. *)
Definition placeComponent (diagramCenter : Pos) (orbit span : R)
    (st : Targets * R) (meta : Meta) : Targets * R :=
  let '(targets, angleCursor) := st in
  let angleSpan := ((m_radius meta * 2 + gap) / span * PI * 2)%R in
  let midAngle := (angleCursor + angleSpan / 2)%R in
  let targetCenter :=
    mkPos (px diagramCenter + orbit * cos midAngle)
          (py diagramCenter + orbit * sin midAngle) in
  let rotateAngle := (midAngle + PI / 2)%R in
  let cosA := cos rotateAngle in
  let sinA := sin rotateAngle in
  (foldl (λ t node,
            <[n_id node := placeNode (m_center meta) targetCenter cosA sinA node]> t)
         targets (m_comp meta),
   (angleCursor + angleSpan)%R).

(** [spreadDisconnectedComponents(graph, onFinish)]: the target map handed to
    the animation, or [None] when the function returns without moving
    anything. *)
Definition spreadDisconnectedComponents (g : Graph) : option Targets :=
  if decide (length (getNodes g) < 2) then None
  else
    let comps := components g in
    if decide (length comps < 2) then None
    else
      let diagramCenter := mkPos (g_width g / 2) (g_height g / 2) in
      let metas := compMeta <$> comps in
      Some (fst (foldl (placeComponent diagramCenter (orbitRadius metas) (totalSpan metas))
                       (∅, (- PI / 2)%R) metas)).

End ComponentSpread.

(** ** Initial component placement ([initialLayout.js]) *)

Module InitialLayout.

(** A node of the raw data handed to the first render: no position yet. *)
Record NodeData := mkNodeData { d_id : string; d_type : NodeType }.

(** [sizeMap[node.nodeType] || 90] *)
Definition sizeMap (t : NodeType) : R :=
  match t with
  | entity => 140
  | relationship => 90
  | attribute => 90
  end.

Definition approxRadius (node : NodeData) : R :=
  let size := sizeMap (d_type node) in
  (sqrt (size * size * 2) / 2 + 20)%R.

Definition buildAdj (edges : list Edge) : Adjacency :=
  foldl (λ adj e, addEdge adj (e_source e) (e_target e)) ∅ edges.

Definition sortedNeighbors (adj : Adjacency) (cur : string) : list string :=
  match adj !! cur with
  | None => []
  | Some neighbors => JS.sortBy JS.localeLeb neighbors
  end.

Definition sortedNodes (nodes : list NodeData) : list NodeData :=
  JS.sortBy (λ a b, JS.localeLeb (d_id a) (d_id b)) nodes.

(** [nodes.find(nn => nn.id === cur)] *)
Definition findNode (nodes : list NodeData) (cur : string) : option NodeData :=
  List.find (λ nn, bool_decide (d_id nn = cur)) nodes.

Definition componentIds (nodes : list NodeData) (edges : list Edge)
    : option (list (list string)) :=
  let adj := buildAdj edges in
  let roots := d_id <$> sortedNodes nodes in
  Decompose.components (Decompose.fuelFor adj roots) (sortedNeighbors adj) roots ∅.

Definition components (nodes : list NodeData) (edges : list Edge)
    : list (list NodeData) :=
  match componentIds nodes edges with
  | None => []
  | Some comps =>
      filter (λ comp : list NodeData, length comp ≠ 0)
             ((λ ids : list string, omap (findNode nodes) ids) <$> comps)
  end.

Record Meta := mkMeta { m_nodes : list NodeData; m_radius : R }.

Definition compMeta (list : list NodeData) : Meta :=
  let r := foldl (λ max n, Rmax max (approxRadius n)) 30%R list in
  let extra := (Rmax 0 (INR (length list) - 6) * 6)%R in
  mkMeta list (r + extra).

Definition gap : R := 100.

Definition orbit (metas : list Meta) : R :=
  let perim := foldl (λ sum c, sum + m_radius c * 2)%R 0%R metas in
  Rmin (Rmax 240 ((perim + gap * INR (length metas)) / (2 * PI))) 520.

(** The position written into one node: the centre of its component plus
    a jitter drawn from the hash of the node id and the seed. *)
Definition jitteredPos (cx cy : R) (radius : R) (seed : Z) (n : NodeData) : Pos :=
  let hash := Utils.deterministicHash (d_id n) seed in
  let offsetX :=
    (Utils.deterministicRandom (IZR hash) (IZR seed) * Rmax 40 (radius * 0.4))%R in
  let offsetY :=
    (Utils.deterministicRandom (IZR hash + 1000) (IZR seed) * Rmax 40 (radius * 0.4))%R in
  mkPos (cx + offsetX) (cy + offsetY).

(** The body of [compMeta.forEach(meta => ...)], on the pair of the
    positions written so far and [angle]. *)
Definition placeComponent (center : Pos) (orbitR angleStep : R) (seed : Z)
    (st : Targets * R) (meta : Meta) : Targets * R :=
  let '(written, angle) := st in
  let cx := (px center + orbitR * cos angle)%R in
  let cy := (py center + orbitR * sin angle)%R in
  (foldl (λ t n, <[d_id n := jitteredPos cx cy (m_radius meta) seed n]> t)
         written (m_nodes meta),
   (angle + angleStep)%R).


End InitialLayout.


(** ** Shared pieces of the two relaxation-based layouts *)

(** The outcome of a layout call: the target map handed to the animation,
    or nothing when the call returns early.  The embedding checks every
    division by a distance, and [DivisionByZero] is the outcome of a call
    in which such a divisor is zero; [OutOfFuel] is the outcome of a call
    in which a [while] loop does not finish within its fuel. *)
Inductive Outcome (A : Type) :=
  | Computed (a : A)
  | NoOp
  | DivisionByZero
  | OutOfFuel.
Arguments Computed {A} a.
Arguments NoOp {A}.
Arguments DivisionByZero {A}.
Arguments OutOfFuel {A}.

Global Instance Outcome_ret : MRet Outcome := λ A a, Computed a.
Global Instance Outcome_bind : MBind Outcome := λ A B f m,
  match m with
  | Computed a => f a
  | NoOp => NoOp
  | DivisionByZero => DivisionByZero
  | OutOfFuel => OutOfFuel
  end.

(** The result of a fuelled loop, inside a layout call. *)
Definition fuelled {A} (r : option A) : Outcome A :=
  match r with
  | Some a => Computed a
  | None => OutOfFuel
  end.

Module Force.

(** The unit vector [(dx / dist, dy / dist)]. *)
Definition unitVector (dx dy dist : R) : Outcome (R * R) :=
  if decide (dist = 0%R) then DivisionByZero
  else Computed ((dx / dist)%R, (dy / dist)%R).

(** [pos.x += ax; pos.y += ay] *)
Definition shift (ax ay : R) (p : Pos) : Pos :=
  mkPos (px p + ax) (py p + ay).

(** [pos.x -= ax; pos.y -= ay] *)
Definition unshift (ax ay : R) (p : Pos) : Pos :=
  mkPos (px p - ax) (py p - ay).

(** [for (i...) for (j = i + 1...) body(l[i], l[j])], threading a state. *)
Fixpoint forPairs {A S : Type} (body : A → A → S → Outcome S)
    (l : list A) (s : S) : Outcome S :=
  match l with
  | [] => Computed s
  | a :: l' =>
      s' ← foldl (λ acc b, s0 ← acc; body a b s0) (Computed s) l';
      forPairs body l' s'
  end.

(** [for (iter = 0; iter < cap; iter++) { maxMove = 0; ...;
    if (maxMove < threshold) break; }] *)
Fixpoint iterateUntilStill {S : Type} (cap : nat) (threshold : R)
    (pass : S → Outcome (S * R)) (s : S) : Outcome S :=
  match cap with
  | O => Computed s
  | S cap' =>
      '(s', maxMove) ← pass s;
      if decide (maxMove < threshold)%R then Computed s'
      else iterateUntilStill cap' threshold pass s'
  end.

(** [list.forEach(x => body(x))], threading a state through checked steps. *)
Definition forEachM {A S : Type} (body : A → S → Outcome S)
    (l : list A) (s : S) : Outcome S :=
  foldl (λ acc a, s0 ← acc; body a s0) (Computed s) l.

End Force.

(** ** Arrange layout ([arrangeLayout.js]) *)

Module ArrangeLayout.

Inductive SatKind := attr | rel.

(** [{ node, type, otherEntity }] *)
Record Satellite := mkSat {
  sat_node : Node;
  sat_type : SatKind;
  sat_other : option Node
}.

(** [{ node, attrs, rels, satellites }] *)
Record EntityInfo := mkInfo {
  i_node : Node;
  i_attrs : list Node;
  i_rels : list (Node * option Node);
  i_satellites : list Satellite
}.

(** A [Map] whose iteration order matters: keys in insertion order. *)
Abbreviation OrderedMap A := (list (string * A)).

Definition omGet {A} (k : string) (m : OrderedMap A) : option A :=
  snd <$> List.find (λ kv, bool_decide (kv.1 = k)) m.

Fixpoint omSet {A} (k : string) (v : A) (m : OrderedMap A) : OrderedMap A :=
  match m with
  | [] => [(k, v)]
  | (k', v') :: m' =>
      if decide (k' = k) then (k, v) :: m' else (k', v') :: omSet k v m'
  end.

Definition omAlter {A} (f : A → A) (k : string) (m : OrderedMap A) : OrderedMap A :=
  (λ kv : string * A, if decide (kv.1 = k) then (kv.1, f kv.2) else kv) <$> m.

Definition nodeMap (nodes : list Node) : gmap string Node :=
  foldl (λ m n, <[n_id n := n]> m) ∅ nodes.

Definition ofType (t : NodeType) (nodes : list Node) : list Node :=
  filter (λ n, n_type n = t) nodes.

Definition getRadius (n : Node) : R := Utils.getRadius (n_bbox n).

(** [set.add(node)] on a [Set] of node objects taken from [nodeMap]. *)
Definition addNode (n : Node) (s : list Node) : list Node :=
  if decide (n_id n ∈ (n_id <$> s)) then s else s ++ [n].

(** [relationshipConnections] *)
Definition relationshipConnections (nm : gmap string Node) (edges : list Edge)
    : gmap string (list Node) :=
  foldl (λ conn e,
           match nm !! e_source e, nm !! e_target e with
           | Some sourceNode, Some targetNode =>
               match n_type sourceNode, n_type targetNode with
               | relationship, entity =>
                   <[e_source e :=
                       addNode targetNode (default [] (conn !! e_source e))]> conn
               | entity, relationship =>
                   <[e_target e :=
                       addNode sourceNode (default [] (conn !! e_target e))]> conn
               | _, _ => conn
               end
           | _, _ => conn
           end)
        ∅ edges.

(** [entityInfo], after the attributes and the relationships are filed. *)
Definition addAttribute (info : OrderedMap EntityInfo) (a : Node)
    : OrderedMap EntityInfo :=
  match n_parentEntity a with
  | None => info
  | Some pid =>
      omAlter (λ i, mkInfo (i_node i) (i_attrs i ++ [a]) (i_rels i)
                           (i_satellites i ++ [mkSat a attr None]))
              pid info
  end.

Definition addRelationship (conn : gmap string (list Node))
    (info : OrderedMap EntityInfo) (r : Node) : OrderedMap EntityInfo :=
  match conn !! n_id r with
  | None => info
  | Some connected =>
      foldl (λ info entityNode,
               let other :=
                 List.find (λ n, bool_decide (n_id n ≠ n_id entityNode)) connected in
               omAlter (λ i, mkInfo (i_node i) (i_attrs i)
                                    (i_rels i ++ [(r, other)])
                                    (i_satellites i ++ [mkSat r rel other]))
                       (n_id entityNode) info)
            info connected
  end.

Definition entityInfo (nodes : list Node) (conn : gmap string (list Node))
    : OrderedMap EntityInfo :=
  let empty :=
    foldl (λ info e, omSet (n_id e) (mkInfo e [] [] []) info) []
          (ofType entity nodes) in
  let withAttrs := foldl addAttribute empty (ofType attribute nodes) in
  foldl (addRelationship conn) withAttrs (ofType relationship nodes).

(** [entityPositions]: current coordinates of the entities. *)
Definition entityPositions (nodes : list Node) : Targets :=
  foldl (λ m n, <[n_id n := mkPos (n_x n) (n_y n)]> m) ∅ (ofType entity nodes).

(** [Array.from(entityPositions.keys())]: first occurrences, in order. *)
Definition entityIds (nodes : list Node) : list string :=
  foldl (λ keys n, JS.setAdd (n_id n) keys) [] (ofType entity nodes).

Definition maxSatelliteRadius (info : EntityInfo) : R :=
  match i_satellites info with
  | [] => 30
  | sats => JS.maxOf 0 ((λ s, getRadius (sat_node s)) <$> sats)
  end.

(** Ring radius of one entity. *)
Definition ringRadius (info : EntityInfo) : R :=
  let entityRadius := getRadius (i_node info) in
  let maxSat := maxSatelliteRadius info in
  let ringR := (entityRadius + maxSat + 25)%R in
  if decide (1 < length (i_satellites info)) then
    let count := INR (length (i_satellites info)) in
    let requiredArcLength := (maxSat * 2 + 18)%R in
    let totalCircumference := (count * requiredArcLength)%R in
    let requiredRingR := (totalCircumference / (2 * PI))%R in
    Rmax ringR requiredRingR
  else ringR.

Definition baseRing (info : OrderedMap EntityInfo) : gmap string R :=
  foldl (λ m kv, <[n_id (i_node kv.2) := ringRadius kv.2]> m) ∅ info.

Definition systemRadius (info : OrderedMap EntityInfo) : gmap string R :=
  foldl (λ m kv,
           <[n_id (i_node kv.2) := (ringRadius kv.2 + maxSatelliteRadius kv.2)%R]> m)
        ∅ info.

Definition safeGap : R := 50.

(** What the passes over two-entity relationships need: the ids of the
    two connected entities, when there are exactly two. *)
Definition endpoints (conn : gmap string (list Node)) (relId : string)
    : option (string * string) :=
  match conn !! relId with
  | Some [entityA; entityB] => Some (n_id entityA, n_id entityB)
  | _ => None
  end.

(** Spring attraction along one two-entity relationship. *)
Definition attract (conn : gmap string (list Node)) (sysR : gmap string R)
    (relNode : Node) (st : Targets * R) : Outcome (Targets * R) :=
  let '(pos, maxMove) := st in
  match endpoints conn (n_id relNode) with
  | None => Computed st
  | Some (idA, idB) =>
      match pos !! idA, pos !! idB with
      | Some posA, Some posB =>
          let dx := (px posB - px posA)%R in
          let dy := (py posB - py posA)%R in
          let dist := JS.orElse (JS.hypot dx dy) 1 in
          let rA := default 0%R (sysR !! idA) in
          let rB := default 0%R (sysR !! idB) in
          let desired := (rA + rB + safeGap)%R in
          let diff := (desired - dist)%R in
          if decide (Rabs diff < 1)%R then Computed st
          else
            '(nx, ny) ← Force.unitVector dx dy dist;
            let move := (diff * 0.2 / 2)%R in
            Computed (alter (Force.shift (nx * move) (ny * move)) idB
                    (alter (Force.unshift (nx * move) (ny * move)) idA pos),
                  Rmax maxMove (Rabs move))
      | _, _ => Computed st
      end
  end.

(** Repulsion between two entities whose systems overlap. *)
Definition repel (sysR : gmap string R) (idA idB : string)
    (st : Targets * R) : Outcome (Targets * R) :=
  let '(pos, maxMove) := st in
  match pos !! idA, pos !! idB with
  | Some posA, Some posB =>
      let dx := (px posB - px posA)%R in
      let dy := (py posB - py posA)%R in
      let dist := JS.orElse (JS.hypot dx dy) 1 in
      let rA := default 0%R (sysR !! idA) in
      let rB := default 0%R (sysR !! idB) in
      let minDesc := (rA + rB + safeGap)%R in
      if decide (dist < minDesc)%R then
        let overlap := (minDesc - dist)%R in
        '(nx, ny) ← Force.unitVector dx dy dist;
        let move := (overlap * 0.5 * 0.5)%R in
        Computed (alter (Force.shift (nx * move) (ny * move)) idB
                (alter (Force.unshift (nx * move) (ny * move)) idA pos),
              Rmax maxMove move)
      else Computed st
  | _, _ => Computed st
  end.

(** One iteration of the relaxation of the entity centres. *)
Definition relaxPass (conn : gmap string (list Node)) (sysR : gmap string R)
    (relationshipNodes : list Node) (ids : list string)
    (pos : Targets) : Outcome (Targets * R) :=
  st ← Force.forEachM (attract conn sysR) relationshipNodes (pos, 0%R);
  Force.forPairs (repel sysR) ids st.

Definition clearanceGap : R := 12.

(** [ensureRelationshipClearance], for one relationship. *)
Definition clear (conn : gmap string (list Node)) (ring : gmap string R)
    (relNode : Node) (pos : Targets) : Outcome Targets :=
  match endpoints conn (n_id relNode) with
  | None => Computed pos
  | Some (idA, idB) =>
      match pos !! idA, pos !! idB with
      | Some posA, Some posB =>
          let dx := (px posB - px posA)%R in
          let dy := (py posB - py posA)%R in
          let dist := JS.orElse (JS.hypot dx dy) 1 in
          let relRadius := getRadius relNode in
          let minHalf :=
            Rmax (JS.orElse (default 0%R (ring !! idA)) 40 + relRadius + clearanceGap)
                 (JS.orElse (default 0%R (ring !! idB)) 40 + relRadius + clearanceGap) in
          let requiredDist := (minHalf * 2)%R in
          if decide (requiredDist <= dist)%R then Computed pos
          else
            let missing := (requiredDist - dist)%R in
            '(nx, ny) ← Force.unitVector dx dy dist;
            Computed (alter (Force.shift (nx * missing / 2) (ny * missing / 2)) idB
                    (alter (Force.unshift (nx * missing / 2) (ny * missing / 2)) idA pos))
      | _, _ => Computed pos
      end
  end.

Definition ensureRelationshipClearance (conn : gmap string (list Node))
    (ring : gmap string R) (relationshipNodes : list Node) (pos : Targets)
    : Outcome Targets :=
  Force.forEachM (clear conn ring) relationshipNodes pos.

(** *** Step 5: satellites on the free segments of the ring *)

Record Segment := mkSegment { s_start : R; s_end : R }.

Definition s_len (s : Segment) : R := (s_end s - s_start s)%R.

Definition gapAngle : R := 0.35.
Definition halfGap : R := (gapAngle / 2)%R.
Definition fullCircle : Segment := mkSegment 0 (PI * 2).

(** Angle of [p] seen from [center], in [0, 2π). *)
Definition angleFrom (center : Pos) (x y : R) : R :=
  Utils.normalizeAngle (JS.atan2 (y - py center) (x - px center)).

(** Angles towards the other entity of each two-entity relationship. *)
Definition avoidAngles (pos : Targets) (center : Pos)
    (satellites : list Satellite) : list R :=
  omap (λ s,
          match sat_type s, sat_other s with
          | rel, Some other =>
              (λ otherPos, angleFrom center (px otherPos) (py otherPos))
                <$> pos !! n_id other
          | _, _ => None
          end)
       satellites.

(** The gaps between consecutive avoided angles, shortened by [halfGap]
    at both ends; empty gaps are dropped. *)
Definition gapsBetween (sortedAngles : list R) : list Segment :=
  let n := length sortedAngles in
  let total := (PI * 2)%R in
  omap (λ i,
          let curr := default 0%R (sortedAngles !! i) in
          let next :=
            (default 0%R (sortedAngles !! ((i + 1) mod n)%nat)
             + (if decide (i = n - 1)%nat then total else 0))%R in
          let start := (curr + halfGap)%R in
          let end_ := (next - halfGap)%R in
          if decide (start < end_)%R then Some (mkSegment start end_) else None)
       (seq 0 n).

Definition freeSegments (avoid : list R) : list Segment :=
  let segments :=
    match avoid with
    | [] => [fullCircle]
    | _ => gapsBetween (JS.sortBy JS.numLeb avoid)
    end in
  let totalFree := JS.sum (s_len <$> segments) in
  if decide (totalFree <= 0)%R then [fullCircle] else segments.

(** [Math.max(0, Math.round(totalCount * (s.end - s.start) / totalAngle))] *)
Definition roundedShares (segments : list Segment) (totalCount : nat) : list Z :=
  let totalAngle := JS.sum (s_len <$> segments) in
  (λ s, Z.max 0 (JS.round (INR totalCount * s_len s / totalAngle))) <$> segments.

(** The index that the scan for the longest segment ends with: the first
    segment of greatest length. *)
Definition longestIndex (segments : list Segment) : nat :=
  (foldl (λ '(maxIdx, maxLen, idx) s,
            match maxLen with
            | Some len =>
                if decide (len < s_len s)%R then (idx, Some (s_len s), S idx)
                else (maxIdx, maxLen, S idx)
            | None => (idx, Some (s_len s), S idx)
            end)
         (0, None, 0) segments).1.1.

(** [while (allocated < totalCount) { ...; segCounts[maxIdx]++; allocated++; }] *)
Fixpoint raise (fuel : nat) (segments : list Segment) (segCounts : list Z)
    (allocated totalCount : Z) : option (list Z * Z) :=
  if decide (allocated < totalCount)%Z then
    match fuel with
    | O => None
    | S fuel' =>
        raise fuel' segments (alter Z.succ (longestIndex segments) segCounts)
              (allocated + 1)%Z totalCount
    end
  else Some (segCounts, allocated).

(** [for (i = segCounts.length - 1; i >= 0; i--) if (segCounts[i] > 0) {
    segCounts[i]--; break; }]: the changed list, when some count is
    positive. *)
Fixpoint decrementLast (segCounts : list Z) : option (list Z) :=
  match segCounts with
  | [] => None
  | c :: rest =>
      match decrementLast rest with
      | Some rest' => Some (c :: rest')
      | None => if decide (0 < c)%Z then Some ((c - 1)%Z :: rest) else None
      end
  end.

(** [while (allocated > totalCount) { ... }] *)
Fixpoint lower (fuel : nat) (segCounts : list Z) (allocated totalCount : Z)
    : option (list Z) :=
  if decide (totalCount < allocated)%Z then
    match fuel with
    | O => None
    | S fuel' =>
        match decrementLast segCounts with
        | Some segCounts' => lower fuel' segCounts' (allocated - 1)%Z totalCount
        | None => lower fuel' segCounts allocated totalCount
        end
    end
  else Some segCounts.

(** The number of satellites given to each segment. *)
Definition segCounts (segments : list Segment) (totalCount : nat)
    : option (list Z) :=
  let shares := roundedShares segments totalCount in
  let allocated := foldl Z.add 0%Z shares in
  let fuel := Z.to_nat (Z.abs (Z.of_nat totalCount - allocated)) in
  '(raised, allocated') ← raise fuel segments shares allocated (Z.of_nat totalCount);
  lower fuel raised allocated' (Z.of_nat totalCount).

(** The angles of one segment: the middles of [count] equal parts. *)
Definition segmentAngles (s : Segment) (count : Z) : list R :=
  let step := (s_len s / IZR count)%R in
  (λ i, Utils.normalizeAngle (s_start s + step * (INR i + 0.5))%R)
    <$> seq 0 (Z.to_nat count).

Definition orbital (s : Satellite) : bool :=
  match sat_type s, sat_other s with
  | attr, _ => true
  | rel, None => true
  | rel, Some _ => false
  end.

(** The body of the second [entityInfo.forEach]: the targets of the
    orbital satellites of one entity. *)
Definition layoutSatellites (pos : Targets) (ring : gmap string R)
    (targets : Targets) (info : EntityInfo) : Outcome Targets :=
  let model := i_node info in
  let center := default (mkPos (n_x model) (n_y model)) (pos !! n_id model) in
  let ringRadius := default 0%R (ring !! n_id model) in
  let segments := freeSegments (avoidAngles pos center (i_satellites info)) in
  let orbitalSatellites := filter (λ s, orbital s = true) (i_satellites info) in
  match orbitalSatellites with
  | [] => Computed targets
  | _ =>
      let sortedSatellites :=
        JS.sortBy (λ a b,
                     JS.numLeb (angleFrom center (n_x (sat_node a)) (n_y (sat_node a)))
                               (angleFrom center (n_x (sat_node b)) (n_y (sat_node b))))
                  orbitalSatellites in
      counts ← fuelled (segCounts segments (length sortedSatellites));
      let angles := concat (zip_with segmentAngles segments counts) in
      Computed
        (foldl (λ t '(satellite, useAngle),
                  <[n_id (sat_node satellite) :=
                      mkPos (px center + ringRadius * cos useAngle)
                            (py center + ringRadius * sin useAngle)]> t)
               targets (zip sortedSatellites angles))
  end.

(** *** Step 6: two-entity relationships *)

(** The maps written for the relationships: [targets], [relAnchors] and
    [relRadii]. *)
Record RelState := mkRelState {
  rs_targets : Targets;
  rs_anchors : OrderedMap Pos;
  rs_radii : gmap string R
}.

Definition placeAtMidpoint (conn : gmap string (list Node)) (pos : Targets)
    (st : RelState) (relNode : Node) : RelState :=
  match endpoints conn (n_id relNode) with
  | None => st
  | Some (idA, idB) =>
      match pos !! idA, pos !! idB with
      | Some posA, Some posB =>
          let anchorPos :=
            mkPos ((px posA + px posB) / 2) ((py posA + py posB) / 2) in
          mkRelState (<[n_id relNode := anchorPos]> (rs_targets st))
                     (omSet (n_id relNode) anchorPos (rs_anchors st))
                     (<[n_id relNode := getRadius relNode]> (rs_radii st))
      | _, _ => st
      end
  end.

(** [{ relNode, relRadius, entities }] *)
Record Grouped := mkGrouped {
  gr_rel : Node;
  gr_radius : R;
  gr_entities : string * string
}.

Definition pairKey (idA idB : string) : string :=
  if String.ltb idA idB then idA +:+ "__" +:+ idB else idB +:+ "__" +:+ idA.

Definition groupedRelations (conn : gmap string (list Node))
    (relationshipNodes : list Node) : OrderedMap (list Grouped) :=
  foldl (λ groups relNode,
           match endpoints conn (n_id relNode) with
           | None => groups
           | Some (idA, idB) =>
               let key := pairKey idA idB in
               omSet key
                 (default [] (omGet key groups)
                  ++ [mkGrouped relNode (getRadius relNode) (idA, idB)])
                 groups
           end)
        [] relationshipNodes.

(** Several relationships between the same two entities: spread across
    the axis of the pair. *)
Definition spreadGroup (pos : Targets) (st : RelState) (list : list Grouped)
    : Outcome RelState :=
  match list with
  | sample :: _ :: _ =>
      let '(idA, idB) := gr_entities sample in
      match pos !! idA, pos !! idB with
      | Some posA, Some posB =>
          let dx := (px posB - px posA)%R in
          let dy := (py posB - py posA)%R in
          let dist := JS.orElse (JS.hypot dx dy) 1 in
          '(nx, ny) ← Force.unitVector dx dy dist;
          let px_ := (- ny)%R in
          let py_ := nx in
          let sampleTarget := rs_targets st !! n_id (gr_rel sample) in
          let baseX :=
            JS.orElse (default 0%R (px <$> sampleTarget)) ((px posA + px posB) / 2) in
          let baseY :=
            JS.orElse (default 0%R (py <$> sampleTarget)) ((py posA + py posB) / 2) in
          let maxRadius := JS.maxOf 0 (gr_radius <$> list) in
          let offsetStep := (maxRadius * 2 + 16)%R in
          let sorted :=
            JS.sortBy (λ a b, JS.localeLeb (n_id (gr_rel a)) (n_id (gr_rel b))) list in
          let mid := ((INR (length sorted) - 1) / 2)%R in
          Computed
            (foldl (λ st '(idx, item),
                      let offsetIndex := (INR idx - mid)%R in
                      let newPos :=
                        mkPos (baseX + px_ * offsetIndex * offsetStep)
                              (baseY + py_ * offsetIndex * offsetStep) in
                      let rid := n_id (gr_rel item) in
                      mkRelState (<[rid := newPos]> (rs_targets st))
                                 (omSet rid newPos (rs_anchors st))
                                 (rs_radii st))
                   st (imap (λ idx item, (idx, item)) sorted))
      | _, _ => Computed st
      end
  | _ => Computed st
  end.

(** *** Step 7: relaxation of the relationship diamonds *)

(** Repulsion between two diamonds. *)
Definition repelDiamonds (radii : gmap string R) (relA relB : Node)
    (relPositions : OrderedMap Pos) : Outcome (OrderedMap Pos) :=
  match omGet (n_id relA) relPositions, omGet (n_id relB) relPositions with
  | Some posA, Some posB =>
      let rA := JS.orElse (default 0%R (radii !! n_id relA)) 30 in
      let rB := JS.orElse (default 0%R (radii !! n_id relB)) 30 in
      let dx := (px posB - px posA)%R in
      let dy := (py posB - py posA)%R in
      let dist0 := JS.hypot dx dy in
      let dist := if decide (dist0 = 0%R) then 0.01%R else dist0 in
      let minDist := (rA + rB + 14)%R in
      if decide (dist < minDist)%R then
        let push := ((minDist - dist) / 2)%R in
        '(nx, ny) ← Force.unitVector dx dy dist;
        Computed (omAlter (Force.shift (nx * push) (ny * push)) (n_id relB)
                    (omAlter (Force.unshift (nx * push) (ny * push)) (n_id relA)
                       relPositions))
      else Computed relPositions
  | _, _ => Computed relPositions
  end.

(** One diamond pushed out of the ring of one of its entities. *)
Definition pushOffEntity (pos : Targets) (collision : gmap string R)
    (p : Pos) (entNode : Node) : Outcome Pos :=
  let center := default (mkPos (n_x entNode) (n_y entNode)) (pos !! n_id entNode) in
  let limit := JS.orElse (default 0%R (collision !! n_id entNode)) 80 in
  let dx := (px p - px center)%R in
  let dy := (py p - py center)%R in
  let dist0 := JS.hypot dx dy in
  let dist := if decide (dist0 = 0%R) then 0.01%R else dist0 in
  if decide (dist < limit)%R then
    let push := (limit - dist)%R in
    '(nx, ny) ← Force.unitVector dx dy dist;
    Computed (Force.shift (nx * push) (ny * push) p)
  else Computed p.

Definition pushOffEntities (g : Graph) (conn : gmap string (list Node))
    (pos : Targets) (collision : gmap string R)
    (relPositions : OrderedMap Pos) : Outcome (OrderedMap Pos) :=
  Force.forEachM
    (λ '(rid, p) acc,
       match findById g rid, conn !! rid with
       | Some _, Some connected =>
           p' ← Force.forEachM (λ entNode p0, pushOffEntity pos collision p0 entNode)
                               connected p;
           Computed (acc ++ [(rid, p')])
       | _, _ => Computed (acc ++ [(rid, p)])
       end)
    relPositions [].

(** [pos.x = pos.x * 0.85 + anchor.x * 0.15], likewise for [y]. *)
Definition pullToAnchor (anchors : OrderedMap Pos) (relPositions : OrderedMap Pos)
    : OrderedMap Pos :=
  (λ '(i, p),
     match omGet i anchors with
     | Some anchor =>
         (i, mkPos (px p * 0.85 + px anchor * 0.15) (py p * 0.85 + py anchor * 0.15))
     | None => (i, p)
     end) <$> relPositions.

Definition diamondPass (g : Graph) (conn : gmap string (list Node))
    (pos : Targets) (collision : gmap string R) (st : RelState)
    (relationshipNodes : list Node) (relPositions : OrderedMap Pos)
    : Outcome (OrderedMap Pos) :=
  apart ← Force.forPairs (repelDiamonds (rs_radii st)) relationshipNodes relPositions;
  off ← pushOffEntities g conn pos collision apart;
  Computed (pullToAnchor (rs_anchors st) off).

Fixpoint repeat (n : nat) {S : Type} (pass : S → Outcome S) (s : S) : Outcome S :=
  match n with
  | O => Computed s
  | S n' => s' ← pass s; repeat n' pass s'
  end.

Definition entityCollisionRadius (nodes : list Node) (ring : gmap string R)
    : gmap string R :=
  foldl (λ m en,
           let r := JS.orElse (JS.orElse (default 0%R (ring !! n_id en))
                                         (default 0%R (ring !! n_id en))) 60 in
           <[n_id en := (r + 20)%R]> m)
        ∅ (ofType entity nodes).

Definition relaxDiamonds (g : Graph) (conn : gmap string (list Node))
    (pos : Targets) (ring : gmap string R) (st : RelState) : Outcome Targets :=
  match rs_anchors st with
  | [] => Computed (rs_targets st)
  | anchors =>
      let relPositions :=
        (λ '(i, anchor), (i, default anchor (rs_targets st !! i))) <$> anchors in
      let collision := entityCollisionRadius (getNodes g) ring in
      final ← repeat 80 (diamondPass g conn pos collision st
                           (ofType relationship (getNodes g))) relPositions;
      Computed (foldl (λ t '(i, p), <[i := p]> t) (rs_targets st) final)
  end.

(** *** Step 8: global separation *)

(** [{ id, r }] *)
Definition meta (nodes : list Node) : list (string * R) :=
  (λ n, (n_id n, getRadius n)) <$> nodes.

(** Every node without a target gets its current position. *)
Definition fillMissing (g : Graph) (targets : Targets) : Targets :=
  foldl (λ t '(i, _),
           match t !! i with
           | Some _ => t
           | None =>
               let model := findById g i in
               <[i := mkPos (JS.orElse (default 0%R (n_x <$> model)) 0)
                            (JS.orElse (default 0%R (n_y <$> model)) 0)]> t
           end)
        targets (meta (getNodes g)).

Definition separate (a b : string * R) (st : Targets * R)
    : Outcome (Targets * R) :=
  let '(targets, maxMove) := st in
  match targets !! a.1, targets !! b.1 with
  | Some pa, Some pb =>
      let dx := (px pb - px pa)%R in
      let dy := (py pb - py pa)%R in
      let dist0 := JS.hypot dx dy in
      let dist := if decide (dist0 = 0%R) then 0.01%R else dist0 in
      let minDist := (a.2 + b.2 + 8)%R in
      if decide (dist < minDist)%R then
        let push := ((minDist - dist) / 2)%R in
        '(nx, ny) ← Force.unitVector dx dy dist;
        Computed (alter (Force.shift (nx * push) (ny * push)) b.1
                    (alter (Force.unshift (nx * push) (ny * push)) a.1 targets),
                  Rmax maxMove push)
      else Computed st
  | _, _ => Computed st
  end.

Definition applyGlobalSeparation (g : Graph) (targets : Targets) : Outcome Targets :=
  let m := meta (getNodes g) in
  Force.iterateUntilStill 400 0.3
    (λ t, Force.forPairs separate m (t, 0%R))
    (fillMissing g targets).

(** *** The whole layout *)

(** Everything before the global separation: the targets the layout
    computes for entities, satellites and relationships. *)
Definition placements (g : Graph) : Outcome Targets :=
  let nodes := getNodes g in
  let conn := relationshipConnections (nodeMap nodes) (getEdges g) in
  let info := entityInfo nodes conn in
  let relationshipNodes := ofType relationship nodes in
  let ring := baseRing info in
  let sysR := systemRadius info in
  relaxed ← Force.iterateUntilStill 300 0.5
              (relaxPass conn sysR relationshipNodes (entityIds nodes))
              (entityPositions nodes);
  c1 ← ensureRelationshipClearance conn ring relationshipNodes relaxed;
  c2 ← ensureRelationshipClearance conn ring relationshipNodes c1;
  pos ← ensureRelationshipClearance conn ring relationshipNodes c2;
  let targets0 : Targets := pos in
  targets1 ← Force.forEachM (λ kv t, layoutSatellites pos ring t kv.2) info targets0;
  let st1 :=
    foldl (placeAtMidpoint conn pos) (mkRelState targets1 [] ∅) relationshipNodes in
  st2 ← Force.forEachM (λ kv st, spreadGroup pos st kv.2)
                       (groupedRelations conn relationshipNodes) st1;
  relaxDiamonds g conn pos ring st2.

Definition arrangeLayout (g : Graph) : Outcome Targets :=
  match getNodes g with
  | [] => NoOp
  | _ =>
      targets ← placements g;
      applyGlobalSeparation g targets
  end.

End ArrangeLayout.

(** ** Force-align layout ([forceAlignLayout.js]): the core subgraph *)

Module ForceAlign.

Definition isCore (t : NodeType) : bool :=
  match t with
  | entity | relationship => true
  | attribute => false
  end.

(** [nodeMap]: a later node with the same id replaces an earlier one. *)
Definition nodeMap (allNodes : list Node) : gmap string Node :=
  foldl (λ m n, <[n_id n := n]> m) ∅ allNodes.

Definition coreNodes (allNodes : list Node) : list Node :=
  filter (λ n, isCore (n_type n) = true) allNodes.

Definition attributeNodes (allNodes : list Node) : list Node :=
  filter (λ n, n_type n = attribute) allNodes.

(** [nodeMap.get(id)?.getModel().nodeType === t] *)
Definition hasType (nm : gmap string Node) (t : NodeType) (i : string) : bool :=
  match nm !! i with
  | Some n => bool_decide (n_type n = t)
  | None => false
  end.

(** [coreAdj]: adjacency restricted to edges whose two ends are known
    entity or relationship nodes. *)
Definition coreAdj (nm : gmap string Node) (edges : list Edge) : Adjacency :=
  foldl (λ adj e,
           match nm !! e_source e, nm !! e_target e with
           | Some sNode, Some tNode =>
               if isCore (n_type sNode) && isCore (n_type tNode)
               then addEdge adj (e_source e) (e_target e)
               else adj
           | _, _ => adj
           end)
        ∅ edges.

(** [coreAdj.get(cur)], iterated in insertion order; nothing when absent. *)
Definition neighborsOf (adj : Adjacency) (cur : string) : list string :=
  default [] (adj !! cur).

(** [components]: roots are the core nodes in the order of [getNodes()]. *)
Definition components (allNodes : list Node) (edges : list Edge)
    : option (list (list string)) :=
  let adj := coreAdj (nodeMap allNodes) edges in
  let roots := n_id <$> coreNodes allNodes in
  Decompose.components (Decompose.fuelFor adj roots) (neighborsOf adj) roots ∅.

(** *** Main chain: double breadth-first search *)

(** The maps and the queue of [bfsFarthest]; [b_order] lists the keys of
    [dist] in insertion order, which is the order of [dist.forEach]. *)
Record Bfs := mkBfs {
  b_dist : gmap string nat;
  b_order : list string;
  b_prev : gmap string string;
  b_queue : list string
}.

(** The body of [neighbors.forEach(nb => ...)] inside the search. *)
Definition bfsVisit (allowed : gset string) (cur : string) (st : Bfs)
    (nb : string) : Bfs :=
  if decide (nb ∉ allowed ∨ is_Some (b_dist st !! nb)) then st
  else
    mkBfs (<[nb := default 0 (b_dist st !! cur) + 1]> (b_dist st))
          (b_order st ++ [nb])
          (<[nb := cur]> (b_prev st))
          (b_queue st ++ [nb]).

(** [while (queue.length) { const cur = queue.shift(); ... }] *)
Fixpoint bfsLoop (fuel : nat) (adj : Adjacency) (allowed : gset string)
    (st : Bfs) : option Bfs :=
  match b_queue st with
  | [] => Some st
  | cur :: rest =>
      match fuel with
      | O => None
      | S fuel' =>
          let st1 := mkBfs (b_dist st) (b_order st) (b_prev st) rest in
          match adj !! cur with
          | None => bfsLoop fuel' adj allowed st1
          | Some neighbors =>
              bfsLoop fuel' adj allowed (foldl (bfsVisit allowed cur) st1 neighbors)
          end
      end
  end.

(** [dist.forEach((d, id) => { if (d > dist.get(farthest)) farthest = id; })] *)
Definition farthestOf (start : string) (dist : gmap string nat)
    (order : list string) : string :=
  foldl (λ farthest i,
           if decide (default 0 (dist !! farthest) < default 0 (dist !! i))
           then i else farthest)
        start order.

(** [bfsFarthest(start, allowed)]: the farthest node with the final maps. *)
Definition bfsFarthest (fuel : nat) (adj : Adjacency) (start : string)
    (allowed : gset string) : option (string * Bfs) :=
  st ← bfsLoop fuel adj allowed (mkBfs {[start := 0]} [start] ∅ [start]);
  Some (farthestOf start (b_dist st) (b_order st), st).

(** [while (cur !== undefined) { path.unshift(cur); cur = prev.get(cur); }] *)
Fixpoint backtrack (fuel : nat) (prev : gmap string string)
    (cur : option string) (path : list string) : option (list string) :=
  match cur with
  | None => Some path
  | Some c =>
      match fuel with
      | O => None
      | S fuel' => backtrack fuel' prev (prev !! c) (c :: path)
      end
  end.

(** [findLongestPath(ids)].  The callers pass a component, which has at
    least one id; on the empty list there is no [first] to start from. *)
Definition findLongestPath (adj : Adjacency) (ids : list string)
    : option (list string) :=
  match ids with
  | [] => Some []
  | first :: _ =>
      let allowed : gset string := list_to_set ids in
      let fuel := S (length ids) in
      '(endA, _) ← bfsFarthest fuel adj first allowed;
      '(endB, st) ← bfsFarthest fuel adj endA allowed;
      path ← backtrack fuel (b_prev st) (Some endB) [];
      Some (if decide (path = []) then [first] else path)
  end.

(** *** Side hints *)

(** [sideHint]: a sign ([-1], [0] or [1]) per node id. *)
Abbreviation SideHint := (gmap string Z).

(** [sideHint.get(i)], with [undefined] read as the falsy [0]. *)
Definition hint (sideHint : SideHint) (i : string) : Z :=
  default 0%Z (sideHint !! i).

(** [a || b] on signs. *)
Definition orSign (a b : Z) : Z := if decide (a = 0%Z) then b else a.

(** The first truthy sign of a list, [0] when there is none
    ([some(...)] that records the sign it stops at). *)
Definition firstSign (signs : list Z) : Z :=
  default 0%Z (List.find (λ s, bool_decide (s ≠ 0%Z)) signs).

(** [Math.sign(Math.sin(angle))] *)
Definition signOfSin (angle : R) : Z :=
  if decide (0 < sin angle)%R then 1%Z
  else if decide (sin angle < 0)%R then (-1)%Z else 0%Z.

(** [if (!sideHint.has(i)) sideHint.set(i, sign)] *)
Definition hintIfAbsent (i : string) (sign : Z) (sideHint : SideHint) : SideHint :=
  match sideHint !! i with
  | Some _ => sideHint
  | None => <[i := sign]> sideHint
  end.

Definition getRadius (n : Node) : R := Utils.getRadius (n_bbox n).

(** [getRadius(nodeMap.get(i))] *)
Definition radiusOf (nm : gmap string Node) (i : string) : R :=
  default 0%R (getRadius <$> nm !! i).

(** *** Extra angles around an entity ([computeExtraAngles]) *)

(** [{ start, length, extras, fraction }] *)
Record Arc := mkArc {
  a_start : R;
  a_length : R;
  a_extras : Z;
  a_fraction : R
}.

(** The arcs between consecutive points. *)
Fixpoint arcsBetween (points : list R) : list Arc :=
  match points with
  | p :: (q :: _) as rest => mkArc p (q - p) 0 0 :: arcsBetween rest
  | _ => []
  end.

(** Floor of each proportional share, then one more for the arcs with the
    largest fractional parts; the arcs come back in the order of their
    starts. *)
Definition distributeExtras (arcs : list Arc) (totalLen : R) (extraCount : nat)
    : list Arc :=
  let floored :=
    (λ arc,
       let ideal := (a_length arc / totalLen * INR extraCount)%R in
       mkArc (a_start arc) (a_length arc) (JS.floor ideal)
             (ideal - IZR (JS.floor ideal)))
      <$> arcs in
  let remaining :=
    (Z.of_nat extraCount - foldl Z.add 0 (a_extras <$> floored))%Z in
  let byFraction :=
    JS.sortBy (λ a b, JS.numLeb (a_fraction b) (a_fraction a)) floored in
  let bumped :=
    foldl (λ arcs i,
             alter (λ arc, mkArc (a_start arc) (a_length arc)
                                 (a_extras arc + 1) (a_fraction arc))
                   (i mod length arcs) arcs)
          byFraction (seq 0 (Z.to_nat remaining)) in
  JS.sortBy (λ a b, JS.numLeb (a_start a) (a_start b)) bumped.

(** The [extras] angles inside one arc, evenly spaced. *)
Definition anglesInArc (arc : Arc) : list R :=
  (λ k, Utils.normalizeAngle
          (a_start arc + a_length arc * (INR k / (IZR (a_extras arc) + 1)))%R)
    <$> seq 1 (Z.to_nat (a_extras arc)).

Definition computeExtraAngles (anchors : list R) (extraCount : nat)
    (preferredSign : Z) : list R :=
  match extraCount with
  | O => []
  | _ =>
      if decide (preferredSign ≠ 0%Z) then
        let halfStart := if decide (0 < preferredSign)%Z then 0%R else PI in
        let halfEnd := (halfStart + PI)%R in
        let anchorInHalf :=
          JS.sortBy JS.numLeb
            (filter (λ a, halfStart <= a ∧ a < halfEnd)%R
                    (Utils.normalizeAngle <$> anchors)) in
        let points := halfStart :: anchorInHalf ++ [halfEnd] in
        let arcs := arcsBetween points in
        let totalLen := JS.orElse (JS.sum (a_length <$> arcs)) PI in
        let distributed := distributeExtras arcs totalLen extraCount in
        let result :=
          concat ((λ arc,
                     if decide (a_length arc <= 1e-6 ∨ (a_extras arc <= 0)%Z)%R
                     then [] else anglesInArc arc)
                    <$> distributed) in
        let result :=
          match result with
          | [] =>
              let step := (PI / (INR extraCount + 1))%R in
              (λ i, Utils.normalizeAngle (halfStart + step * (INR i + 1))%R)
                <$> seq 0 extraCount
          | _ => result
          end in
        JS.sortBy JS.numLeb result
      else
        match anchors with
        | [] =>
            let step := (PI * 2 / INR extraCount)%R in
            (λ i, Utils.normalizeAngle (step * INR i)%R) <$> seq 0 extraCount
        | _ =>
            let sortedAnchors := JS.sortBy JS.numLeb anchors in
            let extended :=
              sortedAnchors ++ [(default 0 (head sortedAnchors) + PI * 2)%R] in
            let arcs := arcsBetween extended in
            let totalLen := JS.sum (a_length <$> arcs) in
            let distributed := distributeExtras arcs totalLen extraCount in
            JS.sortBy JS.numLeb (concat (anglesInArc <$> distributed))
        end
  end.

(** *** Layout of one component ([layoutComponent]) *)

(** The relationship neighbours of an entity, and the other entities of a
    relationship. *)
Definition relNeighborsOf (nm : gmap string Node) (adj : Adjacency)
    (eid : string) : list string :=
  filter (λ i, hasType nm relationship i = true) (neighborsOf adj eid).

Definition otherEntities (nm : gmap string Node) (adj : Adjacency)
    (eid rid : string) : list string :=
  filter (λ i, hasType nm entity i = true ∧ i ≠ eid) (neighborsOf adj rid).

(** The main chain on the x axis. *)
Definition placeMainPath (nm : gmap string Node) (chainSpacing : R)
    (mainPath : list string) (sideHint : SideHint) : Targets * SideHint :=
  let startX := (- ((INR (length mainPath) - 1) * chainSpacing) / 2)%R in
  foldl (λ '(targets, sideHint) '(idx, i),
           (<[i := mkPos (startX + INR idx * chainSpacing) 0]> targets,
            if hasType nm entity i then <[i := 0%Z]> sideHint else sideHint))
        (∅, sideHint) (imap (λ idx i, (idx, i)) mainPath).

(** The side of each branch hanging off the main chain: the body of
    [nonMain.forEach(id => ...)], on the visited set, [altSide] and the
    hints. *)
Definition branchSide (adj : Adjacency) (mainPathSet : gset string)
    (fuel : nat) (st : Outcome (gset string * Z * SideHint)) (i : string)
    : Outcome (gset string * Z * SideHint) :=
  '(branchVisited, altSide, sideHint) ← st;
  if decide (i ∈ branchVisited) then Computed (branchVisited, altSide, sideHint)
  else
    '(visited', comp) ←
      fuelled (Decompose.dfs fuel
                 (λ cur, filter (λ nb, nb ∉ mainPathSet) (neighborsOf adj cur))
                 ({[i]} ∪ branchVisited) [i] []);
    let anchors :=
      foldl (λ anchors nid,
               foldl (λ anchors nb,
                        if decide (nb ∈ mainPathSet) then JS.setAdd nb anchors
                        else anchors)
                     anchors (neighborsOf adj nid))
            [] comp in
    let fromComp := firstSign (hint sideHint <$> comp) in
    let fromAnchors :=
      if decide (fromComp = 0%Z) then firstSign (hint sideHint <$> anchors)
      else fromComp in
    let '(compSign, altSide') :=
      if decide (fromAnchors = 0%Z) then (altSide, (- altSide)%Z)
      else (fromAnchors, altSide) in
    Computed (visited', altSide',
              foldl (λ sideHint nid, <[nid := compSign]> sideHint) sideHint comp).

(** [relAdj]: two unplaced relationships are linked when their other
    entities coincide or are adjacent. *)
Definition linked (adj : Adjacency) (othersA othersB : list string) : bool :=
  let shared := existsb (λ x, bool_decide (x ∈ othersB)) othersA in
  let cross :=
    if shared then true
    else existsb (λ x, existsb (λ y, bool_decide (y ∈ neighborsOf adj x)) othersB)
                 othersA in
  shared || cross.

Fixpoint foldPairs {A S : Type} (body : A → A → S → S) (l : list A) (s : S) : S :=
  match l with
  | [] => s
  | a :: l' => foldPairs body l' (foldl (λ s0 b, body a b s0) s l')
  end.

Definition relAdj (adj : Adjacency) (unplacedInfo : list (string * list string))
    : Adjacency :=
  let empty : Adjacency :=
    foldl (λ m info, <[info.1 := []]> m) ∅ unplacedInfo in
  foldPairs (λ a b m,
               if linked adj a.2 b.2
               then addNeighbor b.1 a.1 (addNeighbor a.1 b.1 m)
               else m)
            unplacedInfo empty.

(** The placement of one group of unplaced relationships around the
    entity: the body of [relComponents.forEach((comp, compIdx) => ...)], on
    the targets, the hints and [nextAltSign]. *)
Definition placeRelComponent (nm : gmap string Node) (eid : string)
    (entityPos : Pos) (entityRadius : R) (preferredSign : Z)
    (unplacedInfo : list (string * list string))
    (anchorAngles : list R) (anchorSigns : list (R * Z))
    (st : Targets * SideHint * Z) (comp : list string)
    : Targets * SideHint * Z :=
  let '(targets, sideHint, nextAltSign) := st in
  let signOf rid :=
    let relSign := hint sideHint rid in
    if decide (relSign ≠ 0%Z) then relSign
    else
      let others :=
        default [] (snd <$> List.find (λ info, bool_decide (info.1 = rid))
                                       unplacedInfo) in
      firstSign (hint sideHint <$> others) in
  let found := firstSign (signOf <$> comp) in
  let '(compSign, nextAltSign') :=
    if decide (found = 0%Z) then (nextAltSign, (- nextAltSign)%Z)
    else (found, nextAltSign) in
  let anchorsForSide :=
    fst <$> (if decide (0 < compSign)%Z
             then filter (λ a : R * Z, 0 <= a.2)%Z anchorSigns
             else filter (λ a : R * Z, a.2 <= 0)%Z anchorSigns) in
  let angles :=
    computeExtraAngles
      (match anchorsForSide with [] => anchorAngles | _ => anchorsForSide end)
      (length comp) compSign in
  let sortedComp := JS.sortBy JS.localeLeb comp in
  let '(targets', sideHint') :=
    foldl (λ '(targets, sideHint) '(idx, rid),
             let relRadius := radiusOf nm rid in
             let angle :=
               match angles with
               | [] =>
                   Utils.normalizeAngle
                     (PI * (if decide (0 < compSign)%Z then 0.5 else 1.5)
                      + INR idx * 0.2)%R
               | _ => default 0%R (angles !! (idx mod length angles))
               end in
             let dist := (entityRadius + relRadius + 40)%R in
             let sign :=
               orSign (signOfSin angle) (orSign compSign (orSign preferredSign 1)) in
             (<[rid := mkPos (px entityPos + cos angle * dist)
                             (py entityPos + sin angle * dist)]> targets,
              hintIfAbsent rid sign sideHint))
          (targets, sideHint) (imap (λ idx rid, (idx, rid)) sortedComp) in
  (targets', sideHint', nextAltSign').

(** The queue loop of [layoutComponent]. *)
Record Placement := mkPlacement {
  p_targets : Targets;
  p_sideHint : SideHint;
  p_queue : list string;
  p_dequeued : list string
}.

(** The last part of the loop body: the entity behind each placed
    relationship gets its position and joins the queue. *)
Definition placeOthers (nm : gmap string Node) (adj : Adjacency) (eid : string)
    (entityPos : Pos) (entityRadius : R) (st : Placement) (rid : string)
    : Placement :=
  match p_targets st !! rid with
  | None => st
  | Some relPos =>
      let relRadius := radiusOf nm rid in
      let angle := JS.atan2 (py relPos - py entityPos) (px relPos - px entityPos) in
      foldl (λ st otherId,
               match p_targets st !! otherId with
               | Some _ => st
               | None =>
                   let otherRadius := radiusOf nm otherId in
                   let dist := (entityRadius + relRadius + otherRadius + 80)%R in
                   let sign :=
                     orSign (signOfSin angle)
                       (orSign (hint (p_sideHint st) rid)
                          (orSign (hint (p_sideHint st) eid) 1)) in
                   mkPlacement
                     (<[otherId := mkPos (px entityPos + cos angle * dist)
                                          (py entityPos + sin angle * dist)]>
                        (p_targets st))
                     (hintIfAbsent otherId sign (p_sideHint st))
                     (p_queue st ++ [otherId])
                     (p_dequeued st)
               end)
            st (otherEntities nm adj eid rid)
  end.

(** One iteration of [while (queue.length)], for the entity [eid] taken
    from the queue.  [p_dequeued] records the ids taken so far; it is not
    part of the program state. *)
Definition placeAround (nm : gmap string Node) (adj : Adjacency)
    (eid : string) (st : Placement) : Outcome Placement :=
  match nm !! eid, p_targets st !! eid with
  | Some entityNode, Some entityPos =>
      let entityRadius := radiusOf nm eid in
      let preferredSign := hint (p_sideHint st) eid in
      let nextAltSign := if decide (preferredSign = 0%Z) then 1%Z else preferredSign in
      let relNeighbors := relNeighborsOf nm adj eid in
      match relNeighbors with
      | [] => Computed st
      | _ =>
          let anchorRels :=
            filter (λ rid, is_Some (p_targets st !! rid)) relNeighbors in
          let unplacedRels :=
            filter (λ rid, p_targets st !! rid = None) relNeighbors in
          let angleOf rid :=
            let rPos := default entityPos (p_targets st !! rid) in
            Utils.normalizeAngle
              (JS.atan2 (py rPos - py entityPos) (px rPos - px entityPos)) in
          let anchorAngles := angleOf <$> anchorRels in
          let unplacedInfo :=
            (λ rid, (rid, otherEntities nm adj eid rid)) <$> unplacedRels in
          let links := relAdj adj unplacedInfo in
          relComponents ←
            fuelled (Decompose.components (Decompose.fuelFor links unplacedRels)
                       (neighborsOf links) unplacedRels ∅);
          let anchorSigns :=
            (λ rid,
               let ang := angleOf rid in
               (ang, orSign (hint (p_sideHint st) rid) (signOfSin ang)))
              <$> anchorRels in
          let '(targets, sideHint, _) :=
            foldl (placeRelComponent nm eid entityPos entityRadius preferredSign
                     unplacedInfo anchorAngles anchorSigns)
                  (p_targets st, p_sideHint st, nextAltSign) relComponents in
          Computed
            (foldl (placeOthers nm adj eid entityPos entityRadius)
                   (mkPlacement targets sideHint (p_queue st) (p_dequeued st))
                   relNeighbors)
      end
  | _, _ => Computed st
  end.

Fixpoint placeLoop (fuel : nat) (nm : gmap string Node) (adj : Adjacency)
    (st : Placement) : Outcome Placement :=
  match p_queue st with
  | [] => Computed st
  | eid :: rest =>
      match fuel with
      | O => OutOfFuel
      | S fuel' =>
          st' ← placeAround nm adj eid
                  (mkPlacement (p_targets st) (p_sideHint st) rest
                               (p_dequeued st ++ [eid]));
          placeLoop fuel' nm adj st'
      end
  end.

(** [{ targets, bounds, mainPathSet }] *)
Record Layout := mkLayout {
  l_targets : Targets;
  l_minX : R; l_maxX : R; l_minY : R; l_maxY : R;
  l_mainPathSet : gset string
}.

(** The part of [layoutComponent] before the queue loop: the main chain is
    placed, the branches get their sides, and the entities of the main
    chain form the first queue. *)
Definition startPlacement (nm : gmap string Node)
    (adj : Adjacency) (sideHint : SideHint) (ids : list string)
    : Outcome (gset string * Placement) :=
  let maxRadius := JS.maxOf 0 (radiusOf nm <$> ids) in
  let chainSpacing := Rmax 200 (maxRadius * 2 + 40) in
  mainPath ← fuelled (findLongestPath adj ids);
  let mainPathSet : gset string := list_to_set mainPath in
  let '(targets0, sideHint0) := placeMainPath nm chainSpacing mainPath sideHint in
  let nonMain := filter (λ i, i ∉ mainPathSet) ids in
  '(_, _, sideHint1) ←
    foldl (branchSide adj mainPathSet (Decompose.fuelFor adj ids))
          (Computed (∅, 1%Z, sideHint0)) nonMain;
  let queue := filter (λ i, hasType nm entity i = true) mainPath in
  Computed (mainPathSet, mkPlacement targets0 sideHint1 queue []).

(** [layoutComponent(ids)].  The queue loop gets one unit of fuel per id of
    the component. *)
Definition layoutComponent (nm : gmap string Node)
    (adj : Adjacency) (sideHint : SideHint) (ids : list string)
    : Outcome (Layout * SideHint) :=
  '(mainPathSet, start) ← startPlacement nm adj sideHint ids;
  placed ← placeLoop (length ids) nm adj start;
  let targets :=
    foldl (λ t i,
             match t !! i with
             | Some _ => t
             | None =>
                 let model := nm !! i in
                 <[i := mkPos (JS.orElse (default 0%R (n_x <$> model)) 0)
                              (JS.orElse (default 0%R (n_y <$> model)) 0)]> t
             end)
          (p_targets placed) ids in
  let boxes := map_to_list targets in
  Computed
    (mkLayout targets
       (JS.minOf 0 ((λ kv, px kv.2 - radiusOf nm kv.1)%R <$> boxes))
       (JS.maxOf 0 ((λ kv, px kv.2 + radiusOf nm kv.1)%R <$> boxes))
       (JS.minOf 0 ((λ kv, py kv.2 - radiusOf nm kv.1)%R <$> boxes))
       (JS.maxOf 0 ((λ kv, py kv.2 + radiusOf nm kv.1)%R <$> boxes))
       mainPathSet,
     p_sideHint placed).

(** *** Tiling of the component layouts *)

Definition componentGap : R := 240.

(** The state of the tiling loop. *)
Record Tiling := mkTiling {
  t_globalTargets : Targets;
  t_cursorX : R;
  t_cursorY : R;
  t_rowHeight : R;
  t_mainChainIds : gset string
}.

Definition tile (containerWidth : R) (st : Tiling) (layout : Layout) : Tiling :=
  let width := (l_maxX layout - l_minX layout + componentGap)%R in
  let height := (l_maxY layout - l_minY layout + componentGap)%R in
  let wrap := bool_decide (containerWidth - componentGap / 2 < t_cursorX st + width)%R in
  let cursorX := if wrap then componentGap else t_cursorX st in
  let cursorY :=
    if wrap then (t_cursorY st + (t_rowHeight st + componentGap))%R
    else t_cursorY st in
  let rowHeight := if wrap then 0%R else t_rowHeight st in
  let offsetX := (cursorX - l_minX layout)%R in
  let offsetY := (cursorY - l_minY layout)%R in
  mkTiling
    (map_fold (λ i p t, <[i := mkPos (px p + offsetX) (py p + offsetY)]> t)
              (t_globalTargets st) (l_targets layout))
    (cursorX + width)%R cursorY (Rmax rowHeight height)
    (l_mainPathSet layout ∪ t_mainChainIds st).

(** [componentLayouts.forEach(layout => ...)], from the top left corner. *)
Definition tileAll (containerWidth : R) (layouts : list Layout) : Tiling :=
  foldl (tile containerWidth) (mkTiling ∅ componentGap componentGap 0 ∅) layouts.

(** [mainAnchorPos]: a copy of the tiled position of every main-chain node. *)
Definition mainAnchorPos (mainChainIds : gset string) (globalTargets : Targets)
    : Targets :=
  filter (λ kv, kv.1 ∈ mainChainIds) globalTargets.

(** *** Passes after the tiling *)

(** The state the passes work on. *)
Record Pass := mkPass { q_targets : Targets; q_sideHint : SideHint }.

(** [Math.sign(a)] as a sign. *)
Definition signOf (a : R) : Z :=
  if decide (0 < a)%R then 1%Z else if decide (a < 0)%R then (-1)%Z else 0%Z.

Definition entityIds (allNodes : list Node) : list string :=
  n_id <$> filter (λ n, n_type n = entity) (coreNodes allNodes).

(** The text of a sign inside a template string. *)
Definition signText (sign : Z) : string :=
  if decide (0 <= sign)%Z then "1" else "-1".

(** [place(list, sign)] of [evenSideSpacing]. *)
Definition placeSide (nm : gmap string Node) (eid : string) (entityPos : Pos)
    (entityRadius : R) (st : Pass) (list : list string) (sign : Z) : Pass :=
  match list with
  | [] => st
  | _ =>
      let jitter :=
        (IZR (Utils.deterministicHash (eid +:+ "-" +:+ signText sign) 0 mod 1000)
         / 1000 * 0.35 - 0.175)%R in
      let start := ((if decide (0 < sign)%Z then 0 else PI) + jitter)%R in
      let step := (PI / (INR (length list) + 1))%R in
      let maxRelR := JS.maxOf 0 (radiusOf nm <$> list) in
      let radius := (entityRadius + maxRelR + 40)%R in
      let sorted := JS.sortBy JS.localeLeb list in
      foldl (λ st '(idx, rid),
               let ang := (start + step * (INR idx + 1))%R in
               mkPass (<[rid := mkPos (px entityPos + cos ang * radius)
                                      (py entityPos + sin ang * radius)]>
                         (q_targets st))
                      (<[rid := sign]> (q_sideHint st)))
            st (imap (λ idx rid, (idx, rid)) sorted)
  end.

Definition evenSideSpacing (allNodes : list Node) (nm : gmap string Node)
    (adj : Adjacency) (mainChainIds : gset string) (st : Pass) : Pass :=
  foldl (λ st eid,
           match q_targets st !! eid with
           | None => st
           | Some entityPos =>
               let entityRadius := radiusOf nm eid in
               let relNeighbors := relNeighborsOf nm adj eid in
               let side rid :=
                 orSign (hint (q_sideHint st) rid)
                   (orSign (default 0%Z
                              ((λ pos, signOf (py pos - py entityPos))
                                 <$> q_targets st !! rid))
                           1) in
               let up := filter (λ rid, 0 <= side rid)%Z relNeighbors in
               let down := filter (λ rid, ¬ (0 <= side rid)%Z) relNeighbors in
               let st1 :=
                 placeSide nm eid entityPos entityRadius st
                           (filter (λ i, i ∉ mainChainIds) up) 1 in
               placeSide nm eid entityPos entityRadius st1
                         (filter (λ i, i ∉ mainChainIds) down) (-1)
           end)
        st (entityIds allNodes).

(** [reprojectBranches], with the set of entities already projected. *)
Definition reprojectOne (nm : gmap string Node) (mainChainIds : gset string)
    (eid rid : string) (ePos : Pos) (eRad rRad ang : R)
    (st : Pass * gset string) (oid : string) : Pass * gset string :=
  let '(pass, projectedEntities) := st in
  if decide (oid ∈ mainChainIds) then st
  else
    match nm !! oid with
    | None => st
    | Some oNode =>
        let oRad := getRadius oNode in
        let dist := (eRad + rRad + oRad + 80)%R in
        let existing := q_targets pass !! oid in
        let newPos :=
          mkPos (px ePos + cos ang * dist) (py ePos + sin ang * dist) in
        let moved :=
          match existing with
          | None => true
          | Some old =>
              if decide (oid ∈ projectedEntities) then true
              else
                let curDist := JS.hypot (px old - px ePos) (py old - py ePos) in
                bool_decide (curDist < dist)%R
          end in
        let sign :=
          orSign (signOfSin ang)
            (orSign (hint (q_sideHint pass) rid)
               (orSign (hint (q_sideHint pass) eid) 1)) in
        (mkPass (if moved then <[oid := newPos]> (q_targets pass)
                 else q_targets pass)
                (<[oid := sign]> (q_sideHint pass)),
         {[oid]} ∪ projectedEntities)
    end.

Definition reprojectBranches (allNodes : list Node) (nm : gmap string Node)
    (adj : Adjacency) (mainChainIds : gset string) (st : Pass) : Pass :=
  fst
    (foldl (λ st eid,
              match q_targets st.1 !! eid with
              | None => st
              | Some ePos =>
                  let eRad := radiusOf nm eid in
                  foldl (λ st rid,
                           match q_targets st.1 !! rid with
                           | None => st
                           | Some rPos =>
                               if decide (rid ∈ mainChainIds) then st
                               else
                                 let rRad := radiusOf nm rid in
                                 let ang :=
                                   JS.atan2 (py rPos - py ePos) (px rPos - px ePos) in
                                 foldl (reprojectOne nm mainChainIds eid rid ePos
                                                     eRad rRad ang)
                                       st (otherEntities nm adj eid rid)
                           end)
                        st (relNeighborsOf nm adj eid)
              end)
           (st, ∅) (entityIds allNodes)).

(** The entity neighbours of a relationship. *)
Definition entNeighborsOf (nm : gmap string Node) (adj : Adjacency)
    (rid : string) : list string :=
  filter (λ i, hasType nm entity i = true) (neighborsOf adj rid).

(** [enforceLocalTriplets], for one core node. *)
Definition straighten (nm : gmap string Node) (adj : Adjacency)
    (mainChainIds : gset string) (relNode : Node) (targets : Targets)
    : Outcome Targets :=
  match n_type relNode, entNeighborsOf nm adj (n_id relNode) with
  | relationship, [e1; e2] =>
      if decide (e1 ∈ mainChainIds ∧ e2 ∈ mainChainIds
                 ∧ n_id relNode ∈ mainChainIds)
      then Computed targets
      else
        match targets !! n_id relNode, targets !! e1, targets !! e2 with
        | Some pR, Some p1, Some p2 =>
            let d1 := JS.hypot (px pR - px p1) (py pR - py p1) in
            let d2 := JS.hypot (px pR - px p2) (py pR - py p2) in
            let anchor := if decide (d1 <= d2)%R then p1 else p2 in
            let moveTarget := if decide (d1 <= d2)%R then e2 else e1 in
            if decide (moveTarget ∈ mainChainIds) then Computed targets
            else
              let dx := (px pR - px anchor)%R in
              let dy := (py pR - py anchor)%R in
              let len := JS.orElse (JS.hypot dx dy) 1 in
              '(ux, uy) ← Force.unitVector dx dy len;
              let moveRad := radiusOf nm moveTarget in
              let reach := (moveRad + getRadius relNode + 20)%R in
              Computed (<[moveTarget := mkPos (px pR + ux * reach)
                                               (py pR + uy * reach)]> targets)
        | _, _, _ => Computed targets
        end
  | _, _ => Computed targets
  end.

Definition enforceLocalTriplets (allNodes : list Node) (nm : gmap string Node)
    (adj : Adjacency) (mainChainIds : gset string) (targets : Targets)
    : Outcome Targets :=
  Force.forEachM (straighten nm adj mainChainIds) (coreNodes allNodes) targets.

(** [adjustRelationshipMidpoints], for one core node. *)
Definition snapToMidpoint (nm : gmap string Node) (adj : Adjacency)
    (mainChainIds : gset string) (targets : Targets) (relNode : Node)
    : Targets :=
  match n_type relNode with
  | relationship =>
      if decide (n_id relNode ∈ mainChainIds) then targets
      else
        match entNeighborsOf nm adj (n_id relNode) with
        | [e1; e2] =>
            match targets !! e1, targets !! e2 with
            | Some p1, Some p2 =>
                let dist := JS.hypot (px p2 - px p1) (py p2 - py p1) in
                if decide (dist = 0)%R then targets
                else
                  let mid :=
                    mkPos ((px p1 + px p2) / 2) ((py p1 + py p2) / 2) in
                  let rRel := getRadius relNode in
                  let r1 := radiusOf nm e1 in
                  let r2 := radiusOf nm e2 in
                  let minSpan := (r1 + r2 + rRel * 2 + 40)%R in
                  if decide (dist < minSpan)%R then targets
                  else <[n_id relNode := mid]> targets
            | _, _ => targets
            end
        | _ => targets
        end
  | _ => targets
  end.

Definition adjustRelationshipMidpoints (allNodes : list Node)
    (nm : gmap string Node) (adj : Adjacency) (mainChainIds : gset string)
    (targets : Targets) : Targets :=
  foldl (snapToMidpoint nm adj mainChainIds) targets (coreNodes allNodes).

(** [entityAttrs]: the attributes of each entity, in insertion order. *)
Definition entityAttrs (allNodes : list Node) : list (string * list Node) :=
  foldl (λ m a,
           match n_parentEntity a with
           | None => m
           | Some pid =>
               if decide (pid = "") then m
               else
                 match List.find (λ kv, bool_decide (kv.1 = pid)) m with
                 | Some _ =>
                     (λ kv : string * list Node,
                        if decide (kv.1 = pid) then (kv.1, kv.2 ++ [a]) else kv) <$> m
                 | None => m ++ [(pid, [a])]
                 end
           end)
        [] (attributeNodes allNodes).

(** The angle at which one attribute is placed: the first candidate that
    keeps [threshold] away from every relationship angle, else the
    starting angle. *)
Definition attributeAngle (relAngles : list R) (count : nat) (step : R)
    (attrId : string) (idx : nat) : R :=
  let seed :=
    (IZR (Utils.deterministicHash attrId (Z.of_nat idx) mod 1000) / 1000)%R in
  let angle :=
    Utils.normalizeAngle
      (step * INR idx + step * 0.35 + (seed - 0.5) * 0.2)%R in
  let threshold := 0.12%R in
  let candidate t :=
    Utils.normalizeAngle (angle + INR t * (step / (INR count + 1)))%R in
  let tooClose c :=
    existsb (λ ra,
               let diff := Rabs (c - ra) in
               let mind := Rmin diff (PI * 2 - diff) in
               bool_decide (mind < threshold)%R)
            relAngles in
  default angle (candidate <$> List.find (λ t, negb (tooClose (candidate t)))
                                         (seq 0 count)).

Definition placeAttributes (nm : gmap string Node) (adj : Adjacency)
    (targets : Targets) (entry : string * list Node) : Targets :=
  let '(eid, attrs) := entry in
  match targets !! eid, attrs with
  | Some center, _ :: _ =>
      let entityR := radiusOf nm eid in
      let attrR := JS.maxOf 0 (getRadius <$> attrs) in
      let baseRing := (entityR + attrR + 8)%R in
      let relAngles :=
        (λ rid,
           match targets !! rid with
           | Some rp =>
               Utils.normalizeAngle
                 (JS.atan2 (py rp - py center) (px rp - px center))
           | None => 0%R
           end) <$> relNeighborsOf nm adj eid in
      let step := (PI * 2 / INR (length attrs))%R in
      let sortedAttrs :=
        JS.sortBy (λ a b, JS.localeLeb (n_id a) (n_id b)) attrs in
      foldl (λ t '(idx, attrNode),
               let angle :=
                 attributeAngle relAngles (length attrs) step (n_id attrNode) idx in
               <[n_id attrNode := mkPos (px center + cos angle * baseRing)
                                        (py center + sin angle * baseRing)]> t)
            targets (imap (λ idx a, (idx, a)) sortedAttrs)
  | _, _ => targets
  end.

(** Every node without a target gets its current position. *)
Definition fillMissing (allNodes : list Node) (targets : Targets) : Targets :=
  foldl (λ t n,
           match t !! n_id n with
           | Some _ => t
           | None => <[n_id n := mkPos (JS.orElse (n_x n) 0) (JS.orElse (n_y n) 0)]> t
           end)
        targets allNodes.

(** The share of the overlap by which [self] is pushed:
    [mainChainIds.has(self) ? 0 : overlap / (mainChainIds.has(other) ? 1 : 2)]. *)
Definition pushOf (mainChainIds : gset string) (self other : string)
    (overlap : R) : R :=
  if decide (self ∈ mainChainIds) then 0%R
  else (overlap / (if decide (other ∈ mainChainIds) then 1 else 2))%R.

(** One pair of [resolveCoreOverlaps]. *)
Definition pushApart (mainChainIds : gset string) (a b : string * R)
    (st : Targets * R) : Outcome (Targets * R) :=
  let '(targets, moved) := st in
  match targets !! a.1, targets !! b.1 with
  | Some pa, Some pb =>
      let dx := (px pb - px pa)%R in
      let dy := (py pb - py pa)%R in
      let dist0 := JS.hypot dx dy in
      let dist := if decide (dist0 = 0%R) then 0.01%R else dist0 in
      let minDist := (a.2 + b.2 + 14)%R in
      if decide (dist < minDist)%R then
        let overlap := (minDist - dist)%R in
        let pushA := pushOf mainChainIds a.1 b.1 overlap in
        let pushB := pushOf mainChainIds b.1 a.1 overlap in
        '(nx, ny) ← Force.unitVector dx dy dist;
        Computed (alter (Force.shift (nx * pushB) (ny * pushB)) b.1
                    (alter (Force.unshift (nx * pushA) (ny * pushA)) a.1 targets),
                  Rmax moved (Rmax pushA pushB))
      else Computed st
  | _, _ => Computed st
  end.

Definition resolveCoreOverlaps (allNodes : list Node) (nm : gmap string Node)
    (mainChainIds : gset string) (targets : Targets) : Outcome Targets :=
  let meta := (λ n, (n_id n, radiusOf nm (n_id n))) <$> coreNodes allNodes in
  Force.iterateUntilStill 120 0.5
    (λ t, Force.forPairs (pushApart mainChainIds) meta (t, 0%R))
    targets.

(** [mainAnchorPos.forEach((pos, id) => globalTargets.set(id, { ...pos }))] *)
Definition restoreMainChain (anchors : Targets) (targets : Targets) : Targets :=
  anchors ∪ targets.

(** The passes after the tiling that compute targets, from the tiled
    targets to the placement of the attributes. *)
Definition placements (allNodes : list Node) (nm : gmap string Node)
    (adj : Adjacency) (mainChainIds : gset string) (tiled : Targets)
    (sideHint : SideHint) : Outcome Targets :=
  let spaced := evenSideSpacing allNodes nm adj mainChainIds (mkPass tiled sideHint) in
  let projected := reprojectBranches allNodes nm adj mainChainIds spaced in
  straight ← enforceLocalTriplets allNodes nm adj mainChainIds (q_targets projected);
  let snapped := adjustRelationshipMidpoints allNodes nm adj mainChainIds straight in
  Computed (foldl (placeAttributes nm adj) snapped (entityAttrs allNodes)).

(** Everything after the tiling, from the tiled targets. *)
Definition finish (allNodes : list Node) (nm : gmap string Node)
    (adj : Adjacency) (mainChainIds : gset string) (tiled : Targets)
    (sideHint : SideHint) : Outcome Targets :=
  let anchors := mainAnchorPos mainChainIds tiled in
  withAttrs ← placements allNodes nm adj mainChainIds tiled sideHint;
  let filled := fillMissing allNodes withAttrs in
  resolved ← resolveCoreOverlaps allNodes nm mainChainIds filled;
  Computed (restoreMainChain anchors resolved).

(** [componentLayouts = components.map(layoutComponent)]: the hints are
    shared by all the calls. *)
Fixpoint layoutAll (nm : gmap string Node) (adj : Adjacency)
    (sideHint : SideHint) (comps : list (list string))
    : Outcome (list Layout * SideHint) :=
  match comps with
  | [] => Computed ([], sideHint)
  | ids :: comps' =>
      '(layout, sideHint') ← layoutComponent nm adj sideHint ids;
      '(layouts, sideHint'') ← layoutAll nm adj sideHint' comps';
      Computed (layout :: layouts, sideHint'')
  end.

(** [forceAlignLayout] up to the tiling: the tiled component layouts with
    the side hints, or nothing when the call returns early. *)
Definition tiledLayout (g : Graph) (containerWidth : R)
    : Outcome (Tiling * SideHint) :=
  let allNodes := getNodes g in
  match allNodes, coreNodes allNodes with
  | [], _ => NoOp
  | _, [] => NoOp
  | _, _ =>
      let nm := nodeMap allNodes in
      let adj := coreAdj nm (getEdges g) in
      if decide (size adj = 0) then NoOp
      else
        comps ← fuelled (components allNodes (getEdges g));
        '(layouts, sideHint) ← layoutAll nm adj ∅ comps;
        Computed (tileAll containerWidth layouts, sideHint)
  end.

(** [forceAlignLayout(graph, containerWidth)] *)
Definition forceAlignLayout (g : Graph) (containerWidth : R) : Outcome Targets :=
  let allNodes := getNodes g in
  let nm := nodeMap allNodes in
  '(tiled, sideHint) ← tiledLayout g containerWidth;
  finish allNodes nm (coreAdj nm (getEdges g))
         (t_mainChainIds tiled) (t_globalTargets tiled) sideHint.

(** The targets [forceAlignLayout] has computed when it reaches the step
    that fills in the nodes without one. *)
Definition computedTargets (g : Graph) (containerWidth : R) : Outcome Targets :=
  let allNodes := getNodes g in
  let nm := nodeMap allNodes in
  '(tiled, sideHint) ← tiledLayout g containerWidth;
  placements allNodes nm (coreAdj nm (getEdges g))
             (t_mainChainIds tiled) (t_globalTargets tiled) sideHint.

End ForceAlign.

(** ** ER builder ([generateChenModelData] and the custom node shapes) *)

From Stdlib Require Import DecimalString DecimalNat.

Module ERBuilder.

(** [`${n}`] for an array index: its decimal digits. *)
Definition showNat (n : nat) : string :=
  NilZero.string_of_uint (Nat.to_uint n).

(** The parsed input: tables with their columns, and foreign-key
    relationships between tables named by name or alias. *)
Record Column := mkColumn { c_name : string; c_isPrimaryKey : bool }.

Record Table := mkTable {
  t_name : string;
  t_alias : option string;
  t_columns : list Column;
  t_primaryKeys : list string
}.

Record Relationship := mkRelationship {
  r_from : string;
  r_to : string;
  r_label : string
}.

Inductive KeyType := pk | normal.

(** [style: { fill, stroke, lineWidth }] *)
Record StyleData := mkStyle {
  s_fill : option string;
  s_stroke : string;
  s_lineWidth : option Z
}.

(** A node of the G6 data; [nd_fontWeight] is [labelCfg.style.fontWeight],
    and the label is always filled with [nd_labelFill]. *)
Record NodeModel := mkNodeModel {
  nd_id : string;
  nd_type : NodeType;
  nd_label : string;
  nd_keyType : option KeyType;
  nd_style : StyleData;
  nd_labelFill : string;
  nd_fontWeight : option string;
  nd_nodeType : NodeType;
  nd_parentEntity : option string
}.

Inductive EdgeType := entityAttribute | entityRelationship | relationshipEntity.

(** An edge of the G6 data.  An end looked up in [entityMap] is [None]
    when the map has no entry ([undefined]).  [ed_labelBackground] is
    [labelCfg.style.background] as fill and padding. *)
Record EdgeModel := mkEdgeModel {
  ed_id : string;
  ed_source : option string;
  ed_target : option string;
  ed_label : option string;
  ed_style : StyleData;
  ed_labelBackground : option (string * list Z);
  ed_edgeType : EdgeType
}.

Definition entityId (table : Table) (tableIndex : nat) : string :=
  "entity-" +:+ t_name table +:+ "-" +:+ showNat tableIndex.

Definition attributeId (table : Table) (column : Column)
    (tableIndex colIndex : nat) : string :=
  "attr-" +:+ t_name table +:+ "-" +:+ c_name column +:+ "-"
  +:+ showNat tableIndex +:+ "-" +:+ showNat colIndex.

Definition relationshipId (rel : Relationship) (relIndex : nat) : string :=
  "rel-" +:+ r_from rel +:+ "-" +:+ r_to rel +:+ "-" +:+ r_label rel +:+ "-"
  +:+ showNat relIndex.

Definition entityNode (isColored : bool) (table : Table) (tableIndex : nat)
    : NodeModel :=
  mkNodeModel (entityId table tableIndex) entity (t_name table) None
    (mkStyle (Some "#ffffff") (if isColored then "#595959" else "#000000")
             (Some 2%Z))
    "#000000" (Some "bold") entity None.

(** [table.primaryKeys.includes(column.name) || column.isPrimaryKey] *)
Definition isPrimaryKey (table : Table) (column : Column) : bool :=
  bool_decide (c_name column ∈ t_primaryKeys table) || c_isPrimaryKey column.

Definition attributeNode (isColored : bool) (table : Table) (column : Column)
    (tableIndex colIndex : nat) : NodeModel :=
  let key := isPrimaryKey table column in
  mkNodeModel (attributeId table column tableIndex colIndex) attribute
    (c_name column) (Some (if key then pk else normal))
    (mkStyle
       (Some (if isColored then (if key then "#f6ffed" else "#fffbe6")
              else "#ffffff"))
       (if isColored then (if key then "#52c41a" else "#faad14") else "#000000")
       (Some (if key then 2%Z else 1%Z)))
    "#000000" (Some (if key then "bold" else "normal")) attribute
    (Some (entityId table tableIndex)).

Definition attributeEdge (table : Table) (column : Column)
    (tableIndex colIndex : nat) : EdgeModel :=
  mkEdgeModel
    ("edge-" +:+ entityId table tableIndex +:+ "-"
     +:+ attributeId table column tableIndex colIndex +:+ "-"
     +:+ showNat tableIndex +:+ "-" +:+ showNat colIndex)
    (Some (entityId table tableIndex))
    (Some (attributeId table column tableIndex colIndex))
    None (mkStyle None "#000000" None) None entityAttribute.

Definition relationshipNode (isColored : bool) (rel : Relationship)
    (relIndex : nat) : NodeModel :=
  mkNodeModel (relationshipId rel relIndex) relationship (r_label rel) None
    (mkStyle (Some (if isColored then "#f9f0ff" else "#ffffff"))
             (if isColored then "#722ed1" else "#000000") (Some 2%Z))
    "#000000" None relationship None.

Definition sourceEdge (entityMap : gmap string string) (rel : Relationship)
    (relIndex : nat) : EdgeModel :=
  mkEdgeModel
    ("edge-entity-" +:+ r_from rel +:+ "-" +:+ relationshipId rel relIndex
     +:+ "-" +:+ showNat relIndex +:+ "-1")
    (entityMap !! r_from rel)
    (Some (relationshipId rel relIndex))
    (Some "N") (mkStyle None "#000000" (Some 2%Z))
    (Some ("#ffffff", [2; 4; 2; 4]%Z)) entityRelationship.

Definition targetEdge (entityMap : gmap string string) (rel : Relationship)
    (relIndex : nat) : EdgeModel :=
  mkEdgeModel
    ("edge-" +:+ relationshipId rel relIndex +:+ "-entity-" +:+ r_to rel
     +:+ "-" +:+ showNat relIndex +:+ "-2")
    (Some (relationshipId rel relIndex))
    (entityMap !! r_to rel)
    (Some "1") (mkStyle None "#000000" (Some 2%Z))
    (Some ("#ffffff", [2; 4; 2; 4]%Z)) relationshipEntity.

(** The arrays and the map the function fills. *)
Record Build := mkBuild {
  b_nodes : list NodeModel;
  b_edges : list EdgeModel;
  b_entityMap : gmap string string
}.

(** The body of [table.columns.forEach((column, colIndex) => ...)]. *)
Definition addColumn (isColored : bool) (table : Table) (tableIndex : nat)
    (st : Build) (entry : nat * Column) : Build :=
  let '(colIndex, column) := entry in
  mkBuild (b_nodes st ++ [attributeNode isColored table column tableIndex colIndex])
          (b_edges st ++ [attributeEdge table column tableIndex colIndex])
          (b_entityMap st).

(** The body of [tables.forEach((table, tableIndex) => ...)]. *)
Definition addTable (isColored : bool) (st : Build) (entry : nat * Table)
    : Build :=
  let '(tableIndex, table) := entry in
  let byName := <[t_name table := entityId table tableIndex]> (b_entityMap st) in
  let entityMap :=
    match t_alias table with
    | Some alias =>
        if decide (alias = "") then byName
        else <[alias := entityId table tableIndex]> byName
    | None => byName
    end in
  foldl (addColumn isColored table tableIndex)
        (mkBuild (b_nodes st ++ [entityNode isColored table tableIndex])
                 (b_edges st) entityMap)
        (imap (λ colIndex column, (colIndex, column)) (t_columns table)).

(** The body of [relationships.forEach((rel, relIndex) => ...)]. *)
Definition addRelationship (isColored : bool) (st : Build)
    (entry : nat * Relationship) : Build :=
  let '(relIndex, rel) := entry in
  mkBuild (b_nodes st ++ [relationshipNode isColored rel relIndex])
          (b_edges st ++ [sourceEdge (b_entityMap st) rel relIndex;
                          targetEdge (b_entityMap st) rel relIndex])
          (b_entityMap st).

(** [generateChenModelData(tables, relationships, isColored)] *)
Definition generateChenModelData (tables : list Table)
    (relationships : list Relationship) (isColored : bool)
    : list NodeModel * list EdgeModel :=
  let withTables :=
    foldl (addTable isColored) (mkBuild [] [] ∅)
          (imap (λ tableIndex table, (tableIndex, table)) tables) in
  let final :=
    foldl (addRelationship isColored) withTables
          (imap (λ relIndex rel, (relIndex, rel)) relationships) in
  (b_nodes final, b_edges final).

(** *** Custom node shapes *)

(** [/[\u4e00-\u9fa5]/.test(char)] on a character given by its code point. *)
Definition isCJK (char : Z) : bool :=
  bool_decide (0x4e00 <= char <= 0x9fa5)%Z.

(** [getTextWidth(text, fontSize)]; [text] is the string as [for (let char
    of text)] sees it, a sequence of code points. *)
Definition getTextWidth (text : list Z) (fontSize : R) : R :=
  foldl (λ width char,
           if isCJK char then (width + fontSize)%R
           else (width + fontSize * 0.6)%R)
        0%R text.

(** Width and height of the rectangle of an entity. *)
Definition entitySize (text : list Z) : R * R :=
  let fontSize := 18%R in
  let textWidth := getTextWidth text fontSize in
  let padding := 10%R in
  (Rmax 80 (textWidth + padding * 2), Rmax 50 (fontSize + 20))%R.

(** Width and height of the ellipse of an attribute. *)
Definition attributeSize (text : list Z) : R * R :=
  let fontSize := 15%R in
  let textWidth := getTextWidth text fontSize in
  let padding := 16%R in
  (Rmax 60 (textWidth + padding * 2), Rmax 40 (fontSize + 16))%R.

(** [halfWidth] and [halfHeight] of the diamond of a relationship. *)
Definition relationshipHalfSize (text : list Z) : R * R :=
  let fontSize := 16%R in
  let textWidth := getTextWidth text fontSize in
  let horizontalPadding := 24%R in
  let verticalPadding := 16%R in
  let minWidth := 80%R in
  let minHeight := 40%R in
  let requiredWidth := (textWidth + horizontalPadding * 2)%R in
  let requiredHeight := (fontSize + verticalPadding * 2)%R in
  let halfWidth := Rmax (minWidth / 2) (requiredWidth / 2) in
  let halfHeight :=
    Rmax (minHeight / 2) (Rmin (halfWidth * 0.6) (requiredHeight / 2)) in
  (halfWidth, halfHeight).

(** [calculateDiamondLinkPoint.call(node, point)], from the bounding box
    of the node. *)
Definition calculateDiamondLinkPoint (bbox : BBox) (point : Pos) : Pos :=
  let dx := (px point - centerX bbox)%R in
  let dy := (py point - centerY bbox)%R in
  let halfWidth := JS.orElse (bwidth bbox / 2) 1 in
  let halfHeight := JS.orElse (bheight bbox / 2) 1 in
  if decide (Rabs dx < 1e-6 ∧ Rabs dy < 1e-6)%R
  then mkPos (centerX bbox) (centerY bbox)
  else
    let t := (1 / (Rabs dx / halfWidth + Rabs dy / halfHeight))%R in
    mkPos (centerX bbox + dx * t) (centerY bbox + dy * t).

End ERBuilder.

(** ** Animation ([animation.js]) *)

Module Animation.

(** [Math.min(elapsed / duration, 1)].  Every caller passes a positive
    duration (450, 700, 800 or 850 milliseconds). *)
Definition rawProgress (elapsed duration : R) : R :=
  Rmin (elapsed / duration) 1.

(** [1 - Math.pow(1 - progress, 3)] and [1 - Math.pow(1 - progress, 4)] *)
Definition easeOutCubic (progress : R) : R := (1 - (1 - progress) ^ 3)%R.

(** *** [animateNodesToTargets] *)

(** What the animation reads and writes of a node: the id and the
    coordinates of its model. *)
Abbreviation Model := (string * Pos)%type.


(** [graph.findById(id)]: the first node with that id. *)
Definition findModel (id : string) (models : list Model) : option Model :=
  List.find (λ model, bool_decide (model.1 = id)) models.

(** [graph.updateItem(node, { x, y })] for the node that
    [graph.findById(id)] returns. *)
Fixpoint updateItem (id : string) (p : Pos) (models : list Model) : list Model :=
  match models with
  | [] => []
  | model :: rest =>
      if decide (model.1 = id) then (model.1, p) :: rest
      else model :: updateItem id p rest
  end.

(** The body of [targets.forEach((target, id) => ...)]. *)
Definition moveNode (start : Targets) (progress : R) (id : string)
    (target : Pos) (models : list Model) : list Model :=
  match findModel id models with
  | None => models
  | Some _ =>
      let s := default target (start !! id) in
      updateItem id
        (mkPos (px s + (px target - px s) * progress)
               (py s + (py target - py s) * progress))
        models
  end.

(** One call of [step(currentTime)], [elapsed] after the start: the
    models after the frame.  The entries of [targets] have different ids,
    so the order in which they are visited does not matter. *)
Definition step (start targets : Targets) (duration elapsed : R)
    (models : list Model) : list Model :=
  let progress := easeOutCubic (rawProgress elapsed duration) in
  map_fold (moveNode start progress) models targets.



(** *** [smoothFitView] *)




End Animation.

(** * Properties *)

(** ** Basic facts about the helpers *)

Section ListFacts.
Local Open Scope R_scope.

Lemma foldl_Rmax_le (l : list R) (a : R) : a <= foldl Rmax a l.
Proof.
  revert a; induction l as [|b l IH]; intros a; simpl; [lra|].
  etransitivity; [apply (Rmax_l a b)|apply IH].
Qed.

Lemma foldl_Rmax_ub (l : list R) (a : R) :
  ∀ v, v ∈ l → v <= foldl Rmax a l.
Proof.
  revert a; induction l as [|b l IH]; intros a v Hv; simpl.
  - by apply elem_of_nil in Hv.
  - apply elem_of_cons in Hv as [->|Hv]; [|by apply IH].
    etransitivity; [apply (Rmax_r a b)|apply foldl_Rmax_le].
Qed.

Lemma foldl_Rmax_attained (l : list R) (a : R) :
  foldl Rmax a l = a ∨ foldl Rmax a l ∈ l.
Proof.
  revert a; induction l as [|b l IH]; intros a; simpl; [by left|].
  destruct (IH (Rmax a b)) as [Heq|Hin].
  - rewrite Heq. unfold Rmax. destruct (Rle_dec a b); [right; left|by left].
  - right. by right.
Qed.

(** [JS.maxOf] is the greatest element of a non-empty list. *)
Lemma maxOf_ub d (l : list R) v : v ∈ l → v <= JS.maxOf d l.
Proof.
  destruct l as [|a l]; simpl; intros Hv.
  - by apply elem_of_nil in Hv.
  - apply elem_of_cons in Hv as [->|Hv];
      [apply foldl_Rmax_le|by apply foldl_Rmax_ub].
Qed.

Lemma maxOf_attained d (l : list R) : l ≠ [] → JS.maxOf d l ∈ l.
Proof.
  destruct l as [|a l]; [done|]; intros _; simpl.
  destruct (foldl_Rmax_attained l a) as [->|Hin]; [left|by right].
Qed.

Lemma foldl_Rplus_shift (l : list R) (a : R) :
  foldl Rplus a l = a + foldl Rplus 0 l.
Proof.
  revert a; induction l as [|b l IH]; intros a; simpl; [lra|].
  rewrite (IH (a + b)), (IH (0 + b)). lra.
Qed.

End ListFacts.

(** ** Orbit radius of the component spread *)

Section OrbitRadius.
Local Open Scope R_scope.
Import ComponentSpread.

(** The sum over the components of (diameter + gap), with gap = 50. *)
Fixpoint spanSum (metas : list Meta) : R :=
  match metas with
  | [] => 0
  | m :: metas' => (2 * m_radius m + 50) + spanSum metas'
  end.

(** The clamp as the specification words it: the larger of
    [totalSpan / 2π] and [maxRadius + gap + 40], capped at 520. *)
Definition orbitRadius_claimed (metas : list Meta) : R :=
  Rmin (Rmax (spanSum metas / (2 * PI))
             (JS.maxOf 0 (m_radius <$> metas) + 50 + 40))
       520.

Lemma totalSpan_from (metas : list Meta) (a : R) :
  foldl (λ sum c, sum + m_radius c * 2 + gap) a metas = a + spanSum metas.
Proof.
  revert a; induction metas as [|m metas IH]; intros a; simpl; [lra|].
  rewrite IH. unfold gap. lra.
Qed.

Lemma totalSpan_spanSum (metas : list Meta) : totalSpan metas = spanSum metas.
Proof. unfold totalSpan. rewrite totalSpan_from. lra. Qed.

(** Two components whose boxes are 60 by 80: radius 50 + 40 each. *)
Definition box60x80 (x0 y0 : R) : BBox :=
  mkBBox x0 (x0 + 60) y0 (y0 + 80) (x0 + 30) (y0 + 40) 60 80.

Definition smallA : Node := mkNode "a" entity 30 40 None (box60x80 0 0).
Definition smallB : Node := mkNode "b" entity 530 40 None (box60x80 500 0).

Definition twoSmall : Graph := mkGraph [smallA; smallB] [] 1200 800.

Lemma twoSmall_components : components twoSmall = [[smallA]; [smallB]].
Proof. vm_compute. reflexivity. Qed.

Lemma box60x80_radius n x0 y0 :
  n_bbox n = box60x80 x0 y0 → m_radius (compMeta [n]) = 90.
Proof.
  intros Hb. unfold compMeta; simpl. rewrite Hb; simpl.
  replace (x0 + 60 - x0) with 60 by lra.
  replace (y0 + 80 - y0) with 80 by lra.
  rewrite (Rmax_right 40 60), (Rmax_right 40 80) by lra.
  replace (60 * 60 + 80 * 80) with (100 * 100) by lra.
  rewrite sqrt_square by lra. lra.
Qed.

Lemma PI_gt_3 : 3 < PI.
Proof. pose proof PI2_3_2. lra. Qed.

(** C8, as stated, fails: for two small components the code returns the
    floor 240, which the claimed clamp does not have. *)
Lemma orbitRadius_claim_fails :
  let metas := compMeta <$> components twoSmall in
  2 ≤ length metas
  ∧ orbitRadius metas = 240
  ∧ orbitRadius_claimed metas = 180
  ∧ orbitRadius metas ≠ orbitRadius_claimed metas.
Proof.
  cbv zeta. rewrite twoSmall_components.
  split; [simpl; lia|].
  unfold orbitRadius, orbitRadius_claimed. rewrite totalSpan_spanSum.
  cbn [fmap list_fmap spanSum JS.maxOf foldl].
  rewrite (box60x80_radius smallA 0 0 eq_refl).
  rewrite (box60x80_radius smallB 500 0 eq_refl). unfold gap.
  pose proof PI_gt_3 as Hpi.
  assert (Hq : (2 * 90 + 50 + (2 * 90 + 50 + 0)) / (2 * PI) < 180).
  { apply (Rmult_lt_reg_r (2 * PI)); [lra|]. field_simplify; lra. }
  rewrite (Rmax_left 90 90) by lra.
  rewrite (Rmax_right _ (90 + 50 + 40)) by lra.
  rewrite (Rmax_right (90 + 50 + 40) 240) by lra.
  rewrite !Rmin_left by lra. split_and!; lra.
Qed.

(** C8 (amended): the orbit radius is the largest of [totalSpan / 2π],
    [maxComponentRadius + gap + 40] and 240, capped at 520, where
    [totalSpan] is the sum over the components of (diameter + gap) with
    gap = 50 and [maxComponentRadius] is the greatest component radius. *)
Theorem orbitRadius_clamp (metas : list Meta) (Hne : metas ≠ []) :
  ∃ maxR,
    maxR ∈ (m_radius <$> metas)
    ∧ (∀ m, m ∈ metas → m_radius m <= maxR)
    ∧ orbitRadius metas
      = Rmin (Rmax (Rmax (spanSum metas / (2 * PI)) (maxR + 50 + 40)) 240) 520
    ∧ 240 <= orbitRadius metas <= 520.
Proof.
  exists (JS.maxOf 0 (m_radius <$> metas)). split; [|split; [|split]].
  - apply maxOf_attained. by destruct metas.
  - intros m Hm. apply maxOf_ub. by apply list_elem_of_fmap_2.
  - unfold orbitRadius. rewrite totalSpan_spanSum. unfold gap. reflexivity.
  - unfold orbitRadius. split.
    + apply Rmin_glb; [apply Rmax_r|lra].
    + apply Rmin_r.
Qed.

Lemma orbitRadius_clamp_witness :
  let metas := compMeta <$> components twoSmall in
  ∃ maxR,
    maxR ∈ (m_radius <$> metas)
    ∧ (∀ m, m ∈ metas → m_radius m <= maxR)
    ∧ orbitRadius metas
      = Rmin (Rmax (Rmax (spanSum metas / (2 * PI)) (maxR + 50 + 40)) 240) 520
    ∧ 240 <= orbitRadius metas <= 520.
Proof.
  cbv zeta. apply (orbitRadius_clamp (compMeta <$> components twoSmall)).
  rewrite twoSmall_components. discriminate.
Defined.

End OrbitRadius.

(** ** The depth-first decomposition *)

Section DecomposeFacts.
Import Decompose.

Implicit Types (visited : gset string) (stack comp nbs : list string).

(** What one round of pushes does to the visited set and the stack. *)
Lemma pushUnvisited_spec nbs visited stack visited' stack' :
  pushUnvisited nbs (visited, stack) = (visited', stack') →
  ∃ new,
    stack' = new ++ stack
    ∧ visited' = list_to_set new ∪ visited
    ∧ NoDup new
    ∧ (∀ x, x ∈ new → x ∉ visited ∧ x ∈ nbs)
    ∧ ∀ x, x ∈ nbs → x ∈ visited'.
Proof.
  unfold pushUnvisited.
  revert visited stack. induction nbs as [|nb nbs IH]; intros visited stack; simpl.
  - intros [= <- <-]. exists []. split_and!; [done|set_solver|constructor| |];
      intros x Hx; by apply elem_of_nil in Hx.
  - destruct (decide (nb ∈ visited)) as [Hin|Hnin]; intros Hpush.
    + destruct (IH _ _ Hpush) as (new & -> & -> & Hnd & Hnew & Hcov).
      exists new. split_and!; [done|done|done| |].
      * intros x Hx. destruct (Hnew x Hx). split; [done|by right].
      * intros x Hx. apply elem_of_cons in Hx as [->|Hx];
          [by apply elem_of_union_r|by apply Hcov].
    + destruct (IH _ _ Hpush) as (new & -> & -> & Hnd & Hnew & Hcov).
      exists (new ++ [nb]). split_and!.
      * by rewrite <- app_assoc.
      * set_solver.
      * apply NoDup_app. split_and!; [done| |apply NoDup_singleton].
        intros x Hx Hx'. apply list_elem_of_singleton in Hx' as ->.
        destruct (Hnew nb Hx) as [Hv _]. set_solver.
      * intros x Hx. apply elem_of_app in Hx as [Hx|Hx].
        -- destruct (Hnew x Hx) as [Hv ?]. split; [set_solver|by right].
        -- apply list_elem_of_singleton in Hx as ->. split; [done|by left].
      * intros x Hx. apply elem_of_cons in Hx as [->|Hx]; [|by apply Hcov].
        apply elem_of_union_r. set_solver.
Qed.

(** The result of one traversal: the ids popped, in pop order. *)
Lemma dfs_spec fuel nbrs visited stack comp visited' comp' :
  dfs fuel nbrs visited stack comp = Some (visited', comp') →
  NoDup stack →
  (∀ x, x ∈ stack → x ∈ visited) →
  ∃ new,
    comp' = comp ++ new
    ∧ NoDup new
    ∧ (∀ x, x ∈ new → x ∈ stack ∨ x ∉ visited)
    ∧ (∀ x, x ∈ stack → x ∈ new)
    ∧ visited' = list_to_set new ∪ visited
    ∧ (∀ r rest, stack = r :: rest → ∃ new', new = r :: new')
    ∧ (∀ x, x ∈ new → x ∈ stack ∨ ∃ y, y ∈ new ∧ x ∈ nbrs y)
    ∧ (∀ x nb, x ∈ new → nb ∈ nbrs x → nb ∈ visited').
Proof.
  revert visited stack comp.
  induction fuel as [|fuel IH]; intros visited stack comp Hrun Hnd Hsub.
  - destruct stack as [|cur rest]; [|done]. simpl in Hrun.
    injection Hrun as <- <-. exists [].
    split_and!; [by rewrite app_nil_r|constructor| | |set_solver|done| |].
    1,2,3: intros x Hx; by apply elem_of_nil in Hx.
    intros x nb Hx; by apply elem_of_nil in Hx.
  - destruct stack as [|cur rest]; simpl in Hrun.
    { injection Hrun as <- <-. exists [].
      split_and!; [by rewrite app_nil_r|constructor| | |set_solver|done| |].
      1,2,3: intros x Hx; by apply elem_of_nil in Hx.
      intros x nb Hx; by apply elem_of_nil in Hx. }
    destruct (pushUnvisited (nbrs cur) (visited, rest)) as [v1 s1] eqn:Hpush.
    apply pushUnvisited_spec in Hpush as (pushed & -> & -> & Hpnd & Hpushed & Hpcov).
    apply NoDup_cons in Hnd as [Hcur Hrest].
    assert (Hcurv : cur ∈ visited) by (apply Hsub; left).
    apply IH in Hrun
      as (new & -> & Hnew_nd & Hnew_from & Hall & -> & _ & Horigin & Hnbv).
    + exists (cur :: new). split_and!.
      * by rewrite <- app_assoc.
      * apply NoDup_cons. split; [|done]. intros Hin.
        destruct (Hnew_from cur Hin) as [Hs|Hv]; [|set_solver].
        apply elem_of_app in Hs as [Hs|Hs]; [|done].
        by destruct (Hpushed cur Hs).
      * intros x Hx. apply elem_of_cons in Hx as [->|Hx]; [left; left|].
        destruct (Hnew_from x Hx) as [Hs|Hv].
        -- apply elem_of_app in Hs as [Hs|Hs];
             [right; by destruct (Hpushed x Hs)|left; by right].
        -- right. set_solver.
      * intros x Hx. apply elem_of_cons in Hx as [->|Hx]; [left|].
        right. apply Hall. apply elem_of_app. by right.
      * set_solver.
      * intros r rest' [= <- <-]. by exists new.
      * intros x Hx. apply elem_of_cons in Hx as [->|Hx]; [left; left|].
        destruct (Horigin x Hx) as [Hs|(y & Hy & Hxy)].
        -- apply elem_of_app in Hs as [Hs|Hs].
           ++ right. exists cur. split; [left|]. by destruct (Hpushed x Hs).
           ++ left. by right.
        -- right. exists y. split; [by right|done].
      * intros x nb Hx Hnb. apply elem_of_cons in Hx as [->|Hx];
          [|by eapply Hnbv].
        apply elem_of_union_r. by apply Hpcov.
    + apply NoDup_app. split_and!; [done| |done].
      intros x Hx Hx'. destruct (Hpushed x Hx) as [Hv _].
      apply Hv, Hsub. by right.
    + intros x Hx. apply elem_of_app in Hx as [Hx|Hx]; [set_solver|].
      apply elem_of_union_r, Hsub. by right.
Qed.

(** The ordered partition produced by the outer loop. *)
Lemma components_spec fuel nbrs roots visited comps :
  components fuel nbrs roots visited = Some comps →
  NoDup (concat comps)
  ∧ (∀ x, x ∈ concat comps → x ∉ visited)
  ∧ (∀ r, r ∈ roots → r ∈ visited ∨ r ∈ concat comps)
  ∧ Forall (λ comp, comp ≠ []) comps
  ∧ omap head comps `sublist_of` roots
  ∧ (∀ comp x, comp ∈ comps → x ∈ comp →
       x ∈ roots ∨ ∃ y, y ∈ comp ∧ x ∈ nbrs y).
Proof.
  revert visited comps.
  induction roots as [|r roots IH]; intros visited comps; simpl.
  - intros [= <-]. split_and!; [constructor| | |constructor|done|];
      [intros x Hx; by apply elem_of_nil in Hx..|].
    intros comp x Hc. by apply elem_of_nil in Hc.
  - destruct (decide (r ∈ visited)) as [Hr|Hr].
    + intros Hrun.
      destruct (IH _ _ Hrun) as (Hnd & Hfresh & Hcov & Hne & Hsl & Horig).
      split_and!; [done|done| |done|by apply sublist_cons|].
      * intros r' Hr'. apply elem_of_cons in Hr' as [->|Hr'];
          [by left|by apply Hcov].
      * intros comp x Hc Hx. destruct (Horig comp x Hc Hx) as [?|?];
          [left; by right|by right].
    + destruct (dfs fuel nbrs ({[r]} ∪ visited) [r] []) as [[v1 comp]|] eqn:Hdfs;
        [|done]. simpl.
      destruct (components fuel nbrs roots v1) as [comps'|] eqn:Hrest; [|done].
      simpl. intros [= <-].
      apply dfs_spec in Hdfs
        as (new & Hcomp & Hnew_nd & Hnew_from & Hall & -> & Hhead & Hdorig & _).
      2: apply NoDup_singleton.
      2: { intros x Hx. apply list_elem_of_singleton in Hx as ->. set_solver. }
      simpl in Hcomp. subst comp.
      destruct (Hhead r [] eq_refl) as [new' ->].
      destruct (IH _ _ Hrest) as (Hnd & Hfresh & Hcov & Hne & Hsl & Horig).
      assert (Hnewv : ∀ x, x ∈ r :: new' → x ∉ visited).
      { intros x Hx. destruct (Hnew_from x Hx) as [Hs|Hv]; [|set_solver].
        by apply list_elem_of_singleton in Hs as ->. }
      change (concat ((r :: new') :: comps'))
        with ((r :: new') ++ concat comps').
      split_and!.
      * apply NoDup_app. split_and!; [done| |done].
        intros x Hx Hx'. apply (Hfresh x Hx'). set_solver.
      * intros x Hx. apply elem_of_app in Hx as [Hx|Hx];
          [by apply Hnewv|]. specialize (Hfresh x Hx). set_solver.
      * intros r' Hr'.
        apply elem_of_cons in Hr' as [->|Hr'].
        { right. apply elem_of_app. left. left. }
        destruct (Hcov r' Hr') as [Hv|Hc].
        2: { right. apply elem_of_app. by right. }
        apply elem_of_union in Hv as [Hv|Hv].
        { right. apply elem_of_app. left. by apply elem_of_list_to_set in Hv. }
        apply elem_of_union in Hv as [Hv|Hv]; [|by left].
        apply elem_of_singleton in Hv as ->.
        right. apply elem_of_app. left. left.
      * constructor; [done|done].
      * simpl. by apply sublist_skip.
      * intros comp x Hc Hx. apply elem_of_cons in Hc as [->|Hc].
        -- destruct (Hdorig x Hx) as [Hs|?]; [|by right].
           apply list_elem_of_singleton in Hs as ->. left. left.
        -- destruct (Horig comp x Hc Hx) as [?|?]; [left; by right|by right].
Qed.

(** With a symmetric neighbour relation every component is closed: the
    neighbours of its members are members. *)
Lemma components_closed fuel nbrs roots visited comps :
  (∀ a b, b ∈ nbrs a → a ∈ nbrs b) →
  (∀ x nb, x ∈ visited → nb ∈ nbrs x → nb ∈ visited) →
  components fuel nbrs roots visited = Some comps →
  ∀ comp x nb, comp ∈ comps → x ∈ comp → nb ∈ nbrs x → nb ∈ comp.
Proof.
  intros Hsym. revert visited comps.
  induction roots as [|r roots IH]; intros visited comps Hclosed; simpl.
  - intros [= <-] comp x nb Hc. by apply elem_of_nil in Hc.
  - destruct (decide (r ∈ visited)) as [Hr|Hr]; [by apply IH|].
    destruct (dfs fuel nbrs ({[r]} ∪ visited) [r] []) as [[v1 comp0]|] eqn:Hdfs;
      [|done]. simpl.
    destruct (components fuel nbrs roots v1) as [comps'|] eqn:Hrest; [|done].
    simpl. intros [= <-].
    apply dfs_spec in Hdfs
      as (new & Hcomp & Hnew_nd & Hnew_from & Hall & -> & _ & _ & Hnbv).
    2: apply NoDup_singleton.
    2: { intros x Hx. apply list_elem_of_singleton in Hx as ->. set_solver. }
    simpl in Hcomp. subst comp0.
    assert (Hfresh : ∀ x, x ∈ new → x ∉ visited).
    { intros x Hx. destruct (Hnew_from x Hx) as [Hs|Hv]; [|set_solver].
      by apply list_elem_of_singleton in Hs as ->. }
    assert (Hnew_closed : ∀ x nb, x ∈ new → nb ∈ nbrs x → nb ∈ new).
    { intros x nb Hx Hnb. specialize (Hnbv x nb Hx Hnb).
      apply elem_of_union in Hnbv as [Hin|Hin];
        [by apply elem_of_list_to_set in Hin|].
      apply elem_of_union in Hin as [Hin|Hin].
      - apply elem_of_singleton in Hin as ->. apply Hall. left.
      - exfalso. apply (Hfresh x Hx). eapply Hclosed; [exact Hin|by apply Hsym]. }
    intros comp x nb Hc Hx Hnb. apply elem_of_cons in Hc as [->|Hc].
    + by eapply Hnew_closed.
    + eapply (IH _ _ _ Hrest); eauto.
      Unshelve.
      intros y nb' Hy Hnb'.
      apply elem_of_union in Hy as [Hy|Hy].
      * apply elem_of_list_to_set in Hy. apply elem_of_union_l, elem_of_list_to_set.
        by eapply Hnew_closed.
      * apply elem_of_union in Hy as [Hy|Hy].
        -- apply elem_of_singleton in Hy as ->.
           apply elem_of_union_l, elem_of_list_to_set.
           eapply Hnew_closed; [|done]. apply Hall. left.
        -- apply elem_of_union_r, elem_of_union_r. by eapply Hclosed.
Qed.

End DecomposeFacts.

(** ** Sorting *)

Section SortFacts.
Context {A : Type} (leb : A → A → bool).

Lemma insertSorted_perm (a : A) (l : list A) :
  JS.insertSorted leb a l ≡ₚ a :: l.
Proof.
  induction l as [|b l IH]; simpl; [done|].
  destruct (leb b a); [|done]. rewrite IH. apply Permutation_swap.
Qed.

Lemma sortBy_perm (l : list A) : JS.sortBy leb l ≡ₚ l.
Proof.
  unfold JS.sortBy.
  enough (H : ∀ acc, foldl (λ acc a, JS.insertSorted leb a acc) acc l ≡ₚ acc ++ l)
    by apply (H []).
  induction l as [|a l IH]; intros acc; simpl; [by rewrite app_nil_r|].
  rewrite IH, insertSorted_perm. simpl. apply Permutation_middle.
Qed.

Lemma elem_of_sortBy (l : list A) (a : A) : a ∈ JS.sortBy leb l ↔ a ∈ l.
Proof. by rewrite sortBy_perm. Qed.

(** With a total, transitive comparator the result is sorted. *)
Context (leb_total : ∀ a b, leb a b = true ∨ leb b a = true).
Context (leb_trans : ∀ a b c, leb a b = true → leb b c = true → leb a c = true).

Lemma insertSorted_sorted (a : A) (l : list A) :
  StronglySorted (λ x y, leb x y = true) l →
  StronglySorted (λ x y, leb x y = true) (JS.insertSorted leb a l).
Proof.
  induction 1 as [|b l Hl IH Hb]; simpl; [repeat constructor|].
  destruct (leb b a) eqn:Hba.
  - constructor; [done|]. rewrite insertSorted_perm. by constructor.
  - assert (Hab : leb a b = true) by (destruct (leb_total a b); congruence).
    constructor; [by constructor|]. constructor; [done|].
    eapply Forall_impl; [exact Hb|]. intros c Hc. by eapply leb_trans.
Qed.

Lemma sortBy_sorted (l : list A) :
  StronglySorted (λ x y, leb x y = true) (JS.sortBy leb l).
Proof.
  unfold JS.sortBy.
  enough (H : ∀ acc, StronglySorted (λ x y, leb x y = true) acc →
                StronglySorted (λ x y, leb x y = true)
                  (foldl (λ acc a, JS.insertSorted leb a acc) acc l))
    by (apply H; constructor).
  induction l as [|a l IH]; intros acc Hacc; simpl; [done|].
  by apply IH, insertSorted_sorted.
Qed.

End SortFacts.

Lemma localeLeb_total (a b : string) :
  JS.localeLeb a b = true ∨ JS.localeLeb b a = true.
Proof. apply String.leb_total. Qed.

Lemma localeLeb_antisym (a b : string) :
  JS.localeLeb a b = true → JS.localeLeb b a = true → a = b.
Proof. apply String.leb_antisym. Qed.

Lemma string_compare_trans (a b c : string) :
  String.compare a b = Lt → String.compare b c = Lt → String.compare a c = Lt.
Proof.
  revert b c; induction a as [|x a IH]; intros [|y b] [|z c]; simpl; try done.
  destruct (Ascii.compare x y) eqn:Hxy, (Ascii.compare y z) eqn:Hyz; try done.
  - apply Ascii.compare_eq_iff in Hxy as ->, Hyz as ->.
    unfold Ascii.compare. rewrite N.compare_refl. apply IH.
  - apply Ascii.compare_eq_iff in Hxy as ->. by rewrite Hyz.
  - apply Ascii.compare_eq_iff in Hyz as <-. by rewrite Hxy.
  - intros _ _.
    unfold Ascii.compare in *. rewrite N.compare_lt_iff in *.
    assert (H : (Ascii.N_of_ascii x < Ascii.N_of_ascii z)%N) by lia.
    apply N.compare_lt_iff in H. by rewrite H.
Qed.

Lemma localeLeb_trans (a b c : string) :
  JS.localeLeb a b = true → JS.localeLeb b c = true → JS.localeLeb a c = true.
Proof.
  unfold JS.localeLeb, String.leb.
  destruct (String.compare a b) eqn:Hab; try done;
    destruct (String.compare b c) eqn:Hbc; try done; intros _ _.
  - apply String.compare_eq_iff in Hab as ->. by rewrite Hbc.
  - apply String.compare_eq_iff in Hab as ->. by rewrite Hbc.
  - apply String.compare_eq_iff in Hbc as <-. by rewrite Hab.
  - by rewrite (string_compare_trans _ _ _ Hab Hbc).
Qed.

(** ** Enough fuel for the traversals *)

Section DecomposeFuel.
Import Decompose.
Context (nbrs : string → list string) (U : gset string).
Context (nbrs_in : ∀ cur x, x ∈ nbrs cur → x ∈ U).

Lemma size_difference_pushed (visited : gset string) (new : list string) :
  NoDup new →
  (∀ x, x ∈ new → x ∉ visited ∧ x ∈ U) →
  size (U ∖ (list_to_set new ∪ visited)) + length new = size (U ∖ visited).
Proof.
  intros Hnd Hnew.
  rewrite <- (size_list_to_set (C := gset string) new Hnd).
  rewrite <- size_union.
  - f_equal. apply set_eq. intros x.
    rewrite elem_of_union, !elem_of_difference, elem_of_union, elem_of_list_to_set.
    split; [intros [[? ?]|Hx]|intros [? ?]].
    + tauto.
    + destruct (Hnew x Hx). tauto.
    + destruct (decide (x ∈ new)); tauto.
  - intros x. rewrite elem_of_difference, elem_of_union. tauto.
Qed.

Lemma dfs_fuel fuel visited stack comp :
  length stack + size (U ∖ visited) ≤ fuel →
  is_Some (dfs fuel nbrs visited stack comp).
Proof.
  revert visited stack comp.
  induction fuel as [|fuel IH]; intros visited stack comp Hfuel.
  - destruct stack; simpl in *; [eauto|lia].
  - destruct stack as [|cur rest]; simpl; [eauto|].
    destruct (pushUnvisited (nbrs cur) (visited, rest)) as [v1 s1] eqn:Hpush.
    apply pushUnvisited_spec in Hpush as (new & -> & -> & Hnd & Hnew & _).
    apply IH. rewrite length_app.
    pose proof (size_difference_pushed visited new Hnd) as Hsz.
    rewrite <- Hsz in Hfuel; [simpl in Hfuel; lia|].
    intros x Hx. destruct (Hnew x Hx). split; [done|by eapply nbrs_in].
Qed.

Lemma components_fuel fuel roots visited :
  S (size U) ≤ fuel →
  is_Some (components fuel nbrs roots visited).
Proof.
  intros Hfuel. revert visited.
  induction roots as [|r roots IH]; intros visited; simpl; [eauto|].
  destruct (decide (r ∈ visited)); [apply IH|].
  destruct (dfs_fuel fuel ({[r]} ∪ visited) [r] []) as [[v1 comp] ->].
  { simpl. assert (Hsub : U ∖ ({[r]} ∪ visited) ⊆ U) by set_solver.
    apply subseteq_size in Hsub. lia. }
  simpl. destruct (IH v1) as [comps ->]. simpl. eauto.
Qed.

End DecomposeFuel.

Lemma elem_of_adjIds (adj : Adjacency) (k : string) (nbs : list string) x :
  adj !! k = Some nbs → x ∈ nbs → x ∈ Decompose.adjIds adj.
Proof.
  intros Hk Hx. unfold Decompose.adjIds. apply elem_of_union_r.
  apply elem_of_union_list. exists (list_to_set nbs). split.
  - apply list_elem_of_fmap. exists (k, nbs). split; [done|].
    by apply elem_of_map_to_list.
  - by apply elem_of_list_to_set.
Qed.

(** The component spread never runs out of fuel. *)
Lemma spread_componentIds_total (g : Graph) :
  is_Some (ComponentSpread.componentIds g).
Proof.
  unfold ComponentSpread.componentIds.
  eapply components_fuel; [|unfold Decompose.fuelFor; reflexivity].
  intros cur x. unfold ComponentSpread.sortedNeighbors.
  destruct (ComponentSpread.buildAdj (getEdges g) !! cur) as [nbs|] eqn:Hcur.
  - rewrite elem_of_sortBy. intros Hx.
    apply elem_of_union_l. by eapply elem_of_adjIds.
  - intros Hx. by apply elem_of_nil in Hx.
Qed.

(** ** Component spread is a rigid motion of each component *)

Section SpreadRigid.
Local Open Scope R_scope.
Import ComponentSpread.

(** Euclidean distance between two positions. *)
Definition distance (p q : Pos) : R :=
  sqrt ((px p - px q) * (px p - px q) + (py p - py q) * (py p - py q)).

(** The position of a node before the layout ([m.x], [m.y]). *)
Definition oldPos (n : Node) : Pos := mkPos (n_x n) (n_y n).

Lemma placeNode_isometry center targetCenter cosA sinA a b :
  cosA * cosA + sinA * sinA = 1 →
  distance (placeNode center targetCenter cosA sinA a)
           (placeNode center targetCenter cosA sinA b)
  = distance (oldPos a) (oldPos b).
Proof.
  intros Hunit. unfold distance, placeNode, oldPos; simpl. f_equal.
  set (dx := n_x a - n_x b). set (dy := n_y a - n_y b).
  transitivity ((dx * dx + dy * dy) * (cosA * cosA + sinA * sinA));
    [subst dx dy; ring|rewrite Hunit; ring].
Qed.

Lemma cos_sin_unit (a : R) : cos a * cos a + sin a * sin a = 1.
Proof. pose proof (sin2_cos2 a) as H. unfold Rsqr in H. lra. Qed.

(** Writes of one component into the target map. *)
Lemma foldl_insert_other (f : Node → Pos) (comp : list Node) (t : Targets) k :
  k ∉ (n_id <$> comp) →
  foldl (λ t node, <[n_id node := f node]> t) t comp !! k = t !! k.
Proof.
  revert t; induction comp as [|n comp IH]; intros t Hk; simpl; [done|].
  rewrite fmap_cons, not_elem_of_cons in Hk. destruct Hk as [Hne Hk].
  rewrite IH by done. by rewrite lookup_insert_ne.
Qed.

Lemma foldl_insert_member (f : Node → Pos) (comp : list Node) (t : Targets) n :
  NoDup (n_id <$> comp) → n ∈ comp →
  foldl (λ t node, <[n_id node := f node]> t) t comp !! n_id n = Some (f n).
Proof.
  revert t; induction comp as [|m comp IH]; intros t Hnd Hn; simpl.
  - by apply elem_of_nil in Hn.
  - rewrite fmap_cons in Hnd. apply NoDup_cons in Hnd as [Hm Hnd].
    apply elem_of_cons in Hn as [->|Hn]; [|by apply IH].
    rewrite foldl_insert_other by done. apply lookup_insert_eq.
Qed.

Lemma placeComponent_other dc orbit span t c meta k :
  k ∉ (n_id <$> m_comp meta) →
  (placeComponent dc orbit span (t, c) meta).1 !! k = t !! k.
Proof. intros Hk. unfold placeComponent; simpl. by apply foldl_insert_other. Qed.

Lemma placeAll_other dc orbit span metas st k :
  k ∉ (n_id <$> concat (m_comp <$> metas)) →
  (foldl (placeComponent dc orbit span) st metas).1 !! k = st.1 !! k.
Proof.
  revert st; induction metas as [|meta metas IH]; intros [t c] Hk; [done|].
  rewrite fmap_cons, concat_cons, fmap_app, not_elem_of_app in Hk.
  destruct Hk as [Hk1 Hk2].
  simpl foldl. rewrite IH by done. by apply placeComponent_other.
Qed.

(** After all components are placed, the members of each component carry
    the image of their old position under one rotation and translation. *)
Lemma placeAll_member dc orbit span metas st meta :
  NoDup (n_id <$> concat (m_comp <$> metas)) →
  meta ∈ metas →
  ∃ targetCenter cosA sinA,
    cosA * cosA + sinA * sinA = 1
    ∧ ∀ n, n ∈ m_comp meta →
        (foldl (placeComponent dc orbit span) st metas).1 !! n_id n
        = Some (placeNode (m_center meta) targetCenter cosA sinA n).
Proof.
  revert st; induction metas as [|m metas IH]; intros [t c] Hnd Hmeta.
  - by apply elem_of_nil in Hmeta.
  - rewrite fmap_cons, concat_cons, fmap_app in Hnd.
    apply NoDup_app in Hnd as (Hnd1 & Hdisj & Hnd2).
    apply elem_of_cons in Hmeta as [->|Hmeta].
    + simpl foldl.
      set (angleSpan := (m_radius m * 2 + gap) / span * PI * 2).
      set (midAngle := c + angleSpan / 2).
      exists (mkPos (px dc + orbit * cos midAngle) (py dc + orbit * sin midAngle)),
             (cos (midAngle + PI / 2)), (sin (midAngle + PI / 2)).
      split; [apply cos_sin_unit|]. intros n Hn.
      rewrite placeAll_other.
      * unfold placeComponent; simpl. by apply foldl_insert_member.
      * apply Hdisj. by apply list_elem_of_fmap_2.
    + simpl foldl. destruct (placeComponent dc orbit span (t, c) m) as [t1 c1].
      by apply IH.
Qed.

(** Every node of a component was found under the id that the traversal
    recorded, so ids are not repeated across the components. *)
Lemma omap_findById_ids (g : Graph) (ids : list string) :
  (n_id <$> omap (findById g) ids) `sublist_of` ids.
Proof.
  induction ids as [|i ids IH]; simpl; [done|].
  destruct (findById g i) as [n|] eqn:Hfind; simpl.
  - unfold findById in Hfind. apply find_some in Hfind as [_ Hid].
    apply bool_decide_eq_true in Hid. rewrite Hid. by apply sublist_skip.
  - by apply sublist_cons.
Qed.

Lemma components_ids_NoDup (g : Graph) :
  NoDup (n_id <$> concat (components g)).
Proof.
  unfold components. destruct (componentIds g) as [comps|] eqn:Hids;
    [|constructor].
  apply components_spec in Hids as (Hnd & _).
  enough (Hsub : (n_id <$> concat
            (filter (λ comp : list Node, length comp ≠ 0%nat)
               ((λ ids : list string, omap (findById g) ids) <$> comps)))
          `sublist_of` concat comps)
    by (eapply sublist_NoDup; eassumption).
  clear Hnd. induction comps as [|ids comps IH]; simpl; [done|].
  rewrite filter_cons. destruct (decide _).
  - rewrite concat_cons, fmap_app.
    apply sublist_app; [apply omap_findById_ids|apply IH].
  - etransitivity; [apply IH|]. by apply sublist_inserts_l.
Qed.

(** C4: component spread moves each component rigidly: for two nodes of
    the same connected component, the distance between their target
    positions equals the distance between their old positions. *)
Theorem spread_preserves_distances (g : Graph) (targets : Targets)
    (comp : list Node) (a b : Node) :
  spreadDisconnectedComponents g = Some targets →
  comp ∈ components g → a ∈ comp → b ∈ comp →
  ∃ ta tb,
    targets !! n_id a = Some ta
    ∧ targets !! n_id b = Some tb
    ∧ distance ta tb = distance (oldPos a) (oldPos b).
Proof.
  unfold spreadDisconnectedComponents.
  destruct (decide (length (getNodes g) < 2)%nat); [done|].
  destruct (decide (length (components g) < 2)%nat); [done|].
  intros [= <-] Hcomp Ha Hb.
  set (metas := compMeta <$> components g).
  assert (Hcomps : m_comp <$> metas = components g).
  { subst metas. rewrite <- list_fmap_compose. apply list_fmap_id. }
  destruct (placeAll_member (mkPos (g_width g / 2) (g_height g / 2))
              (orbitRadius metas) (totalSpan metas) metas
              (∅, - PI / 2) (compMeta comp))
    as (tc & cosA & sinA & Hunit & Hplaced).
  - rewrite Hcomps. apply components_ids_NoDup.
  - subst metas. by apply list_elem_of_fmap_2.
  - exists (placeNode (m_center (compMeta comp)) tc cosA sinA a),
           (placeNode (m_center (compMeta comp)) tc cosA sinA b).
    split_and!; [by apply Hplaced|by apply Hplaced|].
    by apply placeNode_isometry.
Qed.

End SpreadRigid.

Section SpreadExample.
Local Open Scope R_scope.
Import ComponentSpread.

Definition box (x0 y0 w h : R) : BBox :=
  mkBBox x0 (x0 + w) y0 (y0 + h) (x0 + w / 2) (y0 + h / 2) w h.

(** A table with one column, and a second table without any. *)
Definition demoE1 : Node := mkNode "entity-a-0" entity 100 100 None (box 40 70 120 60).
Definition demoA1 : Node :=
  mkNode "attr-a-id-0-0" attribute 100 220 (Some "entity-a-0") (box 60 200 80 40).
Definition demoE2 : Node := mkNode "entity-b-1" entity 400 100 None (box 340 70 120 60).

Definition demoGraph : Graph :=
  mkGraph [demoE1; demoA1; demoE2]
          [mkEdge "entity-a-0" "attr-a-id-0-0"] 1200 800.

Lemma demoGraph_components : components demoGraph = [[demoA1; demoE1]; [demoE2]].
Proof. vm_compute. reflexivity. Qed.

Lemma spread_runs (g : Graph) :
  (2 ≤ length (getNodes g))%nat → (2 ≤ length (components g))%nat →
  is_Some (spreadDisconnectedComponents g).
Proof.
  intros Hn Hc. unfold spreadDisconnectedComponents.
  destruct (decide _); [lia|]. destruct (decide _); [lia|]. eauto.
Qed.

Lemma spread_preserves_distances_witness :
  ∃ targets ta tb,
    spreadDisconnectedComponents demoGraph = Some targets
    ∧ targets !! "entity-a-0" = Some ta
    ∧ targets !! "attr-a-id-0-0" = Some tb
    ∧ distance ta tb = distance (oldPos demoE1) (oldPos demoA1).
Proof.
  destruct (spread_runs demoGraph) as [targets Hrun].
  - simpl. lia.
  - rewrite demoGraph_components. simpl. lia.
  - destruct (spread_preserves_distances demoGraph targets
                [demoA1; demoE1] demoE1 demoA1 Hrun)
      as (ta & tb & Ha & Hb & Hd).
    + rewrite demoGraph_components. left.
    + right. left.
    + left.
    + exists targets, ta, tb. by split_and!.
Defined.

End SpreadExample.

(** ** The three component decompositions *)

Section DecompositionOrder.

(** The decomposition in the words of the specification: undirected
    adjacency from the edges, depth-first stack, roots taken from the ids
    in sorted order, neighbours visited in sorted order. *)
Definition undirectedAdj (edges : list Edge) : Adjacency :=
  foldl (λ adj e, addEdge adj (e_source e) (e_target e)) ∅ edges.

Definition sortedDecomposition (ids : list string) (edges : list Edge)
    : option (list (list string)) :=
  let adj := undirectedAdj edges in
  let roots := JS.sortBy JS.localeLeb ids in
  Decompose.components (Decompose.fuelFor adj roots)
    (λ cur, JS.sortBy JS.localeLeb (default [] (adj !! cur))) roots ∅.

(** An ordered partition of [ids]: no id twice, every id somewhere, no
    empty component. *)
Definition OrderedPartition (ids : list string) (comps : list (list string)) : Prop :=
  NoDup (concat comps)
  ∧ (∀ i, i ∈ ids → i ∈ concat comps)
  ∧ Forall (λ comp, comp ≠ []) comps.

(** The first id of each component, in component order. *)
Definition roots (comps : list (list string)) : list string := omap head comps.

Definition idLe (a b : string) : Prop := JS.localeLeb a b = true.

Lemma insertSorted_fmap {A B} (f : A → B) (leb : B → B → bool) a (l : list A) :
  f <$> JS.insertSorted (λ x y, leb (f x) (f y)) a l
  = JS.insertSorted leb (f a) (f <$> l).
Proof.
  induction l as [|b l IH]; [done|].
  rewrite fmap_cons. cbn [JS.insertSorted].
  destruct (leb (f b) (f a)); rewrite !fmap_cons; [by rewrite IH|done].
Qed.

Lemma sortBy_fmap {A B} (f : A → B) (leb : B → B → bool) (l : list A) :
  f <$> JS.sortBy (λ x y, leb (f x) (f y)) l = JS.sortBy leb (f <$> l).
Proof.
  unfold JS.sortBy.
  enough (H : ∀ acc,
    f <$> foldl (λ acc a, JS.insertSorted (λ x y, leb (f x) (f y)) a acc) acc l
    = foldl (λ acc a, JS.insertSorted leb a acc) (f <$> acc) (f <$> l))
    by apply (H []).
  induction l as [|a l IH]; intros acc; [done|].
  rewrite fmap_cons. cbn [foldl]. by rewrite IH, insertSorted_fmap.
Qed.

Lemma StronglySorted_sublist {A} (R : relation A) (l k : list A) :
  l `sublist_of` k → StronglySorted R k → StronglySorted R l.
Proof.
  induction 1 as [|x l k Hsub IH|x l k Hsub IH]; intros Hk; [done| |].
  - apply StronglySorted_inv in Hk as [Hk Hx]. constructor; [by apply IH|].
    rewrite Forall_forall in Hx |- *. intros y Hy.
    apply Hx. by eapply elem_of_sublist.
  - apply StronglySorted_inv in Hk as [Hk _]. by apply IH.
Qed.

Lemma sortedNeighbors_default (adj : Adjacency) (cur : string) :
  match adj !! cur with
  | None => []
  | Some neighbors => JS.sortBy JS.localeLeb neighbors
  end = JS.sortBy JS.localeLeb (default [] (adj !! cur)).
Proof. by destruct (adj !! cur). Qed.

Lemma components_ext fuel nbrs nbrs' rs visited :
  (∀ cur, nbrs cur = nbrs' cur) →
  Decompose.components fuel nbrs rs visited
  = Decompose.components fuel nbrs' rs visited.
Proof.
  intros Hext.
  assert (Hdfs : ∀ v s c, Decompose.dfs fuel nbrs v s c = Decompose.dfs fuel nbrs' v s c).
  { induction fuel as [|fuel IH]; intros v s c; destruct s; simpl; try done.
    rewrite Hext. destruct (Decompose.pushUnvisited _ _). apply IH. }
  revert visited. induction rs as [|r rs IH]; intros visited; simpl; [done|].
  destruct (decide _); [apply IH|]. rewrite Hdfs.
  destruct (Decompose.dfs fuel nbrs' _ _ _) as [[v1 comp]|]; simpl; [|done].
  by rewrite IH.
Qed.

(** Component spread runs the sorted traversal. *)
Lemma spread_componentIds_sorted (g : Graph) :
  ComponentSpread.componentIds g
  = sortedDecomposition (n_id <$> getNodes g) (getEdges g).
Proof.
  unfold ComponentSpread.componentIds, sortedDecomposition,
    ComponentSpread.sortedNodes.
  rewrite (sortBy_fmap n_id JS.localeLeb).
  apply components_ext. intros cur. apply sortedNeighbors_default.
Qed.

(** Initial placement runs the sorted traversal. *)
Lemma initial_componentIds_sorted nodes edges :
  InitialLayout.componentIds nodes edges
  = sortedDecomposition (InitialLayout.d_id <$> nodes) edges.
Proof.
  unfold InitialLayout.componentIds, sortedDecomposition,
    InitialLayout.sortedNodes.
  rewrite (sortBy_fmap InitialLayout.d_id JS.localeLeb).
  apply components_ext. intros cur. apply sortedNeighbors_default.
Qed.

(** What the sorted traversal guarantees. *)
Lemma sortedDecomposition_spec ids edges :
  ∃ comps,
    sortedDecomposition ids edges = Some comps
    ∧ OrderedPartition ids comps
    ∧ StronglySorted idLe (roots comps).
Proof.
  unfold sortedDecomposition.
  destruct (components_fuel
              (λ cur, JS.sortBy JS.localeLeb (default [] (undirectedAdj edges !! cur)))
              (Decompose.adjIds (undirectedAdj edges)
                 ∪ list_to_set (JS.sortBy JS.localeLeb ids))
              ltac:(intros cur x; rewrite elem_of_sortBy;
                    destruct (undirectedAdj edges !! cur) as [nbs|] eqn:Hcur; simpl;
                    [intros Hx; apply elem_of_union_l; by eapply elem_of_adjIds
                    |intros Hx; by apply elem_of_nil in Hx])
              (Decompose.fuelFor (undirectedAdj edges) (JS.sortBy JS.localeLeb ids))
              (JS.sortBy JS.localeLeb ids) ∅ ltac:(reflexivity))
    as [comps Hrun].
  exists comps. split; [done|].
  apply components_spec in Hrun as (Hnd & _ & Hcov & Hne & Hsub & _).
  split; [split_and!; [done| |done]|].
  - intros i Hi. destruct (Hcov i) as [Hv|Hc]; [by apply elem_of_sortBy|set_solver|done].
  - eapply StronglySorted_sublist; [exact Hsub|].
    apply sortBy_sorted; [apply localeLeb_total|apply localeLeb_trans].
Qed.

(** What the traversal of force-align guarantees: a partition of the core
    nodes whose components come in the order of the node list. *)
Lemma forceAlign_components_spec allNodes edges :
  ∃ comps,
    ForceAlign.components allNodes edges = Some comps
    ∧ OrderedPartition (n_id <$> ForceAlign.coreNodes allNodes) comps
    ∧ roots comps `sublist_of` (n_id <$> ForceAlign.coreNodes allNodes).
Proof.
  unfold ForceAlign.components.
  set (adj := ForceAlign.coreAdj (ForceAlign.nodeMap allNodes) edges).
  set (rs := n_id <$> ForceAlign.coreNodes allNodes).
  destruct (components_fuel (ForceAlign.neighborsOf adj)
              (Decompose.adjIds adj ∪ list_to_set rs)
              ltac:(intros cur x; unfold ForceAlign.neighborsOf;
                    destruct (adj !! cur) as [nbs|] eqn:Hcur; simpl;
                    [intros Hx; apply elem_of_union_l; by eapply elem_of_adjIds
                    |intros Hx; by apply elem_of_nil in Hx])
              (Decompose.fuelFor adj rs) rs ∅ ltac:(reflexivity))
    as [comps Hrun].
  exists comps. split; [done|].
  apply components_spec in Hrun as (Hnd & _ & Hcov & Hne & Hsub & _).
  split; [split_and!; [done| |done]|done].
  intros i Hi. destruct (Hcov i Hi) as [Hv|Hc]; [set_solver|done].
Qed.

(** Tables declared in the order b, a, c, with one foreign key from c to b. *)
Definition unitBox : BBox := mkBBox 0 1 0 1 (1 / 2) (1 / 2) 1 1.

Definition tablesBAC : list Node :=
  [ mkNode "entity-b-0" entity 0 0 None unitBox;
    mkNode "entity-a-1" entity 0 0 None unitBox;
    mkNode "entity-c-2" entity 0 0 None unitBox;
    mkNode "rel-c-b-fk-0" relationship 0 0 None unitBox ].

Definition edgesBAC : list Edge :=
  [ mkEdge "entity-c-2" "rel-c-b-fk-0"; mkEdge "rel-c-b-fk-0" "entity-b-0" ].



End DecompositionOrder.

(** ** The main chain of force-align *)

Section MainChain.
Import ForceAlign.

(** [b] is listed among the neighbours of [a]. *)
Definition adjacent (adj : Adjacency) (a b : string) : Prop :=
  b ∈ neighborsOf adj a.

(** Consecutive ids of the list are adjacent. *)
Fixpoint isPath (adj : Adjacency) (p : list string) : Prop :=
  match p with
  | a :: (b :: _) as p' => adjacent adj a b ∧ isPath adj p'
  | _ => True
  end.

(** A simple path through the subgraph induced by [allowed]. *)
Definition SimplePath (adj : Adjacency) (allowed : gset string)
    (p : list string) : Prop :=
  p ≠ [] ∧ NoDup p ∧ (∀ x, x ∈ p → x ∈ allowed) ∧ isPath adj p.

Definition LongestSimplePath (adj : Adjacency) (allowed : gset string)
    (p : list string) : Prop :=
  SimplePath adj allowed p
  ∧ ∀ q, SimplePath adj allowed q → length q ≤ length p.

(** Two tables, the first with two foreign keys to the second. *)
Definition tablesTwoKeys : list Node :=
  [ mkNode "entity-a-0" entity 0 0 None unitBox;
    mkNode "entity-b-1" entity 0 0 None unitBox;
    mkNode "rel-a-b-x-0" relationship 0 0 None unitBox;
    mkNode "rel-a-b-y-1" relationship 0 0 None unitBox ].

Definition edgesTwoKeys : list Edge :=
  [ mkEdge "entity-a-0" "rel-a-b-x-0"; mkEdge "rel-a-b-x-0" "entity-b-1";
    mkEdge "entity-a-0" "rel-a-b-y-1"; mkEdge "rel-a-b-y-1" "entity-b-1" ].

Definition adjTwoKeys : Adjacency := coreAdj (nodeMap tablesTwoKeys) edgesTwoKeys.

Definition compTwoKeys : list string :=
  ["entity-a-0"; "rel-a-b-y-1"; "entity-b-1"; "rel-a-b-x-0"].

Lemma twoKeys_component :
  components tablesTwoKeys edgesTwoKeys = Some [compTwoKeys].
Proof. vm_compute. reflexivity. Qed.

Lemma twoKeys_chain :
  findLongestPath adjTwoKeys compTwoKeys
  = Some ["entity-b-1"; "rel-a-b-x-0"; "entity-a-0"].
Proof. vm_compute. reflexivity. Qed.

End MainChain.

Section BfsInvariant.
Import ForceAlign.
Context (adj : Adjacency) (allowed : gset string) (start : string).

(** An edge the search may follow: to a listed neighbour that is allowed. *)
Definition edge (u v : string) : Prop := adjacent adj u v ∧ v ∈ allowed.

(** [walk v k]: [v] is reached from [start] along [k] edges. *)
Inductive walk : string → nat → Prop :=
  | walk_start : walk start 0
  | walk_step u v k : walk u k → edge u v → walk v (S k).

(** Recorded distance, [0] when there is none. *)
Definition dof (st : Bfs) (v : string) : nat := default 0 (b_dist st !! v).

(** Facts about the maps that hold throughout the search. *)
Record TreeInv (st : Bfs) : Prop := mkTreeInv {
  ti_start : b_dist st !! start = Some 0;
  ti_zero : ∀ v, b_dist st !! v = Some 0 → v = start;
  ti_tree : ∀ v d, b_dist st !! v = Some (S d) →
            ∃ u, b_prev st !! v = Some u ∧ b_dist st !! u = Some d ∧ edge u v;
  ti_prev : ∀ v u, b_prev st !! v = Some u → ∃ d, b_dist st !! v = Some (S d);
  ti_dom : ∀ v, is_Some (b_dist st !! v) → v = start ∨ v ∈ allowed;
  ti_queue : ∀ q, q ∈ b_queue st → is_Some (b_dist st !! q);
  ti_nodup : NoDup (b_queue st);
  ti_order : ∀ v, v ∈ b_order st ↔ is_Some (b_dist st !! v)
}.

(** [u] has been expanded: each of its edges leads to a recorded node at
    most one level further. *)
Definition closed (st : Bfs) (u : string) : Prop :=
  ∀ v, edge u v → ∃ dv, b_dist st !! v = Some dv ∧ dv ≤ S (dof st u).

(** Between two iterations of the [while] loop. *)
Record LoopInv (st : Bfs) : Prop := mkLoopInv {
  li_tree : TreeInv st;
  li_closed : ∀ u, is_Some (b_dist st !! u) → u ∉ b_queue st → closed st u;
  li_sorted : StronglySorted le (dof st <$> b_queue st);
  li_level : ∀ q v, q ∈ b_queue st → is_Some (b_dist st !! v) →
             dof st v ≤ S (dof st q)
}.

(** While the neighbours of [cur] are visited; [seen] are those already
    handled. *)
Record VisitInv (cur : string) (seen : list string) (st : Bfs) : Prop := mkVisitInv {
  vi_tree : TreeInv st;
  vi_closed : ∀ u, is_Some (b_dist st !! u) → u ∉ b_queue st → u ≠ cur →
              closed st u;
  vi_sorted : StronglySorted le (dof st <$> b_queue st);
  vi_cur : is_Some (b_dist st !! cur);
  vi_cur_out : cur ∉ b_queue st;
  vi_low : ∀ q, q ∈ b_queue st → dof st cur ≤ dof st q;
  vi_high : ∀ v, is_Some (b_dist st !! v) → dof st v ≤ S (dof st cur);
  vi_seen : ∀ v, v ∈ seen → v ∈ allowed →
            ∃ dv, b_dist st !! v = Some dv ∧ dv ≤ S (dof st cur)
}.

(** Number of loop iterations still possible. *)
Definition measure (st : Bfs) : nat :=
  length (b_queue st) + size (allowed ∖ dom (b_dist st)).

Lemma dof_insert_other st nb d v :
  b_dist st !! nb = None → is_Some (b_dist st !! v) →
  default 0 (<[nb := d]> (b_dist st) !! v) = dof st v.
Proof.
  intros Hnb [dv Hv]. unfold dof.
  rewrite lookup_insert_ne; [done|]. intros ->. congruence.
Qed.

Lemma bfsVisit_inv cur seen st nb :
  adjacent adj cur nb →
  VisitInv cur seen st →
  VisitInv cur (seen ++ [nb]) (bfsVisit allowed cur st nb)
  ∧ measure (bfsVisit allowed cur st nb) = measure st.
Proof.
  intros Hadj [Ht Hcl Hso [dc Hcur] Hout Hlow Hhigh Hseen].
  assert (Hdc : dof st cur = dc) by (unfold dof; by rewrite Hcur).
  unfold bfsVisit. destruct (decide _) as [Hskip|Hnew].
  { split; [|done]. constructor; eauto.
    intros v Hv Hal. apply elem_of_app in Hv as [Hv|Hv]; [by apply Hseen|].
    apply list_elem_of_singleton in Hv as ->.
    destruct Hskip as [?|[dv Hdv]]; [done|].
    exists dv. split; [done|]. specialize (Hhigh nb (mk_is_Some _ _ Hdv)).
    unfold dof at 1 in Hhigh. by rewrite Hdv in Hhigh. }
  assert (Hal : nb ∈ allowed).
  { destruct (decide (nb ∈ allowed)); [done|]. exfalso. apply Hnew. by left. }
  assert (Hnone : b_dist st !! nb = None).
  { apply eq_None_not_Some. intros Hs. apply Hnew. by right. }
  destruct Ht as [Hstart Hzero Htree Hprev Hdom Hqueue Hnd Horder].
  assert (Hne : ∀ v, is_Some (b_dist st !! v) → v ≠ nb).
  { intros v [dv Hv] ->. congruence. }
  assert (Hdof : ∀ v, is_Some (b_dist st !! v) →
            default 0 (<[nb := default 0 (b_dist st !! cur) + 1]> (b_dist st) !! v)
            = dof st v).
  { intros v Hv. by apply dof_insert_other. }
  assert (Hdofnb :
            default 0 (<[nb := default 0 (b_dist st !! cur) + 1]> (b_dist st) !! nb)
            = S dc).
  { rewrite lookup_insert_eq, Hcur. simpl. lia. }
  split.
  - constructor; simpl.
    + constructor; simpl.
      * rewrite lookup_insert_ne; [done|]. apply not_eq_sym, Hne. eauto.
      * intros v. destruct (decide (v = nb)) as [->|Hv].
        -- rewrite lookup_insert_eq. intros [= H0]. lia.
        -- rewrite lookup_insert_ne by done. apply Hzero.
      * intros v d. destruct (decide (v = nb)) as [->|Hv].
        -- rewrite !lookup_insert_eq. rewrite Hcur. simpl. intros [= Hd].
           assert (d = dc) as -> by lia.
           exists cur. split_and!; [done| |by split].
           rewrite lookup_insert_ne; [done|]. apply not_eq_sym, Hne; eauto.
        -- rewrite !lookup_insert_ne by done. intros Hd.
           destruct (Htree v d Hd) as (u & Hu & Hdu & He).
           exists u. split_and!; [done| |done].
           rewrite lookup_insert_ne; [done|]. apply not_eq_sym, Hne. eauto.
      * intros v u. destruct (decide (v = nb)) as [->|Hv].
        -- rewrite !lookup_insert_eq. intros _. rewrite Hcur. simpl.
           exists dc. f_equal. lia.
        -- rewrite !lookup_insert_ne by done. apply Hprev.
      * intros v. destruct (decide (v = nb)) as [->|Hv]; [by right|].
        rewrite lookup_insert_ne by done. apply Hdom.
      * intros q Hq. apply elem_of_app in Hq as [Hq|Hq].
        -- rewrite lookup_insert_ne; [by apply Hqueue|].
           apply not_eq_sym, Hne. by apply Hqueue.
        -- apply list_elem_of_singleton in Hq as ->. rewrite lookup_insert_eq. eauto.
      * apply NoDup_app. split_and!; [done| |apply NoDup_singleton].
        intros q Hq Hq'. apply list_elem_of_singleton in Hq' as ->.
        by apply (Hne nb (Hqueue _ Hq)).
      * intros v. rewrite elem_of_app, list_elem_of_singleton, Horder.
        destruct (decide (v = nb)) as [->|Hv].
        -- rewrite lookup_insert_eq. split; eauto.
        -- rewrite lookup_insert_ne by done. tauto.
    + intros u Hu Hq Hcu. unfold closed, dof; simpl.
      rewrite not_elem_of_app, list_elem_of_singleton in Hq. destruct Hq as [Hq Hunb].
      rewrite lookup_insert_ne in Hu by done.
      intros v He. destruct (Hcl u Hu Hq Hcu v He) as (dv & Hdv & Hle).
      exists dv. rewrite lookup_insert_ne; [|apply not_eq_sym, Hne; eauto].
      split; [done|]. by rewrite lookup_insert_ne by done.
    + rewrite fmap_app. simpl.
      unfold dof at 2; simpl. rewrite Hdofnb.
      replace (dof _ <$> b_queue st) with (dof st <$> b_queue st).
      * apply StronglySorted_app_2; [|done|repeat constructor].
        intros a b Ha Hb. apply list_elem_of_singleton in Hb as ->.
        apply list_elem_of_fmap in Ha as (q & -> & Hq).
        rewrite <- Hdc. apply Hhigh. by apply Hqueue.
      * apply list_fmap_ext. intros i q Hq. unfold dof at 2; simpl.
        symmetry. apply Hdof, Hqueue. by eapply list_elem_of_lookup_2.
    + rewrite lookup_insert_ne; [eauto|]. apply not_eq_sym, Hne. eauto.
    + rewrite not_elem_of_app, list_elem_of_singleton. split; [done|].
      apply Hne. eauto.
    + intros q Hq. unfold dof; simpl.
      rewrite (Hdof cur) by eauto.
      apply elem_of_app in Hq as [Hq|Hq].
      * rewrite Hdof by (by apply Hqueue). by apply Hlow.
      * apply list_elem_of_singleton in Hq as ->. rewrite Hdofnb. lia.
    + intros v Hv. unfold dof; simpl. rewrite (Hdof cur) by eauto.
      destruct (decide (v = nb)) as [->|Hvn]; [rewrite Hdofnb; lia|].
      rewrite lookup_insert_ne in Hv by done. rewrite Hdof by done. by apply Hhigh.
    + intros v Hv Hval. unfold dof; simpl. rewrite (Hdof cur) by eauto.
      destruct (decide (v = nb)) as [->|Hvn].
      { exists (S dc). rewrite lookup_insert_eq, Hcur. simpl. split; [f_equal|]; lia. }
      apply elem_of_app in Hv as [Hv|Hv];
        [|by apply list_elem_of_singleton in Hv].
      destruct (Hseen v Hv Hval) as (dv & Hdv & Hle).
      exists dv. by rewrite lookup_insert_ne by done.
  - unfold measure; simpl. rewrite length_app; simpl.
    rewrite dom_insert_L.
    assert (Hsz : size (allowed ∖ dom (b_dist st))
                  = S (size (allowed ∖ ({[nb]} ∪ dom (b_dist st))))).
    { transitivity (size ({[nb]} ∪ allowed ∖ ({[nb]} ∪ dom (b_dist st)))).
      - f_equal. apply set_eq. intros x.
        rewrite elem_of_union, !elem_of_difference, elem_of_union, elem_of_singleton.
        split; [intros [Hx Hnx]|intros [->|[Hx Hnx]]].
        + destruct (decide (x = nb)); tauto.
        + split; [done|]. by rewrite not_elem_of_dom.
        + tauto.
      - rewrite size_union, size_singleton; [done|].
        intros x. rewrite elem_of_singleton, elem_of_difference, elem_of_union,
          elem_of_singleton. tauto. }
    lia.
Qed.

Lemma bfsVisit_fold_inv cur nbs seen st :
  (∀ nb, nb ∈ nbs → adjacent adj cur nb) →
  VisitInv cur seen st →
  VisitInv cur (seen ++ nbs) (foldl (bfsVisit allowed cur) st nbs)
  ∧ measure (foldl (bfsVisit allowed cur) st nbs) = measure st.
Proof.
  revert seen st. induction nbs as [|nb nbs IH]; intros seen st Hadj Hinv; simpl.
  - by rewrite app_nil_r.
  - destruct (bfsVisit_inv cur seen st nb) as [Hinv' Hm];
      [apply Hadj; left|done|].
    destruct (IH (seen ++ [nb]) (bfsVisit allowed cur st nb)) as [Hinv'' Hm'];
      [intros x Hx; apply Hadj; by right|done|].
    rewrite <- app_assoc in Hinv''. split; [done|congruence].
Qed.

(** The loop runs to an empty queue and keeps the invariant. *)
Lemma bfsLoop_inv fuel st :
  LoopInv st → measure st ≤ fuel →
  ∃ st', bfsLoop fuel adj allowed st = Some st'
         ∧ LoopInv st' ∧ b_queue st' = [].
Proof.
  revert st. induction fuel as [|fuel IH]; intros st Hinv Hfuel.
  - destruct st as [dist order prev [|cur rest]]; simpl in *.
    + eexists; split_and!; [done|done|done].
    + unfold measure in Hfuel; simpl in Hfuel. lia.
  - destruct st as [dist order prev [|cur rest]]; simpl.
    { eexists; split_and!; [done|done|done]. }
    destruct Hinv as [Ht Hcl Hso Hlv]; simpl in *.
    destruct Ht as [Hstart Hzero Htree Hprev Hdom Hqueue Hnd Horder]; simpl in *.
    apply NoDup_cons in Hnd as [Hcur_out Hnd].
    apply StronglySorted_inv in Hso as [Hso Hhead].
    set (st1 := mkBfs dist order prev rest).
    assert (Hv1 : VisitInv cur [] st1).
    { constructor; simpl.
      - constructor; simpl; try done. intros q Hq. apply Hqueue. by right.
      - intros u Hu Hq Hne. apply (Hcl u Hu). rewrite not_elem_of_cons. by split.
      - done.
      - apply Hqueue. left.
      - done.
      - intros q Hq. rewrite Forall_forall in Hhead.
        apply (Hhead (dof st1 q)). by apply list_elem_of_fmap_2.
      - intros v Hv. apply (Hlv cur v); [left|done].
      - intros v Hv. by apply elem_of_nil in Hv. }
    assert (Hm1 : measure st1 ≤ fuel).
    { unfold measure in *; simpl in *. lia. }
    set (nbs := neighborsOf adj cur).
    destruct (bfsVisit_fold_inv cur nbs [] st1) as [Hv2 Hm2]; [done|done|].
    simpl in Hv2.
    assert (Hnext : LoopInv (foldl (bfsVisit allowed cur) st1 nbs)).
    { destruct Hv2 as [Ht2 Hcl2 Hso2 Hcur2 Hout2 Hlow2 Hhigh2 Hseen2].
      constructor; [done| |done|].
      - intros u Hu Hq. destruct (decide (u = cur)) as [->|Hne]; [|by apply Hcl2].
        intros v [Hadj Hal]. by apply Hseen2.
      - intros q v Hq Hv. specialize (Hlow2 q Hq). specialize (Hhigh2 v Hv). lia. }
    subst nbs. unfold neighborsOf in *.
    destruct (adj !! cur) as [neighbors|]; simpl in *.
    + apply IH; [done|lia].
    + apply IH; [done|lia].
Qed.

(** The state from which [bfsFarthest] starts. *)
Lemma bfs_initial_inv :
  LoopInv (mkBfs {[start := 0]} [start] ∅ [start]).
Proof.
  constructor; simpl.
  - constructor; simpl.
    + apply lookup_singleton_eq.
    + intros v Hv. by apply lookup_singleton_Some in Hv as [<- _].
    + intros v d Hv. apply lookup_singleton_Some in Hv as [_ [=]].
    + intros v u Hv. by rewrite lookup_empty in Hv.
    + intros v [d Hv]. apply lookup_singleton_Some in Hv as [<- _]. by left.
    + intros q Hq. apply list_elem_of_singleton in Hq as ->.
      rewrite lookup_singleton_eq. eauto.
    + apply NoDup_singleton.
    + intros v. rewrite list_elem_of_singleton. split.
      * intros ->. rewrite lookup_singleton_eq. eauto.
      * intros [d Hv]. by apply lookup_singleton_Some in Hv as [<- _].
  - intros u [d Hu] Hq. apply lookup_singleton_Some in Hu as [<- _].
    exfalso. apply Hq. left.
  - repeat constructor.
  - intros q v Hq [d Hv]. apply lookup_singleton_Some in Hv as [<- <-].
    unfold dof; simpl. rewrite lookup_singleton_eq. simpl. lia.
Qed.

(** In a final state the recorded distance is the least number of edges
    of a walk from [start]. *)
Section Final.
Context (st : Bfs) (Hinv : LoopInv st) (Hdone : b_queue st = []).

Lemma dist_le_walk v k :
  walk v k → ∃ d, b_dist st !! v = Some d ∧ d ≤ k.
Proof.
  induction 1 as [|u v k Hw (du & Hdu & Hle) He].
  - exists 0. split; [apply Hinv|done].
  - destruct (li_closed st Hinv u) with (v := v) as (dv & Hdv & Hle');
      [eauto|rewrite Hdone; apply not_elem_of_nil|done|].
    exists dv. split; [done|]. unfold dof in Hle'. rewrite Hdu in Hle'. simpl in Hle'. lia.
Qed.

Lemma dist_walk v d : b_dist st !! v = Some d → walk v d.
Proof.
  revert v. induction d as [|d IH]; intros v Hv.
  - apply (ti_zero st (li_tree st Hinv)) in Hv as ->. constructor.
  - destruct (ti_tree st (li_tree st Hinv) v d Hv) as (u & _ & Hu & He).
    econstructor; [by apply IH|done].
Qed.

(** The chain of predecessors from a recorded node back to [start]. *)
Lemma backtrack_chain v d :
  b_dist st !! v = Some d →
  ∃ chain,
    length chain = S d
    ∧ head chain = Some start
    ∧ last chain = Some v
    ∧ (∀ i x, chain !! i = Some x → b_dist st !! x = Some i)
    ∧ isPath adj chain
    ∧ ∀ fuel path, S d ≤ fuel →
        backtrack fuel (b_prev st) (Some v) path = Some (chain ++ path).
Proof.
  revert v. induction d as [|d IH]; intros v Hv.
  - pose proof (ti_zero st (li_tree st Hinv) v Hv) as ->.
    exists [start]. split_and!; try done.
    + intros [|i] x; simpl; [intros [= <-]; apply Hinv|done].
    + intros [|fuel] path Hf; [lia|]. simpl.
      destruct (b_prev st !! start) as [u|] eqn:Hp; [|by destruct fuel].
      apply (ti_prev st (li_tree st Hinv)) in Hp as [d' Hd'].
      rewrite (ti_start st (li_tree st Hinv)) in Hd'. done.
  - destruct (ti_tree st (li_tree st Hinv) v d Hv) as (u & Hp & Hu & [Hadj _]).
    destruct (IH u Hu) as (chain & Hlen & Hhead & Hlast & Hidx & Hpath & Hrun).
    exists (chain ++ [v]). split_and!.
    + rewrite length_app; simpl. lia.
    + destruct chain; [done|]. done.
    + by rewrite last_snoc.
    + intros i x Hi. apply lookup_app_Some in Hi as [Hi|[Hge Hi]]; [by apply Hidx|].
      rewrite Hlen in *. destruct (i - S d) as [|j] eqn:Hj; simpl in Hi; [|done].
      injection Hi as <-. replace i with (S d) by lia. done.
    + clear -Hpath Hlast Hadj. induction chain as [|a [|b chain] IH]; simpl in *.
      * done.
      * injection Hlast as <-. done.
      * destruct Hpath as [Hab Hpath]. split; [done|]. by apply IH.
    + intros [|fuel] path Hf; [lia|]. simpl. rewrite Hp.
      rewrite Hrun by lia. by rewrite <- app_assoc.
Qed.

(** [farthestOf] picks a recorded node of greatest recorded distance. *)
Lemma farthestOf_spec :
  is_Some (b_dist st !! farthestOf start (b_dist st) (b_order st))
  ∧ ∀ v d, b_dist st !! v = Some d →
      d ≤ dof st (farthestOf start (b_dist st) (b_order st)).
Proof.
  assert (Hgen : ∀ order f,
    is_Some (b_dist st !! f) →
    (∀ i, i ∈ order → is_Some (b_dist st !! i)) →
    is_Some (b_dist st !! farthestOf f (b_dist st) order)
    ∧ dof st f ≤ dof st (farthestOf f (b_dist st) order)
    ∧ ∀ i, i ∈ order → dof st i ≤ dof st (farthestOf f (b_dist st) order)).
  { unfold farthestOf. induction order as [|i order IH]; intros f Hf Hord; simpl.
    - split_and!; [done|done|]. intros i Hi. by apply elem_of_nil in Hi.
    - destruct (decide _) as [Hlt|Hge].
      + destruct (IH i) as (H1 & H2 & H3);
          [apply Hord; left|intros j Hj; apply Hord; by right|].
        split_and!; [done|unfold dof in *; lia|].
        intros j Hj. apply elem_of_cons in Hj as [->|Hj]; [done|by apply H3].
      + destruct (IH f) as (H1 & H2 & H3);
          [done|intros j Hj; apply Hord; by right|].
        split_and!; [done|done|].
        intros j Hj. apply elem_of_cons in Hj as [->|Hj]; [|by apply H3].
        unfold dof in *. lia. }
  destruct (Hgen (b_order st) start) as (H1 & _ & H3).
  - rewrite (ti_start st (li_tree st Hinv)). eauto.
  - intros i Hi. by apply (ti_order st (li_tree st Hinv)).
  - split; [done|]. intros v d Hv.
    specialize (H3 v). unfold dof at 1 in H3. rewrite Hv in H3. apply H3.
    apply (ti_order st (li_tree st Hinv)). eauto.
Qed.

End Final.

End BfsInvariant.

Section MainChainSpec.
Import ForceAlign.

(** [d] is the least number of edges of a walk from [a] to [v] inside the
    subgraph induced by [allowed]. *)
Definition distanceIs (adj : Adjacency) (allowed : gset string)
    (a v : string) (d : nat) : Prop :=
  walk adj allowed a v d ∧ ∀ k, walk adj allowed a v k → d ≤ k.

Lemma length_le_size (l : list string) (X : gset string) :
  NoDup l → (∀ x, x ∈ l → x ∈ X) → length l ≤ size X.
Proof.
  intros Hnd Hsub. rewrite <- (size_list_to_set (C := gset string) l Hnd).
  apply subseteq_size. intros x Hx. apply Hsub. by apply elem_of_list_to_set in Hx.
Qed.

Lemma size_list_to_set_le (l : list string) :
  size (list_to_set l : gset string) ≤ length l.
Proof.
  induction l as [|a l IH]; [done|].
  rewrite list_to_set_cons, size_union_alt, size_singleton.
  assert (size (list_to_set l ∖ {[a]} : gset string) ≤ size (list_to_set l : gset string))
    by (apply subseteq_size; set_solver).
  simpl. lia.
Qed.

(** One search from a node of the component. *)
Lemma bfsFarthest_spec adj (ids : list string) (a : string) :
  a ∈ ids →
  ∃ far st,
    bfsFarthest (S (length ids)) adj a (list_to_set ids) = Some (far, st)
    ∧ LoopInv adj (list_to_set ids) a st
    ∧ b_queue st = []
    ∧ far ∈ ids
    ∧ ∃ d, b_dist st !! far = Some d
           ∧ ∀ v dv, b_dist st !! v = Some dv → dv ≤ d.
Proof.
  intros Ha. unfold bfsFarthest.
  destruct (bfsLoop_inv adj (list_to_set ids) a (S (length ids))
              (mkBfs {[a := 0]} [a] ∅ [a]))
    as (st & -> & Hinv & Hdone).
  - apply bfs_initial_inv.
  - unfold measure; simpl.
    assert (size (list_to_set ids ∖ dom ({[a := 0]} : gmap string nat) : gset string)
            ≤ size (list_to_set ids : gset string))
      by (apply subseteq_size; set_solver).
    pose proof (size_list_to_set_le ids). lia.
  - simpl. eexists _, st. split; [done|]. split; [done|]. split; [done|].
    destruct (farthestOf_spec adj (list_to_set ids) a st Hinv) as [[d Hd] Hmax].
    split.
    + destruct (ti_dom _ _ _ _ (li_tree _ _ _ _ Hinv) _ (mk_is_Some _ _ Hd))
        as [->|Hin]; [done|by apply elem_of_list_to_set in Hin].
    + exists d. split; [done|]. intros v dv Hv.
      specialize (Hmax v dv Hv). unfold dof in Hmax. by rewrite Hd in Hmax.
Qed.

Lemma final_distanceIs adj allowed a st v d :
  LoopInv adj allowed a st → b_queue st = [] →
  b_dist st !! v = Some d → distanceIs adj allowed a v d.
Proof.
  intros Hinv Hdone Hv. split; [by eapply dist_walk|].
  intros k Hk. destruct (dist_le_walk adj allowed a st Hinv Hdone v k Hk)
    as (d' & Hd' & Hle). congruence.
Qed.

Lemma final_distance_recorded adj allowed a st v d :
  LoopInv adj allowed a st → b_queue st = [] →
  distanceIs adj allowed a v d → b_dist st !! v = Some d.
Proof.
  intros Hinv Hdone [Hw Hmin].
  destruct (dist_le_walk adj allowed a st Hinv Hdone v d Hw) as (d' & Hd' & Hle).
  pose proof (dist_walk adj allowed a st Hinv v d' Hd') as Hw'.
  apply Hmin in Hw'. rewrite Hd'. f_equal. lia.
Qed.

(** What [findLongestPath] returns on a non-empty list of ids. *)
Lemma findLongestPath_spec (adj : Adjacency) (ids : list string)
    (Hne : ids ≠ []) :
  ∃ path endA endB dA dB,
    findLongestPath adj ids = Some path
    ∧ SimplePath adj (list_to_set ids) path
    ∧ head path = Some endA
    ∧ last path = Some endB
    ∧ length path = S dB
    ∧ (∀ first, head ids = Some first →
         distanceIs adj (list_to_set ids) first endA dA
         ∧ ∀ v d, distanceIs adj (list_to_set ids) first v d → d ≤ dA)
    ∧ distanceIs adj (list_to_set ids) endA endB dB
    ∧ ∀ v d, distanceIs adj (list_to_set ids) endA v d → d ≤ dB.
Proof.
  destruct ids as [|first rest]; [done|]. clear Hne.
  set (ids := first :: rest).
  destruct (bfsFarthest_spec adj ids first)
    as (endA & st1 & Hrun1 & Hinv1 & Hdone1 & HendA & dA & HdA & HmaxA); [left|].
  destruct (bfsFarthest_spec adj ids endA HendA)
    as (endB & st2 & Hrun2 & Hinv2 & Hdone2 & HendB & dB & HdB & HmaxB).
  destruct (backtrack_chain adj (list_to_set ids) endA st2 Hinv2 endB dB HdB)
    as (chain & Hlen & Hhead & Hlast & Hidx & Hpath & Hback).
  assert (Hnd : NoDup chain).
  { apply NoDup_alt. intros i j x Hi Hj.
    apply Hidx in Hi, Hj. congruence. }
  assert (Hin : ∀ x, x ∈ chain → x ∈ (list_to_set ids : gset string)).
  { intros x Hx. apply list_elem_of_lookup in Hx as [i Hi]. apply Hidx in Hi.
    destruct (ti_dom _ _ _ _ (li_tree _ _ _ _ Hinv2) _ (mk_is_Some _ _ Hi))
      as [->|Hal]; [by apply elem_of_list_to_set|done]. }
  assert (Hfuel : S dB ≤ S (length ids)).
  { rewrite <- Hlen. etransitivity; [by apply (length_le_size chain (list_to_set ids))|].
    pose proof (size_list_to_set_le ids). lia. }
  exists chain, endA, endB, dA, dB.
  split_and!.
  - subst ids. unfold findLongestPath. cbv zeta.
    rewrite Hrun1. cbn [mbind option_bind]. rewrite Hrun2. cbn [mbind option_bind].
    rewrite (Hback _ [] Hfuel), app_nil_r. cbn [mbind option_bind].
    destruct (decide (chain = [])) as [->|_]; [done|done].
  - split_and!; [by destruct chain|done|done|done].
  - done.
  - done.
  - done.
  - intros first' [= <-]. split; [by eapply final_distanceIs|].
    intros v d Hd. apply (HmaxA v). by eapply final_distance_recorded.
  - by eapply final_distanceIs.
  - intros v d Hd. apply (HmaxB v). by eapply final_distance_recorded.
Qed.

(** C6 (amended): the main chain is a simple path of the component that
    runs from [endA], a node farthest from the first id of the component,
    to [endB], a node farthest from [endA]; it is a shortest path between
    these two, distances being counted in edges inside the component. *)
Theorem mainChain_is_double_sweep_path (adj : Adjacency) (ids : list string)
    (Hne : ids ≠ []) :
  ∃ path endA endB dA dB,
    findLongestPath adj ids = Some path
    ∧ SimplePath adj (list_to_set ids) path
    ∧ head path = Some endA
    ∧ last path = Some endB
    ∧ length path = S dB
    ∧ (∀ first, head ids = Some first →
         distanceIs adj (list_to_set ids) first endA dA
         ∧ ∀ v d, distanceIs adj (list_to_set ids) first v d → d ≤ dA)
    ∧ distanceIs adj (list_to_set ids) endA endB dB
    ∧ ∀ v d, distanceIs adj (list_to_set ids) endA v d → d ≤ dB.
Proof. by apply findLongestPath_spec. Qed.

Lemma mainChain_is_double_sweep_path_witness :
  ∃ path endA endB dA dB,
    findLongestPath adjTwoKeys compTwoKeys = Some path
    ∧ SimplePath adjTwoKeys (list_to_set compTwoKeys) path
    ∧ head path = Some endA
    ∧ last path = Some endB
    ∧ length path = S dB
    ∧ (∀ first, head compTwoKeys = Some first →
         distanceIs adjTwoKeys (list_to_set compTwoKeys) first endA dA
         ∧ ∀ v d, distanceIs adjTwoKeys (list_to_set compTwoKeys) first v d → d ≤ dA)
    ∧ distanceIs adjTwoKeys (list_to_set compTwoKeys) endA endB dB
    ∧ ∀ v d, distanceIs adjTwoKeys (list_to_set compTwoKeys) endA v d → d ≤ dB.
Proof.
  apply (mainChain_is_double_sweep_path adjTwoKeys compTwoKeys). discriminate.
Defined.

(** C6, as stated, fails: with two relationships between the same two
    entities the component is a cycle of four nodes; the main chain has
    three nodes although a simple path through all four exists. *)
Lemma mainChain_not_longest :
  components tablesTwoKeys edgesTwoKeys = Some [compTwoKeys]
  ∧ findLongestPath adjTwoKeys compTwoKeys
    = Some ["entity-b-1"; "rel-a-b-x-0"; "entity-a-0"]
  ∧ ¬ LongestSimplePath adjTwoKeys (list_to_set compTwoKeys)
        ["entity-b-1"; "rel-a-b-x-0"; "entity-a-0"].
Proof.
  split; [apply twoKeys_component|]. split; [apply twoKeys_chain|].
  intros [_ Hmax].
  enough (Hq : SimplePath adjTwoKeys (list_to_set compTwoKeys)
                 ["entity-a-0"; "rel-a-b-x-0"; "entity-b-1"; "rel-a-b-y-1"])
    by (apply Hmax in Hq; simpl in Hq; lia).
  split_and!.
  - done.
  - apply (bool_decide_unpack _). by vm_compute.
  - intros x Hx. apply elem_of_list_to_set.
    revert x Hx. apply Forall_forall. apply (bool_decide_unpack _). by vm_compute.
  - simpl. unfold adjacent. split_and!; try done;
      apply (bool_decide_unpack _); by vm_compute.
Qed.

End MainChainSpec.

(** ** Arrange layout, step 5: satellites per free segment *)

Section Allocation.
Import ArrangeLayout.
Local Open Scope Z_scope.

(** Sum of a list of counts ([reduce((sum, c) => sum + c, 0)]). *)
Definition countSum (counts : list Z) : Z := foldl Z.add 0 counts.

Lemma foldl_Zadd_shift (l : list Z) (a : Z) : foldl Z.add a l = a + foldl Z.add 0 l.
Proof.
  revert a; induction l as [|c l IH]; intros a; simpl; [lia|].
  rewrite (IH (a + c)), (IH (0 + c)). lia.
Qed.

Lemma countSum_cons (c : Z) (l : list Z) : countSum (c :: l) = c + countSum l.
Proof. unfold countSum; simpl. rewrite foldl_Zadd_shift. lia. Qed.

Lemma countSum_alter (f : Z → Z) (i : nat) (l : list Z) (c : Z) :
  l !! i = Some c → countSum (alter f i l) = countSum l + (f c - c).
Proof.
  revert i; induction l as [|a l IH]; intros [|i] Hi; try done.
  - injection Hi as ->. change (alter f 0%nat (c :: l)) with (f c :: l).
    rewrite !countSum_cons. lia.
  - change (alter f (S i) (a :: l)) with (a :: alter f i l).
    rewrite !countSum_cons, (IH i Hi). lia.
Qed.

(** The scan for the longest segment ends inside the list. *)
Lemma longestIndex_lt (segments : list Segment) :
  segments ≠ [] → (longestIndex segments < length segments)%nat.
Proof.
  unfold longestIndex.
  enough (H : ∀ segs maxIdx maxLen idx,
    (maxLen = None ∨ (maxIdx < idx)%nat) →
    (segs ≠ [] ∨ (maxIdx < idx)%nat) →
    ((foldl (λ '(maxIdx, maxLen, idx) s,
               match maxLen with
               | Some len =>
                   if decide (len < s_len s)%R then (idx, Some (s_len s), S idx)
                   else (maxIdx, maxLen, S idx)
               | None => (idx, Some (s_len s), S idx)
               end) (maxIdx, maxLen, idx) segs).1.1 < idx + length segs)%nat).
  { intros Hne. specialize (H segments 0%nat None 0%nat). simpl in H.
    apply H; by left. }
  induction segs as [|s segs IH]; intros maxIdx maxLen idx Hinv Hor.
  - simpl. destruct Hor as [?|?]; [done|lia].
  - simpl. destruct maxLen as [len|].
    + destruct Hinv as [?|Hlt]; [done|].
      destruct (decide (len < s_len s)%R).
      * assert (Hi : (idx < S idx)%nat) by lia.
        pose proof (IH idx (Some (s_len s)) (S idx) (or_intror Hi) (or_intror Hi)).
        lia.
      * assert (Hi : (maxIdx < S idx)%nat) by lia.
        pose proof (IH maxIdx (Some len) (S idx) (or_intror Hi) (or_intror Hi)).
        lia.
    + assert (Hi : (idx < S idx)%nat) by lia.
      pose proof (IH idx (Some (s_len s)) (S idx) (or_intror Hi) (or_intror Hi)).
      lia.
Qed.

(** The last positive count gives up one unit. *)
Lemma decrementLast_spec (counts : list Z) :
  Forall (λ c, 0 <= c) counts → 0 < countSum counts →
  ∃ counts',
    decrementLast counts = Some counts'
    ∧ countSum counts' = countSum counts - 1
    ∧ length counts' = length counts
    ∧ Forall (λ c, 0 <= c) counts'.
Proof.
  induction counts as [|c counts IH]; intros Hpos Hsum.
  - unfold countSum in Hsum; simpl in Hsum. lia.
  - apply Forall_cons in Hpos as [Hc Hpos]. rewrite countSum_cons in Hsum.
    simpl. destruct (decide (0 < countSum counts)) as [Hrest|Hrest].
    + destruct (IH Hpos Hrest) as (counts' & -> & Hsum' & Hlen & Hpos').
      exists (c :: counts'). rewrite !countSum_cons. simpl.
      split_and!; [done|lia|lia|by constructor].
    + destruct (decrementLast counts) as [counts'|] eqn:Hdec.
      * exfalso. clear IH Hsum.
        revert counts' Hdec Hrest. induction Hpos as [|d counts Hd Hpos IH];
          intros counts' Hdec Hrest; [done|].
        rewrite countSum_cons in Hrest. simpl in Hdec.
        destruct (decrementLast counts) as [c2|] eqn:Hdec2.
        -- eapply IH; [done|]. 
           assert (0 <= countSum counts); [|lia].
           clear -Hpos. induction Hpos as [|e l He Hl IH];
             [done|rewrite countSum_cons; lia].
        -- destruct (decide (0 < d)); [|done].
           assert (0 <= countSum counts); [|lia].
           clear -Hpos. induction Hpos as [|e l He Hl IH];
             [done|rewrite countSum_cons; lia].
      * destruct (decide (0 < c)); [|lia].
        exists ((c - 1) :: counts). rewrite !countSum_cons. simpl.
        split_and!; [done|lia|done|constructor; [lia|done]].
Qed.

Lemma countSum_nonneg (counts : list Z) :
  Forall (λ c, 0 <= c) counts → 0 <= countSum counts.
Proof.
  induction 1 as [|c l Hc Hl IH]; [done|rewrite countSum_cons; lia].
Qed.

(** The first loop adds the missing units to the longest segment. *)
Lemma raise_spec fuel segments counts allocated totalCount :
  (Z.to_nat (totalCount - allocated) <= fuel)%nat →
  allocated = countSum counts →
  (longestIndex segments < length counts)%nat →
  Forall (λ c, 0 <= c) counts →
  ∃ counts',
    raise fuel segments counts allocated totalCount
      = Some (counts', Z.max allocated totalCount)
    ∧ counts' = alter (λ c, c + Z.max 0 (totalCount - allocated))
                      (longestIndex segments) counts
    ∧ countSum counts' = Z.max allocated totalCount
    ∧ length counts' = length counts
    ∧ Forall (λ c, 0 <= c) counts'.
Proof.
  revert counts allocated.
  induction fuel as [|fuel IH]; intros counts allocated Hfuel Hall Hidx Hpos.
  - simpl. destruct (decide (allocated < totalCount)); [lia|].
    destruct (lookup_lt_is_Some_2 counts _ Hidx) as [c Hc].
    exists counts. rewrite Z.max_l, Z.max_l by lia.
    split_and!; [done| |done|done|done].
    symmetry. apply list_eq. intros i. rewrite list_lookup_alter.
    destruct (decide (longestIndex segments = i)) as [<-|]; [|done].
    rewrite Hc. simpl. f_equal. lia.
  - simpl. destruct (decide (allocated < totalCount)) as [Hlt|Hge].
    + destruct (lookup_lt_is_Some_2 counts _ Hidx) as [c Hc].
      destruct (IH (alter Z.succ (longestIndex segments) counts) (allocated + 1))
        as (counts' & Hrun & Heq & Hsum & Hlen & Hpos').
      * lia.
      * rewrite (countSum_alter _ _ _ c Hc). lia.
      * by rewrite length_alter.
      * apply Forall_alter; [done|]. intros d Hd Hd'. 
        rewrite Forall_forall in Hpos.
        assert (0 <= d) by (apply Hpos; by eapply list_elem_of_lookup_2). lia.
      * exists counts'. rewrite Hrun.
        replace (Z.max (allocated + 1) totalCount) with (Z.max allocated totalCount)
          in * by lia.
        split_and!; [done| |done|by rewrite Hlen, length_alter|done].
        rewrite Heq. apply list_eq. intros i. rewrite !list_lookup_alter.
        destruct (decide (longestIndex segments = i)) as [<-|]; [|done].
        rewrite decide_True by done. rewrite Hc. simpl. f_equal. lia.
    + destruct (lookup_lt_is_Some_2 counts _ Hidx) as [c Hc].
      exists counts. rewrite Z.max_l, Z.max_l by lia.
      split_and!; [done| |done|done|done].
      symmetry. apply list_eq. intros i. rewrite list_lookup_alter.
      destruct (decide (longestIndex segments = i)) as [<-|]; [|done].
      rewrite Hc. simpl. f_equal. lia.
Qed.

(** The second loop removes the surplus units. *)
Lemma lower_spec fuel counts allocated totalCount :
  (Z.to_nat (allocated - totalCount) <= fuel)%nat →
  allocated = countSum counts →
  0 <= totalCount →
  Forall (λ c, 0 <= c) counts →
  ∃ counts',
    lower fuel counts allocated totalCount = Some counts'
    ∧ countSum counts' = Z.min allocated totalCount
    ∧ length counts' = length counts
    ∧ Forall (λ c, 0 <= c) counts'
    ∧ (allocated <= totalCount → counts' = counts).
Proof.
  revert counts allocated.
  induction fuel as [|fuel IH]; intros counts allocated Hfuel Hall Htot Hpos.
  - simpl. destruct (decide (totalCount < allocated)); [lia|].
    exists counts. rewrite Z.min_l by lia. by split_and!.
  - simpl. destruct (decide (totalCount < allocated)) as [Hgt|Hle].
    + destruct (decrementLast_spec counts Hpos) as (c1 & -> & Hsum1 & Hlen1 & Hpos1);
        [lia|].
      destruct (IH c1 (allocated - 1)) as (counts' & Hrun & Hsum & Hlen & Hpos' & _);
        [lia|lia|done|done|].
      exists counts'. rewrite Hrun.
      split_and!; [done|lia|congruence|done|lia].
    + exists counts. rewrite Z.min_l by lia. by split_and!.
Qed.



Lemma freeSegments_nonempty (avoid : list R) : freeSegments avoid ≠ [].
Proof.
  unfold freeSegments. destruct (decide _) as [|Hfree]; [done|].
  intros Hnil. apply Hfree. rewrite Hnil. unfold JS.sum; simpl. lra.
Qed.

Lemma roundedShares_nonneg (segments : list Segment) (n : nat) :
  Forall (λ c, 0 <= c) (roundedShares segments n).
Proof.
  unfold roundedShares. apply Forall_fmap, Forall_forall. intros s _. simpl. lia.
Qed.

(** The counts computed for a non-empty list of segments. *)
Lemma segCounts_spec (segments : list Segment) (totalCount : nat) :
  segments ≠ [] →
  let shares := roundedShares segments totalCount in
  ∃ counts,
    segCounts segments totalCount = Some counts
    ∧ length counts = length segments
    ∧ Forall (λ c, 0 <= c) counts
    ∧ countSum counts = Z.of_nat totalCount
    ∧ (countSum shares <= Z.of_nat totalCount →
       counts = alter (λ c, c + (Z.of_nat totalCount - countSum shares))
                      (longestIndex segments) shares).
Proof.
  intros Hne shares. unfold segCounts. fold shares. fold (countSum shares).
  set (fuel := Z.to_nat (Z.abs (Z.of_nat totalCount - countSum shares))).
  assert (Hlen : length shares = length segments)
    by (unfold shares, roundedShares; by rewrite length_fmap).
  destruct (raise_spec fuel segments shares (countSum shares) (Z.of_nat totalCount))
    as (raised & -> & Hraised & Hsum1 & Hlen1 & Hpos1).
  - unfold fuel. lia.
  - done.
  - rewrite Hlen. by apply longestIndex_lt.
  - apply roundedShares_nonneg.
  - cbn [mbind option_bind].
    destruct (lower_spec fuel raised (Z.max (countSum shares) (Z.of_nat totalCount))
                (Z.of_nat totalCount))
      as (counts & -> & Hsum & Hlen2 & Hpos & Hsame); [unfold fuel; lia|done|lia|done|].
    exists counts. split_and!; [done|congruence|done|lia|].
    intros Hle. rewrite Hsame by lia. rewrite Hraised.
    apply list_alter_ext; [|done]. intros c _. lia.
Qed.


End Allocation.

(** *** Largest-remainder rounding, and an entity where step 5 differs *)

Section AllocationExample.
Import ArrangeLayout.
Local Open Scope R_scope.







Lemma numLeb_false (a b : R) : b < a → JS.numLeb a b = false.
Proof. intros. unfold JS.numLeb. apply bool_decide_eq_false_2. lra. Qed.

(** An entity with three two-entity relationships whose other entities
    lie at the angles [0], [7u + 0.35] and [14u + 0.7], where
    [60u = 2π - 1.05]: the free segments have lengths [7u], [7u], [46u]. *)
Definition u : R := (2 * PI - 1.05) / 60.














End AllocationExample.

(** ** Reasoning about checked computations *)

Section OutcomeFacts.

(** [m] returns a result, and the result satisfies [Q]. *)
Definition ensures {A : Type} (m : Outcome A) (Q : A → Prop) : Prop :=
  ∃ a, m = Computed a ∧ Q a.

Lemma ensures_ret {A} (a : A) (Q : A → Prop) : Q a → ensures (Computed a) Q.
Proof. intros. by exists a. Qed.

Lemma ensures_bind {A B} (m : Outcome A) (f : A → Outcome B)
    (P : A → Prop) (Q : B → Prop) :
  ensures m P → (∀ a, P a → ensures (f a) Q) → ensures (m ≫= f) Q.
Proof. intros (a & -> & Ha) Hf. simpl. by apply Hf. Qed.

Lemma ensures_weaken {A} (m : Outcome A) (P Q : A → Prop) :
  ensures m P → (∀ a, P a → Q a) → ensures m Q.
Proof. intros (a & -> & Ha) HPQ. exists a. eauto. Qed.

Lemma ensures_computed {A} (m : Outcome A) (Q : A → Prop) a :
  ensures m Q → m = Computed a → Q a.
Proof. intros (a' & -> & Ha) [= <-]. done. Qed.

Lemma unitVector_ensures (dx dy dist : R) :
  dist ≠ 0%R → ensures (Force.unitVector dx dy dist) (λ _, True).
Proof.
  intros Hd. unfold Force.unitVector. rewrite decide_False by done.
  by apply ensures_ret.
Qed.

(** The two substitutions for a zero distance give a non-zero divisor. *)
Lemma orElse_one_nonzero (d : R) : JS.orElse d 1 ≠ 0%R.
Proof. unfold JS.orElse. destruct (Req_dec_T d 0); [lra|done]. Qed.

Lemma epsilon_nonzero (d : R) : (if decide (d = 0%R) then 0.01%R else d) ≠ 0%R.
Proof. destruct (decide (d = 0%R)); [lra|done]. Qed.

Lemma forEachM_ensures {A S} (body : A → S → Outcome S) (I : S → Prop)
    (l : list A) (s : S) :
  (∀ a s, a ∈ l → I s → ensures (body a s) I) →
  I s → ensures (Force.forEachM body l s) I.
Proof.
  unfold Force.forEachM. revert s.
  induction l as [|a l IH]; intros s Hbody Hs; simpl; [by apply ensures_ret|].
  destruct (Hbody a s) as (s' & -> & Hs'); [left|done|].
  apply IH; [|done]. intros b s0 Hb. apply Hbody. by right.
Qed.

Lemma forPairs_ensures {A S} (body : A → A → S → Outcome S) (I : S → Prop)
    (l : list A) (s : S) :
  (∀ a b s, a ∈ l → b ∈ l → I s → ensures (body a b s) I) →
  I s → ensures (Force.forPairs body l s) I.
Proof.
  revert s. induction l as [|a l IH]; intros s Hbody Hs; simpl;
    [by apply ensures_ret|].
  eapply ensures_bind.
  - apply (forEachM_ensures (body a) I l s); [|done].
    intros b s0 Hb. apply Hbody; [left|by right].
  - intros s' Hs'. apply IH; [|done].
    intros x y s0 Hx Hy. apply Hbody; by right.
Qed.

Lemma iterateUntilStill_ensures {S} (cap : nat) (threshold : R)
    (pass : S → Outcome (S * R)) (I : S → Prop) (s : S) :
  (∀ s, I s → ensures (pass s) (λ r, I r.1)) →
  I s → ensures (Force.iterateUntilStill cap threshold pass s) I.
Proof.
  intros Hpass. revert s. induction cap as [|cap IH]; intros s Hs; simpl;
    [by apply ensures_ret|].
  destruct (Hpass s Hs) as ([s' m] & -> & Hs'). simpl.
  destruct (decide _); [by apply ensures_ret|by apply IH].
Qed.

Lemma fuelled_ensures {A} (r : option A) (Q : A → Prop) :
  (∃ a, r = Some a ∧ Q a) → ensures (fuelled r) Q.
Proof. intros (a & -> & Ha). by exists a. Qed.

End OutcomeFacts.

(** ** Arrange layout returns a complete target map *)

Section ArrangeTotal.
Import ArrangeLayout.

Lemma attract_ensures conn sysR relNode st :
  ensures (attract conn sysR relNode st) (λ _, True).
Proof.
  unfold attract. destruct st as [pos maxMove].
  destruct (endpoints conn (n_id relNode)) as [[idA idB]|]; [|by apply ensures_ret].
  destruct (pos !! idA) as [posA|]; [|by apply ensures_ret].
  destruct (pos !! idB) as [posB|]; [|by apply ensures_ret].
  destruct (decide _); [by apply ensures_ret|].
  eapply ensures_bind; [apply unitVector_ensures, orElse_one_nonzero|].
  intros [nx ny] _. by apply ensures_ret.
Qed.

Lemma repel_ensures sysR idA idB st :
  ensures (repel sysR idA idB st) (λ _, True).
Proof.
  unfold repel. destruct st as [pos maxMove].
  destruct (pos !! idA) as [posA|]; [|by apply ensures_ret].
  destruct (pos !! idB) as [posB|]; [|by apply ensures_ret].
  destruct (decide _); [|by apply ensures_ret].
  eapply ensures_bind; [apply unitVector_ensures, orElse_one_nonzero|].
  intros [nx ny] _. by apply ensures_ret.
Qed.

Lemma relaxPass_ensures conn sysR rels ids pos :
  ensures (relaxPass conn sysR rels ids pos) (λ _, True).
Proof.
  unfold relaxPass. eapply ensures_bind.
  - apply (forEachM_ensures _ (λ _, True)); [|done].
    intros. apply attract_ensures.
  - intros st _. apply (forPairs_ensures _ (λ _, True)); [|done].
    intros. apply repel_ensures.
Qed.

Lemma clear_ensures conn ring relNode pos :
  ensures (clear conn ring relNode pos) (λ _, True).
Proof.
  unfold clear.
  destruct (endpoints conn (n_id relNode)) as [[idA idB]|]; [|by apply ensures_ret].
  destruct (pos !! idA) as [posA|]; [|by apply ensures_ret].
  destruct (pos !! idB) as [posB|]; [|by apply ensures_ret].
  destruct (decide _); [by apply ensures_ret|].
  eapply ensures_bind; [apply unitVector_ensures, orElse_one_nonzero|].
  intros [nx ny] _. by apply ensures_ret.
Qed.

Lemma ensureRelationshipClearance_ensures conn ring rels pos :
  ensures (ensureRelationshipClearance conn ring rels pos) (λ _, True).
Proof.
  unfold ensureRelationshipClearance.
  apply (forEachM_ensures _ (λ _, True)); [|done]. intros. apply clear_ensures.
Qed.

Lemma layoutSatellites_ensures pos ring targets info :
  ensures (layoutSatellites pos ring targets info) (λ _, True).
Proof.
  unfold layoutSatellites.
  destruct (filter _ (i_satellites info)) as [|s sats]; [by apply ensures_ret|].
  eapply ensures_bind.
  - apply (fuelled_ensures _ (λ _, True)).
    match goal with |- context [segCounts ?segs ?n] =>
      destruct (segCounts_spec segs n) as (counts & -> & _) end;
      [apply freeSegments_nonempty|eauto].
  - intros counts _. by apply ensures_ret.
Qed.

Lemma spreadGroup_ensures pos st list :
  ensures (spreadGroup pos st list) (λ _, True).
Proof.
  unfold spreadGroup. destruct list as [|sample [|second rest]];
    try by apply ensures_ret.
  destruct (gr_entities sample) as [idA idB].
  destruct (pos !! idA) as [posA|]; [|by apply ensures_ret].
  destruct (pos !! idB) as [posB|]; [|by apply ensures_ret].
  eapply ensures_bind; [apply unitVector_ensures, orElse_one_nonzero|].
  intros [nx ny] _. by apply ensures_ret.
Qed.

Lemma repelDiamonds_ensures radii relA relB relPositions :
  ensures (repelDiamonds radii relA relB relPositions) (λ _, True).
Proof.
  unfold repelDiamonds.
  destruct (omGet (n_id relA) relPositions) as [posA|]; [|by apply ensures_ret].
  destruct (omGet (n_id relB) relPositions) as [posB|]; [|by apply ensures_ret].
  destruct (decide (_ < _)%R); [|by apply ensures_ret].
  eapply ensures_bind; [apply unitVector_ensures, epsilon_nonzero|].
  intros [nx ny] _. by apply ensures_ret.
Qed.

Lemma pushOffEntity_ensures pos collision p entNode :
  ensures (pushOffEntity pos collision p entNode) (λ _, True).
Proof.
  unfold pushOffEntity. destruct (decide (_ < _)%R); [|by apply ensures_ret].
  eapply ensures_bind; [apply unitVector_ensures, epsilon_nonzero|].
  intros [nx ny] _. by apply ensures_ret.
Qed.

Lemma pushOffEntities_ensures g conn pos collision relPositions :
  ensures (pushOffEntities g conn pos collision relPositions) (λ _, True).
Proof.
  unfold pushOffEntities.
  apply (forEachM_ensures _ (λ _, True)); [|done].
  intros [rid p] acc _ _.
  destruct (findById g rid); [|by apply ensures_ret].
  destruct (conn !! rid) as [connected|]; [|by apply ensures_ret].
  eapply ensures_bind.
  - apply (forEachM_ensures _ (λ _, True)); [|done].
    intros. apply pushOffEntity_ensures.
  - intros p' _. by apply ensures_ret.
Qed.

Lemma repeat_ensures {S} (n : nat) (pass : S → Outcome S) (s : S) :
  (∀ s, ensures (pass s) (λ _, True)) → ensures (repeat n pass s) (λ _, True).
Proof.
  intros Hpass. revert s. induction n as [|n IH]; intros s; simpl;
    [by apply ensures_ret|].
  eapply ensures_bind; [apply Hpass|]. intros s' _. apply IH.
Qed.

Lemma relaxDiamonds_ensures g conn pos ring st :
  ensures (relaxDiamonds g conn pos ring st) (λ _, True).
Proof.
  unfold relaxDiamonds. destruct (rs_anchors st) as [|a anchors];
    [by apply ensures_ret|].
  eapply ensures_bind.
  - apply repeat_ensures. intros relPositions. unfold diamondPass.
    eapply ensures_bind.
    + apply (forPairs_ensures _ (λ _, True)); [|done].
      intros. apply repelDiamonds_ensures.
    + intros apart _. eapply ensures_bind; [apply pushOffEntities_ensures|].
      intros off _. by apply ensures_ret.
  - intros final _. by apply ensures_ret.
Qed.

(** The map has an entry for every node of the graph. *)
Definition complete (nodes : list Node) (targets : Targets) : Prop :=
  ∀ n, n ∈ nodes → is_Some (targets !! n_id n).

Lemma orElse_zero (v : R) : JS.orElse v 0 = v.
Proof. unfold JS.orElse. by destruct (Req_dec_T v 0). Qed.

Lemma findById_None (g : Graph) (i : string) :
  findById g i = None ↔ i ∉ (n_id <$> getNodes g).
Proof.
  unfold findById. induction (getNodes g) as [|n nodes IH]; cbn [List.find].
  - split; [intros _ H; by apply elem_of_nil in H|done].
  - rewrite fmap_cons, not_elem_of_cons. case_bool_decide as Hn.
    + split; [done|]. intros [Hne _]. congruence.
    + rewrite IH. split; [intros; split; congruence|tauto].
Qed.

Lemma fillMissing_lookup (g : Graph) (targets : Targets) (i : string) :
  fillMissing g targets !! i =
    match targets !! i with
    | Some p => Some p
    | None =>
        match findById g i with
        | Some n => Some (mkPos (n_x n) (n_y n))
        | None => None
        end
    end.
Proof.
  unfold fillMissing, meta.
  set (fallback j :=
         mkPos (JS.orElse (default 0%R (n_x <$> findById g j)) 0)
               (JS.orElse (default 0%R (n_y <$> findById g j)) 0)).
  enough (H : ∀ nodes (t : Targets),
    foldl (λ t '(j, _),
             match t !! j with
             | Some _ => t
             | None => <[j := fallback j]> t
             end) t ((λ n, (n_id n, getRadius n)) <$> nodes) !! i
    = match t !! i with
      | Some p => Some p
      | None => if decide (i ∈ (n_id <$> nodes)) then Some (fallback i) else None
      end).
  { rewrite H. destruct (targets !! i); [done|].
    destruct (decide _) as [Hin|Hnin].
    - destruct (findById g i) as [n|] eqn:Hf.
      + subst fallback. simpl. rewrite Hf. simpl. by rewrite !orElse_zero.
      + by apply findById_None in Hf.
    - apply findById_None in Hnin. by rewrite Hnin. }
  induction nodes as [|n nodes IH]; intros t.
  - cbn [fmap list_fmap foldl]. destruct (t !! i); [done|].
    destruct (decide _) as [H|]; [by apply elem_of_nil in H|done].
  - rewrite !fmap_cons. cbn [foldl]. rewrite IH.
    destruct (t !! n_id n) as [p|] eqn:Htn.
    + destruct (t !! i) eqn:Hti; [done|].
      assert (i ≠ n_id n) by congruence.
      destruct (decide (i ∈ n_id <$> nodes)) as [Hin|Hnin].
      * rewrite decide_True; [done|by right].
      * rewrite decide_False; [done|]. rewrite not_elem_of_cons. by split.
    + destruct (decide (i = n_id n)) as [->|Hne].
      * rewrite lookup_insert_eq, Htn. by rewrite decide_True by left.
      * rewrite lookup_insert_ne by done. destruct (t !! i); [done|].
        destruct (decide (i ∈ n_id <$> nodes)) as [Hin|Hnin].
        -- rewrite decide_True; [done|by right].
        -- rewrite decide_False; [done|]. rewrite not_elem_of_cons. by split.
Qed.

Lemma findById_is_Some (g : Graph) (n : Node) :
  n ∈ getNodes g → is_Some (findById g (n_id n)).
Proof.
  intros Hn. destruct (findById g (n_id n)) eqn:Hf; [eauto|].
  apply findById_None in Hf. exfalso. apply Hf. by apply list_elem_of_fmap_2.
Qed.

Lemma fillMissing_complete (g : Graph) (targets : Targets) :
  complete (getNodes g) (fillMissing g targets).
Proof.
  intros n Hn. rewrite fillMissing_lookup.
  destruct (targets !! n_id n); [eauto|].
  destruct (findById_is_Some g n Hn) as [m ->]. eauto.
Qed.

Lemma separate_ensures nodes a b st :
  complete nodes st.1 →
  ensures (separate a b st) (λ r, complete nodes r.1).
Proof.
  intros Hc. unfold separate. destruct st as [targets maxMove]; simpl in *.
  destruct (targets !! a.1) as [pa|]; [|by apply ensures_ret].
  destruct (targets !! b.1) as [pb|]; [|by apply ensures_ret].
  destruct (decide (_ < _)%R); [|by apply ensures_ret].
  eapply ensures_bind; [apply unitVector_ensures, epsilon_nonzero|].
  intros [nx ny] _. apply ensures_ret. simpl.
  intros n Hn. rewrite !lookup_alter_is_Some. by apply Hc.
Qed.

Lemma applyGlobalSeparation_ensures (g : Graph) (targets : Targets) :
  ensures (applyGlobalSeparation g targets) (complete (getNodes g)).
Proof.
  unfold applyGlobalSeparation.
  apply iterateUntilStill_ensures; [|apply fillMissing_complete].
  intros t Ht.
  apply (forPairs_ensures _ (λ r, complete (getNodes g) r.1)); [|done].
  intros a b st _ _. apply separate_ensures.
Qed.

(** The placements are always computed. *)
Lemma placements_ensures (g : Graph) : ensures (placements g) (λ _, True).
Proof.
  unfold placements.
  eapply ensures_bind.
  { apply (iterateUntilStill_ensures _ _ _ (λ _, True)); [|done].
    intros s _. eapply ensures_weaken; [apply relaxPass_ensures|done]. }
  intros relaxed _.
  eapply ensures_bind; [apply ensureRelationshipClearance_ensures|]. intros c1 _.
  eapply ensures_bind; [apply ensureRelationshipClearance_ensures|]. intros c2 _.
  eapply ensures_bind; [apply ensureRelationshipClearance_ensures|]. intros pos _.
  eapply ensures_bind.
  { apply (forEachM_ensures _ (λ _, True)); [|done].
    intros. apply layoutSatellites_ensures. }
  intros targets1 _.
  eapply ensures_bind.
  { apply (forEachM_ensures _ (λ _, True)); [|done].
    intros. apply spreadGroup_ensures. }
  intros st2 _.
  eapply ensures_weaken; [apply relaxDiamonds_ensures|done].
Qed.

(** Whenever the node list is not empty, the layout returns a map with an
    entry for every node. *)
Lemma arrangeLayout_ensures (g : Graph) :
  getNodes g ≠ [] → ensures (arrangeLayout g) (complete (getNodes g)).
Proof.
  intros Hne. unfold arrangeLayout.
  destruct (getNodes g) as [|n0 nodes] eqn:Hnodes; [done|]. rewrite <- Hnodes.
  eapply ensures_bind; [apply placements_ensures|]. intros targets _.
  apply applyGlobalSeparation_ensures.
Qed.

End ArrangeTotal.

(** ** The queue loop of force-align's [layoutComponent] *)

Section FoldFacts.

Lemma foldl_invariant {A B} (P : A → Prop) (f : A → B → A) (l : list B) (a : A) :
  P a → (∀ a b, b ∈ l → P a → P (f a b)) → P (foldl f a l).
Proof.
  revert a. induction l as [|b l IH]; intros a Ha Hstep; simpl; [done|].
  apply IH.
  - apply Hstep; [left|done].
  - intros a' b' Hb'. apply Hstep. by right.
Qed.

Lemma foldPairs_invariant {A S} (P : S → Prop) (body : A → A → S → S)
    (l : list A) (s : S) :
  P s → (∀ a b s, a ∈ l → b ∈ l → P s → P (body a b s)) →
  P (ForceAlign.foldPairs body l s).
Proof.
  revert s. induction l as [|a l IH]; intros s Hs Hstep; simpl; [done|].
  apply IH.
  - apply foldl_invariant; [done|].
    intros s' b Hb. apply Hstep; [left|by right].
  - intros a' b' s' Ha' Hb'. apply Hstep; by right.
Qed.

(** The keys a fold of writes adds to a map held in the state. *)
Lemma foldl_writes {S K V} (tg : S → gmap string V) (keys : K → list string)
    (f : S → K → S) (l : list K) (s : S) :
  (∀ s k x, is_Some (tg (f s k) !! x) ↔ is_Some (tg s !! x) ∨ x ∈ keys k) →
  ∀ x, is_Some (tg (foldl f s l) !! x)
       ↔ is_Some (tg s !! x) ∨ ∃ k, k ∈ l ∧ x ∈ keys k.
Proof.
  intros Hstep. revert s. induction l as [|k l IH]; intros s x; simpl.
  - split; [by left|]. intros [?|(k & Hk & _)]; [done|].
    by apply elem_of_nil in Hk.
  - rewrite IH, Hstep. split.
    + intros [[?|?]|(k' & Hk' & ?)]; [by left|right..].
      * exists k. split; [left|done].
      * exists k'. split; [by right|done].
    + intros [?|(k' & Hk' & ?)]; [by left; left|].
      apply elem_of_cons in Hk' as [-> |Hk']; [left; by right|].
      right. by exists k'.
Qed.

Lemma imap_pair_snd {A} (l : list A) :
  (imap (λ idx x, (idx, x)) l).*2 = l.
Proof.
  change (λ idx x, (idx, x)) with (λ idx (x : A), ((λ i : nat, i) idx, x)).
  generalize (λ i : nat, i). induction l as [|a l IH]; intros g; [done|].
  rewrite imap_cons, fmap_cons. simpl. f_equal. apply (IH (g ∘ S)).
Qed.

Lemma is_Some_insert {V} (m : gmap string V) (k x : string) (v : V) :
  is_Some (<[k := v]> m !! x) ↔ is_Some (m !! x) ∨ x = k.
Proof.
  destruct (decide (k = x)) as [-> |Hne].
  - rewrite lookup_insert_eq. split; [by right|eauto].
  - rewrite lookup_insert_ne by done. split; [by left|].
    intros [?| ->]; [done|done].
Qed.

End FoldFacts.

Section AdjacencyFacts.
Import ForceAlign.

Lemma elem_of_setAdd (v x : string) (s : list string) :
  x ∈ JS.setAdd v s ↔ x ∈ s ∨ x = v.
Proof.
  unfold JS.setAdd. destruct (decide (v ∈ s)) as [Hin|Hnin].
  - split; [by left|]. intros [?| ->]; done.
  - rewrite elem_of_app, list_elem_of_singleton. done.
Qed.

Lemma elem_of_neighborsOf_addNeighbor (a b : string) (m : Adjacency) (k x : string) :
  x ∈ neighborsOf (addNeighbor a b m) k
  ↔ x ∈ neighborsOf m k ∨ (k = a ∧ x = b).
Proof.
  unfold neighborsOf, addNeighbor.
  destruct (decide (a = k)) as [-> |Hne].
  - rewrite lookup_insert_eq. simpl. rewrite elem_of_setAdd. naive_solver.
  - rewrite lookup_insert_ne by done. naive_solver.
Qed.

Lemma elem_of_neighborsOf_addEdge (adj : Adjacency) (s t k x : string) :
  x ∈ neighborsOf (addEdge adj s t) k
  ↔ x ∈ neighborsOf adj k ∨ (k = s ∧ x = t) ∨ (k = t ∧ x = s).
Proof.
  unfold addEdge. rewrite !elem_of_neighborsOf_addNeighbor. naive_solver.
Qed.

(** The core adjacency lists every edge in both directions. *)
Lemma coreAdj_symmetric (nm : gmap string Node) (edges : list Edge) (a b : string) :
  b ∈ neighborsOf (coreAdj nm edges) a → a ∈ neighborsOf (coreAdj nm edges) b.
Proof.
  revert a b. unfold coreAdj.
  apply (foldl_invariant
           (λ adj : Adjacency, ∀ a b, b ∈ neighborsOf adj a → a ∈ neighborsOf adj b)).
  - intros a b. unfold neighborsOf. rewrite lookup_empty. simpl.
    intros H. by apply elem_of_nil in H.
  - intros adj e _ IH a b.
    destruct (nm !! e_source e) as [sNode|]; [|by apply IH].
    destruct (nm !! e_target e) as [tNode|]; [|by apply IH].
    destruct (isCore (n_type sNode) && isCore (n_type tNode)); [|by apply IH].
    rewrite !elem_of_neighborsOf_addEdge.
    intros [H|[[-> ->]|[-> ->]]]; [left; by apply IH|right; by right|right; by left].
Qed.

Lemma neighborsOf_adjIds (adj : Adjacency) (cur x : string) :
  x ∈ neighborsOf adj cur → x ∈ Decompose.adjIds adj.
Proof.
  unfold neighborsOf. destruct (adj !! cur) as [nbs|] eqn:Hcur; simpl.
  - by eapply elem_of_adjIds.
  - intros H. by apply elem_of_nil in H.
Qed.

(** The decomposition over an adjacency never runs out of fuel. *)
Lemma components_fuelFor (adj : Adjacency) (roots : list string)
    (visited : gset string) :
  is_Some (Decompose.components (Decompose.fuelFor adj roots)
             (neighborsOf adj) roots visited).
Proof.
  eapply components_fuel; [|unfold Decompose.fuelFor; reflexivity].
  intros cur x Hx. apply elem_of_union_l. by eapply neighborsOf_adjIds.
Qed.

(** A list of ids that contains the neighbours of its members. *)
Definition closedUnder (adj : Adjacency) (ids : list string) : Prop :=
  ∀ i nb, i ∈ ids → nb ∈ neighborsOf adj i → nb ∈ ids.

(** The components of the core subgraph are closed and not empty. *)
Lemma forceAlign_component_closed (allNodes : list Node) (edges : list Edge)
    (comps : list (list string)) (ids : list string) :
  components allNodes edges = Some comps → ids ∈ comps →
  closedUnder (coreAdj (nodeMap allNodes) edges) ids ∧ ids ≠ [].
Proof.
  unfold components. intros Hrun Hids. split.
  - intros i nb Hi Hnb.
    eapply components_closed; [| |exact Hrun|exact Hids|exact Hi|exact Hnb].
    + intros a b. apply coreAdj_symmetric.
    + intros x nb' Hx. by apply elem_of_empty in Hx.
  - apply components_spec in Hrun as (_ & _ & _ & Hne & _).
    rewrite Forall_forall in Hne. by apply Hne.
Qed.

(** The links between unplaced relationships stay among them. *)
Lemma relAdj_values (adj : Adjacency) (info : list (string * list string))
    (k x : string) :
  x ∈ neighborsOf (relAdj adj info) k → x ∈ info.*1.
Proof.
  revert k x. unfold relAdj.
  apply (foldPairs_invariant
           (λ m : Adjacency, ∀ k x, x ∈ neighborsOf m k → x ∈ info.*1)).
  - apply (foldl_invariant
             (λ m : Adjacency, ∀ k x, x ∈ neighborsOf m k → x ∈ info.*1)).
    + intros k x. unfold neighborsOf. rewrite lookup_empty. simpl.
      intros H. by apply elem_of_nil in H.
    + intros m i _ IH k x. unfold neighborsOf.
      destruct (decide (i.1 = k)) as [-> |Hne].
      * rewrite lookup_insert_eq. simpl. intros H. by apply elem_of_nil in H.
      * rewrite lookup_insert_ne by done. apply IH.
  - intros a b m Ha Hb IH k x.
    destruct (linked adj a.2 b.2); [|by apply IH].
    rewrite !elem_of_neighborsOf_addNeighbor.
    intros [[H|[_ ->]]|[_ ->]]; [by eapply IH|..];
      by apply list_elem_of_fmap_2.
Qed.

End AdjacencyFacts.

Section PlacementStep.
Import ForceAlign.

(** [st'] comes from [st] by giving each id of [new], which had no target,
    a target and a place at the end of the queue. *)
Record Grows (st st' : Placement) (new : list string) : Prop := mkGrows {
  grows_queue : p_queue st' = p_queue st ++ new;
  grows_dequeued : p_dequeued st' = p_dequeued st;
  grows_NoDup : NoDup new;
  grows_fresh : ∀ x, x ∈ new → p_targets st !! x = None;
  grows_targets :
    ∀ x, is_Some (p_targets st' !! x) ↔ is_Some (p_targets st !! x) ∨ x ∈ new
}.

Lemma Grows_refl (st : Placement) : Grows st st [].
Proof.
  split; [by rewrite app_nil_r|done|constructor| |].
  - intros x Hx. by apply elem_of_nil in Hx.
  - intros x. split; [by left|]. intros [?|Hx]; [done|by apply elem_of_nil in Hx].
Qed.

Lemma Grows_trans (st st1 st2 : Placement) (new1 new2 : list string) :
  Grows st st1 new1 → Grows st1 st2 new2 → Grows st st2 (new1 ++ new2).
Proof.
  intros [Hq1 Hd1 Hnd1 Hf1 Ht1] [Hq2 Hd2 Hnd2 Hf2 Ht2]. split.
  - by rewrite Hq2, Hq1, app_assoc.
  - by rewrite Hd2.
  - apply NoDup_app. split_and!; [done| |done].
    intros x Hx1 Hx2. apply Hf2 in Hx2.
    assert (is_Some (p_targets st1 !! x)) as [p Hp] by (apply Ht1; by right).
    congruence.
  - intros x Hx. apply elem_of_app in Hx as [Hx|Hx]; [by apply Hf1|].
    apply Hf2 in Hx. destruct (p_targets st !! x) as [p|] eqn:Hp; [|done].
    assert (is_Some (p_targets st1 !! x)) as [p' Hp'] by (apply Ht1; left; eauto).
    congruence.
  - intros x. rewrite Ht2, Ht1, elem_of_app. tauto.
Qed.

(** The entities behind one relationship: each one without a target gets
    one and joins the queue. *)
Lemma placeOthers_Grows nm adj eid entityPos entityRadius st rid :
  ∃ new,
    Grows st (placeOthers nm adj eid entityPos entityRadius st rid) new
    ∧ ∀ x, x ∈ new → x ∈ otherEntities nm adj eid rid.
Proof.
  unfold placeOthers.
  destruct (p_targets st !! rid) as [relPos|].
  2: { exists []. split; [apply Grows_refl|].
       intros x Hx. by apply elem_of_nil in Hx. }
  generalize (otherEntities nm adj eid rid) as others.
  induction others as [|a others IH] using rev_ind.
  { exists []. split; [apply Grows_refl|done]. }
  destruct IH as (new & HG & Hin).
  rewrite foldl_app. cbn [foldl].
  match goal with |- context [foldl ?f st others] => set (st1 := foldl f st others) in * end.
  destruct (p_targets st1 !! a) as [p|] eqn:Ha.
  - exists new. split; [done|]. intros x Hx. apply elem_of_app. left. by apply Hin.
  - exists (new ++ [a]). split.
    + apply (Grows_trans st st1 _ new [a] HG). split; simpl.
      * done.
      * done.
      * apply NoDup_singleton.
      * intros x Hx. by apply list_elem_of_singleton in Hx as ->.
      * intros x. rewrite is_Some_insert, list_elem_of_singleton. done.
    + intros x Hx. apply elem_of_app in Hx as [Hx|Hx].
      * apply elem_of_app. left. by apply Hin.
      * apply elem_of_app. by right.
Qed.

Lemma placeOthers_all_Grows nm adj eid entityPos entityRadius st rels :
  ∃ new,
    Grows st (foldl (placeOthers nm adj eid entityPos entityRadius) st rels) new
    ∧ ∀ x, x ∈ new → ∃ rid, rid ∈ rels ∧ x ∈ otherEntities nm adj eid rid.
Proof.
  induction rels as [|rid rels IH] using rev_ind.
  { exists []. split; [apply Grows_refl|].
    intros x Hx. by apply elem_of_nil in Hx. }
  destruct IH as (new1 & HG1 & Hin1).
  rewrite foldl_app. cbn [foldl].
  destruct (placeOthers_Grows nm adj eid entityPos entityRadius
              (foldl (placeOthers nm adj eid entityPos entityRadius) st rels) rid)
    as (new2 & HG2 & Hin2).
  exists (new1 ++ new2). split; [by eapply Grows_trans|].
  intros x Hx. apply elem_of_app in Hx as [Hx|Hx].
  - destruct (Hin1 x Hx) as (r & Hr & Hxr). exists r.
    split; [apply elem_of_app; by left|done].
  - exists rid. split; [apply elem_of_app; right; left|by apply Hin2].
Qed.

(** One group of unplaced relationships: exactly its members get a
    target. *)
Lemma placeRelComponent_targets nm eid entityPos entityRadius preferredSign
    unplacedInfo anchorAngles anchorSigns st comp x :
  is_Some ((placeRelComponent nm eid entityPos entityRadius preferredSign
              unplacedInfo anchorAngles anchorSigns st comp).1.1 !! x)
  ↔ is_Some (st.1.1 !! x) ∨ x ∈ comp.
Proof.
  destruct st as [[targets sideHint] nextAltSign].
  unfold placeRelComponent.
  match goal with
  | |- context [if ?c then (_, Z.opp _) else _] => destruct c
  end.
  all: match goal with
       | |- context [foldl ?f (?t, ?h) ?l] =>
           pose proof (foldl_writes (S := Targets * SideHint) fst
                         (λ k : nat * string, [k.2]) f l (t, h)) as Hw;
           destruct (foldl f (t, h) l) as [targets' sideHint']
       end.
  all: simpl in *; rewrite Hw.
  all: try (intros [t h] [idx rid] y; simpl;
            rewrite is_Some_insert, list_elem_of_singleton; done).
  all: split; (intros [?|Hx]; [by left|right]).
  all: try (destruct Hx as ([idx rid] & Hk & Hx); simpl in Hx;
            apply list_elem_of_singleton in Hx as ->;
            apply (list_elem_of_fmap_2 snd) in Hk;
            rewrite imap_pair_snd in Hk; by apply elem_of_sortBy in Hk).
  all: apply (elem_of_sortBy JS.localeLeb) in Hx;
       rewrite <- (imap_pair_snd (JS.sortBy JS.localeLeb comp)) in Hx;
       apply list_elem_of_fmap in Hx as ([idx rid] & -> & Hk);
       exists (idx, rid); split; [done|simpl; left].
Qed.

End PlacementStep.

Section PlacementLoop.
Import ForceAlign.

(** One iteration of the loop: it returns, the ids it adds to the queue
    are new, had no target before and have one now, and every target it
    writes belongs to a neighbour of [eid] or to an entity behind one. *)
Lemma placeAround_spec nm adj eid st :
  ∃ st' new,
    placeAround nm adj eid st = Computed st'
    ∧ p_queue st' = p_queue st ++ new
    ∧ p_dequeued st' = p_dequeued st
    ∧ NoDup new
    ∧ (∀ x, x ∈ new →
         p_targets st !! x = None ∧ is_Some (p_targets st' !! x)
         ∧ ∃ rid, rid ∈ neighborsOf adj eid ∧ x ∈ neighborsOf adj rid)
    ∧ (∀ x, is_Some (p_targets st !! x) → is_Some (p_targets st' !! x))
    ∧ (∀ x, is_Some (p_targets st' !! x) →
         is_Some (p_targets st !! x) ∨ x ∈ new ∨ x ∈ neighborsOf adj eid).
Proof.
  assert (Hskip : ∃ st' new,
    Computed st = Computed st'
    ∧ p_queue st' = p_queue st ++ new
    ∧ p_dequeued st' = p_dequeued st
    ∧ NoDup new
    ∧ (∀ x, x ∈ new →
         p_targets st !! x = None ∧ is_Some (p_targets st' !! x)
         ∧ ∃ rid, rid ∈ neighborsOf adj eid ∧ x ∈ neighborsOf adj rid)
    ∧ (∀ x, is_Some (p_targets st !! x) → is_Some (p_targets st' !! x))
    ∧ (∀ x, is_Some (p_targets st' !! x) →
         is_Some (p_targets st !! x) ∨ x ∈ new ∨ x ∈ neighborsOf adj eid)).
  { exists st, []. split_and!; [done|by rewrite app_nil_r|done|constructor| |done|].
    - intros x Hx. by apply elem_of_nil in Hx.
    - intros x Hx. by left. }
  unfold placeAround.
  destruct (nm !! eid) as [entityNode|]; [|exact Hskip].
  destruct (p_targets st !! eid) as [entityPos|] eqn:Hpos; [|exact Hskip].
  destruct (relNeighborsOf nm adj eid) as [|r rels] eqn:Hrel; [exact Hskip|].
  clear Hskip. lazy beta iota zeta. rewrite <- Hrel.
  set (relNeighbors := relNeighborsOf nm adj eid).
  set (unplacedRels := filter (λ rid, p_targets st !! rid = None) relNeighbors).
  set (unplacedInfo := (λ rid, (rid, otherEntities nm adj eid rid)) <$> unplacedRels).
  set (links := relAdj adj unplacedInfo).
  destruct (components_fuelFor links unplacedRels ∅) as [relComponents Hcomps].
  rewrite Hcomps. cbn [fuelled mbind Outcome_bind].
  apply components_spec in Hcomps as (_ & _ & _ & _ & _ & Horigin).
  assert (Hinfo : unplacedInfo.*1 = unplacedRels).
  { subst unplacedInfo. rewrite <- list_fmap_compose. apply list_fmap_id. }
  assert (Hmember : ∀ comp x, comp ∈ relComponents → x ∈ comp →
            x ∈ neighborsOf adj eid).
  { intros comp x Hc Hx.
    assert (Hun : x ∈ unplacedRels).
    { destruct (Horigin comp x Hc Hx) as [?|(y & _ & Hy)]; [done|].
      rewrite <- Hinfo. by eapply relAdj_values. }
    subst unplacedRels relNeighbors. unfold relNeighborsOf in Hun.
    apply list_elem_of_filter in Hun as [_ Hun].
    by apply list_elem_of_filter in Hun as [_ Hun]. }
  match goal with
  | |- context [foldl ?f (p_targets st, p_sideHint st, ?z) relComponents] =>
      pose proof (foldl_writes (S := Targets * SideHint * Z) (λ s, s.1.1)
                    (λ comp : list string, comp) f relComponents
                    (p_targets st, p_sideHint st, z)) as Hw;
      destruct (foldl f (p_targets st, p_sideHint st, z) relComponents)
        as [[targets sideHint] z']
  end.
  simpl in Hw.
  assert (Hw' : ∀ x, is_Some (targets !! x)
                     ↔ is_Some (p_targets st !! x)
                       ∨ ∃ comp, comp ∈ relComponents ∧ x ∈ comp).
  { apply Hw. intros s comp x. apply placeRelComponent_targets. }
  clear Hw.
  destruct (placeOthers_all_Grows nm adj eid entityPos (radiusOf nm eid)
              (mkPlacement targets sideHint (p_queue st) (p_dequeued st))
              relNeighbors)
    as (new & [Hq Hd Hnd Hfresh Htg] & Hfrom).
  simpl in Hq, Hd, Hfresh, Htg.
  eexists _, new. split; [reflexivity|].
  split_and!; [done|done|done| | |].
  - intros x Hx. split_and!.
    + specialize (Hfresh x Hx).
      destruct (p_targets st !! x) as [p|] eqn:Hp; [|done].
      assert (is_Some (targets !! x)) as [p' Hp'] by (apply Hw'; left; eauto).
      congruence.
    + apply Htg. by right.
    + destruct (Hfrom x Hx) as (rid & Hrid & Hother). exists rid. split.
      * subst relNeighbors. unfold relNeighborsOf in Hrid.
        by apply list_elem_of_filter in Hrid as [_ ?].
      * unfold otherEntities in Hother.
        by apply list_elem_of_filter in Hother as [_ ?].
  - intros x Hx. apply Htg. left. apply Hw'. by left.
  - intros x Hx. apply Htg in Hx as [Hx|Hx]; [|right; by left].
    apply Hw' in Hx as [Hx|(comp & Hc & Hx)]; [by left|].
    right. right. by eapply Hmember.
Qed.

(** The invariant of the loop: the ids taken from the queue and the ids
    waiting in it are pairwise distinct, have a target, and every id with a
    target belongs to the component. *)
Record QueueInv (ids : list string) (st : Placement) : Prop := mkQueueInv {
  qi_NoDup : NoDup (p_dequeued st ++ p_queue st);
  qi_placed : ∀ x, x ∈ p_dequeued st ++ p_queue st → is_Some (p_targets st !! x);
  qi_inside : ∀ x, is_Some (p_targets st !! x) → x ∈ ids
}.

Lemma QueueInv_bound ids st :
  QueueInv ids st → length (p_dequeued st) + length (p_queue st) ≤ length ids.
Proof.
  intros [Hnd Hplaced Hin]. rewrite <- length_app.
  etransitivity; [apply (length_le_size _ (list_to_set ids) Hnd)|].
  - intros x Hx. apply elem_of_list_to_set. by apply Hin, Hplaced.
  - apply size_list_to_set_le.
Qed.

(** With one unit of fuel for every id not yet taken from the queue the
    loop runs to the end. *)
Lemma placeLoop_spec nm adj ids fuel st :
  closedUnder adj ids → QueueInv ids st →
  length ids ≤ length (p_dequeued st) + fuel →
  ∃ st',
    placeLoop fuel nm adj st = Computed st'
    ∧ QueueInv ids st'
    ∧ p_queue st' = []
    ∧ (∀ x, is_Some (p_targets st !! x) → is_Some (p_targets st' !! x))
    ∧ (∀ x, x ∈ p_dequeued st' →
         x ∈ p_dequeued st ∨ x ∈ p_queue st ∨ p_targets st !! x = None).
Proof.
  intros Hclosed. revert st.
  induction fuel as [|fuel IH]; intros st Hinv Hfuel.
  - pose proof (QueueInv_bound ids st Hinv) as Hb.
    destruct (p_queue st) as [|eid rest] eqn:Hqueue; simpl in Hb; [|lia].
    exists st. simpl. rewrite Hqueue. split_and!; [done|done|done|done|].
    intros x Hx. by left.
  - destruct (p_queue st) as [|eid rest] eqn:Hqueue.
    { exists st. simpl. rewrite Hqueue. split_and!; [done|done|done|done|].
      intros x Hx. by left. }
    simpl. rewrite Hqueue.
    set (st1 := mkPlacement (p_targets st) (p_sideHint st) rest
                            (p_dequeued st ++ [eid])).
    destruct (placeAround_spec nm adj eid st1)
      as (st2 & new & -> & Hq & Hd & Hnd & Hnew & Hmono & Hfrom).
    cbn [mbind Outcome_bind]. simpl in Hq, Hd, Hnew, Hmono, Hfrom.
    destruct Hinv as [Hinv_nd Hinv_placed Hinv_in]. rewrite Hqueue in *.
    assert (Heid : eid ∈ ids).
    { apply Hinv_in, Hinv_placed, elem_of_app. right. left. }
    assert (Hshift : (p_dequeued st ++ [eid]) ++ rest ++ new
                     = (p_dequeued st ++ eid :: rest) ++ new).
    { by rewrite <- !app_assoc. }
    assert (Hinv2 : QueueInv ids st2).
    { split.
      - rewrite Hq, Hd, Hshift.
        apply NoDup_app. split_and!; [done| |done].
        intros x Hx Hx'. apply Hinv_placed in Hx as [p Hp].
        destruct (Hnew x Hx') as [Hnone _]. congruence.
      - intros x. rewrite Hq, Hd, Hshift. intros Hx.
        apply elem_of_app in Hx as [Hx|Hx].
        + by apply Hmono, Hinv_placed.
        + by destruct (Hnew x Hx) as (_ & ? & _).
      - intros x Hx. apply Hfrom in Hx as [Hx|[Hx|Hx]].
        + by apply Hinv_in.
        + destruct (Hnew x Hx) as (_ & _ & rid & Hrid & Hxr).
          eapply Hclosed; [|exact Hxr]. by eapply Hclosed.
        + by eapply Hclosed. }
    destruct (IH st2 Hinv2) as (st' & Hrun & Hinv' & Hdone & Hmono' & Hdeq).
    { rewrite Hd, length_app. simpl. lia. }
    exists st'. split_and!; [done|done|done| |].
    + intros x Hx. by apply Hmono', Hmono.
    + intros x Hx. apply Hdeq in Hx as [Hx|[Hx|Hx]].
      * rewrite Hd in Hx. apply elem_of_app in Hx as [Hx|Hx]; [by left|].
        apply list_elem_of_singleton in Hx as ->. right. left. left.
      * rewrite Hq in Hx. apply elem_of_app in Hx as [Hx|Hx].
        -- right. left. by right.
        -- right. right. by destruct (Hnew x Hx).
      * right. right. destruct (p_targets st !! x) as [p|] eqn:Hp; [|done].
        assert (is_Some (p_targets st2 !! x)) as [p' Hp']
          by (apply Hmono; eauto).
        congruence.
Qed.

End PlacementLoop.

Section PlacementStart.
Import ForceAlign.

Lemma placeMainPath_targets nm chainSpacing mainPath sideHint x :
  is_Some ((placeMainPath nm chainSpacing mainPath sideHint).1 !! x)
  ↔ x ∈ mainPath.
Proof.
  unfold placeMainPath.
  match goal with
  | |- context [foldl ?f (∅, sideHint) ?l] =>
      pose proof (foldl_writes (S := Targets * SideHint) fst
                    (λ k : nat * string, [k.2]) f l (∅, sideHint)) as Hw
  end.
  rewrite Hw.
  - simpl. rewrite lookup_empty. split.
    + intros [[? [=]]|([idx i] & Hk & Hx)]. simpl in Hx.
      apply list_elem_of_singleton in Hx as ->.
      apply (list_elem_of_fmap_2 snd) in Hk. by rewrite imap_pair_snd in Hk.
    + intros Hx. right. rewrite <- (imap_pair_snd mainPath) in Hx.
      apply list_elem_of_fmap in Hx as ([idx i] & -> & Hk).
      exists (idx, i). split; [done|simpl; left].
  - intros [t h] [idx i] y. simpl.
    rewrite is_Some_insert, list_elem_of_singleton. done.
Qed.

(** The side of a branch is always computed. *)
Lemma branchSide_ensures adj (mainPathSet : gset string) ids st i :
  ensures st (λ _, True) →
  ensures (branchSide adj mainPathSet (Decompose.fuelFor adj ids) st i) (λ _, True).
Proof.
  intros ([[branchVisited altSide] sideHint] & -> & _).
  unfold branchSide. cbn [mbind Outcome_bind].
  destruct (decide (i ∈ branchVisited)); [by apply ensures_ret|].
  destruct (dfs_fuel
              (λ cur, filter (λ nb, nb ∉ mainPathSet) (neighborsOf adj cur))
              (Decompose.adjIds adj ∪ list_to_set ids)
              (λ cur x (Hx : x ∈ filter (λ nb, nb ∉ mainPathSet) (neighborsOf adj cur)),
                 elem_of_union_l x _ _
                   (neighborsOf_adjIds adj cur x
                      (proj2 (proj1 (list_elem_of_filter _ _ _) Hx))))
              (Decompose.fuelFor adj ids) ({[i]} ∪ branchVisited) [i] [])
    as [[visited' comp] ->].
  { unfold Decompose.fuelFor. simpl.
    assert (Hsub : (Decompose.adjIds adj ∪ list_to_set ids) ∖ ({[i]} ∪ branchVisited)
                   ⊆ Decompose.adjIds adj ∪ list_to_set ids) by set_solver.
    apply subseteq_size in Hsub. lia. }
  cbn [fuelled mbind Outcome_bind].
  repeat match goal with
         | |- context [if ?c then _ else _] => destruct c
         end; by apply ensures_ret.
Qed.

(** The state in which the queue loop starts. *)
Lemma startPlacement_spec nm adj sideHint ids :
  ids ≠ [] →
  ∃ mainPath st0,
    startPlacement nm adj sideHint ids = Computed (list_to_set mainPath, st0)
    ∧ NoDup mainPath
    ∧ (∀ x, x ∈ mainPath → x ∈ ids)
    ∧ p_dequeued st0 = []
    ∧ p_queue st0 = filter (λ i, hasType nm entity i = true) mainPath
    ∧ (∀ x, is_Some (p_targets st0 !! x) ↔ x ∈ mainPath)
    ∧ findLongestPath adj ids = Some mainPath.
Proof.
  intros Hne.
  destruct (findLongestPath_spec adj ids Hne)
    as (mainPath & _ & _ & _ & _ & Hrun & (_ & Hnd & Hin & _) & _).
  unfold startPlacement. rewrite Hrun. cbn [fuelled mbind Outcome_bind].
  pose proof (placeMainPath_targets nm
                (Rmax 200 (JS.maxOf 0 (radiusOf nm <$> ids) * 2 + 40))
                mainPath sideHint) as Htargets.
  destruct (placeMainPath nm _ mainPath sideHint) as [targets0 sideHint0].
  simpl in Htargets.
  match goal with
  | |- context [foldl ?f (Computed ?s) ?l] =>
      destruct (foldl_invariant (λ o, ensures o (λ _, True)) f l (Computed s))
        as ([[bv alt] sideHint1] & -> & _)
  end.
  - by apply ensures_ret.
  - intros o i _ Ho. by apply branchSide_ensures.
  - cbn [mbind Outcome_bind]. eexists mainPath, _. split; [reflexivity|].
    split_and!; [done| |done|done|done|done].
    intros x Hx. apply Hin in Hx. by apply elem_of_list_to_set in Hx.
Qed.

Lemma startPlacement_QueueInv (nm : gmap string Node) ids mainPath st0 :
  NoDup mainPath →
  (∀ x, x ∈ mainPath → x ∈ ids) →
  p_dequeued st0 = [] →
  p_queue st0 = filter (λ i, hasType nm entity i = true) mainPath →
  (∀ x, is_Some (p_targets st0 !! x) ↔ x ∈ mainPath) →
  QueueInv ids st0.
Proof.
  intros Hnd Hin Hd Hq Ht. split.
  - rewrite Hd, Hq. simpl. by apply NoDup_filter.
  - rewrite Hd, Hq. simpl.
    intros x Hx. apply list_elem_of_filter in Hx as [_ Hx]. by apply Ht.
  - intros x Hx. by apply Hin, Ht.
Qed.

End PlacementStart.

Section PlacementTermination.
Import ForceAlign.

(** C10: the queue loop of [layoutComponent] terminates on every component
    of the core subgraph: started in the state [startPlacement] leaves, it
    returns within one iteration per id of the component.  The ids taken
    from the queue are pairwise distinct ids of the component, so none is
    enqueued twice, and each of them either was in the first queue or had
    no target when the loop started and has one at the end. *)
Theorem placement_loop_terminates (allNodes : list Node) (edges : list Edge)
    (comps : list (list string)) (ids : list string) (sideHint : SideHint)
    (mainPathSet : gset string) (st0 : Placement) :
  components allNodes edges = Some comps →
  ids ∈ comps →
  startPlacement (nodeMap allNodes) (coreAdj (nodeMap allNodes) edges)
    sideHint ids = Computed (mainPathSet, st0) →
  ∃ st',
    placeLoop (length ids) (nodeMap allNodes)
      (coreAdj (nodeMap allNodes) edges) st0 = Computed st'
    ∧ p_queue st' = []
    ∧ NoDup (p_dequeued st')
    ∧ length (p_dequeued st') ≤ length ids
    ∧ ∀ x, x ∈ p_dequeued st' →
        x ∈ ids
        ∧ is_Some (p_targets st' !! x)
        ∧ (x ∈ p_queue st0 ∨ p_targets st0 !! x = None).
Proof.
  intros Hcomps Hids Hstart.
  destruct (forceAlign_component_closed _ _ _ _ Hcomps Hids) as [Hclosed Hne].
  destruct (startPlacement_spec (nodeMap allNodes)
              (coreAdj (nodeMap allNodes) edges) sideHint ids Hne)
    as (mainPath & st0' & Hstart' & Hnd & Hin & Hd & Hq & Ht & _).
  rewrite Hstart in Hstart'. injection Hstart' as _ <-.
  pose proof (startPlacement_QueueInv _ ids mainPath st0 Hnd Hin Hd Hq Ht) as Hinv.
  destruct (placeLoop_spec (nodeMap allNodes) (coreAdj (nodeMap allNodes) edges)
              ids (length ids) st0 Hclosed Hinv)
    as (st' & Hrun & Hinv' & Hdone & Hmono & Hdeq); [lia|].
  exists st'. split_and!; [done|done| | |].
  - destruct Hinv' as [Hnd' _ _]. rewrite Hdone, app_nil_r in Hnd'. done.
  - pose proof (QueueInv_bound ids st' Hinv'). lia.
  - intros x Hx. destruct Hinv' as [_ Hplaced Hinside].
    assert (is_Some (p_targets st' !! x)) as Hsome.
    { apply Hplaced, elem_of_app. by left. }
    split_and!; [by apply Hinside|done|].
    apply Hdeq in Hx as [Hx|Hx]; [|done].
    rewrite Hd in Hx. by apply elem_of_nil in Hx.
Qed.

Lemma placement_loop_terminates_witness :
  ∃ mainPathSet st0 st',
    startPlacement (nodeMap tablesTwoKeys) adjTwoKeys ∅ compTwoKeys
    = Computed (mainPathSet, st0)
    ∧ placeLoop (length compTwoKeys) (nodeMap tablesTwoKeys) adjTwoKeys st0
      = Computed st'
    ∧ p_queue st' = []
    ∧ NoDup (p_dequeued st')
    ∧ length (p_dequeued st') ≤ length compTwoKeys.
Proof.
  destruct (startPlacement_spec (nodeMap tablesTwoKeys) adjTwoKeys ∅ compTwoKeys)
    as (mainPath & st0 & Hstart & _); [discriminate|].
  destruct (placement_loop_terminates tablesTwoKeys edgesTwoKeys [compTwoKeys]
              compTwoKeys ∅ (list_to_set mainPath) st0)
    as (st' & Hrun & Hdone & Hnd & Hlen & _).
  - vm_compute. reflexivity.
  - left.
  - exact Hstart.
  - exists (list_to_set mainPath), st0, st'. by split_and!.
Defined.

(** What a component layout provides: targets for exactly the ids of the
    component, among them the main chain, which is the path
    [findLongestPath] returns. *)
Definition LayoutOf (adj : Adjacency) (ids : list string) (layout : Layout) : Prop :=
  (∀ x, x ∈ ids ↔ is_Some (l_targets layout !! x))
  ∧ (∀ x, x ∈ l_mainPathSet layout → is_Some (l_targets layout !! x))
  ∧ ∃ mainPath,
      findLongestPath adj ids = Some mainPath
      ∧ l_mainPathSet layout = list_to_set mainPath
      ∧ ∀ x, x ∈ mainPath → x ∈ ids.

(** [layoutComponent] returns on every closed, non-empty list of ids. *)
Lemma layoutComponent_ensures nm adj sideHint ids :
  closedUnder adj ids → ids ≠ [] →
  ensures (layoutComponent nm adj sideHint ids) (λ r, LayoutOf adj ids r.1).
Proof.
  intros Hclosed Hne.
  destruct (startPlacement_spec nm adj sideHint ids Hne)
    as (mainPath & st0 & Hstart & Hnd & Hin & Hd & Hq & Ht & Hpath).
  pose proof (startPlacement_QueueInv nm ids mainPath st0 Hnd Hin Hd Hq Ht) as Hinv.
  destruct (placeLoop_spec nm adj ids (length ids) st0 Hclosed Hinv)
    as (st' & Hrun & [_ _ Hinside] & _ & Hmono & _); [lia|].
  unfold layoutComponent. rewrite Hstart. cbn [mbind Outcome_bind].
  rewrite Hrun. cbn [mbind Outcome_bind].
  apply ensures_ret. unfold LayoutOf. simpl.
  match goal with
  | |- context [foldl ?f (p_targets st') ids] =>
      set (f0 := f);
      pose proof (foldl_writes (S := Targets) (λ t, t) (λ i : string, [i]) f0 ids
                    (p_targets st')) as Hfill
  end.
  simpl in Hfill.
  assert (Hfill' : ∀ x, is_Some (foldl f0 (p_targets st') ids !! x)
                        ↔ is_Some (p_targets st' !! x) ∨ x ∈ ids).
  { intros x. rewrite Hfill.
    - split; (intros [?|Hx]; [by left|right]).
      + destruct Hx as (k & Hk & Hx).
        by apply list_elem_of_singleton in Hx as ->.
      + exists x. split; [done|left].
    - intros t i y. rewrite list_elem_of_singleton. unfold f0.
      destruct (t !! i) eqn:Hti.
      + split; [by left|]. intros [?| ->]; [done|eauto].
      + apply is_Some_insert. }
  split_and!.
  - intros x. rewrite Hfill'. split; [by right|].
    intros [?|?]; [by apply Hinside|done].
  - intros x Hx. apply elem_of_list_to_set in Hx. apply Hfill'. left.
    by apply Hmono, Ht.
  - exists mainPath; by split_and!.
Qed.

Lemma layoutAll_ensures nm adj sideHint comps :
  Forall (λ ids, closedUnder adj ids ∧ ids ≠ []) comps →
  ensures (layoutAll nm adj sideHint comps)
    (λ r, Forall2 (LayoutOf adj) comps r.1).
Proof.
  intros Hall. revert sideHint.
  induction Hall as [|ids comps [Hclosed Hne] _ IH]; intros sideHint; simpl.
  - apply ensures_ret. constructor.
  - destruct (layoutComponent_ensures nm adj sideHint ids Hclosed Hne)
      as ([layout sideHint'] & -> & Hlayout).
    cbn [mbind Outcome_bind].
    destruct (IH sideHint') as ([layouts sideHint''] & -> & Hlayouts).
    cbn [mbind Outcome_bind]. apply ensures_ret. simpl. by constructor.
Qed.

End PlacementTermination.

(** ** The passes of force-align after the tiling *)

Section Keeps.

(** [t'] has a target wherever [t] has one, and the same target at every
    id that [fixed] holds of. *)
Definition Keeps (fixed : string → Prop) (t t' : Targets) : Prop :=
  (∀ x, is_Some (t !! x) → is_Some (t' !! x))
  ∧ ∀ i, fixed i → t' !! i = t !! i.

Lemma Keeps_refl fixed t : Keeps fixed t t.
Proof. by split. Qed.

Lemma Keeps_trans fixed t1 t2 t3 :
  Keeps fixed t1 t2 → Keeps fixed t2 t3 → Keeps fixed t1 t3.
Proof.
  intros [Hg1 Hf1] [Hg2 Hf2]. split.
  - intros x Hx. by apply Hg2, Hg1.
  - intros i Hi. by rewrite Hf2, Hf1.
Qed.

Lemma Keeps_weaken (fixed fixed' : string → Prop) t t' :
  (∀ i, fixed' i → fixed i) → Keeps fixed t t' → Keeps fixed' t t'.
Proof. intros Himp [Hg Hf]. split; [done|]. intros i Hi. by apply Hf, Himp. Qed.

Lemma Keeps_insert (fixed : string → Prop) t k (v : Pos) :
  ¬ fixed k → Keeps fixed t (<[k := v]> t).
Proof.
  intros Hk. split.
  - intros x Hx. apply is_Some_insert. by left.
  - intros i Hi. rewrite lookup_insert_ne; [done|]. by intros ->.
Qed.

Lemma Keeps_step fixed t0 t k (v : Pos) :
  ¬ fixed k → Keeps fixed t0 t → Keeps fixed t0 (<[k := v]> t).
Proof. intros Hk Ht. eapply Keeps_trans; [exact Ht|by apply Keeps_insert]. Qed.

End Keeps.

Section PassFrames.
Import ForceAlign.
Context (allNodes : list Node) (nm : gmap string Node) (adj : Adjacency).
Context (mainChainIds : gset string).

(** An id outside the core subgraph: no core node carries it and no
    adjacency list mentions it. *)
Definition offCore (i : string) : Prop :=
  (∀ y, i ∉ neighborsOf adj y) ∧ i ∉ (n_id <$> coreNodes allNodes).

(** The ids the passes over the core subgraph never write: the main chain
    and everything outside the core subgraph. *)
Definition settled (i : string) : Prop := i ∈ mainChainIds ∨ offCore i.

Lemma neighbour_not_settled (k y : string) :
  k ∉ mainChainIds → k ∈ neighborsOf adj y → ¬ settled k.
Proof. intros Hk Hy [?|[Hoff _]]; [done|]. by apply (Hoff y). Qed.

Lemma coreNode_not_settled (n : Node) :
  n_id n ∉ mainChainIds → n ∈ coreNodes allNodes → ¬ settled (n_id n).
Proof.
  intros Hk Hn [?|[_ Hoff]]; [done|]. apply Hoff. by apply list_elem_of_fmap_2.
Qed.

Lemma placeSide_Keeps eid entityPos entityRadius st list sign :
  Forall (λ i, i ∉ mainChainIds ∧ i ∈ neighborsOf adj eid) list →
  Keeps settled (q_targets st)
    (q_targets (placeSide nm eid entityPos entityRadius st list sign)).
Proof.
  intros Hlist. unfold placeSide.
  destruct list as [|a l] eqn:Hl; [apply Keeps_refl|]. rewrite <- Hl in *. clear Hl.
  apply (foldl_invariant (λ s, Keeps settled (q_targets st) (q_targets s)));
    [apply Keeps_refl|].
  intros s [idx rid] Hk Hs. simpl. apply Keeps_step; [|done].
  apply (list_elem_of_fmap_2 snd) in Hk. rewrite imap_pair_snd in Hk. simpl in Hk.
  apply elem_of_sortBy in Hk. rewrite Forall_forall in Hlist.
  destruct (Hlist rid Hk). by eapply neighbour_not_settled.
Qed.

Lemma evenSideSpacing_Keeps st :
  Keeps settled (q_targets st)
    (q_targets (evenSideSpacing allNodes nm adj mainChainIds st)).
Proof.
  unfold evenSideSpacing.
  apply (foldl_invariant (λ s, Keeps settled (q_targets st) (q_targets s)));
    [apply Keeps_refl|].
  intros s eid _ Hs. destruct (q_targets s !! eid) as [entityPos|]; [|done].
  eapply Keeps_trans; [exact Hs|].
  eapply Keeps_trans; apply placeSide_Keeps;
    apply Forall_forall; intros i Hi;
    apply list_elem_of_filter in Hi as [? Hi];
    apply list_elem_of_filter in Hi as [_ Hi];
    unfold relNeighborsOf in Hi; by apply list_elem_of_filter in Hi as [_ Hi].
Qed.

Lemma reprojectOne_Keeps t0 eid rid ePos eRad rRad ang st oid :
  oid ∈ neighborsOf adj rid →
  Keeps settled t0 (q_targets st.1) →
  Keeps settled t0
    (q_targets (reprojectOne nm mainChainIds eid rid ePos eRad rRad ang st oid).1).
Proof.
  intros Hoid Hs. unfold reprojectOne. destruct st as [pass projected].
  destruct (decide (oid ∈ mainChainIds)); [done|].
  destruct (nm !! oid) as [oNode|]; [|done]. simpl.
  match goal with |- context [if ?c then _ else _] => destruct c end; [|done].
  apply Keeps_step; [|done]. by eapply neighbour_not_settled.
Qed.

Lemma reprojectBranches_Keeps st :
  Keeps settled (q_targets st)
    (q_targets (reprojectBranches allNodes nm adj mainChainIds st)).
Proof.
  unfold reprojectBranches.
  apply (foldl_invariant
           (λ s : Pass * gset string, Keeps settled (q_targets st) (q_targets s.1)));
    [apply Keeps_refl|].
  intros s eid _ Hs. destruct (q_targets s.1 !! eid) as [ePos|]; [|done].
  apply (foldl_invariant
           (λ s : Pass * gset string, Keeps settled (q_targets st) (q_targets s.1)));
    [done|].
  intros s1 rid _ Hs1. destruct (q_targets s1.1 !! rid) as [rPos|]; [|done].
  destruct (decide (rid ∈ mainChainIds)); [done|].
  apply (foldl_invariant
           (λ s : Pass * gset string, Keeps settled (q_targets st) (q_targets s.1)));
    [done|].
  intros s2 oid Hoid Hs2. apply reprojectOne_Keeps; [|done].
  unfold otherEntities in Hoid. by apply list_elem_of_filter in Hoid as [_ ?].
Qed.

Lemma straighten_ensures relNode t :
  ensures (straighten nm adj mainChainIds relNode t) (Keeps settled t).
Proof.
  unfold straighten.
  destruct (n_type relNode); try (apply ensures_ret, Keeps_refl).
  destruct (entNeighborsOf nm adj (n_id relNode)) as [|e1 [|e2 [|e3 rest]]] eqn:Hent;
    try (apply ensures_ret, Keeps_refl).
  assert (Hnb : ∀ e, e ∈ [e1; e2] → e ∈ neighborsOf adj (n_id relNode)).
  { intros e He. rewrite <- Hent in He. unfold entNeighborsOf in He.
    by apply list_elem_of_filter in He as [_ ?]. }
  destruct (decide _); [apply ensures_ret, Keeps_refl|].
  destruct (t !! n_id relNode) as [pR|]; [|apply ensures_ret, Keeps_refl].
  destruct (t !! e1) as [p1|]; [|apply ensures_ret, Keeps_refl].
  destruct (t !! e2) as [p2|]; [|apply ensures_ret, Keeps_refl].
  cbv zeta.
  destruct (decide (_ ∈ mainChainIds)) as [|Hmove]; [apply ensures_ret, Keeps_refl|].
  eapply ensures_bind; [apply unitVector_ensures, orElse_one_nonzero|].
  intros [ux uy] _. apply ensures_ret. apply Keeps_insert.
  eapply neighbour_not_settled; [exact Hmove|]. apply Hnb.
  destruct (decide (_ <= _)%R); [right; left|left].
Qed.

Lemma enforceLocalTriplets_ensures t :
  ensures (enforceLocalTriplets allNodes nm adj mainChainIds t) (Keeps settled t).
Proof.
  unfold enforceLocalTriplets.
  apply (forEachM_ensures _ (Keeps settled t)); [|apply Keeps_refl].
  intros relNode s _ Hs.
  eapply ensures_weaken; [apply straighten_ensures|].
  intros s' Hs'. by eapply Keeps_trans.
Qed.

Lemma snapToMidpoint_Keeps t relNode :
  relNode ∈ coreNodes allNodes →
  Keeps settled t (snapToMidpoint nm adj mainChainIds t relNode).
Proof.
  intros Hcore. unfold snapToMidpoint.
  destruct (n_type relNode); try apply Keeps_refl.
  destruct (decide _); [apply Keeps_refl|].
  destruct (entNeighborsOf nm adj (n_id relNode)) as [|e1 [|e2 [|e3 rest]]];
    try apply Keeps_refl.
  destruct (t !! e1) as [p1|]; [|apply Keeps_refl].
  destruct (t !! e2) as [p2|]; [|apply Keeps_refl].
  cbv zeta.
  destruct (decide _); [apply Keeps_refl|].
  destruct (decide _); [apply Keeps_refl|].
  apply Keeps_insert. by apply coreNode_not_settled.
Qed.

Lemma adjustRelationshipMidpoints_Keeps t :
  Keeps settled t (adjustRelationshipMidpoints allNodes nm adj mainChainIds t).
Proof.
  unfold adjustRelationshipMidpoints.
  apply (foldl_invariant (Keeps settled t)); [apply Keeps_refl|].
  intros s relNode Hrel Hs.
  eapply Keeps_trans; [exact Hs|by apply snapToMidpoint_Keeps].
Qed.

End PassFrames.

Section LaterPasses.
Import ForceAlign.
Context (allNodes : list Node) (nm : gmap string Node) (adj : Adjacency).
Context (mainChainIds : gset string).

(** Ids that no attribute node with a parent entity carries. *)
Definition noAttribute (i : string) : Prop :=
  ∀ a, a ∈ attributeNodes allNodes → n_id a = i → n_parentEntity a = None.

Lemma entityAttrs_members (entry : string * list Node) (a : Node) :
  entry ∈ entityAttrs allNodes → a ∈ entry.2 →
  a ∈ attributeNodes allNodes ∧ is_Some (n_parentEntity a).
Proof.
  unfold entityAttrs. revert entry a.
  apply (foldl_invariant
           (λ m : list (string * list Node),
              ∀ entry a, entry ∈ m → a ∈ entry.2 →
                a ∈ attributeNodes allNodes ∧ is_Some (n_parentEntity a))).
  { intros entry a H. by apply elem_of_nil in H. }
  intros m b Hb IH entry a.
  destruct (n_parentEntity b) as [pid|] eqn:Hpid; [|by apply IH].
  destruct (decide (pid = "")); [by apply IH|].
  destruct (List.find _ m).
  - intros Hentry Ha. apply list_elem_of_fmap in Hentry as ([k v] & -> & Hkv).
    simpl in Ha. destruct (decide (k = pid)); simpl in Ha.
    + apply elem_of_app in Ha as [Ha|Ha]; [by eapply (IH (k, v))|].
      apply list_elem_of_singleton in Ha as ->. rewrite Hpid. eauto.
    + by eapply (IH (k, v)).
  - intros Hentry Ha. apply elem_of_app in Hentry as [Hentry|Hentry];
      [by eapply IH|].
    apply list_elem_of_singleton in Hentry as ->. simpl in Ha.
    apply list_elem_of_singleton in Ha as ->. rewrite Hpid. eauto.
Qed.

Lemma placeAttributes_Keeps t entry :
  entry ∈ entityAttrs allNodes →
  Keeps noAttribute t (placeAttributes nm adj t entry).
Proof.
  intros Hentry. unfold placeAttributes. destruct entry as [eid attrs].
  destruct (t !! eid) as [center|]; [|apply Keeps_refl].
  destruct attrs as [|a0 attrs0] eqn:Hattrs; [apply Keeps_refl|].
  rewrite <- Hattrs in *. clear Hattrs.
  apply (foldl_invariant (Keeps noAttribute t)); [apply Keeps_refl|].
  intros s [idx attrNode] Hk Hs. apply Keeps_step; [|done].
  intros Hno.
  destruct (entityAttrs_members (eid, attrs) attrNode Hentry) as [Hattr [pid Hpid]].
  { simpl. apply (list_elem_of_fmap_2 snd) in Hk.
    rewrite imap_pair_snd in Hk. simpl in Hk. by apply elem_of_sortBy in Hk. }
  rewrite (Hno attrNode Hattr eq_refl) in Hpid. done.
Qed.

Lemma placeAttributes_all_Keeps t :
  Keeps noAttribute t (foldl (placeAttributes nm adj) t (entityAttrs allNodes)).
Proof.
  apply (foldl_invariant (Keeps noAttribute t)); [apply Keeps_refl|].
  intros s entry Hentry Hs.
  eapply Keeps_trans; [exact Hs|by apply placeAttributes_Keeps].
Qed.

(** The last-known position of the node that carries the id [i]. *)
Definition lastKnown (i : string) : option Pos :=
  (λ n, mkPos (n_x n) (n_y n)) <$> List.find (λ n, bool_decide (n_id n = i)) allNodes.

Lemma fillMissing_lookup_forceAlign (t : Targets) (i : string) :
  fillMissing allNodes t !! i =
    match t !! i with
    | Some p => Some p
    | None => lastKnown i
    end.
Proof.
  unfold fillMissing, lastKnown. revert t.
  induction allNodes as [|n nodes IH]; intros t; cbn [foldl List.find].
  - by destruct (t !! i).
  - rewrite IH. destruct (t !! n_id n) as [p|] eqn:Htn.
    + destruct (t !! i) eqn:Hti; [done|].
      rewrite bool_decide_eq_false_2; [done|]. congruence.
    + case_bool_decide as Hn.
      * subst i. rewrite lookup_insert_eq, Htn. simpl. by rewrite !orElse_zero.
      * rewrite lookup_insert_ne by done. done.
Qed.

Lemma lastKnown_is_Some (n : Node) : n ∈ allNodes → is_Some (lastKnown (n_id n)).
Proof.
  intros Hn. unfold lastKnown. apply fmap_is_Some.
  destruct (List.find _ allNodes) eqn:Hfind; [eauto|].
  apply list_elem_of_In in Hn.
  pose proof (find_none _ _ Hfind n Hn) as Hfalse. simpl in Hfalse.
  by rewrite bool_decide_eq_true_2 in Hfalse.
Qed.

Lemma fillMissing_complete_forceAlign (t : Targets) :
  complete allNodes (fillMissing allNodes t).
Proof.
  intros n Hn. rewrite fillMissing_lookup_forceAlign.
  destruct (t !! n_id n); [eauto|]. by apply lastKnown_is_Some.
Qed.

Lemma fillMissing_Keeps (t : Targets) :
  Keeps (λ i, is_Some (t !! i)) t (fillMissing allNodes t).
Proof.
  split.
  - intros x [p Hp]. rewrite fillMissing_lookup_forceAlign, Hp. eauto.
  - intros i [p Hp]. by rewrite fillMissing_lookup_forceAlign, Hp.
Qed.

(** A main-chain node is never pushed. *)
Lemma pushOf_mainChain (self other : string) (overlap : R) :
  self ∈ mainChainIds → pushOf mainChainIds self other overlap = 0%R.
Proof. intros Hin. unfold pushOf. by rewrite decide_True. Qed.

Lemma shift_zero (ux uy : R) (p : Pos) :
  Force.shift (ux * 0) (uy * 0) p = p.
Proof. unfold Force.shift. destruct p as [x y]. simpl. f_equal; lra. Qed.

Lemma unshift_zero (ux uy : R) (p : Pos) :
  Force.unshift (ux * 0) (uy * 0) p = p.
Proof. unfold Force.unshift. destruct p as [x y]. simpl. f_equal; lra. Qed.

Lemma alter_unshift_fixed (t : Targets) (self other i : string) (nx ny ov : R) :
  i ∈ mainChainIds ∨ i ≠ self →
  alter (Force.unshift (nx * pushOf mainChainIds self other ov)
                       (ny * pushOf mainChainIds self other ov)) self t !! i
  = t !! i.
Proof.
  intros Hi. destruct (decide (self = i)) as [<-|Hne];
    [|by rewrite lookup_alter_ne].
  destruct Hi as [Hi|?]; [|done].
  rewrite lookup_alter_eq, (pushOf_mainChain _ _ _ Hi).
  destruct (t !! self); simpl; [by rewrite unshift_zero|done].
Qed.

Lemma alter_shift_fixed (t : Targets) (self other i : string) (nx ny ov : R) :
  i ∈ mainChainIds ∨ i ≠ self →
  alter (Force.shift (nx * pushOf mainChainIds self other ov)
                     (ny * pushOf mainChainIds self other ov)) self t !! i
  = t !! i.
Proof.
  intros Hi. destruct (decide (self = i)) as [<-|Hne];
    [|by rewrite lookup_alter_ne].
  destruct Hi as [Hi|?]; [|done].
  rewrite lookup_alter_eq, (pushOf_mainChain _ _ _ Hi).
  destruct (t !! self); simpl; [by rewrite shift_zero|done].
Qed.

(** The ids the overlap resolution leaves alone: the main chain, and
    everything that is not one of the pair. *)
Lemma pushApart_ensures (a b : string * R) (st : Targets * R) :
  ensures (pushApart mainChainIds a b st)
    (λ r, Keeps (λ i, i ∈ mainChainIds ∨ (i ≠ a.1 ∧ i ≠ b.1)) st.1 r.1).
Proof.
  unfold pushApart. destruct st as [t moved]. simpl.
  destruct (t !! a.1) as [pa|] eqn:Ha; [|apply ensures_ret, Keeps_refl].
  destruct (t !! b.1) as [pb|] eqn:Hb; [|apply ensures_ret, Keeps_refl].
  cbv zeta.
  destruct (decide (_ < _)%R); [|apply ensures_ret, Keeps_refl].
  eapply ensures_bind; [apply unitVector_ensures, epsilon_nonzero|].
  intros [nx ny] _. apply ensures_ret. simpl. split.
  - intros x Hx. by rewrite !lookup_alter_is_Some.
  - intros i Hi. rewrite alter_shift_fixed, alter_unshift_fixed; [done|..];
      destruct Hi as [?|[? ?]]; eauto.
Qed.

Lemma resolveCoreOverlaps_ensures (t : Targets) :
  ensures (resolveCoreOverlaps allNodes nm mainChainIds t)
    (Keeps (λ i, i ∈ mainChainIds ∨ i ∉ (n_id <$> coreNodes allNodes)) t).
Proof.
  unfold resolveCoreOverlaps.
  set (fixed := λ i, i ∈ mainChainIds ∨ i ∉ (n_id <$> coreNodes allNodes)).
  set (meta := (λ n, (n_id n, radiusOf nm (n_id n))) <$> coreNodes allNodes).
  assert (Hmeta : ∀ a, a ∈ meta → a.1 ∈ (n_id <$> coreNodes allNodes)).
  { intros a Ha. apply list_elem_of_fmap in Ha as (n & -> & Hn). simpl.
    by apply list_elem_of_fmap_2. }
  apply (iterateUntilStill_ensures _ _ _ (Keeps fixed t)); [|apply Keeps_refl].
  intros s Hs.
  apply (forPairs_ensures _ (λ r : Targets * R, Keeps fixed t r.1)); [|done].
  intros a b st Ha Hb Hst.
  eapply ensures_weaken; [apply pushApart_ensures|].
  intros r Hr. eapply Keeps_trans; [exact Hst|].
  eapply Keeps_weaken; [|exact Hr].
  intros i [Hi|Hi]; [by left|]. right. split; intros ->; apply Hi; by apply Hmeta.
Qed.

Lemma restoreMainChain_lookup (tiled resolved : Targets) (i : string) :
  restoreMainChain (mainAnchorPos mainChainIds tiled) resolved !! i =
    match tiled !! i with
    | Some p => if decide (i ∈ mainChainIds) then Some p else resolved !! i
    | None => resolved !! i
    end.
Proof.
  unfold restoreMainChain, mainAnchorPos.
  destruct (tiled !! i) as [p|] eqn:Hti.
  - destruct (decide (i ∈ mainChainIds)) as [Hin|Hnin].
    + apply lookup_union_Some_l. by apply map_lookup_filter_Some.
    + rewrite lookup_union_r; [done|].
      apply map_lookup_filter_None. right. intros p' _. done.
  - rewrite lookup_union_r; [done|].
    apply map_lookup_filter_None. by left.
Qed.

End LaterPasses.

(** ** Force-align as a whole *)

Section Tiling.
Import ForceAlign.

Lemma foldl_grows {S K} (has : S → string → Prop) (adds : K → string → Prop)
    (f : S → K → S) (l : list K) (s : S) :
  (∀ s k x, has (f s k) x ↔ has s x ∨ adds k x) →
  ∀ x, has (foldl f s l) x ↔ has s x ∨ ∃ k, k ∈ l ∧ adds k x.
Proof.
  intros Hstep. revert s. induction l as [|k l IH]; intros s x; simpl.
  - split; [by left|]. intros [?|(k & Hk & _)]; [done|].
    by apply elem_of_nil in Hk.
  - rewrite IH, Hstep. split.
    + intros [[?|?]|(k' & Hk' & ?)]; [by left|right..].
      * exists k. split; [left|done].
      * exists k'. split; [by right|done].
    + intros [?|(k' & Hk' & ?)]; [by left; left|].
      apply elem_of_cons in Hk' as [-> |Hk']; [left; by right|].
      right. by exists k'.
Qed.

Lemma elem_of_concat {A} (x : A) (ls : list (list A)) :
  x ∈ concat ls ↔ ∃ l, l ∈ ls ∧ x ∈ l.
Proof.
  induction ls as [|l ls IH].
  - split; [intros H; by apply elem_of_nil in H|].
    intros (l & Hl & _). by apply elem_of_nil in Hl.
  - rewrite concat_cons, elem_of_app, IH. split.
    + intros [?|(l' & ? & ?)]; [exists l; split; [left|done]|].
      exists l'. split; [by right|done].
    + intros (l' & Hl' & ?). apply elem_of_cons in Hl' as [-> |?]; [by left|].
      right. by exists l'.
Qed.

Lemma tile_targets w st layout x :
  is_Some (t_globalTargets (tile w st layout) !! x)
  ↔ is_Some (t_globalTargets st !! x) ∨ is_Some (l_targets layout !! x).
Proof.
  unfold tile. cbn [t_globalTargets].
  match goal with
  | |- context [map_fold ?f ?b ?m] =>
      apply (map_fold_weak_ind
               (λ (r : Targets) (m' : Targets),
                  is_Some (r !! x) ↔ is_Some (b !! x) ∨ is_Some (m' !! x)) f b)
  end.
  - rewrite lookup_empty. split; [by left|]. intros [?|[? [=]]]. done.
  - intros i p m r _ IH. rewrite !is_Some_insert, IH. tauto.
Qed.

Lemma tile_mainChain w st layout x :
  x ∈ t_mainChainIds (tile w st layout)
  ↔ x ∈ t_mainChainIds st ∨ x ∈ l_mainPathSet layout.
Proof. unfold tile. cbn [t_mainChainIds]. rewrite elem_of_union. tauto. Qed.

Lemma tileAll_targets w layouts x :
  is_Some (t_globalTargets (tileAll w layouts) !! x)
  ↔ ∃ layout, layout ∈ layouts ∧ is_Some (l_targets layout !! x).
Proof.
  unfold tileAll.
  rewrite (foldl_grows (λ st y, is_Some (t_globalTargets st !! y))
             (λ layout y, is_Some (l_targets layout !! y)));
    [|intros; apply tile_targets].
  simpl. rewrite lookup_empty. split; [|by right].
  intros [[? [=]]|?]. done.
Qed.

Lemma tileAll_mainChain w layouts x :
  x ∈ t_mainChainIds (tileAll w layouts)
  ↔ ∃ layout, layout ∈ layouts ∧ x ∈ l_mainPathSet layout.
Proof.
  unfold tileAll.
  rewrite (foldl_grows (λ st y, y ∈ t_mainChainIds st)
             (λ layout y, y ∈ l_mainPathSet layout));
    [|intros; apply tile_mainChain].
  simpl. split; [|by right]. intros [H|?]; [|done]. by apply elem_of_empty in H.
Qed.

Lemma nodeMap_lookup (allNodes : list Node) (x : string) (n : Node) :
  nodeMap allNodes !! x = Some n → n ∈ allNodes ∧ n_id n = x.
Proof.
  unfold nodeMap. revert x n.
  apply (foldl_invariant
           (λ m : gmap string Node, ∀ x n, m !! x = Some n → n ∈ allNodes ∧ n_id n = x)).
  - intros x n. by rewrite lookup_empty.
  - intros m b Hb IH x n. destruct (decide (n_id b = x)) as [<- |Hne].
    + rewrite lookup_insert_eq. by intros [= <-].
    + rewrite lookup_insert_ne by done. apply IH.
Qed.

(** Only core nodes are listed in the core adjacency. *)
Lemma coreAdj_core (nm : gmap string Node) (edges : list Edge) (x y : string) :
  x ∈ neighborsOf (coreAdj nm edges) y →
  ∃ n, nm !! x = Some n ∧ isCore (n_type n) = true.
Proof.
  unfold coreAdj. revert x y.
  apply (foldl_invariant
           (λ adj : Adjacency, ∀ x y, x ∈ neighborsOf adj y →
              ∃ n, nm !! x = Some n ∧ isCore (n_type n) = true)).
  - intros x y. unfold neighborsOf. rewrite lookup_empty. simpl.
    intros H. by apply elem_of_nil in H.
  - intros adj e _ IH x y.
    destruct (nm !! e_source e) as [sNode|] eqn:Hs; [|by apply IH].
    destruct (nm !! e_target e) as [tNode|] eqn:Ht; [|by apply IH].
    destruct (isCore (n_type sNode)) eqn:Hsc; [|by apply IH].
    destruct (isCore (n_type tNode)) eqn:Htc; [|by apply IH]. simpl.
    rewrite elem_of_neighborsOf_addEdge.
    intros [H|[[_ ->]|[_ ->]]]; [by eapply IH|eauto..].
Qed.

(** What the tiling provides: a target for every core node, for the ids of
    the components only, and for every id of a main chain; the main chains
    are the paths [findLongestPath] returns for the components, and they
    consist of core nodes. *)
Definition Tiled (g : Graph) (tiled : Tiling) : Prop :=
  (∀ n, n ∈ coreNodes (getNodes g) → is_Some (t_globalTargets tiled !! n_id n))
  ∧ (∀ x, is_Some (t_globalTargets tiled !! x) →
       ∃ comps ids,
         components (getNodes g) (getEdges g) = Some comps
         ∧ ids ∈ comps ∧ x ∈ ids)
  ∧ (∀ x, x ∈ t_mainChainIds tiled → is_Some (t_globalTargets tiled !! x))
  ∧ (∀ x, x ∈ t_mainChainIds tiled →
       ∃ n, n ∈ coreNodes (getNodes g) ∧ n_id n = x)
  ∧ ∀ comps ids mainPath x,
      components (getNodes g) (getEdges g) = Some comps → ids ∈ comps →
      findLongestPath (coreAdj (nodeMap (getNodes g)) (getEdges g)) ids
      = Some mainPath →
      x ∈ mainPath → x ∈ t_mainChainIds tiled.

(** With a core node and a core edge the call reaches the tiling. *)
Lemma tiledLayout_ensures (g : Graph) (w : R) :
  coreNodes (getNodes g) ≠ [] →
  size (coreAdj (nodeMap (getNodes g)) (getEdges g)) ≠ 0 →
  ensures (tiledLayout g w) (λ r, Tiled g r.1).
Proof.
  intros Hcore Hsize. unfold tiledLayout.
  destruct (getNodes g) as [|n0 nodes] eqn:Hnodes; [done|].
  destruct (coreNodes (n0 :: nodes)) as [|c0 cores] eqn:Hcores; [done|].
  rewrite <- Hnodes in *. cbv zeta.
  rewrite decide_False by done. clear Hcore.
  destruct (components_fuelFor (coreAdj (nodeMap (getNodes g)) (getEdges g))
              (n_id <$> coreNodes (getNodes g)) ∅) as [comps Hcomps].
  change (Decompose.components _ _ _ ∅ = Some comps)
    with (components (getNodes g) (getEdges g) = Some comps) in Hcomps.
  rewrite Hcomps. cbn [fuelled mbind Outcome_bind].
  destruct (layoutAll_ensures (nodeMap (getNodes g))
              (coreAdj (nodeMap (getNodes g)) (getEdges g)) ∅ comps)
    as ([layouts sideHint] & -> & Hlayouts).
  { apply Forall_forall. intros ids Hids.
    by eapply forceAlign_component_closed. }
  cbn [mbind Outcome_bind]. apply ensures_ret. simpl in *.
  pose proof Hcomps as Hspec. unfold components in Hspec.
  apply components_spec in Hspec as (_ & _ & Hcover & _ & _ & Horigin).
  split_and!.
  - intros n Hn. apply tileAll_targets.
    destruct (Hcover (n_id n)) as [Hv|Hin].
    { by apply list_elem_of_fmap_2. }
    { by apply elem_of_empty in Hv. }
    apply elem_of_concat in Hin as (ids & Hids & Hn').
    apply list_elem_of_lookup in Hids as [k Hk].
    destruct (Forall2_lookup_l _ _ _ _ _ Hlayouts Hk) as (layout & Hl & Hof & _).
    exists layout. split; [by eapply list_elem_of_lookup_2|by apply Hof].
  - intros x Hx. apply tileAll_targets in Hx as (layout & Hl & Hx).
    apply list_elem_of_lookup in Hl as [k Hk].
    destruct (Forall2_lookup_r _ _ _ _ _ Hlayouts Hk) as (ids & Hids & Hof & _).
    exists comps, ids. split_and!; [done|by eapply list_elem_of_lookup_2|].
    by apply Hof.
  - intros x Hx. apply tileAll_mainChain in Hx as (layout & Hl & Hx).
    apply tileAll_targets. exists layout. split; [done|].
    apply list_elem_of_lookup in Hl as [k Hk].
    destruct (Forall2_lookup_r _ _ _ _ _ Hlayouts Hk) as (ids & _ & _ & Hof & _).
    by apply Hof.
  - intros x Hx. apply tileAll_mainChain in Hx as (layout & Hl & Hx).
    apply list_elem_of_lookup in Hl as [k Hk].
    destruct (Forall2_lookup_r _ _ _ _ _ Hlayouts Hk)
      as (ids & Hids & _ & _ & mainPath & _ & Hset & Hsub).
    rewrite Hset in Hx. apply elem_of_list_to_set, Hsub in Hx.
    apply list_elem_of_lookup_2 in Hids.
    destruct (Horigin ids x Hids Hx) as [Hroot|(y & _ & Hnb)].
    + apply list_elem_of_fmap in Hroot as (n & -> & Hn). eauto.
    + apply coreAdj_core in Hnb as (n & Hn & Hcore).
      apply nodeMap_lookup in Hn as [Hn <-]. exists n. split; [|done].
      unfold coreNodes. by apply list_elem_of_filter.
  - intros comps' ids mainPath x Hcomps' Hids Hpath Hx.
    rewrite Hcomps in Hcomps'. injection Hcomps' as <-.
    apply list_elem_of_lookup in Hids as [k Hk].
    destruct (Forall2_lookup_l _ _ _ _ _ Hlayouts Hk)
      as (layout & Hl & _ & _ & mainPath' & Hpath' & Hset & _).
    rewrite Hpath in Hpath'. injection Hpath' as <-.
    apply tileAll_mainChain. exists layout.
    split; [by eapply list_elem_of_lookup_2|].
    rewrite Hset. by apply elem_of_list_to_set.
Qed.

(** The call returns early, or it reaches the tiling. *)
Lemma tiledLayout_cases (g : Graph) (w : R) :
  tiledLayout g w = NoOp ∨ ensures (tiledLayout g w) (λ r, Tiled g r.1).
Proof.
  destruct (decide (coreNodes (getNodes g) = [])) as [Hcore|Hcore].
  { left. unfold tiledLayout. cbv zeta.
    destruct (getNodes g); [done|]. by rewrite Hcore. }
  destruct (decide (size (coreAdj (nodeMap (getNodes g)) (getEdges g)) = 0))
    as [Hsize|Hsize].
  { left. unfold tiledLayout. cbv zeta. rewrite decide_True by done.
    destruct (getNodes g); [done|]. by destruct (coreNodes _). }
  right. by apply tiledLayout_ensures.
Qed.

End Tiling.

Section Finish.
Import ForceAlign.
Context (allNodes : list Node) (nm : gmap string Node) (adj : Adjacency).
Context (mainChainIds : gset string).

(** The passes that compute targets keep the target of every id that is
    on the main chain or outside the core subgraph, unless an attribute
    node with a parent entity carries the id. *)
Lemma placements_ensures_forceAlign (tiled : Targets) (sideHint : SideHint) :
  ensures (placements allNodes nm adj mainChainIds tiled sideHint)
    (Keeps (λ i, settled allNodes adj mainChainIds i ∧ noAttribute allNodes i)
           tiled).
Proof.
  unfold placements.
  set (fixed := λ i, settled allNodes adj mainChainIds i ∧ noAttribute allNodes i).
  assert (Hcore : ∀ t t', Keeps (settled allNodes adj mainChainIds) t t' →
                          Keeps fixed t t').
  { intros t t'. apply Keeps_weaken. by intros i [? _]. }
  eapply ensures_bind; [apply enforceLocalTriplets_ensures|].
  intros straight Hstraight. apply ensures_ret.
  eapply Keeps_trans.
  { apply Hcore. apply (evenSideSpacing_Keeps allNodes nm adj mainChainIds
                          (mkPass tiled sideHint)). }
  eapply Keeps_trans; [apply Hcore, reprojectBranches_Keeps|].
  eapply Keeps_trans; [apply Hcore, Hstraight|].
  eapply Keeps_trans; [apply Hcore, adjustRelationshipMidpoints_Keeps|].
  eapply Keeps_weaken; [|apply placeAttributes_all_Keeps]. by intros i [_ ?].
Qed.

(** The last part of the layout returns a complete map in which every
    tiled main-chain position is as the tiling left it. *)
Lemma finish_ensures (tiled : Targets) (sideHint : SideHint) :
  ensures (finish allNodes nm adj mainChainIds tiled sideHint)
    (λ final,
       complete allNodes final
       ∧ ∀ i p, i ∈ mainChainIds → tiled !! i = Some p → final !! i = Some p).
Proof.
  unfold finish.
  eapply ensures_bind; [apply placements_ensures_forceAlign|].
  intros withAttrs _.
  eapply ensures_bind; [apply resolveCoreOverlaps_ensures|].
  intros resolved [Hgrow _]. apply ensures_ret. split.
  - intros n Hn. rewrite restoreMainChain_lookup.
    assert (is_Some (resolved !! n_id n)) as Hres
      by (apply Hgrow; by apply fillMissing_complete_forceAlign).
    destruct (tiled !! n_id n); [|done]. destruct (decide _); [eauto|done].
  - intros i p Hi Hp. rewrite restoreMainChain_lookup, Hp.
    by rewrite decide_True.
Qed.

(** A node that is not a core node and has no computed target ends at its
    last-known position. *)
Lemma finish_fallback (tiled : Targets) (sideHint : SideHint)
    (computed final : Targets) (i : string) :
  placements allNodes nm adj mainChainIds tiled sideHint = Computed computed →
  finish allNodes nm adj mainChainIds tiled sideHint = Computed final →
  computed !! i = None →
  i ∉ (n_id <$> coreNodes allNodes) →
  final !! i = lastKnown allNodes i.
Proof.
  intros Hplace Hfinish Hnone Hcore.
  pose proof (placements_ensures_forceAlign tiled sideHint) as Hkeeps.
  apply (ensures_computed _ _ _ Hkeeps) in Hplace as Hk. destruct Hk as [Hgrow _].
  unfold finish in Hfinish. rewrite Hplace in Hfinish.
  cbn [mbind Outcome_bind] in Hfinish.
  destruct (resolveCoreOverlaps_ensures allNodes nm mainChainIds
              (fillMissing allNodes computed)) as (resolved & Hres & _ & Hframe).
  rewrite Hres in Hfinish. cbn [mbind Outcome_bind] in Hfinish.
  injection Hfinish as <-.
  rewrite restoreMainChain_lookup.
  assert (tiled !! i = None) as ->.
  { destruct (tiled !! i) as [p|] eqn:Hti; [|done].
    destruct (Hgrow i) as [p' Hp']; [eauto|]. congruence. }
  rewrite Hframe by (by right).
  by rewrite fillMissing_lookup_forceAlign, Hnone.
Qed.

End Finish.

Section ForceAlignWhole.
Import ForceAlign.

(** Force-align returns early or returns a complete map. *)
Lemma forceAlignLayout_cases (g : Graph) (w : R) :
  forceAlignLayout g w = NoOp
  ∨ ensures (forceAlignLayout g w) (complete (getNodes g)).
Proof.
  unfold forceAlignLayout.
  destruct (tiledLayout_cases g w) as [-> |([tiled sideHint] & -> & _)];
    [by left|right].
  cbn [mbind Outcome_bind].
  eapply ensures_weaken; [apply finish_ensures|]. by intros final [? _].
Qed.

Lemma arrangeLayout_cases (g : Graph) :
  ArrangeLayout.arrangeLayout g = NoOp
  ∨ ensures (ArrangeLayout.arrangeLayout g) (complete (getNodes g)).
Proof.
  destruct (getNodes g) as [|n nodes] eqn:Hnodes.
  - left. unfold ArrangeLayout.arrangeLayout. by rewrite Hnodes.
  - right. rewrite <- Hnodes. apply arrangeLayout_ensures. by rewrite Hnodes.
Qed.

(** C9: no force computation divides by zero.  Wherever a unit vector is
    formed, a distance of zero has been replaced by a non-zero constant
    ([1] through [Math.hypot(dx, dy) || 1], [0.01] through
    [if (dist === 0) dist = 0.01]), so the checked division succeeds; and
    on every input neither arrange nor force-align ends in the
    division-by-zero outcome. *)
Theorem no_division_by_zero (g : Graph) (containerWidth : R) :
  (∀ dx dy,
     Force.unitVector dx dy (JS.orElse (JS.hypot dx dy) 1) ≠ DivisionByZero
     ∧ Force.unitVector dx dy
         (if decide (JS.hypot dx dy = 0%R) then 0.01%R else JS.hypot dx dy)
       ≠ DivisionByZero)
  ∧ ArrangeLayout.arrangeLayout g ≠ DivisionByZero
  ∧ forceAlignLayout g containerWidth ≠ DivisionByZero.
Proof.
  split_and!.
  - intros dx dy. split.
    + by destruct (unitVector_ensures dx dy _ (orElse_one_nonzero (JS.hypot dx dy)))
        as (v & -> & _).
    + by destruct (unitVector_ensures dx dy _ (epsilon_nonzero (JS.hypot dx dy)))
        as (v & -> & _).
  - by destruct (arrangeLayout_cases g) as [-> |(t & -> & _)].
  - by destruct (forceAlignLayout_cases g containerWidth) as [-> |(t & -> & _)].
Qed.

End ForceAlignWhole.

(** ** Main-chain invariance in force-align *)

Section MainChainFixed.
Import ForceAlign.

Lemma tiledLayout_Tiled (g : Graph) (w : R) (tiled : Tiling) (sideHint : SideHint) :
  tiledLayout g w = Computed (tiled, sideHint) → Tiled g tiled.
Proof.
  intros Hrun. destruct (tiledLayout_cases g w) as [Hno|Hens]; [congruence|].
  apply (ensures_computed _ _ _ Hens Hrun).
Qed.

Lemma NoDup_fmap_eq {A B} (f : A → B) (l : list A) (x y : A) :
  NoDup (f <$> l) → x ∈ l → y ∈ l → f x = f y → x = y.
Proof.
  induction l as [|a l IH]; [intros _ H; by apply elem_of_nil in H|].
  rewrite fmap_cons, NoDup_cons. intros [Ha Hnd] Hx Hy Hf.
  apply elem_of_cons in Hx as [-> |Hx], Hy as [-> |Hy]; [done| | |by apply IH].
  - exfalso. apply Ha. rewrite Hf. by apply list_elem_of_fmap_2.
  - exfalso. apply Ha. rewrite <- Hf. by apply list_elem_of_fmap_2.
Qed.

(** With unique node ids no attribute node carries a main-chain id. *)
Lemma mainChain_noAttribute (g : Graph) (tiled : Tiling) (i : string) :
  Tiled g tiled → NoDup (n_id <$> getNodes g) →
  i ∈ t_mainChainIds tiled → noAttribute (getNodes g) i.
Proof.
  intros (_ & _ & _ & Hcore & _) Hnd Hi a Ha Hid.
  destruct (Hcore i Hi) as (n & Hn & Hni).
  unfold coreNodes in Hn. apply list_elem_of_filter in Hn as [Hcoren Hn].
  unfold attributeNodes in Ha. apply list_elem_of_filter in Ha as [Hattr Ha].
  assert (a = n) as -> by (eapply (NoDup_fmap_eq n_id); eauto; congruence).
  by rewrite Hattr in Hcoren.
Qed.

(** C3: the position of a main-chain node in the result of force-align is
    the position the tiling gave it.  None of the passes after the tiling
    (side spacing, branch reprojection, triplet straightening, midpoint
    snapping, attribute placement when node ids are unique, overlap
    resolution) changes the target of a main-chain id, and the overlap
    resolution pushes a main-chain node by zero. *)
Theorem mainChain_positions_fixed (g : Graph) (containerWidth : R)
    (tiled : Tiling) (sideHint : SideHint) (i : string) :
  let allNodes := getNodes g in
  let nm := nodeMap allNodes in
  let adj := coreAdj nm (getEdges g) in
  let chain := t_mainChainIds tiled in
  tiledLayout g containerWidth = Computed (tiled, sideHint) →
  i ∈ chain →
  (∃ p final,
     t_globalTargets tiled !! i = Some p
     ∧ forceAlignLayout g containerWidth = Computed final
     ∧ final !! i = Some p)
  ∧ (∀ st, q_targets (evenSideSpacing allNodes nm adj chain st) !! i
           = q_targets st !! i)
  ∧ (∀ st, q_targets (reprojectBranches allNodes nm adj chain st) !! i
           = q_targets st !! i)
  ∧ (∀ t t', enforceLocalTriplets allNodes nm adj chain t = Computed t' →
             t' !! i = t !! i)
  ∧ (∀ t, adjustRelationshipMidpoints allNodes nm adj chain t !! i = t !! i)
  ∧ (NoDup (n_id <$> allNodes) →
     ∀ t, foldl (placeAttributes nm adj) t (entityAttrs allNodes) !! i = t !! i)
  ∧ (∀ t t', resolveCoreOverlaps allNodes nm chain t = Computed t' →
             t' !! i = t !! i)
  ∧ ∀ other overlap, pushOf chain i other overlap = 0%R.
Proof.
  intros allNodes nm adj chain Hrun Hi.
  pose proof (tiledLayout_Tiled g containerWidth tiled sideHint Hrun) as HT.
  split_and!.
  - destruct HT as (_ & _ & Hplaced & _).
    destruct (Hplaced i Hi) as [p Hp].
    destruct (finish_ensures allNodes nm adj chain (t_globalTargets tiled) sideHint)
      as (final & Hfinish & _ & Hfixed).
    exists p, final. split_and!; [done| |by apply Hfixed].
    unfold forceAlignLayout. rewrite Hrun. cbn [mbind Outcome_bind]. exact Hfinish.
  - intros st. apply evenSideSpacing_Keeps. by left.
  - intros st. apply reprojectBranches_Keeps. by left.
  - intros t t' Ht.
    apply (ensures_computed _ _ _ (enforceLocalTriplets_ensures _ _ _ _ t) Ht).
    by left.
  - intros t. apply adjustRelationshipMidpoints_Keeps. by left.
  - intros Hnd t. apply placeAttributes_all_Keeps.
    by eapply mainChain_noAttribute.
  - intros t t' Ht.
    apply (ensures_computed _ _ _ (resolveCoreOverlaps_ensures _ _ _ t) Ht).
    by left.
  - intros other overlap. by apply pushOf_mainChain.
Qed.

(** The two tables of [tablesTwoKeys] as a graph on a 1200 by 800 canvas. *)
Definition twoKeysGraph : Graph := mkGraph tablesTwoKeys edgesTwoKeys 1200 800.

Lemma twoKeys_tiled :
  ensures (tiledLayout twoKeysGraph 1200) (λ r, Tiled twoKeysGraph r.1).
Proof.
  apply tiledLayout_ensures.
  - vm_compute. discriminate.
  - vm_compute. discriminate.
Qed.

Lemma mainChain_positions_fixed_witness :
  ∃ tiled sideHint p final,
    tiledLayout twoKeysGraph 1200 = Computed (tiled, sideHint)
    ∧ "entity-a-0" ∈ t_mainChainIds tiled
    ∧ t_globalTargets tiled !! "entity-a-0" = Some p
    ∧ forceAlignLayout twoKeysGraph 1200 = Computed final
    ∧ final !! "entity-a-0" = Some p.
Proof.
  destruct twoKeys_tiled as ([tiled sideHint] & Hrun & _ & _ & _ & _ & Hchain).
  assert (Hin : "entity-a-0" ∈ t_mainChainIds tiled).
  { apply (Hchain [compTwoKeys] compTwoKeys
             ["entity-b-1"; "rel-a-b-x-0"; "entity-a-0"]).
    - vm_compute. reflexivity.
    - left.
    - vm_compute. reflexivity.
    - right. right. left. }
  destruct (mainChain_positions_fixed twoKeysGraph 1200 tiled sideHint
              "entity-a-0" Hrun Hin) as [(p & final & Hp & Hfinal & Heq) _].
  exists tiled, sideHint, p, final. by split_and!.
Defined.

End MainChainFixed.

(** ** Completeness of the returned target maps *)

Section SeparationExample.
Import ArrangeLayout.
Local Open Scope R_scope.

Lemma iterateUntilStill_still {S} cap th (pass : S → Outcome (S * R)) s s' m :
  pass s = Computed (s', m) → m < th →
  Force.iterateUntilStill (Datatypes.S cap) th pass s = Computed s'.
Proof. intros Hp Hm. simpl. rewrite Hp. simpl. by rewrite decide_True. Qed.

Lemma iterateUntilStill_again {S} cap th (pass : S → Outcome (S * R)) s s' m :
  pass s = Computed (s', m) → ¬ m < th →
  Force.iterateUntilStill (Datatypes.S cap) th pass s
  = Force.iterateUntilStill cap th pass s'.
Proof. intros Hp Hm. simpl. rewrite Hp. simpl. by rewrite decide_False. Qed.

(** Two relationship diamonds of 6 by 8 that no edge connects to an
    entity, one unit apart. *)
Definition looseP : Node :=
  mkNode "rel-p-0" relationship 0 0 None (mkBBox (-3) 3 (-4) 4 0 0 6 8).
Definition looseQ : Node :=
  mkNode "rel-q-1" relationship 1 0 None (mkBBox (-2) 4 (-4) 4 1 0 6 8).
Definition looseGraph : Graph := mkGraph [looseP; looseQ] [] 1200 800.

(** No target is computed for either of them. *)
Lemma loose_placements : placements looseGraph = Computed ∅.
Proof.
  unfold placements. cbv zeta.
  change 300%nat with (S 299).
  rewrite (iterateUntilStill_still 299 0.5 _ _ ∅ 0);
    [|vm_compute; reflexivity|lra].
  cbn [mbind Outcome_bind].
  assert (Hclear : ∀ ring,
            ensureRelationshipClearance
              (relationshipConnections (nodeMap (getNodes looseGraph))
                 (getEdges looseGraph)) ring
              (ofType relationship (getNodes looseGraph)) ∅ = Computed ∅).
  { intros ring. vm_compute. reflexivity. }
  do 3 (rewrite Hclear; cbn [mbind Outcome_bind]).
  vm_compute. reflexivity.
Qed.

Lemma loose_diagonal : sqrt (6 * 6 + 8 * 8) = 10.
Proof. apply sqrt_lem_1; lra. Qed.

Lemma loose_radius_p : getRadius looseP = 5.
Proof. unfold getRadius, Utils.getRadius. simpl. rewrite loose_diagonal. lra. Qed.

Lemma loose_radius_q : getRadius looseQ = 5.
Proof. unfold getRadius, Utils.getRadius. simpl. rewrite loose_diagonal. lra. Qed.

Lemma hypot_horizontal (a : R) : 0 <= a → JS.hypot a 0 = a.
Proof. intros Ha. unfold JS.hypot. apply sqrt_lem_1; nra. Qed.

(** The targets after the first pass of the global separation. *)
Definition looseSeparated : Targets :=
  alter (Force.shift (17 / 2) 0) "rel-q-1"
    (alter (Force.unshift (17 / 2) 0) "rel-p-0" (fillMissing looseGraph ∅)).

Lemma loose_filled_p : fillMissing looseGraph ∅ !! "rel-p-0" = Some (mkPos 0 0).
Proof. rewrite fillMissing_lookup, lookup_empty. reflexivity. Qed.

Lemma loose_filled_q : fillMissing looseGraph ∅ !! "rel-q-1" = Some (mkPos 1 0).
Proof. rewrite fillMissing_lookup, lookup_empty. reflexivity. Qed.

(** First pass: the two overlap, each is pushed by half the overlap. *)
Lemma loose_pass1 :
  Force.forPairs separate (meta (getNodes looseGraph)) (fillMissing looseGraph ∅, 0)
  = Computed (looseSeparated, 17 / 2).
Proof.
  change (meta (getNodes looseGraph))
    with [("rel-p-0", getRadius looseP); ("rel-q-1", getRadius looseQ)].
  rewrite loose_radius_p, loose_radius_q.
  cbn [Force.forPairs foldl mbind Outcome_bind].
  unfold separate at 1. cbn [fst snd].
  rewrite loose_filled_p, loose_filled_q. cbn [px py]. cbv zeta.
  replace (1 - 0) with 1 by lra. replace (0 - 0) with 0 by lra.
  rewrite (hypot_horizontal 1) by lra.
  rewrite (decide_False (P := 1 = 0)) by lra.
  rewrite decide_True by lra.
  unfold Force.unitVector. rewrite decide_False by lra.
  cbn [mbind Outcome_bind].
  unfold looseSeparated. f_equal. f_equal.
  - f_equal; [f_equal; lra|]. f_equal. f_equal; lra.
  - unfold Rmax. destruct (Rle_dec _ _); lra.
Qed.

Lemma loose_separated_p : looseSeparated !! "rel-p-0" = Some (mkPos (-17 / 2) 0).
Proof.
  unfold looseSeparated.
  rewrite lookup_alter_ne by done. rewrite lookup_alter_eq, loose_filled_p.
  simpl. unfold Force.unshift. simpl. f_equal. f_equal; lra.
Qed.

Lemma loose_separated_q : looseSeparated !! "rel-q-1" = Some (mkPos (19 / 2) 0).
Proof.
  unfold looseSeparated.
  rewrite lookup_alter_eq, lookup_alter_ne by done. rewrite loose_filled_q.
  simpl. unfold Force.shift. simpl. f_equal. f_equal; lra.
Qed.

(** Second pass: they no longer overlap, nothing moves. *)
Lemma loose_pass2 :
  Force.forPairs separate (meta (getNodes looseGraph)) (looseSeparated, 0)
  = Computed (looseSeparated, 0).
Proof.
  change (meta (getNodes looseGraph))
    with [("rel-p-0", getRadius looseP); ("rel-q-1", getRadius looseQ)].
  rewrite loose_radius_p, loose_radius_q.
  cbn [Force.forPairs foldl mbind Outcome_bind].
  unfold separate at 1. cbn [fst snd].
  rewrite loose_separated_p, loose_separated_q. cbn [px py]. cbv zeta.
  replace (19 / 2 - -17 / 2) with 18 by lra. replace (0 - 0) with 0 by lra.
  rewrite (hypot_horizontal 18) by lra.
  rewrite (decide_False (P := 18 = 0)) by lra.
  rewrite decide_False by lra. reflexivity.
Qed.

Lemma loose_arrange : arrangeLayout looseGraph = Computed looseSeparated.
Proof.
  unfold arrangeLayout. change (getNodes looseGraph) with [looseP; looseQ].
  cbv iota. rewrite loose_placements. cbn [mbind Outcome_bind].
  unfold applyGlobalSeparation. cbv zeta.
  change 400%nat with (S (S 398)).
  rewrite (iterateUntilStill_again _ _ _ _ _ _ loose_pass1) by lra.
  rewrite (iterateUntilStill_still _ _ _ _ _ _ loose_pass2) by lra.
  reflexivity.
Qed.

(** C1, as stated, fails for arrange: neither diamond receives a computed
    target, both are given their last-known positions, and the global
    separation then pushes the overlapping pair apart; the returned
    position of the first is [(-8.5, 0)], not its last-known [(0, 0)]. *)
Lemma arrange_fallback_moved :
  placements looseGraph = Computed ∅
  ∧ lastKnown (getNodes looseGraph) "rel-p-0" = Some (mkPos 0 0)
  ∧ ∃ final,
      arrangeLayout looseGraph = Computed final
      ∧ final !! "rel-p-0" = Some (mkPos (-17 / 2) 0)
      ∧ final !! "rel-p-0" ≠ lastKnown (getNodes looseGraph) "rel-p-0".
Proof.
  split_and!; [apply loose_placements|reflexivity|].
  exists looseSeparated. split_and!; [apply loose_arrange|apply loose_separated_p|].
  rewrite loose_separated_p. change (lastKnown _ _) with (Some (mkPos 0 0)).
  intros [= H]. lra.
Qed.

End SeparationExample.

Section Completeness.

Lemma lastKnown_findById (g : Graph) (i : string) :
  lastKnown (getNodes g) i = (λ n, mkPos (n_x n) (n_y n)) <$> findById g i.
Proof. reflexivity. Qed.

(** C1 (amended): whenever arrange or force-align returns a target map, the
    map has an entry for every input node.  A node for which no target was
    computed is given its last-known position by the fill step: in arrange
    this is its entry in the map handed to the global separation, in
    force-align it is its entry in the returned map. *)
Theorem targets_complete (g : Graph) (containerWidth : R) :
  (∀ final, ArrangeLayout.arrangeLayout g = Computed final →
            complete (getNodes g) final)
  ∧ (∀ final, ForceAlign.forceAlignLayout g containerWidth = Computed final →
              complete (getNodes g) final)
  ∧ (∀ computed n,
       ArrangeLayout.placements g = Computed computed →
       n ∈ getNodes g → computed !! n_id n = None →
       is_Some (lastKnown (getNodes g) (n_id n))
       ∧ ArrangeLayout.fillMissing g computed !! n_id n
         = lastKnown (getNodes g) (n_id n))
  ∧ (∀ computed final n,
       ForceAlign.computedTargets g containerWidth = Computed computed →
       ForceAlign.forceAlignLayout g containerWidth = Computed final →
       n ∈ getNodes g → computed !! n_id n = None →
       is_Some (lastKnown (getNodes g) (n_id n))
       ∧ final !! n_id n = lastKnown (getNodes g) (n_id n)).
Proof.
  split_and!.
  - intros final Hrun.
    destruct (arrangeLayout_cases g) as [Hno|Hens]; [congruence|].
    apply (ensures_computed _ _ _ Hens Hrun).
  - intros final Hrun.
    destruct (forceAlignLayout_cases g containerWidth) as [Hno|Hens]; [congruence|].
    apply (ensures_computed _ _ _ Hens Hrun).
  - intros computed n _ Hn Hnone. split; [by apply lastKnown_is_Some|].
    rewrite fillMissing_lookup, Hnone, lastKnown_findById.
    by destruct (findById g (n_id n)).
  - intros computed final n Hcomputed Hrun Hn Hnone.
    split; [by apply lastKnown_is_Some|].
    unfold ForceAlign.computedTargets in Hcomputed.
    unfold ForceAlign.forceAlignLayout in Hrun.
    destruct (ForceAlign.tiledLayout g containerWidth)
      as [[tiled sideHint]| | |] eqn:Htiled; try done.
    cbn [mbind Outcome_bind] in Hcomputed, Hrun.
    eapply finish_fallback; [exact Hcomputed|exact Hrun|exact Hnone|].
    intros Hcore. apply list_elem_of_fmap in Hcore as (c & Hid & Hc).
    destruct (tiledLayout_Tiled g containerWidth tiled sideHint Htiled)
      as (Hplaced & _).
    destruct (placements_ensures_forceAlign (getNodes g)
                (ForceAlign.nodeMap (getNodes g))
                (ForceAlign.coreAdj (ForceAlign.nodeMap (getNodes g)) (getEdges g))
                (ForceAlign.t_mainChainIds tiled)
                (ForceAlign.t_globalTargets tiled) sideHint)
      as (computed' & Hc' & Hgrow & _).
    rewrite Hcomputed in Hc'. injection Hc' as <-.
    destruct (Hgrow (n_id c)) as [p Hp]; [by apply Hplaced|].
    rewrite <- Hid in Hp. congruence.
Qed.

End Completeness.

Section FallbackExample.
Import ForceAlign.
Local Open Scope R_scope.

(** The two tables of [tablesTwoKeys] and a note that belongs to no
    entity. *)
Definition noteNode : Node := mkNode "attr-note-4" attribute 50 60 None unitBox.

Definition notedGraph : Graph :=
  mkGraph (tablesTwoKeys ++ [noteNode]) edgesTwoKeys 1200 800.

Lemma noted_components :
  components (getNodes notedGraph) (getEdges notedGraph) = Some [compTwoKeys].
Proof. vm_compute. reflexivity. Qed.

Lemma noted_offCore tiled :
  settled (getNodes notedGraph)
    (coreAdj (nodeMap (getNodes notedGraph)) (getEdges notedGraph))
    tiled "attr-note-4"
  ∧ noAttribute (getNodes notedGraph) "attr-note-4".
Proof.
  split.
  - right. split.
    + intros y Hy. apply coreAdj_core in Hy as (n & Hn & Hcore).
      assert (nodeMap (getNodes notedGraph) !! "attr-note-4" = Some noteNode)
        as Hnote by (vm_compute; reflexivity).
      rewrite Hnote in Hn. injection Hn as <-. done.
    + apply (bool_decide_unpack _). vm_compute. exact I.
  - intros a Ha Hid.
    assert (attributeNodes (getNodes notedGraph) = [noteNode]) as Hattrs
      by (vm_compute; reflexivity).
    rewrite Hattrs in Ha. by apply list_elem_of_singleton in Ha as ->.
Qed.

Lemma targets_complete_witness :
  ∃ computed final,
    computedTargets notedGraph 1200 = Computed computed
    ∧ computed !! "attr-note-4" = None
    ∧ forceAlignLayout notedGraph 1200 = Computed final
    ∧ complete (getNodes notedGraph) final
    ∧ final !! "attr-note-4" = Some (mkPos 50 60).
Proof.
  destruct (tiledLayout_ensures notedGraph 1200)
    as ([tiled sideHint] & Hrun & _ & Hinside & _).
  { vm_compute. discriminate. }
  { vm_compute. discriminate. }
  cbn [fst] in Hinside.
  set (nm := nodeMap (getNodes notedGraph)).
  set (adj := coreAdj nm (getEdges notedGraph)).
  destruct (placements_ensures_forceAlign (getNodes notedGraph) nm adj
              (t_mainChainIds tiled) (t_globalTargets tiled) sideHint)
    as (computed & Hplace & _ & Hframe).
  destruct (finish_ensures (getNodes notedGraph) nm adj
              (t_mainChainIds tiled) (t_globalTargets tiled) sideHint)
    as (final & Hfinish & _).
  assert (Hcomputed : computedTargets notedGraph 1200 = Computed computed).
  { unfold computedTargets. rewrite Hrun. exact Hplace. }
  assert (Hfinal : forceAlignLayout notedGraph 1200 = Computed final).
  { unfold forceAlignLayout. rewrite Hrun. exact Hfinish. }
  assert (Hnone : computed !! "attr-note-4" = None).
  { rewrite Hframe by apply noted_offCore.
    destruct (t_globalTargets tiled !! "attr-note-4") as [p|] eqn:Hp; [|done].
    destruct (Hinside "attr-note-4") as (comps & ids & Hcomps & Hids & Hin);
      [eauto|].
    assert (Some comps = Some [compTwoKeys]) as Heq
      by (rewrite <- Hcomps; apply noted_components).
    injection Heq as ->.
    apply list_elem_of_singleton in Hids as ->.
    exfalso. revert Hin. apply (bool_decide_unpack _). vm_compute. exact I. }
  destruct (targets_complete notedGraph 1200) as (_ & Hcomplete & _ & Hfallback).
  destruct (Hfallback computed final noteNode Hcomputed Hfinal) as [_ Hlast].
  { apply elem_of_app. right. left. }
  { exact Hnone. }
  exists computed, final. split_and!; [done|done|done|by apply Hcomplete|].
  exact Hlast.
Defined.

End FallbackExample.

(** ** The deterministic utilities *)

Section UtilsFacts.
Local Open Scope R_scope.

Lemma toInt32_range (z : Z) : (- 2 ^ 31 <= JS.toInt32 z < 2 ^ 31)%Z.
Proof.
  unfold JS.toInt32.
  pose proof (Z.mod_pos_bound (z + 2 ^ 31) (2 ^ 32) ltac:(lia)). lia.
Qed.

Lemma hash_loop_range (chars : list Z) (seed : Z) :
  chars ≠ [] →
  (- 2 ^ 31 <= foldl Utils.hashStep seed chars < 2 ^ 31)%Z.
Proof.
  destruct chars as [|c chars _] using rev_ind; [done|]. intros _.
  rewrite foldl_app. simpl. apply toInt32_range.
Qed.

Lemma charCodes_nil (s : string) : JS.charCodes s = [] → s = "".
Proof. by destruct s. Qed.

(** X1: [deterministicHash] never returns a negative number; on a
    non-empty string the result is the absolute value of a signed 32-bit
    integer, so it is at most [2^31]; on the empty string it is the
    absolute value of the extra seed. *)
Theorem deterministicHash_range (str : string) (extraSeed : Z) :
  (0 <= Utils.deterministicHash str extraSeed)%Z
  ∧ (str ≠ "" → (Utils.deterministicHash str extraSeed <= 2 ^ 31)%Z)
  ∧ Utils.deterministicHash "" extraSeed = Z.abs extraSeed.
Proof.
  unfold Utils.deterministicHash. split_and!; [lia| |done].
  intros Hne.
  pose proof (hash_loop_range (JS.charCodes str) extraSeed) as Hr.
  destruct Hr; [intros Hnil; by apply charCodes_nil in Hnil|]. lia.
Qed.

Lemma frac_range (x : R) : 0 <= x - IZR (Int_part x) < 1.
Proof. destruct (base_Int_part x). lra. Qed.



(** The remainder of a division by a positive number: it differs from the
    dividend by a multiple of the divisor and is smaller than the divisor
    in absolute value, with the sign of the dividend. *)
Lemma rem_spec (a m : R) :
  0 < m →
  (∃ k : Z, JS.rem a m = a - m * IZR k)
  ∧ (0 <= a → 0 <= JS.rem a m < m)
  ∧ (a < 0 → - m < JS.rem a m <= 0).
Proof.
  intros Hm. unfold JS.rem, JS.trunc. split_and!.
  - eauto.
  - intros Ha.
    assert (0 <= a / m) by (apply Rmult_le_pos; [done|left; by apply Rinv_0_lt_compat]).
    destruct (Rle_dec 0 (a / m)); [|done].
    pose proof (frac_range (a / m)) as [Hlo Hhi].
    assert (a = m * (a / m)) as Heq by (field; lra).
    split; nra.
  - intros Ha.
    assert (a / m < 0).
    { apply Ropp_lt_cancel. rewrite Ropp_0.
      replace (- (a / m)) with ((- a) / m) by (field; lra).
      apply Rmult_lt_0_compat; [lra|by apply Rinv_0_lt_compat]. }
    destruct (Rle_dec 0 (a / m)); [lra|].
    pose proof (frac_range (- (a / m))) as [Hlo Hhi].
    rewrite opp_IZR.
    assert (a = m * (a / m)) as Heq by (field; lra).
    split; nra.
Qed.

Lemma trig_period_Z (x : R) (k : Z) :
  cos (x + 2 * IZR k * PI) = cos x ∧ sin (x + 2 * IZR k * PI) = sin x.
Proof.
  destruct (Z_le_gt_dec 0 k) as [Hk|Hk].
  - rewrite <- (Z2Nat.id k) by done. rewrite <- INR_IZR_INZ.
    split; [apply cos_period|apply sin_period].
  - pose proof (cos_period (x + 2 * IZR k * PI) (Z.to_nat (- k))) as Hc.
    pose proof (sin_period (x + 2 * IZR k * PI) (Z.to_nat (- k))) as Hs.
    rewrite INR_IZR_INZ, Z2Nat.id, opp_IZR in Hc, Hs by lia.
    replace (x + 2 * IZR k * PI + 2 * - IZR k * PI) with x in Hc, Hs by lra.
    by split.
Qed.

Lemma normalizeAngle_range (a : R) : 0 <= Utils.normalizeAngle a < 2 * PI.
Proof.
  assert (Hpi : 0 < PI * 2) by (pose proof PI_RGT_0; lra).
  unfold Utils.normalizeAngle. cbv zeta.
  destruct (rem_spec a (PI * 2) Hpi) as (_ & Hpos & Hneg).
  destruct (Rlt_dec (JS.rem a (PI * 2)) 0) as [Hlt|Hge].
  - destruct (Rle_lt_dec 0 a) as [Ha|Ha]; [apply Hpos in Ha; lra|].
    apply Hneg in Ha. lra.
  - destruct (Rle_lt_dec 0 a) as [Ha|Ha]; [apply Hpos in Ha; lra|].
    apply Hneg in Ha. lra.
Qed.

Lemma normalizeAngle_turns (a : R) :
  ∃ k : Z, Utils.normalizeAngle a = a + 2 * IZR k * PI.
Proof.
  assert (Hpi : 0 < PI * 2) by (pose proof PI_RGT_0; lra).
  unfold Utils.normalizeAngle. cbv zeta.
  destruct (rem_spec a (PI * 2) Hpi) as ([k Hk] & _ & _). rewrite Hk.
  destruct (Rlt_dec _ 0).
  - exists (1 - k)%Z. rewrite minus_IZR. lra.
  - exists (- k)%Z. rewrite opp_IZR. lra.
Qed.

Lemma normalizeAngle_cos_sin (a : R) :
  cos (Utils.normalizeAngle a) = cos a ∧ sin (Utils.normalizeAngle a) = sin a.
Proof. destruct (normalizeAngle_turns a) as [k ->]. apply trig_period_Z. Qed.

(** An angle already in [[0, 2π)] is its own normal form. *)
Lemma normalizeAngle_fixed (b : R) :
  0 <= b < 2 * PI → Utils.normalizeAngle b = b.
Proof.
  intros Hrange.
  assert (Hpi : 0 < PI * 2) by (pose proof PI_RGT_0; lra).
  unfold Utils.normalizeAngle. cbv zeta.
  assert (JS.rem b (PI * 2) = b) as ->.
  { unfold JS.rem, JS.trunc.
    assert (0 <= b / (PI * 2) < 1) as [Hq0 Hq1].
    { split.
      - apply Rmult_le_pos; [lra|left; by apply Rinv_0_lt_compat].
      - apply (Rmult_lt_reg_r (PI * 2)); [done|]. field_simplify; lra. }
    destruct (Rle_dec 0 (b / (PI * 2))); [|lra].
    assert (Int_part (b / (PI * 2)) = 0%Z) as ->.
    { pose proof (frac_range (b / (PI * 2))) as [Hlo Hhi].
      assert (-1 < IZR (Int_part (b / (PI * 2))) < 1) as [H1 H2] by lra.
      apply lt_IZR in H1, H2. lia. }
    lra. }
  destruct (Rlt_dec b 0); [lra|done].
Qed.


End UtilsFacts.

(** ** Initial component placement *)

Section InitialPlacement.
Import InitialLayout.
Local Open Scope R_scope.











End InitialPlacement.

(** ** Component spread: which targets are written, and where *)

Section SpreadTargets.
Import ComponentSpread.
Local Open Scope R_scope.

Lemma findById_spec (g : Graph) (i : string) (n : Node) :
  findById g i = Some n → n ∈ getNodes g ∧ n_id n = i.
Proof.
  unfold findById. intros Hfind. apply find_some in Hfind as [Hin Hid].
  apply bool_decide_eq_true in Hid. by apply list_elem_of_In in Hin.
Qed.

(** The members of the components are nodes of the graph, and every node
    id is the id of a member. *)
Lemma spread_components_members (g : Graph) (comp : list Node) (n : Node) :
  comp ∈ components g → n ∈ comp → n ∈ getNodes g.
Proof.
  unfold components. destruct (componentIds g) as [comps|];
    [|intros H; by apply elem_of_nil in H].
  intros Hc Hn. apply list_elem_of_filter in Hc as [_ Hc].
  apply list_elem_of_fmap in Hc as (ids & -> & _).
  apply list_elem_of_omap in Hn as (i & _ & Hfind).
  by apply findById_spec in Hfind as [? _].
Qed.

Lemma spread_components_cover (g : Graph) (n : Node) :
  n ∈ getNodes g →
  ∃ comp n', comp ∈ components g ∧ n' ∈ comp ∧ n_id n' = n_id n.
Proof.
  intros Hn. unfold components. rewrite spread_componentIds_sorted.
  destruct (sortedDecomposition_spec (n_id <$> getNodes g) (getEdges g))
    as (comps & -> & (_ & Hcover & _) & _).
  destruct (findById_is_Some g n Hn) as [n' Hfind].
  assert (Hin : n_id n ∈ concat comps) by (apply Hcover; by apply list_elem_of_fmap_2).
  apply elem_of_concat in Hin as (ids & Hids & Hin).
  exists (omap (findById g) ids), n'.
  assert (Hn' : n' ∈ omap (findById g) ids) by (apply list_elem_of_omap; eauto).
  split_and!; [|done|by apply findById_spec in Hfind as [_ ?]].
  apply list_elem_of_filter. split.
  - destruct (omap (findById g) ids); [by apply elem_of_nil in Hn'|done].
  - by apply list_elem_of_fmap_2.
Qed.

(** The keys written by the loop over the components. *)
Lemma placeAll_keys dc orbit span metas (st : Targets * R) (i : string) :
  is_Some ((foldl (placeComponent dc orbit span) st metas).1 !! i)
  ↔ is_Some (st.1 !! i) ∨ ∃ meta n, meta ∈ metas ∧ n ∈ m_comp meta ∧ n_id n = i.
Proof.
  rewrite (foldl_grows (λ (s : Targets * R) y, is_Some (s.1 !! y))
             (λ meta y, ∃ n, n ∈ m_comp meta ∧ n_id n = y)).
  - split; (intros [?|Hx]; [by left|right]).
    + destruct Hx as (meta & Hm & n & Hn & Hid). eauto.
    + destruct Hx as (meta & n & Hm & Hn & Hid). eauto.
  - intros [t c] meta y. unfold placeComponent. cbn [fst].
    rewrite (foldl_writes (λ t : Targets, t) (λ n : Node, [n_id n])).
    + split; (intros [?|Hx]; [by left|right]).
      * destruct Hx as (n & Hn & Hy). apply list_elem_of_singleton in Hy. eauto.
      * destruct Hx as (n & Hn & Hy). exists n. split; [done|].
        by apply list_elem_of_singleton.
    + intros t' n y'. rewrite is_Some_insert, list_elem_of_singleton. done.
Qed.

(** X5: when component spread hands targets to the animation, the target
    map has an entry for every node of the graph and for no other id. *)
Theorem spread_targets_are_the_nodes (g : Graph) (targets : Targets) :
  spreadDisconnectedComponents g = Some targets →
  ∀ i, is_Some (targets !! i) ↔ i ∈ (n_id <$> getNodes g).
Proof.
  unfold spreadDisconnectedComponents.
  destruct (decide (length (getNodes g) < 2)%nat) as [?|_]; [done|].
  destruct (decide (length (components g) < 2)%nat) as [?|_]; [done|].
  intros [= <-] i. rewrite placeAll_keys. cbn [fst]. rewrite lookup_empty.
  split.
  - intros [[? [=]]|(meta & n & Hm & Hn & <-)].
    apply list_elem_of_fmap in Hm as (comp & -> & Hc).
    apply list_elem_of_fmap_2. by eapply spread_components_members.
  - intros Hi. right. apply list_elem_of_fmap in Hi as (n & -> & Hn).
    destruct (spread_components_cover g n Hn) as (comp & n' & Hc & Hn' & Hid).
    exists (compMeta comp), n'. split_and!; [by apply list_elem_of_fmap_2|done|done].
Qed.

Lemma spread_targets_are_the_nodes_witness :
  ∃ targets,
    spreadDisconnectedComponents demoGraph = Some targets
    ∧ is_Some (targets !! "entity-b-1")
    ∧ targets !! "entity-c-2" = None.
Proof.
  destruct (spread_runs demoGraph) as [targets Hrun].
  - simpl. lia.
  - rewrite demoGraph_components. simpl. lia.
  - pose proof (spread_targets_are_the_nodes demoGraph targets Hrun) as Hkeys.
    exists targets. split_and!; [done| |].
    + apply Hkeys. right. right. left.
    + apply eq_None_not_Some. rewrite Hkeys.
      apply (bool_decide_unpack _). vm_compute. exact I.
Defined.

End SpreadTargets.

(** ** Component spread: the sectors of the orbit *)

Section SpreadSectors.
Import ComponentSpread.
Local Open Scope R_scope.










End SpreadSectors.

(** ** One step of the overlap removal *)

Section PushAlong.
Local Open Scope R_scope.

Lemma hypot_distance (pa pb : Pos) :
  JS.hypot (px pb - px pa) (py pb - py pa) = distance pa pb.
Proof. unfold JS.hypot, distance. f_equal. ring. Qed.

Lemma distance_nonneg (p q : Pos) : 0 <= distance p q.
Proof. apply sqrt_pos. Qed.

Lemma distance_sqr (p q : Pos) :
  distance p q * distance p q
  = (px p - px q) * (px p - px q) + (py p - py q) * (py p - py q).
Proof.
  unfold distance. apply sqrt_sqrt.
  apply Rplus_le_le_0_compat; apply Rle_0_sqr.
Qed.

Lemma distance_zero (p q : Pos) : distance p q = 0 → px p = px q ∧ py p = py q.
Proof.
  intros Hd. pose proof (distance_sqr p q) as Hs. rewrite Hd in Hs.
  destruct (Rplus_sqr_eq_0 (px p - px q) (py p - py q)) as [Hx Hy];
    [unfold Rsqr; lra|lra].
Qed.

(** Two points pushed away from each other along the line through them,
    by [sA] and [sB]: their distance grows by [sA + sB]. *)
Lemma push_along (pa pb : Pos) (sA sB m : R) :
  let dx := px pb - px pa in
  let dy := py pb - py pa in
  let d := distance pa pb in
  0 < d → sA + sB = m - d → 0 <= m →
  distance (Force.unshift (dx / d * sA) (dy / d * sA) pa)
           (Force.shift (dx / d * sB) (dy / d * sB) pb) = m.
Proof.
  intros dx dy d Hd Hs Hm.
  pose proof (distance_sqr pa pb) as Hsq. fold d in Hsq.
  unfold distance at 1, Force.shift, Force.unshift; cbn [px py].
  apply sqrt_lem_1;
    [apply Rplus_le_le_0_compat; apply Rle_0_sqr|done|].
  replace (px pa - dx / d * sA - (px pb + dx / d * sB)) with (- dx * (m / d))
    by (replace sB with (m - d - sA) by lra; subst dx; field; lra).
  replace (py pa - dy / d * sA - (py pb + dy / d * sB)) with (- dy * (m / d))
    by (replace sB with (m - d - sA) by lra; subst dy; field; lra).
  transitivity ((m / d) * (m / d) * (d * d)); [field; lra|].
  rewrite Hsq. subst dx dy. ring.
Qed.

Lemma push_along_midpoint (pa pb : Pos) (ux uy s : R) :
  px (Force.unshift (ux * s) (uy * s) pa) + px (Force.shift (ux * s) (uy * s) pb)
  = px pa + px pb
  ∧ py (Force.unshift (ux * s) (uy * s) pa) + py (Force.shift (ux * s) (uy * s) pb)
    = py pa + py pb.
Proof. unfold Force.shift, Force.unshift; cbn [px py]. split; ring. Qed.

Lemma alter_fixed (f : Pos → Pos) (k : string) (t : Targets) :
  (∀ p, t !! k = Some p → f p = p) → alter f k t = t.
Proof.
  intros Hf. apply map_eq. intros i. destruct (decide (k = i)) as [<-|Hne].
  - rewrite lookup_alter_eq. destruct (t !! k) as [p|] eqn:Hp; [|done].
    simpl. by rewrite (Hf p).
  - by rewrite lookup_alter_ne.
Qed.

Lemma shift_nothing (p : Pos) (k s : R) : Force.shift (0 / k * s) (0 / k * s) p = p.
Proof. unfold Force.shift. destruct p as [x y]. simpl. f_equal; unfold Rdiv; ring. Qed.

Lemma unshift_nothing (p : Pos) (k s : R) : Force.unshift (0 / k * s) (0 / k * s) p = p.
Proof. unfold Force.unshift. destruct p as [x y]. simpl. f_equal; unfold Rdiv; ring. Qed.

End PushAlong.

Section ArrangeSeparate.
Import ArrangeLayout.
Local Open Scope R_scope.

Lemma separate_cases (a b : string * R) (targets : Targets) (maxMove : R)
    (pa pb : Pos) :
  targets !! a.1 = Some pa → targets !! b.1 = Some pb →
  let d := distance pa pb in
  let minDist := a.2 + b.2 + 8 in
  (minDist <= d → 0 < d →
   separate a b (targets, maxMove) = Computed (targets, maxMove))
  ∧ (0 < d < minDist →
     ∃ t' pa' pb',
       separate a b (targets, maxMove)
       = Computed (t', Rmax maxMove ((minDist - d) / 2))
       ∧ t' !! a.1 = Some pa' ∧ t' !! b.1 = Some pb'
       ∧ (∀ i, i ≠ a.1 → i ≠ b.1 → t' !! i = targets !! i)
       ∧ distance pa' pb' = minDist
       ∧ px pa' + px pb' = px pa + px pb
       ∧ py pa' + py pb' = py pa + py pb)
  ∧ (d = 0 →
     separate a b (targets, maxMove)
     = Computed (targets,
                 if decide (0.01 < minDist) then Rmax maxMove ((minDist - 0.01) / 2)
                 else maxMove)).
Proof.
  intros Ha Hb d minDist. unfold separate. rewrite Ha, Hb. cbv zeta.
  rewrite hypot_distance. fold d. fold minDist. split_and!.
  - intros Hfar Hpos. rewrite (decide_False (P := d = 0)) by lra.
    by rewrite (decide_False (P := d < minDist)) by lra.
  - intros [Hpos Hnear]. rewrite (decide_False (P := d = 0)) by lra.
    rewrite (decide_True (P := d < minDist)) by done.
    unfold Force.unitVector. rewrite (decide_False (P := d = 0)) by lra.
    cbn [mbind Outcome_bind].
    assert (Hne : a.1 ≠ b.1).
    { intros Heq. rewrite Heq, Hb in Ha. injection Ha as ->.
      unfold d, distance in Hpos. 
      replace ((px pa - px pa) * (px pa - px pa) + (py pa - py pa) * (py pa - py pa))
        with 0 in Hpos by ring.
      rewrite sqrt_0 in Hpos. lra. }
    eexists _, _, _. split; [reflexivity|]. split_and!.
    + rewrite lookup_alter_ne, lookup_alter_eq, Ha by done. reflexivity.
    + rewrite lookup_alter_eq, lookup_alter_ne, Hb by done. reflexivity.
    + intros i Hia Hib. by rewrite !lookup_alter_ne.
    + apply push_along; fold d; lra.
    + apply push_along_midpoint.
    + apply push_along_midpoint.
  - intros Hzero. rewrite (decide_True (P := d = 0)) by done.
    destruct (distance_zero pa pb Hzero) as [Hx Hy].
    destruct (decide (0.01 < minDist)) as [Hlt|Hge]; [|done].
    unfold Force.unitVector. rewrite (decide_False (P := 0.01 = 0)) by lra.
    cbn [mbind Outcome_bind].
    replace (px pb - px pa) with 0 by lra. replace (py pb - py pa) with 0 by lra.
    rewrite !alter_fixed; [done|intros; apply unshift_nothing|intros; apply shift_nothing].
Qed.

(** X7: one pair of the global separation of arrange.  Two nodes at least
    [rA + rB + 8] apart are left alone.  Two nodes closer than that, at
    different positions, are pushed apart along the line through them by
    the same amount, so that their midpoint stays and their distance
    becomes exactly [rA + rB + 8]; no other target changes.  Two nodes at
    the same position are not moved at all, although the step reports a
    move. *)
Theorem separate_step (a b : string * R) (targets : Targets) (maxMove : R)
    (pa pb : Pos) :
  targets !! a.1 = Some pa → targets !! b.1 = Some pb →
  let d := distance pa pb in
  let minDist := a.2 + b.2 + 8 in
  (minDist <= d → 0 < d →
   separate a b (targets, maxMove) = Computed (targets, maxMove))
  ∧ (0 < d < minDist →
     ∃ t' pa' pb',
       separate a b (targets, maxMove)
       = Computed (t', Rmax maxMove ((minDist - d) / 2))
       ∧ t' !! a.1 = Some pa' ∧ t' !! b.1 = Some pb'
       ∧ (∀ i, i ≠ a.1 → i ≠ b.1 → t' !! i = targets !! i)
       ∧ distance pa' pb' = minDist
       ∧ px pa' + px pb' = px pa + px pb
       ∧ py pa' + py pb' = py pa + py pb)
  ∧ (d = 0 →
     separate a b (targets, maxMove)
     = Computed (targets,
                 if decide (0.01 < minDist) then Rmax maxMove ((minDist - 0.01) / 2)
                 else maxMove)).
Proof. apply separate_cases. Qed.

(** Two nodes of radius 10 at the same place. *)
Definition stacked : Targets := {[ "p" := mkPos 5 5; "q" := mkPos 5 5 ]}.

Lemma separate_step_witness :
  separate ("p", 10) ("q", 10) (stacked, 0)
  = Computed (stacked,
              if decide (0.01 < 10 + 10 + 8) then Rmax 0 ((10 + 10 + 8 - 0.01) / 2)
              else 0).
Proof.
  assert (Hp : stacked !! "p" = Some (mkPos 5 5)) by (vm_compute; reflexivity).
  assert (Hq : stacked !! "q" = Some (mkPos 5 5)) by (vm_compute; reflexivity).
  destruct (separate_step ("p", 10) ("q", 10) stacked 0 _ _ Hp Hq) as (_ & _ & Hsame).
  apply Hsame. unfold distance; cbn [px py].
  replace ((5 - 5) * (5 - 5) + (5 - 5) * (5 - 5)) with 0 by ring. apply sqrt_0.
Defined.

End ArrangeSeparate.

Section ForceAlignPushApart.
Import ForceAlign.
Local Open Scope R_scope.

Lemma pushOf_sum (chain : gset string) (x y : string) (overlap : R) :
  ¬ (x ∈ chain ∧ y ∈ chain) →
  pushOf chain x y overlap + pushOf chain y x overlap = overlap.
Proof.
  intros Hnot. unfold pushOf.
  destruct (decide (x ∈ chain)), (decide (y ∈ chain)); [tauto|lra..].
Qed.

Lemma pushApart_cases (chain : gset string) (a b : string * R)
    (targets : Targets) (moved : R) (pa pb : Pos) :
  targets !! a.1 = Some pa → targets !! b.1 = Some pb →
  let d := distance pa pb in
  let minDist := a.2 + b.2 + 14 in
  0 < d < minDist →
  ∃ t' moved' pa' pb',
    pushApart chain a b (targets, moved) = Computed (t', moved')
    ∧ t' !! a.1 = Some pa' ∧ t' !! b.1 = Some pb'
    ∧ (∀ i, i ≠ a.1 → i ≠ b.1 → t' !! i = targets !! i)
    ∧ (a.1 ∈ chain → pa' = pa)
    ∧ (b.1 ∈ chain → pb' = pb)
    ∧ (¬ (a.1 ∈ chain ∧ b.1 ∈ chain) → distance pa' pb' = minDist)
    ∧ (a.1 ∉ chain → b.1 ∉ chain →
       px pa' + px pb' = px pa + px pb ∧ py pa' + py pb' = py pa + py pb).
Proof.
  intros Ha Hb d minDist [Hpos Hnear]. unfold pushApart. rewrite Ha, Hb. cbv zeta.
  rewrite hypot_distance. fold d. fold minDist.
  rewrite (decide_False (P := d = 0)) by lra.
  rewrite (decide_True (P := d < minDist)) by done.
  unfold Force.unitVector. rewrite (decide_False (P := d = 0)) by lra.
  cbn [mbind Outcome_bind].
  assert (Hne : a.1 ≠ b.1).
  { intros Heq. rewrite Heq, Hb in Ha. injection Ha as ->.
    unfold d, distance in Hpos.
    replace ((px pa - px pa) * (px pa - px pa) + (py pa - py pa) * (py pa - py pa))
      with 0 in Hpos by ring.
    rewrite sqrt_0 in Hpos. lra. }
  eexists _, _, _, _. split; [reflexivity|]. split_and!.
  - rewrite lookup_alter_ne, lookup_alter_eq, Ha by done. reflexivity.
  - rewrite lookup_alter_eq, lookup_alter_ne, Hb by done. reflexivity.
  - intros i Hia Hib. by rewrite !lookup_alter_ne.
  - intros Hin. unfold pushOf. rewrite (decide_True (P := a.1 ∈ chain)) by done.
    apply unshift_zero.
  - intros Hin. unfold pushOf. rewrite (decide_True (P := b.1 ∈ chain)) by done.
    apply shift_zero.
  - intros Hnot. apply push_along; fold d; [done| |lra].
    by apply pushOf_sum.
  - intros Hna Hnb. unfold pushOf.
    destruct (decide (a.1 ∈ chain)) as [?|_]; [done|].
    destruct (decide (b.1 ∈ chain)) as [?|_]; [done|].
    apply push_along_midpoint.
Qed.

(** X8: one pair of the overlap resolution of force-align, for two core
    nodes at different positions closer than [rA + rB + 14].  A node of a
    main chain stays where it is.  Unless both nodes are on a main chain,
    the distance of the pair becomes exactly [rA + rB + 14]: a node paired
    with a main-chain node takes the whole overlap, two other nodes take
    half each and keep their midpoint.  No other target changes. *)
Theorem pushApart_step (chain : gset string) (a b : string * R)
    (targets : Targets) (moved : R) (pa pb : Pos) :
  targets !! a.1 = Some pa → targets !! b.1 = Some pb →
  let d := distance pa pb in
  let minDist := a.2 + b.2 + 14 in
  0 < d < minDist →
  ∃ t' moved' pa' pb',
    pushApart chain a b (targets, moved) = Computed (t', moved')
    ∧ t' !! a.1 = Some pa' ∧ t' !! b.1 = Some pb'
    ∧ (∀ i, i ≠ a.1 → i ≠ b.1 → t' !! i = targets !! i)
    ∧ (a.1 ∈ chain → pa' = pa)
    ∧ (b.1 ∈ chain → pb' = pb)
    ∧ (¬ (a.1 ∈ chain ∧ b.1 ∈ chain) → distance pa' pb' = minDist)
    ∧ (a.1 ∉ chain → b.1 ∉ chain →
       px pa' + px pb' = px pa + px pb ∧ py pa' + py pb' = py pa + py pb).
Proof. apply pushApart_cases. Qed.

(** A main-chain node and a branch node, 5 apart, of radius 10 each. *)
Definition crowded : Targets := {[ "p" := mkPos 0 0; "q" := mkPos 5 0 ]}.

Lemma pushApart_step_witness :
  ∃ t' moved' pb',
    pushApart {["p"]} ("p", 10) ("q", 10) (crowded, 0) = Computed (t', moved')
    ∧ t' !! "p" = Some (mkPos 0 0)
    ∧ t' !! "q" = Some pb'
    ∧ distance (mkPos 0 0) pb' = 10 + 10 + 14.
Proof.
  assert (Hp : crowded !! "p" = Some (mkPos 0 0)) by (vm_compute; reflexivity).
  assert (Hq : crowded !! "q" = Some (mkPos 5 0)) by (vm_compute; reflexivity).
  assert (Hd : distance (mkPos 0 0) (mkPos 5 0) = 5).
  { unfold distance; cbn [px py]. apply sqrt_lem_1; lra. }
  destruct (pushApart_step {["p"]} ("p", 10) ("q", 10) crowded 0 _ _ Hp Hq)
    as (t' & moved' & pa' & pb' & Hrun & Ha & Hb & _ & Hfix & _ & Hdist & _).
  - cbn [fst snd]. rewrite Hd. lra.
  - cbn [fst snd] in *. 
    assert (pa' = mkPos 0 0) as -> by (apply Hfix; set_solver).
    exists t', moved', pb'. split_and!; [done..|].
    apply Hdist. set_solver.
Defined.

End ForceAlignPushApart.

(** ** Arrange: the free segments of a ring *)

Section FreeSegments.
Import ArrangeLayout.
Local Open Scope R_scope.

Lemma numLeb_total (a b : R) : JS.numLeb a b = true ∨ JS.numLeb b a = true.
Proof.
  unfold JS.numLeb. destruct (Rle_lt_dec a b).
  - left. by apply bool_decide_eq_true.
  - right. apply bool_decide_eq_true. lra.
Qed.

Lemma numLeb_trans (a b c : R) :
  JS.numLeb a b = true → JS.numLeb b c = true → JS.numLeb a c = true.
Proof.
  unfold JS.numLeb. rewrite !bool_decide_eq_true. lra.
Qed.

Lemma sorted_lookup_le (l : list R) (i j : nat) (x y : R) :
  StronglySorted (λ x y, JS.numLeb x y = true) l →
  (i ≤ j)%nat → l !! i = Some x → l !! j = Some y → x <= y.
Proof.
  intros Hs. revert i j. induction Hs as [|a l Hl IH Ha]; intros i j Hij Hi Hj.
  - done.
  - destruct i as [|i], j as [|j]; simpl in *.
    + injection Hi as ->. injection Hj as ->. lra.
    + injection Hi as ->. apply list_elem_of_lookup_2 in Hj.
      rewrite Forall_forall in Ha. apply Ha in Hj.
      by apply bool_decide_eq_true in Hj.
    + lia.
    + apply (IH i j); [lia|done..].
Qed.

(** Where a segment between two avoided angles comes from. *)
Lemma gapsBetween_members (angles : list R) (seg : Segment) :
  seg ∈ gapsBetween angles →
  ∃ i curr next,
    (i < length angles)%nat
    ∧ angles !! i = Some curr
    ∧ angles !! ((i + 1) mod length angles)%nat = Some next
    ∧ s_start seg = curr + halfGap
    ∧ s_end seg = next + (if decide (i = length angles - 1)%nat then PI * 2 else 0)
                  - halfGap
    ∧ s_start seg < s_end seg.
Proof.
  unfold gapsBetween. intros Hseg.
  apply list_elem_of_omap in Hseg as (i & Hi & Hsome).
  apply elem_of_seq in Hi as [_ Hi]. simpl in Hi.
  assert (Hmod : ((i + 1) mod length angles < length angles)%nat)
    by (apply Nat.mod_upper_bound; lia).
  destruct (lookup_lt_is_Some_2 angles i Hi) as [curr Hcurr].
  destruct (lookup_lt_is_Some_2 angles _ Hmod) as [next Hnext].
  rewrite Hcurr, Hnext in Hsome. cbn [default] in Hsome.
  destruct (decide (_ < _)) as [Hlt|]; [|done]. injection Hsome as <-.
  exists i, curr, next. by split_and!.
Qed.

Lemma sum_positive (l : list R) :
  l ≠ [] → (∀ x, x ∈ l → 0 < x) → 0 < JS.sum l.
Proof.
  unfold JS.sum. induction l as [|a l IH]; [done|]. intros _ Hpos. simpl.
  rewrite foldl_Rplus_shift.
  assert (0 < a) by (apply Hpos; left).
  destruct l as [|b l]; [simpl; lra|].
  assert (0 < foldl Rplus 0 (b :: l)).
  { apply IH; [done|]. intros x Hx. apply Hpos. by right. }
  lra.
Qed.

Lemma gapsBetween_lengths (angles : list R) (x : R) :
  x ∈ (s_len <$> gapsBetween angles) → 0 < x.
Proof.
  intros Hx. apply list_elem_of_fmap in Hx as (seg & -> & Hseg).
  apply gapsBetween_members in Hseg as (i & curr & next & _ & _ & _ & _ & _ & Hlt).
  unfold s_len. lra.
Qed.

Lemma freeSegments_cases (avoid : list R) :
  (avoid = [] ∨ gapsBetween (JS.sortBy JS.numLeb avoid) = [] →
   freeSegments avoid = [fullCircle])
  ∧ (avoid ≠ [] → gapsBetween (JS.sortBy JS.numLeb avoid) ≠ [] →
     freeSegments avoid = gapsBetween (JS.sortBy JS.numLeb avoid)).
Proof.
  pose proof PI_RGT_0 as Hpi. unfold freeSegments. split.
  - intros [-> |Hnone].
    + by destruct (decide _).
    + destruct avoid as [|a avoid]; [by destruct (decide _)|].
      rewrite Hnone. by destruct (decide _).
  - intros Hne Hsome. destruct avoid as [|a avoid]; [done|].
    destruct (decide _) as [Hle|]; [|done]. exfalso.
    assert (Hpos : 0 < JS.sum (s_len <$> gapsBetween (JS.sortBy JS.numLeb (a :: avoid)))).
    { apply sum_positive; [|apply gapsBetween_lengths].
      intros Hnil. by apply fmap_nil_inv in Hnil. }
    lra.
Qed.

Lemma freeSegments_positive (avoid : list R) (seg : Segment) :
  seg ∈ freeSegments avoid → s_start seg < s_end seg.
Proof.
  pose proof PI_RGT_0 as Hpi.
  assert (Hfull : s_start fullCircle < s_end fullCircle) by (simpl; lra).
  unfold freeSegments. destruct (decide _).
  - intros Hseg. by apply list_elem_of_singleton in Hseg as ->.
  - destruct avoid as [|a avoid].
    + intros Hseg. by apply list_elem_of_singleton in Hseg as ->.
    + intros Hseg. by apply gapsBetween_members in Hseg
        as (? & ? & ? & ? & ? & ? & ? & ? & ?).
Qed.

(** Every avoided direction, and every direction a whole number of turns
    away from it, is at least [halfGap] outside a segment between two
    avoided angles. *)
Lemma gapsBetween_clear (avoid : list R) (seg : Segment) (a φ : R) (k : Z) :
  (∀ x, x ∈ avoid → 0 <= x < 2 * PI) →
  seg ∈ gapsBetween (JS.sortBy JS.numLeb avoid) → a ∈ avoid →
  s_start seg <= φ <= s_end seg →
  halfGap <= Rabs (φ - (a + 2 * IZR k * PI)).
Proof.
  intros Hrange Hseg Ha Hφ. pose proof PI_RGT_0 as Hpi.
  set (sorted := JS.sortBy JS.numLeb avoid) in *.
  assert (Hsorted : StronglySorted (λ x y, JS.numLeb x y = true) sorted)
    by (apply sortBy_sorted; [apply numLeb_total|apply numLeb_trans]).
  assert (Hin : ∀ x, x ∈ sorted → 0 <= x < 2 * PI).
  { intros x Hx. apply Hrange. by apply (elem_of_sortBy JS.numLeb). }
  apply gapsBetween_members in Hseg
    as (i & curr & next & Hi & Hcurr & Hnext & Hstart & Hend & _).
  apply (elem_of_sortBy JS.numLeb) in Ha. fold sorted in Ha.
  apply list_elem_of_lookup in Ha as [j Hj].
  assert (Hjlt : (j < length sorted)%nat) by (by eapply lookup_lt_Some).
  pose proof (Hin a (list_elem_of_lookup_2 _ _ _ Hj)) as Hra.
  pose proof (Hin curr (list_elem_of_lookup_2 _ _ _ Hcurr)) as Hrc.
  pose proof (Hin next (list_elem_of_lookup_2 _ _ _ Hnext)) as Hrn.
  set (turn := 2 * IZR k * PI).
  assert (Hk0 : (k <= 0)%Z → turn <= 0).
  { intros H. apply IZR_le in H. unfold turn.
    replace (2 * IZR k * PI) with (- (2 * PI * - IZR k)) by ring.
    assert (0 <= 2 * PI * - IZR k) by (apply Rmult_le_pos; lra). lra. }
  assert (Hk1 : (1 <= k)%Z → 2 * PI <= turn).
  { intros H. apply IZR_le in H. unfold turn.
    replace (2 * IZR k * PI) with (2 * PI + 2 * PI * (IZR k - 1)) by ring.
    assert (0 <= 2 * PI * (IZR k - 1)) by (apply Rmult_le_pos; lra). lra. }
  assert (Hkm : (k <= -1)%Z → turn <= - (2 * PI)).
  { intros H. apply IZR_le in H. unfold turn.
    replace (2 * IZR k * PI) with (- (2 * PI) - 2 * PI * (- 1 - IZR k)) by ring.
    assert (0 <= 2 * PI * (- 1 - IZR k)) by (apply Rmult_le_pos; lra). lra. }
  assert (Hkp : (0 <= k)%Z → 0 <= turn).
  { intros H. apply IZR_le in H. unfold turn.
    replace (2 * IZR k * PI) with (2 * PI * IZR k) by ring.
    apply Rmult_le_pos; lra. }
  enough (Hside : a + turn <= curr
                  ∨ next + (if decide (i = length sorted - 1)%nat then PI * 2 else 0)
                    <= a + turn).
  { unfold Rabs. destruct (Rcase_abs _); destruct Hside; lra. }
  destruct (decide (i = length sorted - 1)%nat) as [Hlast|Hmid].
  - assert (Hmod : ((i + 1) mod length sorted = 0)%nat).
    { replace (i + 1)%nat with (length sorted) by lia. apply Nat.Div0.mod_same. }
    rewrite Hmod in Hnext.
    assert (next <= a) by (apply (sorted_lookup_le sorted 0 j); [done|lia|done..]).
    assert (a <= curr) by (apply (sorted_lookup_le sorted j i); [done|lia|done..]).
    destruct (decide (k <= 0)%Z) as [Hk|Hk]; [left; apply Hk0 in Hk; lra|].
    right. assert (2 * PI <= turn) by (apply Hk1; lia). lra.
  - assert (Hmod : ((i + 1) mod length sorted = i + 1)%nat)
      by (apply Nat.mod_small; lia).
    rewrite Hmod in Hnext.
    destruct (decide (j ≤ i)%nat) as [Hji|Hji].
    + assert (a <= curr) by (by apply (sorted_lookup_le sorted j i)).
      destruct (decide (k <= 0)%Z) as [Hk|Hk]; [left; apply Hk0 in Hk; lra|].
      right. assert (2 * PI <= turn) by (apply Hk1; lia). lra.
    + assert (next <= a)
        by (apply (sorted_lookup_le sorted (i + 1) j); [done|lia|done..]).
      destruct (decide (k <= -1)%Z) as [Hk|Hk]; [left; apply Hkm in Hk; lra|].
      right. assert (0 <= turn) by (apply Hkp; lia). lra.
Qed.

End FreeSegments.

Section SatellitesOnRing.
Import ArrangeLayout.
Local Open Scope R_scope.

Lemma avoidAngles_range pos center sats (x : R) :
  x ∈ avoidAngles pos center sats → 0 <= x < 2 * PI.
Proof.
  unfold avoidAngles. intros Hx.
  apply list_elem_of_omap in Hx as (s & _ & Hs).
  destruct (sat_type s); [done|]. destruct (sat_other s) as [other|]; [|done].
  destruct (pos !! n_id other) as [otherPos|]; [|done].
  injection Hs as <-. apply normalizeAngle_range.
Qed.

(** The angles of one segment lie strictly inside it. *)
Lemma segmentAngles_members (seg : Segment) (count : Z) (a : R) :
  s_start seg < s_end seg → a ∈ segmentAngles seg count →
  ∃ φ, s_start seg < φ < s_end seg ∧ a = Utils.normalizeAngle φ.
Proof.
  intros Hlen Ha. unfold segmentAngles in Ha.
  apply list_elem_of_fmap in Ha as (i & -> & Hi).
  apply elem_of_seq in Hi as [_ Hi]. simpl in Hi.
  eexists. split; [|reflexivity].
  assert (Hc : (Z.of_nat i + 1 <= count)%Z) by lia.
  apply IZR_le in Hc. rewrite plus_IZR, <- INR_IZR_INZ in Hc.
  assert (Hi0 : 0 <= INR i) by apply pos_INR.
  set (t := INR i + 0.5). set (c := IZR count) in *. unfold s_len.
  set (len := s_end seg - s_start seg).
  assert (Hlen' : 0 < len) by (unfold len; lra).
  assert (Hfrac : 0 < t / c < 1).
  { split.
    - apply Rdiv_lt_0_compat; unfold t; lra.
    - apply (Rmult_lt_reg_r c); [lra|]. unfold t, Rdiv.
      rewrite Rmult_assoc, Rinv_l by lra. lra. }
  replace (len / c * t) with (len * (t / c)) by (unfold Rdiv; ring).
  assert (0 < len * (t / c)) by (apply Rmult_lt_0_compat; lra).
  assert (len * (t / c) < len * 1) by (apply Rmult_lt_compat_l; lra).
  unfold len in *. lra.
Qed.

Lemma angles_members (segments : list Segment) (counts : list Z) (a : R) :
  a ∈ concat (zip_with segmentAngles segments counts) →
  ∃ seg count, seg ∈ segments ∧ a ∈ segmentAngles seg count.
Proof.
  revert counts. induction segments as [|seg segments IH]; intros [|c counts] Ha;
    simpl in Ha; try (by apply elem_of_nil in Ha).
  apply elem_of_app in Ha as [Ha|Ha].
  - exists seg, c. split; [left|done].
  - destruct (IH counts Ha) as (seg' & c' & Hseg & Hin).
    exists seg', c'. split; [by right|done].
Qed.

Lemma angles_length (segments : list Segment) (counts : list Z) :
  length counts = length segments → Forall (λ c, (0 <= c)%Z) counts →
  length (concat (zip_with segmentAngles segments counts))
  = Z.to_nat (countSum counts).
Proof.
  revert counts. induction segments as [|seg segments IH]; intros [|c counts] Hlen Hpos;
    try done.
  apply Forall_cons in Hpos as [Hc Hpos]. simpl in Hlen.
  simpl. rewrite length_app, IH by (done || lia).
  unfold segmentAngles. rewrite length_fmap, length_seq, countSum_cons.
  pose proof (countSum_nonneg counts Hpos). lia.
Qed.

Lemma zip_covers {A B} (l : list A) (k : list B) (x : A) :
  (length l ≤ length k)%nat → x ∈ l → ∃ y, (x, y) ∈ zip l k.
Proof.
  revert k. induction l as [|a l IH]; intros [|b k] Hlen Hx; simpl in *;
    try (by apply elem_of_nil in Hx); try lia.
  apply elem_of_cons in Hx as [-> |Hx].
  - exists b. left.
  - destruct (IH k ltac:(lia) Hx) as [y Hy]. exists y. by right.
Qed.

(** What a run of writes, one per pair, leaves under a key: the value of
    one of the pairs with that key, or the old value when there is none. *)
Lemma foldl_zip_insert {A B} (key : A → string) (val : B → Pos)
    (l : list (A * B)) (t : Targets) (i : string) :
  ((∀ s a, (s, a) ∈ l → key s ≠ i)
   ∧ foldl (λ t '(s, a), <[key s := val a]> t) t l !! i = t !! i)
  ∨ (∃ s a, (s, a) ∈ l ∧ key s = i
      ∧ foldl (λ t '(s, a), <[key s := val a]> t) t l !! i = Some (val a)).
Proof.
  revert t. induction l as [|[s a] l IH]; intros t.
  - left. split; [|done]. intros s a Hin. by apply elem_of_nil in Hin.
  - simpl. destruct (IH (<[key s := val a]> t)) as [[Hnone Hsame]|(s' & a' & Hin & Hk & Hv)].
    + destruct (decide (key s = i)) as [Hk|Hk].
      * right. exists s, a. split; [left|]. split; [done|].
        rewrite Hsame, Hk. apply lookup_insert_eq.
      * left. split.
        -- intros s' a' Hin. apply elem_of_cons in Hin as [[= -> ->]|Hin]; eauto.
        -- rewrite Hsame. by apply lookup_insert_ne.
    + right. exists s', a'. split; [by right|done].
Qed.

Lemma layoutSatellites_spec pos ring targets info :
  let model := i_node info in
  let center := default (mkPos (n_x model) (n_y model)) (pos !! n_id model) in
  let r := default 0 (ring !! n_id model) in
  let segments := freeSegments (avoidAngles pos center (i_satellites info)) in
  ∃ targets',
    layoutSatellites pos ring targets info = Computed targets'
    ∧ (∀ s, s ∈ i_satellites info → orbital s = true →
       ∃ seg φ, seg ∈ segments ∧ s_start seg < φ < s_end seg
         ∧ targets' !! n_id (sat_node s)
           = Some (mkPos (px center + r * cos φ) (py center + r * sin φ)))
    ∧ (∀ i, (∀ s, s ∈ i_satellites info → orbital s = true →
               n_id (sat_node s) ≠ i) →
       targets' !! i = targets !! i).
Proof.
  intros model center r segments. unfold layoutSatellites.
  fold model. fold center. fold r. fold segments.
  set (orbitals := filter (λ s, orbital s = true) (i_satellites info)).
  assert (Horb : ∀ s, s ∈ orbitals ↔ orbital s = true ∧ s ∈ i_satellites info)
    by (intros s; unfold orbitals; by rewrite list_elem_of_filter).
  destruct orbitals as [|s0 rest] eqn:Heq.
  - exists targets. split; [done|]. split; [|done].
    intros s Hs Ho. exfalso. eapply elem_of_nil, Horb. eauto.
  - rewrite <- Heq in *. clear Heq s0 rest.
    set (sorted := JS.sortBy _ orbitals).
    assert (Hsorted : ∀ s, s ∈ sorted ↔ s ∈ orbitals) by (intros s; apply elem_of_sortBy).
    destruct (segCounts_spec segments (length sorted))
      as (counts & -> & Hlen & Hpos & Hsum & _); [apply freeSegments_nonempty|].
    cbn [fuelled mbind Outcome_bind].
    set (angles := concat (zip_with segmentAngles segments counts)).
    assert (Hangles : length angles = length sorted).
    { unfold angles. rewrite angles_length, Hsum by done. lia. }
    eexists. split; [reflexivity|]. split.
    + intros s Hs Ho.
      assert (Hin : s ∈ sorted) by (apply Hsorted, Horb; eauto).
      destruct (zip_covers sorted angles s ltac:(lia) Hin) as [a Ha].
      destruct (foldl_zip_insert (λ s : Satellite, n_id (sat_node s))
                  (λ a, mkPos (px center + r * cos a) (py center + r * sin a))
                  (zip sorted angles) targets (n_id (sat_node s)))
        as [[Hnone _]|(s' & a' & Hin' & _ & Hv)].
      { exfalso. by apply (Hnone s a Ha). }
      apply elem_of_zip_r in Hin'.
      apply angles_members in Hin' as (seg & c & Hseg & Hin').
      apply segmentAngles_members in Hin' as (φ & Hφ & ->);
        [|by eapply freeSegments_positive].
      exists seg, φ. split_and!; [done|lra|lra|].
      rewrite Hv. destruct (normalizeAngle_cos_sin φ) as [-> ->]. done.
    + intros i Hi.
      destruct (foldl_zip_insert (λ s : Satellite, n_id (sat_node s))
                  (λ a, mkPos (px center + r * cos a) (py center + r * sin a))
                  (zip sorted angles) targets i)
        as [[_ Hsame]|(s' & a' & Hin' & Hk & _)]; [done|].
      exfalso. apply elem_of_zip_l in Hin'. apply Hsorted, Horb in Hin' as [Ho Hs].
      by apply (Hi s' Hs Ho).
Qed.

(** X9: in step 5 of arrange every orbital satellite of an entity (an
    attribute, or a relationship with no other entity) gets a target on
    the ring of the entity, at the ring radius from the entity's centre,
    in a direction strictly inside one of the free segments; the step is
    always computed, and it changes no target but those of the orbital
    satellites of the entity. *)
Theorem satellites_on_ring pos ring targets info :
  let model := i_node info in
  let center := default (mkPos (n_x model) (n_y model)) (pos !! n_id model) in
  let r := default 0 (ring !! n_id model) in
  let segments := freeSegments (avoidAngles pos center (i_satellites info)) in
  ∃ targets',
    layoutSatellites pos ring targets info = Computed targets'
    ∧ (∀ s, s ∈ i_satellites info → orbital s = true →
       ∃ seg φ, seg ∈ segments ∧ s_start seg < φ < s_end seg
         ∧ targets' !! n_id (sat_node s)
           = Some (mkPos (px center + r * cos φ) (py center + r * sin φ)))
    ∧ (∀ i, (∀ s, s ∈ i_satellites info → orbital s = true →
               n_id (sat_node s) ≠ i) →
       targets' !! i = targets !! i).
Proof. apply layoutSatellites_spec. Qed.

(** X10: the free segments of a ring.  There is always at least one, and
    each has positive length.  With no direction to avoid, or when no two
    consecutive avoided directions are more than the gap angle apart, the
    whole circle is free.  Otherwise every point of a free segment is at
    least half the gap angle (0.175) away from every avoided direction,
    whole turns included. *)
Theorem free_segments_keep_clear pos center sats :
  let avoid := avoidAngles pos center sats in
  freeSegments avoid ≠ []
  ∧ (∀ seg, seg ∈ freeSegments avoid → s_start seg < s_end seg)
  ∧ (avoid = [] ∨ gapsBetween (JS.sortBy JS.numLeb avoid) = [] →
     freeSegments avoid = [fullCircle])
  ∧ (avoid ≠ [] → gapsBetween (JS.sortBy JS.numLeb avoid) ≠ [] →
     ∀ seg a φ k, seg ∈ freeSegments avoid → a ∈ avoid →
       s_start seg <= φ <= s_end seg →
       0.175 <= Rabs (φ - (a + 2 * IZR k * PI))).
Proof.
  intros avoid. split_and!.
  - apply freeSegments_nonempty.
  - apply freeSegments_positive.
  - apply freeSegments_cases.
  - intros Hne Hgaps seg a φ k Hseg Ha Hφ.
    destruct (freeSegments_cases avoid) as [_ Heq]. rewrite Heq in Hseg by done.
    replace 0.175 with halfGap by (unfold halfGap, gapAngle; lra).
    eapply gapsBetween_clear; [|done..]. apply avoidAngles_range.
Qed.

End SatellitesOnRing.

(** ** Force-align: the main chain lies on a horizontal line *)

Section ChainPlaced.
Import ForceAlign.
Local Open Scope R_scope.

(** The position [placeMainPath] gives to the [k]-th id of the chain. *)
Lemma placeMainPath_lookup nm chainSpacing mainPath sideHint k i :
  NoDup mainPath → mainPath !! k = Some i →
  (placeMainPath nm chainSpacing mainPath sideHint).1 !! i
  = Some (mkPos (- ((INR (length mainPath) - 1) * chainSpacing) / 2
                 + INR k * chainSpacing) 0).
Proof.
  unfold placeMainPath. cbv zeta.
  generalize (- ((INR (length mainPath) - 1) * chainSpacing) / 2) as startX.
  intros startX. revert k i.
  induction mainPath as [|x l IH] using rev_ind; intros k i Hnd Hk; [done|].
  rewrite imap_app, foldl_app. cbn [imap foldl].
  apply NoDup_app in Hnd as (Hnd & Hfresh & _).
  match goal with
  | |- context [foldl ?f (∅, ?h0) ?l0] =>
      specialize (IH k i Hnd); destruct (foldl f (∅, h0) l0) as [t h]
  end.
  cbn [fst] in *.
  destruct (decide (k < length l)%nat) as [Hlt|Hge].
  - rewrite lookup_app_l in Hk by done.
    rewrite lookup_insert_ne; [by apply IH|].
    intros ->. apply (Hfresh i); [by eapply list_elem_of_lookup_2|left].
  - rewrite lookup_app_r in Hk by lia.
    destruct (k - length l)%nat as [|?] eqn:Hsub; [|done].
    injection Hk as ->. rewrite lookup_insert_eq.
    replace (length l + 0)%nat with k by lia. done.
Qed.

(** The loop over the entities behind a relationship writes only where
    there is no target yet. *)
Lemma placeOthers_subseteq nm adj eid entityPos entityRadius st rid :
  p_targets st ⊆ p_targets (placeOthers nm adj eid entityPos entityRadius st rid).
Proof.
  unfold placeOthers. destruct (p_targets st !! rid) as [relPos|]; [|done].
  apply (foldl_invariant (λ st' : Placement, p_targets st ⊆ p_targets st')); [done|].
  intros st' otherId _ Hsub.
  destruct (p_targets st' !! otherId) as [p|] eqn:Hother; [done|].
  cbn [p_targets]. etransitivity; [exact Hsub|]. by apply insert_subseteq.
Qed.

Lemma placeRelComponent_subseteq nm eid entityPos entityRadius preferredSign
    unplacedInfo anchorAngles anchorSigns st comp (t0 : Targets) :
  t0 ⊆ st.1.1 → (∀ x, x ∈ comp → t0 !! x = None) →
  t0 ⊆ (placeRelComponent nm eid entityPos entityRadius preferredSign
          unplacedInfo anchorAngles anchorSigns st comp).1.1.
Proof.
  destruct st as [[targets sideHint] nextAltSign]. cbn [fst].
  intros Hsub Hnone. unfold placeRelComponent.
  match goal with
  | |- context [if ?c then (_, Z.opp _) else _] => destruct c
  end.
  all: match goal with
       | |- context [foldl ?f (?t, ?h) ?l] =>
           pose proof (foldl_invariant (λ s : Targets * SideHint, t0 ⊆ s.1)
                         f l (t, h) Hsub) as Hinv;
           destruct (foldl f (t, h) l) as [targets' sideHint']
       end.
  all: cbn [fst]; apply Hinv.
  all: intros [t h] [idx rid] Hin Ht; cbn [fst] in *.
  all: apply insert_subseteq_r; [|done].
  all: apply Hnone; apply (list_elem_of_fmap_2 snd) in Hin;
       rewrite imap_pair_snd in Hin; by apply elem_of_sortBy in Hin.
Qed.

(** One iteration of the queue loop keeps every target it finds. *)
Lemma placeAround_subseteq nm adj eid st st' :
  placeAround nm adj eid st = Computed st' → p_targets st ⊆ p_targets st'.
Proof.
  unfold placeAround.
  destruct (nm !! eid) as [entityNode|]; [|by intros [= <-]].
  destruct (p_targets st !! eid) as [entityPos|] eqn:Hpos; [|by intros [= <-]].
  destruct (relNeighborsOf nm adj eid) as [|r rels] eqn:Hrel; [by intros [= <-]|].
  lazy beta iota zeta. rewrite <- Hrel.
  set (relNeighbors := relNeighborsOf nm adj eid).
  set (unplacedRels := filter (λ rid, p_targets st !! rid = None) relNeighbors).
  set (unplacedInfo := (λ rid, (rid, otherEntities nm adj eid rid)) <$> unplacedRels).
  set (links := relAdj adj unplacedInfo).
  destruct (components_fuelFor links unplacedRels ∅) as [relComponents Hcomps].
  rewrite Hcomps. cbn [fuelled mbind Outcome_bind].
  apply components_spec in Hcomps as (_ & _ & _ & _ & _ & Horigin).
  assert (Hinfo : unplacedInfo.*1 = unplacedRels).
  { subst unplacedInfo. rewrite <- list_fmap_compose. apply list_fmap_id. }
  assert (Hmember : ∀ comp x, comp ∈ relComponents → x ∈ comp →
            p_targets st !! x = None).
  { intros comp x Hc Hx.
    assert (Hun : x ∈ unplacedRels).
    { destruct (Horigin comp x Hc Hx) as [?|(y & _ & Hy)]; [done|].
      rewrite <- Hinfo. by eapply relAdj_values. }
    subst unplacedRels. by apply list_elem_of_filter in Hun as [Hun _]. }
  match goal with
  | |- context [foldl ?f (p_targets st, p_sideHint st, ?z) relComponents] =>
      pose proof (foldl_invariant
                    (λ s : Targets * SideHint * Z, p_targets st ⊆ s.1.1)
                    f relComponents (p_targets st, p_sideHint st, z)) as Hw;
      destruct (foldl f (p_targets st, p_sideHint st, z) relComponents)
        as [[targets sideHint] z']
  end.
  cbn [fst] in Hw.
  assert (Hsub : p_targets st ⊆ targets).
  { apply Hw; [done|]. intros s comp Hc Hs.
    apply placeRelComponent_subseteq; [done|]. intros x Hx. by eapply Hmember. }
  intros [= <-]. etransitivity; [exact Hsub|].
  apply (foldl_invariant
           (λ s : Placement, targets ⊆ p_targets s)); [done|].
  intros s rid _ Hs. etransitivity; [exact Hs|]. apply placeOthers_subseteq.
Qed.

Lemma placeLoop_subseteq fuel nm adj st st' :
  placeLoop fuel nm adj st = Computed st' → p_targets st ⊆ p_targets st'.
Proof.
  revert st. induction fuel as [|fuel IH]; intros st; simpl.
  - destruct (p_queue st); [by intros [= <-]|done].
  - destruct (p_queue st) as [|eid rest]; [by intros [= <-]|].
    destruct (placeAround nm adj eid _) as [st1| | |] eqn:Hstep; try done.
    cbn [mbind Outcome_bind]. intros Hrun.
    apply placeAround_subseteq in Hstep. cbn [p_targets] in Hstep.
    etransitivity; [exact Hstep|]. by apply IH.
Qed.

Definition chainSpacing (nm : gmap string Node) (ids : list string) : R :=
  Rmax 200 (JS.maxOf 0 (radiusOf nm <$> ids) * 2 + 40).

(** In the layout of a component the main chain is where [placeMainPath]
    put it. *)
Lemma layoutComponent_mainPath nm adj sideHint ids layout sideHint' mainPath k i :
  layoutComponent nm adj sideHint ids = Computed (layout, sideHint') →
  findLongestPath adj ids = Some mainPath →
  NoDup mainPath → mainPath !! k = Some i →
  l_targets layout !! i
  = Some (mkPos (- ((INR (length mainPath) - 1) * chainSpacing nm ids) / 2
                 + INR k * chainSpacing nm ids) 0).
Proof.
  intros Hrun Hpath Hnd Hk.
  pose proof (placeMainPath_lookup nm (chainSpacing nm ids) mainPath sideHint k i Hnd Hk)
    as Hplaced.
  unfold layoutComponent, startPlacement in Hrun. rewrite Hpath in Hrun.
  cbn [fuelled mbind Outcome_bind] in Hrun. fold (chainSpacing nm ids) in Hrun.
  destruct (placeMainPath nm (chainSpacing nm ids) mainPath sideHint)
    as [targets0 sideHint0].
  cbn [fst] in Hplaced.
  match type of Hrun with
  | context [foldl ?f (Computed ?s) ?l] =>
      destruct (foldl f (Computed s) l) as [[[bv alt] sideHint1]| | |]; try done
  end.
  cbn [mbind Outcome_bind] in Hrun.
  match type of Hrun with
  | context [placeLoop ?fuel nm adj ?st0] =>
      destruct (placeLoop fuel nm adj st0) as [placed| | |] eqn:Hloop; try done
  end.
  cbn [mbind Outcome_bind] in Hrun. injection Hrun as <- _.
  apply placeLoop_subseteq in Hloop. cbn [p_targets] in Hloop.
  cbn [l_targets].
  match goal with
  | |- foldl ?f (p_targets placed) ids !! i = _ =>
      assert (Hfill : p_targets placed ⊆ foldl f (p_targets placed) ids)
  end.
  { apply (foldl_invariant (λ t : Targets, p_targets placed ⊆ t)); [done|].
    intros t x _ Ht. destruct (t !! x) eqn:Hx; [done|].
    etransitivity; [exact Ht|]. by apply insert_subseteq. }
  eapply lookup_weaken; [|exact Hfill]. eapply lookup_weaken; [|exact Hloop]. done.
Qed.

End ChainPlaced.

Section ChainTiled.
Import ForceAlign.
Local Open Scope R_scope.

Lemma map_fold_write (f : Pos → Pos) (b m : Targets) (x : string) :
  map_fold (λ i p t, <[i := f p]> t) b m !! x
  = match m !! x with Some p => Some (f p) | None => b !! x end.
Proof.
  apply (map_fold_weak_ind
           (λ (r : Targets) (m' : Targets),
              r !! x = match m' !! x with Some p => Some (f p) | None => b !! x end)).
  - by rewrite lookup_empty.
  - intros i p m' r _ IH. destruct (decide (i = x)) as [->|Hne].
    + by rewrite !lookup_insert_eq.
    + by rewrite !lookup_insert_ne.
Qed.

(** Tiling one layout moves all its targets by one offset and leaves the
    other targets alone. *)
Lemma tile_lookup w st layout :
  ∃ ox oy, ∀ x,
    t_globalTargets (tile w st layout) !! x
    = match l_targets layout !! x with
      | Some p => Some (mkPos (px p + ox) (py p + oy))
      | None => t_globalTargets st !! x
      end.
Proof.
  unfold tile. cbn [t_globalTargets]. eexists _, _. intros x.
  apply (map_fold_write (λ p, mkPos (px p + _) (py p + _))).
Qed.

Lemma tiles_keep w layouts st (x : string) :
  (∀ layout, layout ∈ layouts → l_targets layout !! x = None) →
  t_globalTargets (foldl (tile w) st layouts) !! x = t_globalTargets st !! x.
Proof.
  revert st. induction layouts as [|layout layouts IH]; intros st Hnone; [done|].
  simpl. rewrite IH by (intros l Hl; apply Hnone; by right).
  destruct (tile_lookup w st layout) as (ox & oy & ->).
  by rewrite Hnone by left.
Qed.

Lemma tiles_lookup w layouts st j layout :
  layouts !! j = Some layout →
  (∀ j' layout' x, layouts !! j' = Some layout' → j' ≠ j →
     is_Some (l_targets layout !! x) → l_targets layout' !! x = None) →
  ∃ ox oy, ∀ x p, l_targets layout !! x = Some p →
    t_globalTargets (foldl (tile w) st layouts) !! x
    = Some (mkPos (px p + ox) (py p + oy)).
Proof.
  revert st j. induction layouts as [|layout0 layouts IH]; intros st j Hj Hdisj; [done|].
  destruct j as [|j]; simpl in *.
  - injection Hj as ->. destruct (tile_lookup w st layout) as (ox & oy & Hl).
    exists ox, oy. intros x p Hp. rewrite tiles_keep.
    + by rewrite Hl, Hp.
    + intros layout' Hin. apply list_elem_of_lookup in Hin as [j' Hj'].
      apply (Hdisj (S j') layout' x); [done|lia|eauto].
  - apply (IH (tile w st layout0) j Hj).
    intros j' layout' x Hj' Hne. apply (Hdisj (S j') layout' x); [done|lia].
Qed.

Lemma NoDup_concat_disjoint {A} (ls : list (list A)) (j j' : nat) (l l' : list A) x :
  NoDup (concat ls) → ls !! j = Some l → ls !! j' = Some l' → j ≠ j' →
  x ∈ l → x ∉ l'.
Proof.
  revert j j'. induction ls as [|l0 ls IH]; intros j j' Hnd Hj Hj' Hne Hx Hx'; [done|].
  rewrite concat_cons in Hnd. apply NoDup_app in Hnd as (_ & Hdisj & Hnd).
  destruct j as [|j], j' as [|j']; simpl in *; [done| | |].
  - injection Hj as ->. apply (Hdisj x Hx).
    apply elem_of_concat. exists l'. split; [by eapply list_elem_of_lookup_2|done].
  - injection Hj' as ->. apply (Hdisj x Hx').
    apply elem_of_concat. exists l. split; [by eapply list_elem_of_lookup_2|done].
  - apply (IH j j' Hnd Hj Hj' ltac:(lia) Hx Hx').
Qed.

(** Each layout of [layoutAll] is the layout of its component. *)
Lemma layoutAll_lookup nm adj sideHint comps layouts sideHint' j ids :
  layoutAll nm adj sideHint comps = Computed (layouts, sideHint') →
  comps !! j = Some ids →
  ∃ layout sh1 sh2,
    layouts !! j = Some layout
    ∧ layoutComponent nm adj sh1 ids = Computed (layout, sh2).
Proof.
  revert sideHint layouts j.
  induction comps as [|ids0 comps IH]; intros sideHint layouts j Hrun Hj; [done|].
  simpl in Hrun.
  destruct (layoutComponent nm adj sideHint ids0) as [[layout0 sh0]| | |] eqn:Hfirst;
    try done.
  cbn [mbind Outcome_bind] in Hrun.
  destruct (layoutAll nm adj sh0 comps) as [[layouts0 sh1]| | |] eqn:Hrest; try done.
  cbn [mbind Outcome_bind] in Hrun. injection Hrun as <- <-.
  destruct j as [|j]; simpl in Hj.
  - injection Hj as <-. exists layout0, sideHint, sh0. by split.
  - destruct (IH sh0 layouts0 j Hrest Hj) as (layout & sh2 & sh3 & Hl & Hrun').
    exists layout, sh2, sh3. by split.
Qed.

(** After the tiling the main chain of a component lies on a horizontal
    line, evenly spaced. *)
Lemma tiledLayout_mainPath (g : Graph) (w : R) (tiled : Tiling)
    (sideHint : SideHint) comps ids mainPath :
  let nm := nodeMap (getNodes g) in
  let adj := coreAdj nm (getEdges g) in
  tiledLayout g w = Computed (tiled, sideHint) →
  components (getNodes g) (getEdges g) = Some comps →
  ids ∈ comps →
  findLongestPath adj ids = Some mainPath →
  ∃ x0 y0, ∀ k i, mainPath !! k = Some i →
    t_globalTargets tiled !! i
    = Some (mkPos (x0 + INR k * chainSpacing nm ids) y0).
Proof.
  intros nm adj Hrun Hcomps Hids Hpath. subst nm adj.
  destruct (forceAlign_components_spec (getNodes g) (getEdges g))
    as (comps' & Hcomps' & (Hnd & _ & Hne) & _).
  rewrite Hcomps in Hcomps'. injection Hcomps' as <-.
  assert (Hids' : ids ≠ []) by (rewrite Forall_forall in Hne; by apply Hne).
  destruct (findLongestPath_spec (coreAdj (nodeMap (getNodes g)) (getEdges g))
              ids Hids')
    as (path & _ & _ & _ & _ & Hpath' & (_ & Hndp & _) & _).
  rewrite Hpath in Hpath'. injection Hpath' as <-.
  unfold tiledLayout in Hrun.
  destruct (getNodes g) as [|n0 nodes] eqn:Hnodes; [done|].
  destruct (coreNodes (n0 :: nodes)) as [|c0 cores] eqn:Hcores; [done|].
  rewrite <- Hnodes in *. cbv zeta in Hrun.
  set (nm := nodeMap (getNodes g)) in *. set (adj := coreAdj nm (getEdges g)) in *.
  destruct (decide (size adj = 0%nat)) as [?|_]; [done|].
  rewrite Hcomps in Hrun. cbn [fuelled mbind Outcome_bind] in Hrun.
  destruct (layoutAll nm adj ∅ comps) as [[layouts sh]| | |] eqn:Hall; try done.
  cbn [mbind Outcome_bind] in Hrun. injection Hrun as <- <-.
  destruct (layoutAll_ensures nm adj ∅ comps) as (r & Hall' & Hlayouts).
  { apply Forall_forall. intros ids0 Hids0.
    by eapply forceAlign_component_closed. }
  rewrite Hall in Hall'. injection Hall' as <-. cbn [fst] in Hlayouts.
  apply list_elem_of_lookup in Hids as [j Hj].
  destruct (layoutAll_lookup nm adj ∅ comps layouts sh j ids Hall Hj)
    as (layout & sh1 & sh2 & Hl & Hone).
  destruct (tiles_lookup w layouts (mkTiling ∅ componentGap componentGap 0 ∅) j layout Hl)
    as (ox & oy & Htiled).
  { intros j' layout' x Hj' Hjj Hx.
    destruct (Forall2_lookup_r _ _ _ _ _ Hlayouts Hj') as (ids' & Hids'' & Hof' & _).
    destruct (Forall2_lookup_r _ _ _ _ _ Hlayouts Hl) as (ids'' & Hids3 & Hof & _).
    rewrite Hj in Hids3. injection Hids3 as <-.
    apply eq_None_not_Some. intros Hx'. apply Hof' in Hx'. apply Hof in Hx.
    by apply (NoDup_concat_disjoint comps j j' ids ids' x). }
  exists (- ((INR (length mainPath) - 1) * chainSpacing nm ids) / 2 + ox), (0 + oy).
  intros k i Hk. unfold tileAll.
  rewrite (Htiled i _ (layoutComponent_mainPath nm adj sh1 ids layout sh2 mainPath
                         k i Hone Hpath Hndp Hk)).
  cbn [px py]. f_equal. f_equal. lra.
Qed.

Lemma chainSpacing_bounds nm ids :
  200 <= chainSpacing nm ids
  ∧ ∀ i, i ∈ ids → 2 * radiusOf nm i + 40 <= chainSpacing nm ids.
Proof.
  unfold chainSpacing. split; [apply Rmax_l|].
  intros i Hi.
  assert (radiusOf nm i <= JS.maxOf 0 (radiusOf nm <$> ids))
    by (apply maxOf_ub; by apply list_elem_of_fmap_2).
  pose proof (Rmax_r 200 (JS.maxOf 0 (radiusOf nm <$> ids) * 2 + 40)). lra.
Qed.

Lemma forceAlign_mainPath (g : Graph) (w : R) (final : Targets)
    comps ids mainPath :
  let nm := nodeMap (getNodes g) in
  let adj := coreAdj nm (getEdges g) in
  forceAlignLayout g w = Computed final →
  components (getNodes g) (getEdges g) = Some comps →
  ids ∈ comps →
  findLongestPath adj ids = Some mainPath →
  200 <= chainSpacing nm ids
  ∧ (∀ i, i ∈ ids → 2 * radiusOf nm i + 40 <= chainSpacing nm ids)
  ∧ ∃ x0 y0, ∀ k i, mainPath !! k = Some i →
      final !! i = Some (mkPos (x0 + INR k * chainSpacing nm ids) y0).
Proof.
  intros nm adj Hrun Hcomps Hids Hpath.
  split; [apply chainSpacing_bounds|]. split; [apply chainSpacing_bounds|].
  unfold forceAlignLayout in Hrun.
  destruct (tiledLayout g w) as [[tiled sideHint]| | |] eqn:Htiled; try done.
  cbn [mbind Outcome_bind] in Hrun.
  destruct (tiledLayout_mainPath g w tiled sideHint comps ids mainPath
              Htiled Hcomps Hids Hpath) as (x0 & y0 & Hline).
  pose proof (tiledLayout_Tiled g w tiled sideHint Htiled) as (_ & _ & _ & _ & Hchain).
  destruct (finish_ensures (getNodes g) nm adj (t_mainChainIds tiled)
              (t_globalTargets tiled) sideHint) as (final' & Hfinish & _ & Hfixed).
  fold nm in Hrun. fold adj in Hrun. rewrite Hfinish in Hrun. injection Hrun as <-.
  exists x0, y0. intros k i Hk. apply Hfixed; [|by apply Hline].
  eapply Hchain; [done..|]. by eapply list_elem_of_lookup_2.
Qed.

(** X11: in the result of force-align the main chain of every component
    lies on one horizontal line, in path order from left to right, with
    the same distance between consecutive nodes.  That distance is at
    least 200 and at least the diameter of any node of the component
    plus 40. *)
Theorem mainChain_on_a_line (g : Graph) (containerWidth : R) (final : Targets)
    (comps : list (list string)) (ids mainPath : list string) :
  let nm := nodeMap (getNodes g) in
  let adj := coreAdj nm (getEdges g) in
  forceAlignLayout g containerWidth = Computed final →
  components (getNodes g) (getEdges g) = Some comps →
  ids ∈ comps →
  findLongestPath adj ids = Some mainPath →
  200 <= chainSpacing nm ids
  ∧ (∀ i, i ∈ ids → 2 * radiusOf nm i + 40 <= chainSpacing nm ids)
  ∧ ∃ x0 y0, ∀ k i, mainPath !! k = Some i →
      final !! i = Some (mkPos (x0 + INR k * chainSpacing nm ids) y0).
Proof. apply forceAlign_mainPath. Qed.

Lemma mainChain_on_a_line_witness :
  ∃ final x0 y0,
    forceAlignLayout twoKeysGraph 1200 = Computed final
    ∧ final !! "entity-b-1"
      = Some (mkPos (x0 + INR 0 * chainSpacing (nodeMap tablesTwoKeys) compTwoKeys) y0)
    ∧ final !! "rel-a-b-x-0"
      = Some (mkPos (x0 + INR 1 * chainSpacing (nodeMap tablesTwoKeys) compTwoKeys) y0)
    ∧ final !! "entity-a-0"
      = Some (mkPos (x0 + INR 2 * chainSpacing (nodeMap tablesTwoKeys) compTwoKeys) y0).
Proof.
  destruct twoKeys_tiled as ([tiled sideHint] & Hrun & _).
  destruct (finish_ensures tablesTwoKeys (nodeMap tablesTwoKeys) adjTwoKeys
              (t_mainChainIds tiled) (t_globalTargets tiled) sideHint)
    as (final & Hfinish & _).
  assert (Hfinal : forceAlignLayout twoKeysGraph 1200 = Computed final).
  { unfold forceAlignLayout. rewrite Hrun. exact Hfinish. }
  destruct (mainChain_on_a_line twoKeysGraph 1200 final [compTwoKeys] compTwoKeys
              ["entity-b-1"; "rel-a-b-x-0"; "entity-a-0"] Hfinal)
    as (_ & _ & x0 & y0 & Hline).
  - vm_compute. reflexivity.
  - left.
  - vm_compute. reflexivity.
  - exists final, x0, y0. split; [done|].
    split_and!; apply Hline; reflexivity.
Defined.

End ChainTiled.

(** ** Force-align: the angles of [computeExtraAngles] *)

Section ArcFacts.
Import ForceAlign.
Local Open Scope R_scope.

(** Sum of the [extras] of a list of arcs. *)
Definition extrasSum (arcs : list Arc) : Z := countSum (a_extras <$> arcs).

(** Start and length of every arc. *)
Definition shape (arcs : list Arc) : list (R * R) :=
  (λ arc, (a_start arc, a_length arc)) <$> arcs.

Definition bump (arc : Arc) : Arc :=
  mkArc (a_start arc) (a_length arc) (a_extras arc + 1) (a_fraction arc).

Lemma extrasSum_cons (arc : Arc) (l : list Arc) :
  extrasSum (arc :: l) = (a_extras arc + extrasSum l)%Z.
Proof. unfold extrasSum. rewrite fmap_cons. apply countSum_cons. Qed.

Lemma extrasSum_perm (l l' : list Arc) : l ≡ₚ l' → extrasSum l = extrasSum l'.
Proof.
  induction 1 as [|x l l' _ IH|x y l|l l' l'' _ IH1 _ IH2].
  - done.
  - rewrite !extrasSum_cons. lia.
  - rewrite !extrasSum_cons. lia.
  - congruence.
Qed.

Lemma extrasSum_bump (i : nat) (l : list Arc) :
  (i < length l)%nat → extrasSum (alter bump i l) = (extrasSum l + 1)%Z.
Proof.
  revert i. induction l as [|arc l IH]; intros [|i] Hi; simpl in Hi; try lia.
  - change (alter bump 0%nat (arc :: l)) with (bump arc :: l).
    rewrite !extrasSum_cons. simpl. lia.
  - change (alter bump (S i) (arc :: l)) with (arc :: alter bump i l).
    rewrite !extrasSum_cons, IH by lia. lia.
Qed.

Lemma shape_bump (i : nat) (l : list Arc) : shape (alter bump i l) = shape l.
Proof.
  revert i. induction l as [|arc l IH]; intros [|i]; try done.
  change (alter bump (S i) (arc :: l)) with (arc :: alter bump i l).
  unfold shape in *. by rewrite !fmap_cons, IH.
Qed.

(** The loop [for (i = 0; i < remaining; i++) arcs[i % arcs.length].extras += 1]. *)
Definition bumpAll (arcs : list Arc) (from count : nat) : list Arc :=
  foldl (λ arcs i, alter bump (i mod length arcs) arcs) arcs (seq from count).

Lemma bumpAll_spec (arcs : list Arc) (from count : nat) :
  arcs ≠ [] →
  extrasSum (bumpAll arcs from count) = (extrasSum arcs + Z.of_nat count)%Z
  ∧ shape (bumpAll arcs from count) = shape arcs
  ∧ (Forall (λ arc, (0 <= a_extras arc)%Z) arcs →
     Forall (λ arc, (0 <= a_extras arc)%Z) (bumpAll arcs from count)).
Proof.
  unfold bumpAll. revert arcs from.
  induction count as [|count IH]; intros arcs from Hne; simpl.
  - split_and!; [lia|done|done].
  - assert (Hlt : (from mod length arcs < length arcs)%nat).
    { apply Nat.mod_upper_bound. by destruct arcs. }
    destruct (IH (alter bump (from mod length arcs) arcs) (S from))
      as (Hsum & Hshape & Hpos).
    { intros Hnil. apply (f_equal length) in Hnil.
      rewrite length_alter in Hnil. by destruct arcs. }
    split_and!.
    + rewrite Hsum, extrasSum_bump by done. lia.
    + by rewrite Hshape, shape_bump.
    + intros Hall. apply Hpos.
      apply Forall_alter; [done|]. intros arc _ Harc. simpl in *. lia.
Qed.

(** The arcs after the floor of each share. *)
Definition floorShares (arcs : list Arc) (totalLen : R) (extraCount : nat)
    : list Arc :=
  (λ arc,
     let ideal := a_length arc / totalLen * INR extraCount in
     mkArc (a_start arc) (a_length arc) (JS.floor ideal)
           (ideal - IZR (JS.floor ideal)))
    <$> arcs.

Lemma sum_cons (x : R) (l : list R) : JS.sum (x :: l) = x + JS.sum l.
Proof. unfold JS.sum. simpl. rewrite foldl_Rplus_shift. lra. Qed.

Lemma floor_le (x : R) : IZR (JS.floor x) <= x.
Proof. unfold JS.floor. destruct (base_Int_part x). lra. Qed.

Lemma floor_nonneg (x : R) : 0 <= x → (0 <= JS.floor x)%Z.
Proof.
  intros Hx. unfold JS.floor. destruct (base_Int_part x) as [_ Hgt].
  apply le_IZR. 
  assert (-1 < IZR (Int_part x)) by lra.
  destruct (Z_le_gt_dec 0 (Int_part x)) as [Hle|Hlt]; [by apply IZR_le|].
  assert (Int_part x <= -1)%Z by lia.
  assert (IZR (Int_part x) <= -1) by (by apply (IZR_le _ (-1))). lra.
Qed.

Lemma floorShares_sum (arcs : list Arc) (totalLen : R) (extraCount : nat) :
  IZR (extrasSum (floorShares arcs totalLen extraCount))
  <= JS.sum (a_length <$> arcs) / totalLen * INR extraCount.
Proof.
  induction arcs as [|arc arcs IH].
  - unfold extrasSum, countSum, JS.sum. simpl. unfold Rdiv. lra.
  - unfold floorShares in *. rewrite !fmap_cons, extrasSum_cons, sum_cons, plus_IZR.
    cbn [a_extras].
    pose proof (floor_le (a_length arc / totalLen * INR extraCount)).
    unfold Rdiv in *. lra.
Qed.

Lemma floorShares_shape (arcs : list Arc) (totalLen : R) (extraCount : nat) :
  shape (floorShares arcs totalLen extraCount) = shape arcs.
Proof.
  unfold shape, floorShares. rewrite <- list_fmap_compose.
  by apply list_fmap_ext.
Qed.

Lemma distributeExtras_unfold (arcs : list Arc) (totalLen : R) (extraCount : nat) :
  distributeExtras arcs totalLen extraCount
  = JS.sortBy (λ a b, JS.numLeb (a_start a) (a_start b))
      (bumpAll
         (JS.sortBy (λ a b, JS.numLeb (a_fraction b) (a_fraction a))
            (floorShares arcs totalLen extraCount))
         0
         (Z.to_nat (Z.of_nat extraCount
                    - extrasSum (floorShares arcs totalLen extraCount)))).
Proof. reflexivity. Qed.

(** The arcs keep their starts and lengths. *)
Lemma distributeExtras_shape (arcs : list Arc) (totalLen : R) (extraCount : nat) :
  arcs ≠ [] →
  shape (distributeExtras arcs totalLen extraCount) ≡ₚ shape arcs.
Proof.
  intros Hne. rewrite distributeExtras_unfold. unfold shape at 1.
  rewrite sortBy_perm. fold (shape (bumpAll
    (JS.sortBy (λ a b, JS.numLeb (a_fraction b) (a_fraction a))
       (floorShares arcs totalLen extraCount)) 0
    (Z.to_nat (Z.of_nat extraCount - extrasSum (floorShares arcs totalLen extraCount))))).
  destruct (bumpAll_spec
              (JS.sortBy (λ a b, JS.numLeb (a_fraction b) (a_fraction a))
                 (floorShares arcs totalLen extraCount)) 0
              (Z.to_nat (Z.of_nat extraCount
                         - extrasSum (floorShares arcs totalLen extraCount))))
    as (_ & -> & _).
  - intros Hnil. apply (f_equal length) in Hnil.
    rewrite (Permutation_length (sortBy_perm _ _)) in Hnil.
    unfold floorShares in Hnil. rewrite length_fmap in Hnil. by destruct arcs.
  - unfold shape at 1. rewrite sortBy_perm.
    fold (shape (floorShares arcs totalLen extraCount)).
    by rewrite floorShares_shape.
Qed.

(** When the lengths add up to [totalLen], the extras add up to
    [extraCount]. *)
Lemma distributeExtras_sum (arcs : list Arc) (totalLen : R) (extraCount : nat) :
  arcs ≠ [] → JS.sum (a_length <$> arcs) = totalLen → totalLen ≠ 0 →
  extrasSum (distributeExtras arcs totalLen extraCount) = Z.of_nat extraCount.
Proof.
  intros Hne Hsum Htotal. rewrite distributeExtras_unfold.
  rewrite (extrasSum_perm _ _ (sortBy_perm _ _)).
  set (floored := floorShares arcs totalLen extraCount).
  assert (Hle : (extrasSum floored <= Z.of_nat extraCount)%Z).
  { apply le_IZR. rewrite <- INR_IZR_INZ.
    etransitivity; [apply floorShares_sum|]. rewrite Hsum.
    unfold Rdiv. rewrite Rinv_r by done. lra. }
  destruct (bumpAll_spec
              (JS.sortBy (λ a b, JS.numLeb (a_fraction b) (a_fraction a)) floored) 0
              (Z.to_nat (Z.of_nat extraCount - extrasSum floored)))
    as (-> & _ & _).
  - intros Hnil. apply (f_equal length) in Hnil.
    rewrite (Permutation_length (sortBy_perm _ _)) in Hnil.
    unfold floored, floorShares in Hnil. rewrite length_fmap in Hnil.
    by destruct arcs.
  - rewrite (extrasSum_perm _ _ (sortBy_perm _ _)). lia.
Qed.

Lemma distributeExtras_nonneg (arcs : list Arc) (totalLen : R) (extraCount : nat) :
  arcs ≠ [] → 0 < totalLen → Forall (λ arc, 0 <= a_length arc) arcs →
  Forall (λ arc, (0 <= a_extras arc)%Z) (distributeExtras arcs totalLen extraCount).
Proof.
  intros Hne Htotal Hlen. rewrite distributeExtras_unfold.
  rewrite sortBy_perm.
  apply bumpAll_spec.
  - intros Hnil. apply (f_equal length) in Hnil.
    rewrite (Permutation_length (sortBy_perm _ _)) in Hnil.
    unfold floorShares in Hnil. rewrite length_fmap in Hnil. by destruct arcs.
  - rewrite sortBy_perm. unfold floorShares. apply Forall_fmap.
    eapply Forall_impl; [exact Hlen|]. intros arc Harc. cbn [a_extras].
    apply floor_nonneg. apply Rmult_le_pos; [|apply pos_INR].
    apply Rmult_le_pos; [done|]. left. by apply Rinv_0_lt_compat.
Qed.

(** The number of angles. *)
Lemma anglesInArc_length (arc : Arc) :
  length (anglesInArc arc) = Z.to_nat (a_extras arc).
Proof. unfold anglesInArc. by rewrite length_fmap, length_seq. Qed.

Lemma angles_count_ge (arcs : list Arc) :
  (Z.to_nat (extrasSum arcs) ≤ length (concat (anglesInArc <$> arcs)))%nat.
Proof.
  induction arcs as [|arc arcs IH]; [done|].
  rewrite fmap_cons, concat_cons, length_app, anglesInArc_length, extrasSum_cons. lia.
Qed.

Lemma angles_count (arcs : list Arc) :
  Forall (λ arc, (0 <= a_extras arc)%Z) arcs →
  length (concat (anglesInArc <$> arcs)) = Z.to_nat (extrasSum arcs).
Proof.
  induction 1 as [|arc arcs Harc Hall IH]; [done|].
  rewrite fmap_cons, concat_cons, length_app, anglesInArc_length, extrasSum_cons, IH.
  assert (0 <= extrasSum arcs)%Z; [|lia].
  unfold extrasSum. apply countSum_nonneg. by apply Forall_fmap.
Qed.

Lemma last_cons_default {A} (points : list A) (q p : A) :
  List.last (q :: points) p = List.last points q.
Proof.
  revert q p. induction points as [|r points IH]; intros q p; [done|].
  change (List.last (q :: r :: points) p) with (List.last (r :: points) p).
  by rewrite (IH r p), (IH r q).
Qed.

(** The arcs between consecutive points: lengths telescope. *)
Lemma arcsBetween_sum (p : R) (points : list R) :
  JS.sum (a_length <$> arcsBetween (p :: points)) = List.last points p - p.
Proof.
  revert p. induction points as [|q points IH]; intros p.
  - unfold JS.sum; simpl. lra.
  - change (arcsBetween (p :: q :: points))
      with (mkArc p (q - p) 0 0 :: arcsBetween (q :: points)).
    rewrite fmap_cons, sum_cons, IH. cbn [a_length].
    rewrite (last_cons_default points q p). lra.
Qed.

Lemma arcsBetween_nonempty (p q : R) (points : list R) :
  arcsBetween (p :: q :: points) ≠ [].
Proof. done. Qed.

(** Inside sorted points the arcs have non-negative length and stay
    between the first and the last point. *)
Lemma arcsBetween_members (points : list R) (lo hi : R) (arc : Arc) :
  StronglySorted (λ x y, JS.numLeb x y = true) points →
  (∀ x, x ∈ points → lo <= x <= hi) →
  arc ∈ arcsBetween points →
  lo <= a_start arc ∧ 0 <= a_length arc ∧ a_start arc + a_length arc <= hi.
Proof.
  intros Hsorted. revert arc.
  induction Hsorted as [|p points Hs IH Hp]; intros arc Hin Harc.
  - by apply elem_of_nil in Harc.
  - destruct points as [|q points]; [by apply elem_of_nil in Harc|].
    change (arcsBetween (p :: q :: points))
      with (mkArc p (q - p) 0 0 :: arcsBetween (q :: points)) in Harc.
    apply elem_of_cons in Harc as [-> |Harc].
    + cbn [a_start a_length].
      apply Forall_cons in Hp as [Hpq _]. apply bool_decide_eq_true in Hpq.
      pose proof (Hin p ltac:(left)). pose proof (Hin q ltac:(right; left)). lra.
    + apply IH; [|done]. intros x Hx. apply Hin. by right.
Qed.

End ArcFacts.

Section ExtraAngles.
Import ForceAlign.
Local Open Scope R_scope.

Lemma anglesInArc_range (arc : Arc) (a : R) :
  a ∈ anglesInArc arc → 0 <= a < 2 * PI.
Proof.
  unfold anglesInArc. intros Ha. apply list_elem_of_fmap in Ha as (k & -> & _).
  apply normalizeAngle_range.
Qed.

(** The angles of an arc of positive length inside one turn lie strictly
    inside the arc. *)
Lemma anglesInArc_inside (arc : Arc) (a : R) :
  a ∈ anglesInArc arc → 0 < a_length arc → 0 <= a_start arc →
  a_start arc + a_length arc <= 2 * PI →
  a_start arc < a < a_start arc + a_length arc.
Proof.
  unfold anglesInArc. intros Ha Hlen Hlo Hhi.
  apply list_elem_of_fmap in Ha as (k & -> & Hk).
  apply elem_of_seq in Hk as [Hk1 Hk2].
  assert (Hke : (Z.of_nat k <= a_extras arc)%Z) by lia.
  apply IZR_le in Hke. rewrite <- INR_IZR_INZ in Hke.
  assert (Hk0 : 1 <= INR k) by (apply (le_INR 1); lia).
  set (e := IZR (a_extras arc)) in *.
  assert (Hratio : 0 < INR k / (e + 1) < 1).
  { split.
    - apply Rdiv_lt_0_compat; lra.
    - apply (Rmult_lt_reg_r (e + 1)); [lra|]. unfold Rdiv.
      rewrite Rmult_assoc, Rinv_l by lra. lra. }
  set (ratio := INR k / (e + 1)) in *.
  assert (0 < a_length arc * ratio) by (apply Rmult_lt_0_compat; lra).
  assert (a_length arc * ratio < a_length arc * 1)
    by (apply Rmult_lt_compat_l; lra).
  rewrite normalizeAngle_fixed by lra. lra.
Qed.

Lemma sorted_snoc (l : list R) (y : R) :
  StronglySorted (λ x y, JS.numLeb x y = true) l →
  (∀ x, x ∈ l → x <= y) →
  StronglySorted (λ x y, JS.numLeb x y = true) (l ++ [y]).
Proof.
  induction 1 as [|a l Hs IH Ha]; intros Hle; simpl.
  - repeat constructor.
  - constructor.
    + apply IH. intros x Hx. apply Hle. by right.
    + apply Forall_app. split; [done|]. constructor; [|constructor].
      apply bool_decide_eq_true. apply Hle. left.
Qed.

Lemma sortBy_nonempty {A} (leb : A → A → bool) (l : list A) :
  l ≠ [] → JS.sortBy leb l ≠ [].
Proof.
  intros Hne Hnil. apply (f_equal length) in Hnil.
  rewrite (Permutation_length (sortBy_perm leb l)) in Hnil. by destruct l.
Qed.

(** With a preferred side the angles lie strictly inside its half turn. *)
Lemma halfAngles_inside (anchors : list R) (extraCount : nat) (sign : Z) (a : R) :
  sign ≠ 0%Z →
  let halfStart := if decide (0 < sign)%Z then 0 else PI in
  a ∈ computeExtraAngles anchors extraCount sign →
  halfStart < a < halfStart + PI.
Proof.
  intros Hsign halfStart. pose proof PI_RGT_0 as Hpi.
  assert (Hhs : 0 <= halfStart ∧ halfStart + PI <= 2 * PI)
    by (unfold halfStart; destruct (decide _); lra).
  unfold computeExtraAngles. destruct extraCount as [|n]; [by intros H; apply elem_of_nil in H|].
  rewrite decide_True by done. cbv zeta. fold halfStart.
  set (inHalf := JS.sortBy JS.numLeb
                   (filter (λ a, halfStart <= a ∧ a < halfStart + PI)
                           (Utils.normalizeAngle <$> anchors))).
  set (points := halfStart :: inHalf ++ [halfStart + PI]).
  set (arcs := arcsBetween points).
  assert (HinHalf : ∀ x, x ∈ inHalf → halfStart <= x ∧ x < halfStart + PI).
  { intros x Hx. unfold inHalf in Hx. rewrite elem_of_sortBy in Hx.
    by apply list_elem_of_filter in Hx as [? _]. }
  assert (Hsorted : StronglySorted (λ x y, JS.numLeb x y = true) points).
  { constructor.
    - apply sorted_snoc.
      + apply sortBy_sorted; [apply numLeb_total|apply numLeb_trans].
      + intros x Hx. apply HinHalf in Hx. lra.
    - apply Forall_forall. intros x Hx. apply bool_decide_eq_true.
      apply elem_of_app in Hx as [Hx|Hx]; [apply HinHalf in Hx; lra|].
      apply list_elem_of_singleton in Hx as ->. lra. }
  assert (Hbounds : ∀ x, x ∈ points → halfStart <= x <= halfStart + PI).
  { intros x Hx. apply elem_of_cons in Hx as [-> |Hx]; [lra|].
    apply elem_of_app in Hx as [Hx|Hx]; [apply HinHalf in Hx; lra|].
    apply list_elem_of_singleton in Hx as ->. lra. }
  assert (Harcs : arcs ≠ []).
  { unfold arcs, points. destruct inHalf; done. }
  set (totalLen := JS.orElse (JS.sum (a_length <$> arcs)) PI).
  set (distributed := distributeExtras arcs totalLen (S n)).
  assert (Hdist : ∀ arc, arc ∈ distributed →
            halfStart <= a_start arc ∧ 0 <= a_length arc
            ∧ a_start arc + a_length arc <= halfStart + PI).
  { intros arc Harc.
    assert (Hshape : (a_start arc, a_length arc) ∈ shape arcs).
    { rewrite <- (distributeExtras_shape arcs totalLen (S n) Harcs).
      unfold shape. by apply (list_elem_of_fmap_2 (λ arc, (a_start arc, a_length arc))). }
    unfold shape in Hshape. apply list_elem_of_fmap in Hshape as (arc0 & [= -> ->] & Harc0).
    by apply (arcsBetween_members points). }
  set (result := concat _).
  assert (Hresult : ∀ x, x ∈ result → halfStart < x < halfStart + PI).
  { intros x Hx. unfold result in Hx.
    apply elem_of_concat in Hx as (l & Hl & Hx).
    apply list_elem_of_fmap in Hl as (arc & -> & Harc).
    destruct (decide (a_length arc <= 1e-6 ∨ (a_extras arc <= 0)%Z)) as [|Hok];
      [by apply elem_of_nil in Hx|].
    destruct (Hdist arc Harc) as (Hlo & _ & Hhi).
    assert (Hlen : 1e-6 < a_length arc).
    { destruct (Rle_lt_dec (a_length arc) 1e-6); [|done]. exfalso. apply Hok. by left. }
    destruct (anglesInArc_inside arc x Hx); lra. }
  intros Ha. rewrite elem_of_sortBy in Ha.
  destruct result as [|r0 rest] eqn:Hres.
  - apply list_elem_of_fmap in Ha as (i & -> & Hi).
    apply elem_of_seq in Hi as [_ Hi]. simpl in Hi.
    assert (Hi0 : 0 <= INR i) by apply pos_INR.
    assert (Hi1 : INR i + 1 <= INR (S n)) by (rewrite <- S_INR; apply le_INR; lia).
    set (m := INR (S n)) in *.
    assert (Hm : 0 < m + 1) by lra.
    assert (Hfrac : 0 < (INR i + 1) / (m + 1) < 1).
    { split.
      - apply Rdiv_lt_0_compat; lra.
      - apply (Rmult_lt_reg_r (m + 1)); [lra|]. unfold Rdiv.
        rewrite Rmult_assoc, Rinv_l by lra. lra. }
    replace (PI / (m + 1) * (INR i + 1)) with (PI * ((INR i + 1) / (m + 1)))
      by (unfold Rdiv; ring).
    assert (0 < PI * ((INR i + 1) / (m + 1))) by (apply Rmult_lt_0_compat; lra).
    assert (PI * ((INR i + 1) / (m + 1)) < PI * 1) by (apply Rmult_lt_compat_l; lra).
    rewrite normalizeAngle_fixed by lra. lra.
  - by apply Hresult.
Qed.

Lemma halfAngles_nonempty (anchors : list R) (extraCount : nat) (sign : Z) :
  sign ≠ 0%Z → extraCount ≠ 0%nat →
  computeExtraAngles anchors extraCount sign ≠ [].
Proof.
  intros Hsign Hn. unfold computeExtraAngles.
  destruct extraCount as [|n]; [done|]. rewrite decide_True by done. cbv zeta.
  apply sortBy_nonempty. destruct (concat _); done.
Qed.

(** Without a preferred side: the arcs between the sorted anchors, closed
    by the first anchor one turn later. *)
Lemma freeAngles_spec (anchors : list R) (extraCount : nat) :
  extraCount ≠ 0%nat →
  computeExtraAngles anchors extraCount 0 ≠ []
  ∧ ((∀ a, a ∈ anchors → 0 <= a < 2 * PI) →
     length (computeExtraAngles anchors extraCount 0) = extraCount).
Proof.
  intros Hn. pose proof PI_RGT_0 as Hpi. unfold computeExtraAngles.
  destruct extraCount as [|n]; [done|]. rewrite decide_False by (intros H; by apply H).
  destruct anchors as [|a0 anchors].
  { split; [done|]. intros _. by rewrite length_fmap, length_seq. }
  cbv zeta.
  set (sorted := JS.sortBy JS.numLeb (a0 :: anchors)).
  assert (Hsne : sorted ≠ []) by (by apply sortBy_nonempty).
  destruct sorted as [|s0 rest] eqn:Hsorted; [done|].
  change (default 0 (head (s0 :: rest))) with s0.
  set (extended := (s0 :: rest) ++ [s0 + PI * 2]).
  set (arcs := arcsBetween extended).
  assert (Harcs : arcs ≠ []).
  { unfold arcs, extended. simpl. destruct rest; done. }
  assert (Hsum : JS.sum (a_length <$> arcs) = PI * 2).
  { unfold arcs, extended.
    change ((s0 :: rest) ++ [s0 + PI * 2]) with (s0 :: (rest ++ [s0 + PI * 2])).
    rewrite arcsBetween_sum, last_last. lra. }
  rewrite Hsum.
  pose proof (distributeExtras_sum arcs (PI * 2) (S n) Harcs Hsum ltac:(lra)) as Htotal.
  set (distributed := distributeExtras arcs (PI * 2) (S n)) in *.
  split.
  - apply sortBy_nonempty. intros Hnil.
    pose proof (angles_count_ge distributed) as Hge.
    rewrite Hnil, Htotal in Hge. simpl in Hge. lia.
  - intros Hrange.
    rewrite (Permutation_length (sortBy_perm _ _)).
    rewrite angles_count, Htotal; [lia|].
    apply distributeExtras_nonneg; [done|lra|].
    assert (Hs : StronglySorted (λ x y, JS.numLeb x y = true) (s0 :: rest)).
    { rewrite <- Hsorted. apply sortBy_sorted; [apply numLeb_total|apply numLeb_trans]. }
    assert (Hin : ∀ x, x ∈ s0 :: rest → 0 <= x < 2 * PI).
    { intros x Hx. apply Hrange. rewrite <- Hsorted in Hx.
      unfold sorted in Hx. by rewrite elem_of_sortBy in Hx. }
    assert (Hs0 : ∀ x, x ∈ s0 :: rest → s0 <= x).
    { intros x Hx. apply elem_of_cons in Hx as [-> |Hx]; [lra|].
      apply StronglySorted_inv in Hs as [_ Hall]. rewrite Forall_forall in Hall.
      apply Hall in Hx. by apply bool_decide_eq_true in Hx. }
    apply Forall_forall. intros arc Harc.
    apply (arcsBetween_members extended s0 (s0 + PI * 2)) in Harc; [tauto| |].
    + apply sorted_snoc; [done|]. intros x Hx.
      pose proof (Hin x Hx). pose proof (Hin s0 ltac:(left)). lra.
    + intros x Hx. unfold extended in Hx.
      apply elem_of_app in Hx as [Hx|Hx].
      * pose proof (Hs0 x Hx). pose proof (Hin x Hx). pose proof (Hin s0 ltac:(left)). lra.
      * apply list_elem_of_singleton in Hx as ->. lra.
Qed.

Lemma extraAngles_range (anchors : list R) (extraCount : nat) (sign : Z) (a : R) :
  a ∈ computeExtraAngles anchors extraCount sign → 0 <= a < 2 * PI.
Proof.
  pose proof PI_RGT_0 as Hpi.
  destruct (decide (sign = 0%Z)) as [-> |Hsign].
  - unfold computeExtraAngles. destruct extraCount as [|n];
      [by intros H; apply elem_of_nil in H|].
    rewrite decide_False by (intros H; by apply H).
    destruct anchors as [|a0 anchors].
    + intros Ha. apply list_elem_of_fmap in Ha as (i & -> & _).
      apply normalizeAngle_range.
    + cbv zeta. intros Ha. rewrite elem_of_sortBy in Ha.
      apply elem_of_concat in Ha as (l & Hl & Ha).
      apply list_elem_of_fmap in Hl as (arc & -> & _).
      by eapply anglesInArc_range.
  - intros Ha. pose proof (halfAngles_inside anchors extraCount sign a Hsign Ha) as Hin.
    cbv zeta in Hin. destruct (decide (0 < sign)%Z); lra.
Qed.

Lemma evenAngles_lookup (n i : nat) (x : R) :
  ((λ i : nat, Utils.normalizeAngle (PI * 2 / INR (S n) * INR i)) <$> seq 0 (S n)) !! i
  = Some x →
  x = PI * 2 / INR (S n) * INR i.
Proof.
  pose proof PI_RGT_0 as Hpi. intros Hx.
  assert (Hi : (i < S n)%nat).
  { apply lookup_lt_Some in Hx. by rewrite length_fmap, length_seq in Hx. }
  rewrite list_lookup_fmap, lookup_seq_lt in Hx by done.
  cbn [fmap option_fmap option_map] in Hx. apply (inj Some) in Hx.
  change (0 + i)%nat with i in Hx. rewrite <- Hx. clear Hx x.
  assert (Hn : 0 < INR (S n)) by (apply lt_0_INR; lia).
  assert (Hi0 : 0 <= INR i) by apply pos_INR.
  assert (Hi1 : INR i + 1 <= INR (S n)) by (rewrite <- S_INR; apply le_INR; lia).
  assert (Hfrac : 0 <= INR i / INR (S n) < 1).
  { split.
    - apply Rmult_le_pos; [done|]. left. by apply Rinv_0_lt_compat.
    - apply (Rmult_lt_reg_r (INR (S n))); [done|]. unfold Rdiv.
      rewrite Rmult_assoc, Rinv_l by lra. lra. }
  replace (PI * 2 / INR (S n) * INR i) with (2 * PI * (INR i / INR (S n)))
    by (unfold Rdiv; ring).
  assert (0 <= 2 * PI * (INR i / INR (S n))) by (apply Rmult_le_pos; lra).
  assert (2 * PI * (INR i / INR (S n)) < 2 * PI * 1)
    by (apply Rmult_lt_compat_l; lra).
  apply normalizeAngle_fixed. lra.
Qed.

Lemma extraAngles_ascending (anchors : list R) (extraCount : nat) (sign : Z)
    (i j : nat) (x y : R) :
  (i ≤ j)%nat →
  computeExtraAngles anchors extraCount sign !! i = Some x →
  computeExtraAngles anchors extraCount sign !! j = Some y →
  x <= y.
Proof.
  pose proof PI_RGT_0 as Hpi. intros Hij.
  unfold computeExtraAngles. destruct extraCount as [|n]; [done|].
  destruct (decide (sign ≠ 0%Z)).
  - apply sorted_lookup_le; [|done].
    apply sortBy_sorted; [apply numLeb_total|apply numLeb_trans].
  - destruct anchors as [|a0 anchors].
    + cbv zeta. intros Hx Hy.
      apply evenAngles_lookup in Hx as ->. apply evenAngles_lookup in Hy as ->.
      apply Rmult_le_compat_l; [|by apply le_INR].
      apply Rmult_le_pos; [lra|]. left. apply Rinv_0_lt_compat, lt_0_INR. lia.
    + apply sorted_lookup_le; [|done].
      apply sortBy_sorted; [apply numLeb_total|apply numLeb_trans].
Qed.

(** X12: the angles [computeExtraAngles] hands to the placement of the
    relationships around an entity.  For a positive count the list is
    never empty, so the placement never needs its fallback angle; the
    angles are in ascending order and in [[0, 2π)].  With a preferred
    side they lie strictly inside that half turn: in (0, π) for a
    positive sign, in (π, 2π) for a negative one.  Without a preferred
    side, and with anchors in [[0, 2π)], there are exactly as many angles
    as were asked for. *)
Theorem computeExtraAngles_spec (anchors : list R) (extraCount : nat) (sign : Z) :
  let angles := computeExtraAngles anchors extraCount sign in
  (extraCount = 0%nat → angles = [])
  ∧ (extraCount ≠ 0%nat → angles ≠ [])
  ∧ (∀ i j x y, (i ≤ j)%nat → angles !! i = Some x → angles !! j = Some y → x <= y)
  ∧ (∀ a, a ∈ angles → 0 <= a < 2 * PI)
  ∧ ((0 < sign)%Z → ∀ a, a ∈ angles → 0 < a < PI)
  ∧ ((sign < 0)%Z → ∀ a, a ∈ angles → PI < a < 2 * PI)
  ∧ (sign = 0%Z → (∀ a, a ∈ anchors → 0 <= a < 2 * PI) →
     length angles = extraCount).
Proof.
  intros angles. unfold angles. split_and!.
  - by intros ->.
  - intros Hn. destruct (decide (sign = 0%Z)) as [-> |Hsign].
    + by apply freeAngles_spec.
    + by apply halfAngles_nonempty.
  - apply extraAngles_ascending.
  - apply extraAngles_range.
  - intros Hsign a Ha.
    pose proof (halfAngles_inside anchors extraCount sign a ltac:(lia) Ha) as Hin.
    cbv zeta in Hin. rewrite decide_True in Hin by done. lra.
  - intros Hsign a Ha.
    pose proof (halfAngles_inside anchors extraCount sign a ltac:(lia) Ha) as Hin.
    cbv zeta in Hin. rewrite decide_False in Hin by lia. lra.
  - intros -> Hrange. destruct extraCount as [|n]; [done|].
    by apply freeAngles_spec.
Qed.

End ExtraAngles.

(** ** ER builder: the ids of the generated nodes *)

Section IdStrings.
Import ERBuilder.

(** The characters of a string. *)
Definition chars (s : string) : list Ascii.ascii := String.list_ascii_of_string s.

Lemma chars_app (a b : string) : chars (a +:+ b) = chars a ++ chars b.
Proof. induction a as [|c a IH]; simpl; [done|]. by rewrite <- IH. Qed.

Lemma chars_inj (a b : string) : chars a = chars b → a = b.
Proof.
  intros Heq. rewrite <- (String.string_of_list_ascii_of_string a),
                      <- (String.string_of_list_ascii_of_string b).
  unfold chars in Heq. by rewrite Heq.
Qed.

(** The separator of the templates. *)
Definition dash : Ascii.ascii := Ascii.ascii_of_nat 45.

(** A string without the separator. *)
Definition dashFree (s : string) : Prop := dash ∉ chars s.

Lemma split_at_last {A} (d : A) (l1 l2 r1 r2 : list A) :
  d ∉ r1 → d ∉ r2 → l1 ++ d :: r1 = l2 ++ d :: r2 → l1 = l2 ∧ r1 = r2.
Proof.
  intros H1 H2. revert l2. induction l1 as [|x l1 IH]; intros [|y l2] Heq;
    simpl in Heq.
  - by injection Heq as ->.
  - injection Heq as <- ->. exfalso. apply H1.
    apply elem_of_app. right. left.
  - injection Heq as -> <-. exfalso. apply H2.
    apply elem_of_app. right. left.
  - injection Heq as -> Heq. destruct (IH l2 Heq) as [-> ->]. done.
Qed.

(** Two strings that end in a dash and a dash-free field agree on the
    field and on what precedes it. *)
Lemma last_field (p q d1 d2 : string) :
  dashFree d1 → dashFree d2 →
  p +:+ "-" +:+ d1 = q +:+ "-" +:+ d2 → p = q ∧ d1 = d2.
Proof.
  intros H1 H2 Heq. apply (f_equal chars) in Heq. rewrite !chars_app in Heq.
  change (chars "-") with [dash] in Heq. simpl in Heq.
  apply split_at_last in Heq as [Hp Hd]; [|done..].
  split; by apply chars_inj.
Qed.

Lemma string_of_uint_dashFree (d : Decimal.uint) :
  dashFree (NilEmpty.string_of_uint d).
Proof.
  unfold dashFree, chars.
  induction d; simpl; rewrite ?not_elem_of_cons; try split; try done;
    by apply not_elem_of_nil.
Qed.

Lemma showNat_dashFree (n : nat) : dashFree (showNat n).
Proof.
  unfold showNat, NilZero.string_of_uint.
  destruct (Nat.to_uint n) eqn:Hn; try (rewrite <- Hn; apply string_of_uint_dashFree).
  unfold dashFree, chars. simpl. rewrite not_elem_of_cons. split; [done|].
  apply not_elem_of_nil.
Qed.

Lemma to_uint_nonnil (n : nat) : Nat.to_uint n ≠ Decimal.Nil.
Proof.
  pose proof (Unsigned.to_of (Nat.to_uint n)) as H.
  rewrite Unsigned.of_to in H. rewrite H. apply DecimalFacts.unorm_nonnil.
Qed.

Lemma showNat_inj (a b : nat) : showNat a = showNat b → a = b.
Proof.
  unfold showNat. intros Heq. apply Unsigned.to_uint_inj.
  pose proof (NilZero.usu _ (to_uint_nonnil a)) as Ha.
  pose proof (NilZero.usu _ (to_uint_nonnil b)) as Hb.
  rewrite Heq, Hb in Ha. by injection Ha.
Qed.

(** The index at the end of an id can be read back. *)
Lemma indexed_inj (p q : string) (i j : nat) :
  p +:+ "-" +:+ showNat i = q +:+ "-" +:+ showNat j → p = q ∧ i = j.
Proof.
  intros Heq. apply last_field in Heq as [-> Hij]; [|apply showNat_dashFree..].
  split; [done|by apply showNat_inj].
Qed.

Lemma entityId_indexed (t : Table) (i : nat) :
  entityId t i = ("entity-" +:+ t_name t) +:+ "-" +:+ showNat i.
Proof.
  unfold entityId. apply chars_inj. rewrite !chars_app. by rewrite <- !app_assoc.
Qed.

Lemma attributeId_indexed (t : Table) (c : Column) (ti ci : nat) :
  attributeId t c ti ci
  = (("attr-" +:+ t_name t +:+ "-" +:+ c_name c) +:+ "-" +:+ showNat ti)
    +:+ "-" +:+ showNat ci.
Proof.
  unfold attributeId. apply chars_inj. rewrite !chars_app. by rewrite <- !app_assoc.
Qed.

Lemma relationshipId_indexed (r : Relationship) (i : nat) :
  relationshipId r i
  = ("rel-" +:+ r_from r +:+ "-" +:+ r_to r +:+ "-" +:+ r_label r)
    +:+ "-" +:+ showNat i.
Proof.
  unfold relationshipId. apply chars_inj. rewrite !chars_app.
  by rewrite <- !app_assoc.
Qed.

Lemma entityId_inj t t' i i' : entityId t i = entityId t' i' → i = i'.
Proof.
  rewrite !entityId_indexed. intros Heq. by apply indexed_inj in Heq as [_ ?].
Qed.

Lemma attributeId_inj t t' c c' ti ti' ci ci' :
  attributeId t c ti ci = attributeId t' c' ti' ci' → ti = ti' ∧ ci = ci'.
Proof.
  rewrite !attributeId_indexed. intros Heq.
  apply indexed_inj in Heq as [Heq ->]. by apply indexed_inj in Heq as [_ ->].
Qed.

Lemma relationshipId_inj r r' i i' :
  relationshipId r i = relationshipId r' i' → i = i'.
Proof.
  rewrite !relationshipId_indexed. intros Heq.
  by apply indexed_inj in Heq as [_ ?].
Qed.

(** Ids of different kinds start with different letters. *)
Lemma entityId_not_attributeId t i t' c ti ci :
  entityId t i ≠ attributeId t' c ti ci.
Proof. unfold entityId, attributeId. simpl. discriminate. Qed.

Lemma entityId_not_relationshipId t i r ri :
  entityId t i ≠ relationshipId r ri.
Proof. unfold entityId, relationshipId. simpl. discriminate. Qed.

Lemma attributeId_not_relationshipId t c ti ci r ri :
  attributeId t c ti ci ≠ relationshipId r ri.
Proof. unfold attributeId, relationshipId. simpl. discriminate. Qed.

End IdStrings.

(** ** ER builder: the shape of the generated data *)

Section BuilderShape.
Import ERBuilder.

(** What one table contributes. *)
Definition tableNodes (isColored : bool) (tableIndex : nat) (table : Table)
    : list NodeModel :=
  entityNode isColored table tableIndex
  :: imap (λ colIndex column,
             attributeNode isColored table column tableIndex colIndex)
          (t_columns table).

Definition tableEdges (tableIndex : nat) (table : Table) : list EdgeModel :=
  imap (λ colIndex column, attributeEdge table column tableIndex colIndex)
       (t_columns table).

(** The two writes to [entityMap] for one table. *)
Definition register (tableIndex : nat) (table : Table)
    (entityMap : gmap string string) : gmap string string :=
  let byName := <[t_name table := entityId table tableIndex]> entityMap in
  match t_alias table with
  | Some alias =>
      if decide (alias = "") then byName
      else <[alias := entityId table tableIndex]> byName
  | None => byName
  end.

(** [entityMap] after the loop over the tables. *)
Definition entityMapOf (tables : list Table) : gmap string string :=
  foldl (λ entityMap '(tableIndex, table), register tableIndex table entityMap)
        ∅ (imap (λ tableIndex table, (tableIndex, table)) tables).

Lemma addColumns_closed isColored table tableIndex st columns :
  foldl (addColumn isColored table tableIndex) st
        (imap (λ colIndex column, (colIndex, column)) columns)
  = mkBuild
      (b_nodes st
       ++ imap (λ colIndex column,
                  attributeNode isColored table column tableIndex colIndex)
               columns)
      (b_edges st
       ++ imap (λ colIndex column, attributeEdge table column tableIndex colIndex)
               columns)
      (b_entityMap st).
Proof.
  induction columns as [|c columns IH] using rev_ind.
  - simpl. rewrite !app_nil_r. by destruct st.
  - rewrite !imap_app, foldl_app, IH. cbn [imap foldl addColumn].
    cbn [b_nodes b_edges b_entityMap]. by rewrite <- !app_assoc.
Qed.

Lemma addTable_closed isColored st tableIndex table :
  addTable isColored st (tableIndex, table)
  = mkBuild (b_nodes st ++ tableNodes isColored tableIndex table)
            (b_edges st ++ tableEdges tableIndex table)
            (register tableIndex table (b_entityMap st)).
Proof.
  unfold addTable. rewrite addColumns_closed. cbn [b_nodes b_edges b_entityMap].
  unfold tableNodes, tableEdges, register. by rewrite <- app_assoc.
Qed.

Lemma tables_closed isColored tables :
  foldl (addTable isColored) (mkBuild [] [] ∅)
        (imap (λ tableIndex table, (tableIndex, table)) tables)
  = mkBuild (concat (imap (tableNodes isColored) tables))
            (concat (imap tableEdges tables))
            (entityMapOf tables).
Proof.
  unfold entityMapOf.
  induction tables as [|t tables IH] using rev_ind; [done|].
  rewrite !imap_app, !foldl_app, IH. cbn [imap foldl].
  rewrite addTable_closed. cbn [b_nodes b_edges b_entityMap].
  by rewrite !concat_app, !concat_cons, !app_nil_r.
Qed.

Lemma relationships_closed isColored st relationships :
  foldl (addRelationship isColored) st
        (imap (λ relIndex rel, (relIndex, rel)) relationships)
  = mkBuild
      (b_nodes st
       ++ imap (λ relIndex rel, relationshipNode isColored rel relIndex)
               relationships)
      (b_edges st
       ++ concat (imap (λ relIndex rel,
                          [sourceEdge (b_entityMap st) rel relIndex;
                           targetEdge (b_entityMap st) rel relIndex])
                       relationships))
      (b_entityMap st).
Proof.
  induction relationships as [|r relationships IH] using rev_ind.
  - simpl. rewrite !app_nil_r. by destruct st.
  - rewrite !imap_app, foldl_app, IH. cbn [imap foldl addRelationship].
    cbn [b_nodes b_edges b_entityMap].
    by rewrite concat_app, concat_cons, !app_nil_r, <- !app_assoc.
Qed.

(** The result, written out. *)
Lemma generate_closed tables relationships isColored :
  generateChenModelData tables relationships isColored
  = (concat (imap (tableNodes isColored) tables)
     ++ imap (λ relIndex rel, relationshipNode isColored rel relIndex)
             relationships,
     concat (imap tableEdges tables)
     ++ concat (imap (λ relIndex rel,
                        [sourceEdge (entityMapOf tables) rel relIndex;
                         targetEdge (entityMapOf tables) rel relIndex])
                     relationships)).
Proof.
  unfold generateChenModelData. cbv zeta.
  by rewrite tables_closed, relationships_closed.
Qed.

Lemma elem_of_concat_imap {A B} (F : nat → A → list B) (l : list A) (z : B) :
  z ∈ concat (imap F l) ↔ ∃ i x, l !! i = Some x ∧ z ∈ F i x.
Proof.
  rewrite elem_of_concat. split.
  - intros (k & Hk & Hz). apply elem_of_lookup_imap in Hk as (i & x & -> & Hi). eauto.
  - intros (i & x & Hi & Hz). exists (F i x). split; [|done].
    by apply elem_of_lookup_imap_2.
Qed.

(** Where a node comes from. *)
Lemma tableNodes_members isColored ti table (n : NodeModel) :
  n ∈ tableNodes isColored ti table ↔
    n = entityNode isColored table ti
    ∨ ∃ ci column, t_columns table !! ci = Some column
        ∧ n = attributeNode isColored table column ti ci.
Proof.
  unfold tableNodes. rewrite elem_of_cons, elem_of_lookup_imap.
  split; (intros [?|(ci & c & ? & ?)]; [by left|right; eauto]).
Qed.

Lemma nodes_members tables relationships isColored (n : NodeModel) :
  n ∈ (generateChenModelData tables relationships isColored).1 ↔
    (∃ ti table, tables !! ti = Some table ∧ n = entityNode isColored table ti)
    ∨ (∃ ti table ci column,
         tables !! ti = Some table ∧ t_columns table !! ci = Some column
         ∧ n = attributeNode isColored table column ti ci)
    ∨ (∃ ri rel, relationships !! ri = Some rel
         ∧ n = relationshipNode isColored rel ri).
Proof.
  rewrite generate_closed. cbn [fst].
  rewrite elem_of_app, elem_of_concat_imap, elem_of_lookup_imap. split.
  - intros [(ti & table & Ht & Hn)|(ri & rel & -> & Hr)]; [|right; right; eauto].
    apply tableNodes_members in Hn as [-> |(ci & c & Hc & ->)]; [left; eauto|].
    right; left. by exists ti, table, ci, c.
  - intros [(ti & table & Ht & ->)|[(ti & table & ci & c & Ht & Hc & ->)
                                   |(ri & rel & Hr & ->)]].
    + left. exists ti, table. split; [done|]. apply tableNodes_members. by left.
    + left. exists ti, table. split; [done|]. apply tableNodes_members. right. eauto.
    + right. eauto.
Qed.

Lemma edges_members tables relationships isColored (ed : EdgeModel) :
  ed ∈ (generateChenModelData tables relationships isColored).2 ↔
    (∃ ti table ci column,
       tables !! ti = Some table ∧ t_columns table !! ci = Some column
       ∧ ed = attributeEdge table column ti ci)
    ∨ (∃ ri rel, relationships !! ri = Some rel
         ∧ (ed = sourceEdge (entityMapOf tables) rel ri
            ∨ ed = targetEdge (entityMapOf tables) rel ri)).
Proof.
  rewrite generate_closed. cbn [snd].
  rewrite elem_of_app, !elem_of_concat_imap. split.
  - intros [(ti & table & Ht & Hed)|(ri & rel & Hr & Hed)].
    + left. unfold tableEdges in Hed.
      apply elem_of_lookup_imap in Hed as (ci & c & -> & Hc).
      by exists ti, table, ci, c.
    + right. exists ri, rel. split; [done|].
      apply elem_of_cons in Hed as [?|Hed]; [by left|].
      apply list_elem_of_singleton in Hed. by right.
  - intros [(ti & table & ci & c & Ht & Hc & ->)|(ri & rel & Hr & Hed)].
    + left. exists ti, table. split; [done|]. unfold tableEdges.
      by apply (elem_of_lookup_imap_2
                  (λ colIndex column, attributeEdge table column ti colIndex)).
    + right. exists ri, rel. split; [done|].
      destruct Hed as [-> | ->]; [left|right; left].
Qed.

Lemma NoDup_fmap_imap {A B K} (k : B → K) (f : nat → A → B) (l : list A) :
  (∀ i j x y, l !! i = Some x → l !! j = Some y → k (f i x) = k (f j y) → i = j) →
  NoDup (k <$> imap f l).
Proof.
  intros Hinj. apply NoDup_alt. intros i j z Hi Hj.
  rewrite list_lookup_fmap in Hi, Hj.
  destruct (imap f l !! i) as [bi|] eqn:Hbi; [|done].
  destruct (imap f l !! j) as [bj|] eqn:Hbj; [|done].
  apply list_lookup_imap_Some in Hbi as (x & Hx & ->).
  apply list_lookup_imap_Some in Hbj as (y & Hy & ->).
  simpl in Hi, Hj. apply (Hinj i j x y); congruence.
Qed.

Lemma NoDup_fmap_concat_imap {A B K} (k : B → K) (F : nat → A → list B)
    (l : list A) :
  (∀ i x, l !! i = Some x → NoDup (k <$> F i x)) →
  (∀ i j x y z z', l !! i = Some x → l !! j = Some y →
     z ∈ F i x → z' ∈ F j y → k z = k z' → i = j) →
  NoDup (k <$> concat (imap F l)).
Proof.
  induction l as [|a l IH] using rev_ind; intros Hblock Hcross; [constructor|].
  rewrite imap_app, concat_app, fmap_app. cbn [imap concat].
  rewrite app_nil_r, Nat.add_0_r. apply NoDup_app. split_and!.
  - apply IH.
    + intros i x Hi. apply Hblock. by apply lookup_app_l_Some.
    + intros i j x y z z' Hi Hj. apply Hcross; by apply lookup_app_l_Some.
  - intros key Hk1 Hk2.
    apply list_elem_of_fmap in Hk1 as (z & -> & Hz).
    apply list_elem_of_fmap in Hk2 as (z' & Heq & Hz').
    apply elem_of_concat_imap in Hz as (i & x & Hi & Hz).
    assert (Hlt : i < length l) by (by eapply lookup_lt_Some).
    assert (i = length l); [|lia].
    apply (Hcross i (length l) x a z z'); [by apply lookup_app_l_Some| |done..].
    rewrite lookup_app_r, Nat.sub_diag by lia. done.
  - apply Hblock. rewrite lookup_app_r, Nat.sub_diag by lia. done.
Qed.

Lemma lookup_same {A} (l : list A) (i j : nat) (x y : A) :
  l !! i = Some x → l !! j = Some y → i = j → x = y.
Proof. intros Hi Hj ->. congruence. Qed.

Lemma node_ids_NoDup tables relationships isColored :
  NoDup (nd_id <$> (generateChenModelData tables relationships isColored).1).
Proof.
  rewrite generate_closed. cbn [fst]. rewrite fmap_app. apply NoDup_app. split_and!.
  - apply NoDup_fmap_concat_imap.
    + intros ti table Ht. unfold tableNodes. rewrite fmap_cons. apply NoDup_cons. split.
      * intros Hin. apply list_elem_of_fmap in Hin as (n & Hid & Hn).
        apply elem_of_lookup_imap in Hn as (ci & c & -> & _).
        by apply entityId_not_attributeId in Hid.
      * apply NoDup_fmap_imap. intros i j x y _ _ Hid.
        by apply attributeId_inj in Hid as [_ ?].
    + intros i j x y z z' Hi Hj Hz Hz' Hid.
      apply tableNodes_members in Hz as [-> |(ci & c & _ & ->)];
        apply tableNodes_members in Hz' as [-> |(ci' & c' & _ & ->)];
        cbn [nd_id entityNode attributeNode] in Hid.
      * by apply entityId_inj in Hid.
      * by apply entityId_not_attributeId in Hid.
      * symmetry in Hid. by apply entityId_not_attributeId in Hid.
      * by apply attributeId_inj in Hid as [? _].
  - intros key Hk1 Hk2.
    apply list_elem_of_fmap in Hk1 as (z & -> & Hz).
    apply list_elem_of_fmap in Hk2 as (z' & Hid & Hz').
    apply elem_of_concat_imap in Hz as (ti & table & _ & Hz).
    apply elem_of_lookup_imap in Hz' as (ri & rel & -> & _).
    apply tableNodes_members in Hz as [-> |(ci & c & _ & ->)];
      cbn [nd_id entityNode attributeNode relationshipNode] in Hid.
    + by apply entityId_not_relationshipId in Hid.
    + by apply attributeId_not_relationshipId in Hid.
  - apply NoDup_fmap_imap. intros i j x y _ _ Hid.
    by apply relationshipId_inj in Hid.
Qed.

(** X13: the nodes [generateChenModelData] returns have pairwise different
    ids, whatever the names of the tables, columns and relationships. *)
Theorem node_ids_unique (tables : list Table) (relationships : list Relationship)
    (isColored : bool) :
  NoDup (nd_id <$> (generateChenModelData tables relationships isColored).1).
Proof. apply node_ids_NoDup. Qed.

End BuilderShape.

Section BuilderLinks.
Import ERBuilder.

(** [k] is the name of the table, or its alias when that is not empty. *)
Definition named (table : Table) (k : string) : Prop :=
  t_name table = k ∨ (t_alias table = Some k ∧ k ≠ "").

(** What [entityMap.get(k)] gives after the loop over the tables: the id of
    the entity of the last table named [k], or nothing when no table is
    named [k]. *)
Definition resolves (tables : list Table) (k : string) (r : option string) : Prop :=
  match r with
  | Some id =>
      ∃ ti table,
        tables !! ti = Some table ∧ named table k ∧ id = entityId table ti
        ∧ ∀ tj table', tables !! tj = Some table' → named table' k → tj ≤ ti
  | None => ∀ ti table, tables !! ti = Some table → ¬ named table k
  end.

Lemma register_named ti table entityMap k :
  named table k → register ti table entityMap !! k = Some (entityId table ti).
Proof.
  unfold register, named. intros [<- |[Halias Hk]].
  - destruct (t_alias table) as [alias|]; [|apply lookup_insert_eq].
    destruct (decide (alias = "")); [apply lookup_insert_eq|].
    destruct (decide (alias = t_name table)) as [-> |Hne].
    + apply lookup_insert_eq.
    + rewrite lookup_insert_ne by done. apply lookup_insert_eq.
  - rewrite Halias. rewrite decide_False by done. apply lookup_insert_eq.
Qed.

Lemma register_other ti table entityMap k :
  ¬ named table k → register ti table entityMap !! k = entityMap !! k.
Proof.
  unfold register, named. intros Hnot.
  assert (Hname : t_name table ≠ k) by tauto.
  destruct (t_alias table) as [alias|] eqn:Halias;
    [|by rewrite lookup_insert_ne].
  destruct (decide (alias = "")); [by rewrite lookup_insert_ne|].
  rewrite lookup_insert_ne; [by rewrite lookup_insert_ne|].
  intros ->. apply Hnot. by right.
Qed.

Lemma named_dec (table : Table) (k : string) : named table k ∨ ¬ named table k.
Proof.
  unfold named. destruct (decide (t_name table = k)); [by left; left|].
  destruct (decide (t_alias table = Some k)); [|right; tauto].
  destruct (decide (k = "")); [right; tauto|left; by right].
Qed.

Lemma entityMapOf_snoc tables table :
  entityMapOf (tables ++ [table])
  = register (length tables) table (entityMapOf tables).
Proof.
  unfold entityMapOf. rewrite imap_app, foldl_app. cbn [imap foldl].
  by rewrite Nat.add_0_r.
Qed.

Lemma entityMapOf_resolves tables k : resolves tables k (entityMapOf tables !! k).
Proof.
  induction tables as [|table tables IH] using rev_ind.
  - unfold entityMapOf. simpl. rewrite lookup_empty. by intros ti table.
  - rewrite entityMapOf_snoc. destruct (named_dec table k) as [Hk|Hk].
    + rewrite register_named by done. exists (length tables), table.
      split_and!; [|done|done|].
      * rewrite lookup_app_r, Nat.sub_diag by lia. done.
      * intros tj table' Hj _. apply lookup_lt_Some in Hj.
        rewrite length_app in Hj. simpl in Hj. lia.
    + rewrite register_other by done.
      destruct (entityMapOf tables !! k) as [id|]; simpl in *.
      * destruct IH as (ti & t & Hti & Hnamed & -> & Hlast).
        exists ti, t. split_and!; [by apply lookup_app_l_Some|done|done|].
        intros tj table' Hj Hn.
        destruct (decide (tj < length tables)) as [Hlt|Hge].
        -- rewrite lookup_app_l in Hj by done. by eapply Hlast.
        -- rewrite lookup_app_r in Hj by lia.
           destruct (tj - length tables) as [|?]; [|done].
           injection Hj as <-. done.
      * intros ti t Hti.
        destruct (decide (ti < length tables)) as [Hlt|Hge].
        -- rewrite lookup_app_l in Hti by done. by eapply IH.
        -- rewrite lookup_app_r in Hti by lia.
           destruct (ti - length tables) as [|?]; [|done].
           injection Hti as <-. done.
Qed.

Lemma entityMapOf_entity tables k id :
  entityMapOf tables !! k = Some id →
  ∃ ti table, tables !! ti = Some table ∧ id = entityId table ti.
Proof.
  intros Hk. pose proof (entityMapOf_resolves tables k) as Hres.
  rewrite Hk in Hres. destruct Hres as (ti & table & ? & _ & ? & _). eauto.
Qed.

Lemma attribute_links tables relationships isColored (a : NodeModel) :
  a ∈ (generateChenModelData tables relationships isColored).1 →
  nd_type a = attribute →
  ∃ e ed,
    e ∈ (generateChenModelData tables relationships isColored).1
    ∧ nd_type e = entity
    ∧ nd_parentEntity a = Some (nd_id e)
    ∧ ed ∈ (generateChenModelData tables relationships isColored).2
    ∧ ed_source ed = Some (nd_id e)
    ∧ ed_target ed = Some (nd_id a)
    ∧ ed_edgeType ed = entityAttribute
    ∧ ∀ ed', ed' ∈ (generateChenModelData tables relationships isColored).2 →
        ed_target ed' = Some (nd_id a) → ed' = ed.
Proof.
  intros Ha Htype.
  apply nodes_members in Ha as [(ti & table & _ & ->)
                               |[(ti & table & ci & c & Ht & Hc & ->)
                                |(ri & rel & _ & ->)]]; [done| |done].
  exists (entityNode isColored table ti), (attributeEdge table c ti ci).
  split_and!; try done.
  - apply nodes_members. left. eauto.
  - apply edges_members. left. by exists ti, table, ci, c.
  - intros ed' Hed' Htarget. cbn [nd_id attributeNode] in Htarget.
    apply edges_members in Hed' as [(ti' & table' & ci' & c' & Ht' & Hc' & ->)
                                   |(ri & rel & _ & [-> | ->])];
      cbn [ed_target attributeEdge sourceEdge targetEdge] in Htarget.
    + apply (inj Some) in Htarget. apply attributeId_inj in Htarget as [-> ->].
      assert (table' = table) as -> by congruence.
      assert (c' = c) as -> by congruence. done.
    + apply (inj Some) in Htarget. symmetry in Htarget.
      by apply attributeId_not_relationshipId in Htarget.
    + apply entityMapOf_entity in Htarget as (tj & t & _ & Hid).
      symmetry in Hid. by apply entityId_not_attributeId in Hid.
Qed.

Lemma tableNodes_count isColored tables :
  length (concat (imap (tableNodes isColored) tables))
  = length tables + length (concat (t_columns <$> tables)).
Proof.
  induction tables as [|t tables IH] using rev_ind; [done|].
  rewrite imap_app, fmap_app, !concat_app, !length_app, IH. simpl.
  rewrite !app_nil_r, length_imap. lia.
Qed.

Lemma tableEdges_count tables :
  length (concat (imap tableEdges tables))
  = length (concat (t_columns <$> tables)).
Proof.
  induction tables as [|t tables IH] using rev_ind; [done|].
  rewrite imap_app, fmap_app, !concat_app, !length_app, IH. simpl.
  rewrite !app_nil_r. unfold tableEdges. rewrite length_imap. lia.
Qed.

Lemma relationshipEdges_count entityMap relationships :
  length (concat (imap (λ relIndex rel,
                          [sourceEdge entityMap rel relIndex;
                           targetEdge entityMap rel relIndex])
                       relationships))
  = 2 * length relationships.
Proof.
  induction relationships as [|r rels IH] using rev_ind; [done|].
  rewrite imap_app, !concat_app, !length_app, IH. simpl. lia.
Qed.

Lemma builder_counts tables relationships isColored :
  length (generateChenModelData tables relationships isColored).1
  = length tables + length (concat (t_columns <$> tables)) + length relationships
  ∧ length (generateChenModelData tables relationships isColored).2
    = length (concat (t_columns <$> tables)) + 2 * length relationships.
Proof.
  rewrite generate_closed. cbn [fst snd]. rewrite !length_app, length_imap.
  by rewrite tableNodes_count, tableEdges_count, relationshipEdges_count.
Qed.

(** X14: the data [generateChenModelData] returns has one node per table,
    column and relationship, one edge per column and two per
    relationship.  Every attribute node names as its parent an entity node
    of the data, and exactly one edge ends in it: the entity-attribute
    edge that starts at that parent.  Entity and relationship nodes have
    no parent. *)
Theorem attributes_belong_to_entities (tables : list Table)
    (relationships : list Relationship) (isColored : bool) :
  let nodes := (generateChenModelData tables relationships isColored).1 in
  let edges := (generateChenModelData tables relationships isColored).2 in
  length nodes
  = length tables + length (concat (t_columns <$> tables)) + length relationships
  ∧ length edges
    = length (concat (t_columns <$> tables)) + 2 * length relationships
  ∧ (∀ a, a ∈ nodes → nd_type a = attribute →
       ∃ e ed,
         e ∈ nodes ∧ nd_type e = entity ∧ nd_parentEntity a = Some (nd_id e)
         ∧ ed ∈ edges
         ∧ ed_source ed = Some (nd_id e)
         ∧ ed_target ed = Some (nd_id a)
         ∧ ed_edgeType ed = entityAttribute
         ∧ ∀ ed', ed' ∈ edges → ed_target ed' = Some (nd_id a) → ed' = ed)
  ∧ (∀ n, n ∈ nodes → nd_type n ≠ attribute → nd_parentEntity n = None).
Proof.
  cbv zeta. split; [apply builder_counts|]. split; [apply builder_counts|]. split.
  - apply attribute_links.
  - intros n Hn Htype.
    by apply nodes_members in Hn as [(ti & table & _ & ->)
                                    |[(ti & table & ci & c & _ & _ & ->)
                                     |(ri & rel & _ & ->)]].
Qed.

Lemma relationship_links tables relationships isColored ri rel :
  relationships !! ri = Some rel →
  ∃ node eN e1,
    node ∈ (generateChenModelData tables relationships isColored).1
    ∧ nd_id node = relationshipId rel ri
    ∧ nd_type node = relationship
    ∧ nd_label node = r_label rel
    ∧ eN ∈ (generateChenModelData tables relationships isColored).2
    ∧ ed_target eN = Some (nd_id node)
    ∧ ed_label eN = Some "N"
    ∧ resolves tables (r_from rel) (ed_source eN)
    ∧ e1 ∈ (generateChenModelData tables relationships isColored).2
    ∧ ed_source e1 = Some (nd_id node)
    ∧ ed_label e1 = Some "1"
    ∧ resolves tables (r_to rel) (ed_target e1).
Proof.
  intros Hrel.
  exists (relationshipNode isColored rel ri),
         (sourceEdge (entityMapOf tables) rel ri),
         (targetEdge (entityMapOf tables) rel ri).
  split_and!; try done.
  - apply nodes_members. right; right. eauto.
  - apply edges_members. right. exists ri, rel. split; [done|by left].
  - apply entityMapOf_resolves.
  - apply edges_members. right. exists ri, rel. split; [done|by right].
  - apply entityMapOf_resolves.
Qed.

(** X15: every relationship of the input yields a relationship node and two
    edges, labelled N and 1.  The N edge runs from the entity that
    [rel.from] resolves to, to the relationship node; the 1 edge runs from
    the relationship node to the entity that [rel.to] resolves to.  A name
    resolves to the entity of the last table that has it as its name or as
    its non-empty alias; when no table has it, the edge is left without
    that end. *)
Theorem relationship_ends (tables : list Table)
    (relationships : list Relationship) (isColored : bool)
    (ri : nat) (rel : Relationship) :
  relationships !! ri = Some rel →
  ∃ node eN e1,
    node ∈ (generateChenModelData tables relationships isColored).1
    ∧ nd_id node = relationshipId rel ri
    ∧ nd_type node = relationship
    ∧ nd_label node = r_label rel
    ∧ eN ∈ (generateChenModelData tables relationships isColored).2
    ∧ ed_target eN = Some (nd_id node)
    ∧ ed_label eN = Some "N"
    ∧ resolves tables (r_from rel) (ed_source eN)
    ∧ e1 ∈ (generateChenModelData tables relationships isColored).2
    ∧ ed_source e1 = Some (nd_id node)
    ∧ ed_label e1 = Some "1"
    ∧ resolves tables (r_to rel) (ed_target e1).
Proof. apply relationship_links. Qed.

(** Orders placed by users; the relationship also names a table that does
    not exist. *)
Definition usersTable : Table :=
  mkTable "users" (Some "u") [mkColumn "id" true; mkColumn "email" false] [].
Definition ordersTable : Table :=
  mkTable "orders" None [mkColumn "id" false; mkColumn "user_id" false] ["id"].
Definition placedBy : Relationship := mkRelationship "orders" "u" "user_id".
Definition dangling : Relationship := mkRelationship "orders" "ghosts" "ghost_id".

Lemma relationship_ends_witness :
  ∃ node eN e1,
    node ∈ (generateChenModelData [usersTable; ordersTable] [placedBy; dangling] true).1
    ∧ nd_id node = "rel-orders-ghosts-ghost_id-1"
    ∧ eN ∈ (generateChenModelData [usersTable; ordersTable] [placedBy; dangling] true).2
    ∧ ed_source eN = Some "entity-orders-1"
    ∧ e1 ∈ (generateChenModelData [usersTable; ordersTable] [placedBy; dangling] true).2
    ∧ ed_target e1 = None.
Proof.
  destruct (relationship_ends [usersTable; ordersTable] [placedBy; dangling] true
              1 dangling eq_refl)
    as (node & eN & e1 & Hnode & Hid & _ & _ & HeN & _ & _ & Hfrom & He1 & _ & _ & Hto).
  exists node, eN, e1. split_and!; [done|done|done| |done|].
  - destruct (ed_source eN) as [id|]; simpl in Hfrom.
    + destruct Hfrom as (ti & table & Hti & Hnamed & -> & Hlast).
      destruct ti as [|[|ti]]; [| |done].
      * injection Hti as <-. destruct Hnamed as [Hn|[Hn _]]; discriminate Hn.
      * by injection Hti as <-.
    + exfalso. apply (Hfrom 1 ordersTable eq_refl). by left.
  - destruct (ed_target e1) as [id|]; [|done]. simpl in Hto.
    destruct Hto as (ti & table & Hti & Hnamed & _).
    destruct ti as [|[|ti]]; [| |done]; injection Hti as <-;
      destruct Hnamed as [Hn|[Hn _]]; discriminate Hn.
Defined.

End BuilderLinks.

(** ** ER builder: text width and node shapes *)

Section Shapes.
Import ERBuilder.
Local Open Scope R_scope.

(** The number of characters the width function counts as CJK. *)
Definition cjkCount (text : list Z) : nat := length (filter (λ c, isCJK c = true) text).

Lemma getTextWidth_from (text : list Z) (fontSize w : R) :
  foldl (λ width char,
           if isCJK char then width + fontSize else width + fontSize * 0.6)
        w text
  = w + getTextWidth text fontSize.
Proof.
  unfold getTextWidth. revert w. induction text as [|c text IH]; intros w; simpl.
  - lra.
  - rewrite IH. rewrite (IH (if isCJK c then _ else _)).
    destruct (isCJK c); lra.
Qed.

Lemma getTextWidth_cons (c : Z) (text : list Z) (fontSize : R) :
  getTextWidth (c :: text) fontSize
  = (if isCJK c then fontSize else fontSize * 0.6) + getTextWidth text fontSize.
Proof.
  unfold getTextWidth at 1. simpl. rewrite getTextWidth_from.
  destruct (isCJK c); lra.
Qed.

Lemma getTextWidth_app (a b : list Z) (fontSize : R) :
  getTextWidth (a ++ b) fontSize = getTextWidth a fontSize + getTextWidth b fontSize.
Proof.
  induction a as [|c a IH]; simpl.
  - unfold getTextWidth at 2. simpl. lra.
  - rewrite !getTextWidth_cons, IH. lra.
Qed.

Lemma getTextWidth_count (text : list Z) (fontSize : R) :
  getTextWidth text fontSize
  = fontSize * INR (cjkCount text)
    + fontSize * 0.6 * INR (length text - cjkCount text).
Proof.
  unfold cjkCount. induction text as [|c text IH].
  - unfold getTextWidth. simpl. lra.
  - rewrite getTextWidth_cons, IH, filter_cons.
    pose proof (length_filter (λ c, isCJK c = true) text) as Hle.
    destruct (isCJK c) eqn:Hc.
    + rewrite decide_True by done. simpl length.
      replace (S (length text) - S (length (filter (λ c, isCJK c = true) text)))%nat
        with (length text - length (filter (λ c, isCJK c = true) text))%nat by lia.
      rewrite S_INR. lra.
    + rewrite decide_False by done. simpl length.
      replace (S (length text) - length (filter (λ c, isCJK c = true) text))%nat
        with (S (length text - length (filter (λ c, isCJK c = true) text)))%nat by lia.
      rewrite S_INR. lra.
Qed.

Lemma getTextWidth_bounds (text : list Z) (fontSize : R) :
  0 <= fontSize →
  fontSize * 0.6 * INR (length text) <= getTextWidth text fontSize
  <= fontSize * INR (length text).
Proof.
  intros Hfs. induction text as [|c text IH].
  - unfold getTextWidth. simpl. lra.
  - rewrite getTextWidth_cons. simpl length. rewrite S_INR.
    destruct (isCJK c); lra.
Qed.

(** X16: [getTextWidth] counts the font size for every character in the
    range U+4E00 to U+9FA5 and 0.6 of it for every other character.  The
    width of a concatenation is the sum of the widths, and for a
    non-negative font size the width lies between 0.6 and 1 times the
    font size times the number of characters. *)
Theorem getTextWidth_spec (text : list Z) (fontSize : R) :
  getTextWidth text fontSize
  = fontSize * INR (cjkCount text)
    + fontSize * 0.6 * INR (length text - cjkCount text)
  ∧ (∀ more, getTextWidth (text ++ more) fontSize
             = getTextWidth text fontSize + getTextWidth more fontSize)
  ∧ (0 <= fontSize →
     fontSize * 0.6 * INR (length text) <= getTextWidth text fontSize
     <= fontSize * INR (length text)).
Proof.
  split; [apply getTextWidth_count|]. split.
  - intros more. apply getTextWidth_app.
  - apply getTextWidth_bounds.
Qed.

Lemma getTextWidth_nonneg (text : list Z) (fontSize : R) :
  0 <= fontSize → 0 <= getTextWidth text fontSize.
Proof.
  intros Hfs. pose proof (getTextWidth_bounds text fontSize Hfs) as [Hlo _].
  assert (0 <= fontSize * 0.6 * INR (length text)); [|lra].
  apply Rmult_le_pos; [lra|apply pos_INR].
Qed.

(** X17: the sizes of the three node shapes.  The heights do not depend on
    the label: an entity is 50 high, an attribute 40, and the diamond of
    a relationship 48, because its half width is at least 40 and the cap
    of 0.6 times the half width never applies.  The widths leave the
    padding on both sides of the label.  The label of a relationship,
    taken as a box as high as the font size 16, lies inside the diamond
    exactly when it is at most 96 wide. *)
Theorem node_shapes (text : list Z) :
  let entityText := getTextWidth text 18 in
  let attributeText := getTextWidth text 15 in
  let relationshipText := getTextWidth text 16 in
  entitySize text = (Rmax 80 (entityText + 20), 50)
  ∧ attributeSize text = (Rmax 60 (attributeText + 32), 40)
  ∧ relationshipHalfSize text = (Rmax 40 (relationshipText / 2 + 24), 24)
  ∧ (relationshipText / 2 / (relationshipHalfSize text).1
     + 16 / 2 / (relationshipHalfSize text).2 <= 1
     ↔ relationshipText <= 96).
Proof.
  cbv zeta.
  assert (Hrel : relationshipHalfSize text
                 = (Rmax 40 (getTextWidth text 16 / 2 + 24), 24)).
  { unfold relationshipHalfSize. cbv zeta.
    replace (80 / 2) with 40 by lra. replace (40 / 2) with 20 by lra.
    replace ((getTextWidth text 16 + 24 * 2) / 2)
      with (getTextWidth text 16 / 2 + 24) by lra.
    replace ((16 + 16 * 2) / 2) with 24 by lra.
    pose proof (Rmax_l 40 (getTextWidth text 16 / 2 + 24)) as Hhw.
    rewrite (Rmin_right _ 24) by lra. rewrite (Rmax_right 20 24) by lra. done. }
  split_and!.
  - unfold entitySize. cbv zeta.
    replace (10 * 2) with 20 by lra. by rewrite (Rmax_left 50) by lra.
  - unfold attributeSize. cbv zeta.
    replace (16 * 2) with 32 by lra. by rewrite (Rmax_left 40) by lra.
  - exact Hrel.
  - rewrite Hrel. cbn [fst snd].
    pose proof (getTextWidth_nonneg text 16 ltac:(lra)) as Htw.
    set (tw := getTextWidth text 16) in *.
    set (hw := Rmax 40 (tw / 2 + 24)).
    assert (Hhw : 0 < hw) by (pose proof (Rmax_l 40 (tw / 2 + 24)); unfold hw; lra).
    replace (16 / 2 / 24) with (1 / 3) by lra.
    split.
    + intros Hin.
      assert (Hfit : tw / 2 <= 2 / 3 * hw).
      { apply (Rmult_le_reg_r (/ hw)); [by apply Rinv_0_lt_compat|].
        replace (2 / 3 * hw * / hw) with (2 / 3) by (field; lra).
        unfold Rdiv in *. lra. }
      unfold hw in Hfit. destruct (Rle_dec 40 (tw / 2 + 24)) as [Hc|Hc].
      * rewrite Rmax_right in Hfit by lra. lra.
      * rewrite Rmax_left in Hfit by lra. lra.
    + intros Hle.
      assert (Hfit : tw / 2 <= 2 / 3 * hw).
      { pose proof (Rmax_l 40 (tw / 2 + 24)). pose proof (Rmax_r 40 (tw / 2 + 24)).
        unfold hw. lra. }
      assert (tw / 2 / hw <= 2 / 3); [|lra].
      apply (Rmult_le_reg_r hw); [done|].
      replace (tw / 2 / hw * hw) with (tw / 2) by (field; lra). lra.
Qed.

Lemma Rabs_small (a : R) : ¬ Rabs a < 1e-6 → 0 < Rabs a.
Proof. intros Ha. destruct (Rle_lt_dec 1e-6 (Rabs a)); [lra|done]. Qed.

Lemma diamond_point (bbox : BBox) (point : Pos) :
  0 <= bwidth bbox → 0 <= bheight bbox →
  let halfWidth := JS.orElse (bwidth bbox / 2) 1 in
  let halfHeight := JS.orElse (bheight bbox / 2) 1 in
  let dx := px point - centerX bbox in
  let dy := py point - centerY bbox in
  let link := calculateDiamondLinkPoint bbox point in
  (Rabs dx < 1e-6 ∧ Rabs dy < 1e-6 →
   link = mkPos (centerX bbox) (centerY bbox))
  ∧ (¬ (Rabs dx < 1e-6 ∧ Rabs dy < 1e-6) →
     Rabs (px link - centerX bbox) / halfWidth
     + Rabs (py link - centerY bbox) / halfHeight = 1
     ∧ ∃ t, 0 < t
         ∧ px link = centerX bbox + t * dx
         ∧ py link = centerY bbox + t * dy).
Proof.
  intros Hw Hh halfWidth halfHeight dx dy link.
  unfold link, calculateDiamondLinkPoint. cbv zeta.
  fold dx. fold dy. fold halfWidth. fold halfHeight.
  assert (Hhw : 0 < halfWidth).
  { unfold halfWidth, JS.orElse. destruct (Req_dec_T _ _); lra. }
  assert (Hhh : 0 < halfHeight).
  { unfold halfHeight, JS.orElse. destruct (Req_dec_T _ _); lra. }
  split.
  - intros Hnear. by rewrite decide_True.
  - intros Hfar. rewrite decide_False by done. cbn [px py].
    set (S := Rabs dx / halfWidth + Rabs dy / halfHeight).
    assert (HS : 0 < S).
    { pose proof (Rabs_pos dx). pose proof (Rabs_pos dy).
      assert (0 <= Rabs dx / halfWidth)
        by (apply Rmult_le_pos; [done|left; by apply Rinv_0_lt_compat]).
      assert (0 <= Rabs dy / halfHeight)
        by (apply Rmult_le_pos; [done|left; by apply Rinv_0_lt_compat]).
      destruct (Rlt_dec (Rabs dx) 1e-6) as [Hx|Hx].
      - assert (Hy : ¬ Rabs dy < 1e-6) by tauto. apply Rabs_small in Hy.
        assert (0 < Rabs dy / halfHeight)
          by (apply Rmult_lt_0_compat; [done|by apply Rinv_0_lt_compat]).
        unfold S. lra.
      - apply Rabs_small in Hx.
        assert (0 < Rabs dx / halfWidth)
          by (apply Rmult_lt_0_compat; [done|by apply Rinv_0_lt_compat]).
        unfold S. lra. }
    assert (Ht : 0 < 1 / S) by (apply Rdiv_lt_0_compat; lra).
    split.
    + replace (centerX bbox + dx * (1 / S) - centerX bbox) with (dx * (1 / S)) by ring.
      replace (centerY bbox + dy * (1 / S) - centerY bbox) with (dy * (1 / S)) by ring.
      rewrite !Rabs_mult, (Rabs_pos_eq (1 / S)) by lra.
      transitivity ((Rabs dx / halfWidth + Rabs dy / halfHeight) * (1 / S));
        [unfold Rdiv; ring|].
      fold S. field. lra.
    + exists (1 / S). split_and!; [done|ring|ring].
Qed.

(** X18: the point at which an edge meets the diamond of a relationship.
    When the other end is within 1e-6 of the centre in both coordinates
    the centre is returned; otherwise the point lies on the boundary of
    the diamond, [|x - cx| / halfWidth + |y - cy| / halfHeight = 1], on
    the ray from the centre towards the other end. *)
Theorem diamond_link_point (bbox : BBox) (point : Pos) :
  0 <= bwidth bbox → 0 <= bheight bbox →
  let halfWidth := JS.orElse (bwidth bbox / 2) 1 in
  let halfHeight := JS.orElse (bheight bbox / 2) 1 in
  let dx := px point - centerX bbox in
  let dy := py point - centerY bbox in
  let link := calculateDiamondLinkPoint bbox point in
  (Rabs dx < 1e-6 ∧ Rabs dy < 1e-6 →
   link = mkPos (centerX bbox) (centerY bbox))
  ∧ (¬ (Rabs dx < 1e-6 ∧ Rabs dy < 1e-6) →
     Rabs (px link - centerX bbox) / halfWidth
     + Rabs (py link - centerY bbox) / halfHeight = 1
     ∧ ∃ t, 0 < t
         ∧ px link = centerX bbox + t * dx
         ∧ py link = centerY bbox + t * dy).
Proof. apply diamond_point. Qed.

Lemma diamond_link_point_witness :
  Rabs (px (calculateDiamondLinkPoint (box 0 0 80 48) (mkPos 140 24)) - 40) / 40
  + Rabs (py (calculateDiamondLinkPoint (box 0 0 80 48) (mkPos 140 24)) - 24) / 24
  = 1.
Proof.
  assert (Hw : 0 <= bwidth (box 0 0 80 48)) by (simpl; lra).
  assert (Hh : 0 <= bheight (box 0 0 80 48)) by (simpl; lra).
  destruct (diamond_link_point (box 0 0 80 48) (mkPos 140 24) Hw Hh) as [_ Hfar].
  cbn [bwidth bheight centerX centerY box px py] in Hfar.
  replace (0 + 80 / 2) with 40 in Hfar by lra.
  replace (0 + 48 / 2) with 24 in Hfar by lra.
  assert (H40 : JS.orElse (80 / 2) 1 = 40).
  { unfold JS.orElse. destruct (Req_dec_T _ _); lra. }
  assert (H24 : JS.orElse (48 / 2) 1 = 24).
  { unfold JS.orElse. destruct (Req_dec_T _ _); lra. }
  rewrite H40, H24 in Hfar.
  destruct Hfar as [Hon _]; [|exact Hon].
  intros [Hx _]. replace (140 - 40) with 100 in Hx by lra.
  rewrite Rabs_pos_eq in Hx; lra.
Defined.

End Shapes.

(** ** Animation: the frames and the end of a node animation *)

Section NodeAnimation.
Import Animation.
Local Open Scope R_scope.


Lemma findModel_Some (id : string) (models : list Model) (model : Model) :
  findModel id models = Some model → model.1 = id ∧ model ∈ models.
Proof.
  unfold findModel. intros Hfind. apply find_some in Hfind as [Hin Hid].
  apply bool_decide_eq_true in Hid. by apply list_elem_of_In in Hin.
Qed.








Lemma rawProgress_running (elapsed duration : R) :
  0 < duration → elapsed < duration → rawProgress elapsed duration < 1.
Proof.
  intros Hd He. unfold rawProgress.
  assert (elapsed / duration < 1).
  { apply (Rmult_lt_reg_r duration); [done|].
    unfold Rdiv. rewrite Rmult_assoc, Rinv_l by lra. lra. }
  rewrite Rmin_left by lra. done.
Qed.











End NodeAnimation.

(** ** Animation: the view [smoothFitView] ends at *)

Section FitView.
Import Animation.
Local Open Scope R_scope.










End FitView.

(** ** The decompositions group the nodes by connectivity *)

Section Connectivity.
Import Decompose.

Implicit Types (visited : gset string) (stack comp : list string).

(** One step along the neighbour lists. *)
Definition step (nbrs : string → list string) (a b : string) : Prop :=
  b ∈ nbrs a.

(** Every id a traversal pops is reached from an id of its stack. *)
Lemma dfs_reach fuel nbrs visited stack comp visited' comp' :
  dfs fuel nbrs visited stack comp = Some (visited', comp') →
  ∃ new,
    comp' = comp ++ new
    ∧ ∀ x, x ∈ new → ∃ s, s ∈ stack ∧ rtc (step nbrs) s x.
Proof.
  revert visited stack comp.
  induction fuel as [|fuel IH]; intros visited stack comp Hrun.
  - destruct stack as [|cur rest]; [|done]. simpl in Hrun.
    injection Hrun as <- <-. exists []. split; [by rewrite app_nil_r|].
    intros x Hx. by apply elem_of_nil in Hx.
  - destruct stack as [|cur rest]; simpl in Hrun.
    + injection Hrun as <- <-. exists []. split; [by rewrite app_nil_r|].
      intros x Hx. by apply elem_of_nil in Hx.
    + destruct (pushUnvisited (nbrs cur) (visited, rest)) as [v1 s1] eqn:Hpush.
      apply pushUnvisited_spec in Hpush as (pushed & -> & -> & _ & Hpushed & _).
      apply IH in Hrun as (new & -> & Hnew).
      exists (cur :: new). split; [by rewrite <- app_assoc|].
      intros x Hx. apply elem_of_cons in Hx as [->|Hx].
      * exists cur. split; [left|done].
      * destruct (Hnew x Hx) as (s & Hs & Hreach).
        apply elem_of_app in Hs as [Hs|Hs].
        -- exists cur. split; [left|].
           eapply rtc_l; [|exact Hreach]. by apply Hpushed.
        -- exists s. split; [by right|done].
Qed.

(** Every component is reached from one root. *)
Lemma components_reach fuel nbrs roots visited comps :
  components fuel nbrs roots visited = Some comps →
  ∀ comp, comp ∈ comps →
    ∃ r, r ∈ roots ∧ ∀ x, x ∈ comp → rtc (step nbrs) r x.
Proof.
  revert visited comps.
  induction roots as [|r roots IH]; intros visited comps; simpl.
  - intros [= <-] comp Hc. by apply elem_of_nil in Hc.
  - destruct (decide (r ∈ visited)) as [Hr|Hr].
    { intros Hrun comp Hc. destruct (IH _ _ Hrun comp Hc) as (r' & Hr' & Hall).
      exists r'. split; [by right|done]. }
    destruct (dfs fuel nbrs ({[r]} ∪ visited) [r] []) as [[v1 comp0]|] eqn:Hdfs;
      [|done]. simpl.
    destruct (components fuel nbrs roots v1) as [comps'|] eqn:Hrest; [|done].
    simpl. intros [= <-] comp Hc.
    apply elem_of_cons in Hc as [->|Hc].
    + apply dfs_reach in Hdfs as (new & -> & Hnew). exists r.
      split; [left|]. intros x Hx. simpl in Hx.
      destruct (Hnew x Hx) as (s & Hs & Hreach).
      by apply list_elem_of_singleton in Hs as ->.
    + destruct (IH _ _ Hrest comp Hc) as (r' & Hr' & Hall).
      exists r'. split; [by right|done].
Qed.

Lemma step_back nbrs a b :
  (∀ a b, b ∈ nbrs a → a ∈ nbrs b) →
  rtc (step nbrs) a b → rtc (step nbrs) b a.
Proof.
  intros Hsym. induction 1 as [|a b c Hab _ IH]; [done|].
  eapply rtc_r; [exact IH|]. by apply Hsym.
Qed.

(** With a symmetric neighbour relation, a component is the set of the ids
    reached from any of its members. *)
Lemma components_classes fuel nbrs roots comps :
  (∀ a b, b ∈ nbrs a → a ∈ nbrs b) →
  components fuel nbrs roots ∅ = Some comps →
  ∀ comp a b, comp ∈ comps → a ∈ comp →
    (b ∈ comp ↔ rtc (step nbrs) a b).
Proof.
  intros Hsym Hrun comp a b Hc Ha. split.
  - intros Hb.
    destruct (components_reach _ _ _ _ _ Hrun comp Hc) as (r & _ & Hall).
    etransitivity; [apply step_back; [done|by apply Hall]|by apply Hall].
  - intros Hreach. induction Hreach as [|a b c Hab _ IH]; [done|].
    apply IH.
    eapply components_closed; [exact Hsym| |exact Hrun|exact Hc|exact Ha|exact Hab].
    intros x nb Hx. by apply elem_of_empty in Hx.
Qed.

End Connectivity.

Section ConnectedComponents.

(** Two ids are linked when an edge joins them, in either direction. *)
Definition linked (edges : list Edge) (a b : string) : Prop :=
  ∃ e, e ∈ edges
       ∧ ((e_source e = a ∧ e_target e = b) ∨ (e_source e = b ∧ e_target e = a)).

Lemma linked_snoc (edges : list Edge) (e : Edge) (a b : string) :
  linked (edges ++ [e]) a b
  ↔ linked edges a b
    ∨ (a = e_source e ∧ b = e_target e) ∨ (a = e_target e ∧ b = e_source e).
Proof.
  unfold linked. split.
  - intros (e' & Hin & Hends). apply elem_of_app in Hin as [Hin|Hin].
    + left. by exists e'.
    + apply list_elem_of_singleton in Hin as ->. right. naive_solver.
  - intros [(e' & Hin & Hends)|Hends].
    + exists e'. split; [by apply elem_of_app; left|done].
    + exists e. split; [apply elem_of_app; right; by apply list_elem_of_singleton|].
      naive_solver.
Qed.

(** The adjacency lists exactly the linked ids. *)
Lemma undirectedAdj_linked (edges : list Edge) (a b : string) :
  b ∈ ForceAlign.neighborsOf (undirectedAdj edges) a ↔ linked edges a b.
Proof.
  unfold undirectedAdj.
  induction edges as [|e edges IH] using rev_ind.
  - simpl. unfold ForceAlign.neighborsOf, linked. rewrite lookup_empty. simpl.
    split; [intros H; by apply elem_of_nil in H|].
    intros (e & He & _). by apply elem_of_nil in He.
  - rewrite foldl_app. simpl foldl.
    rewrite elem_of_neighborsOf_addEdge, IH, linked_snoc. done.
Qed.

Lemma sortedNeighbors_linked (edges : list Edge) (a b : string) :
  step (λ cur, JS.sortBy JS.localeLeb (default [] (undirectedAdj edges !! cur))) a b
  ↔ linked edges a b.
Proof.
  unfold step. rewrite elem_of_sortBy. apply undirectedAdj_linked.
Qed.

Lemma reach_ext (R1 R2 : relation string) (a b : string) :
  (∀ x y, R1 x y ↔ R2 x y) → rtc R1 a b ↔ rtc R2 a b.
Proof.
  intros Hext. split; apply rtc_subrel; intros x y; by rewrite Hext.
Qed.

(** What the sorted traversal over all edges yields. *)
Lemma sortedDecomposition_linked (ids : list string) (edges : list Edge)
    (comps : list (list string)) :
  sortedDecomposition ids edges = Some comps →
  ∀ comp a b, comp ∈ comps → a ∈ comp →
    (b ∈ comp ↔ rtc (linked edges) a b).
Proof.
  unfold sortedDecomposition. intros Hrun comp a b Hc Ha.
  rewrite <- (reach_ext _ _ a b (sortedNeighbors_linked edges)).
  eapply components_classes; [|exact Hrun|exact Hc|exact Ha].
  intros x y Hy. apply (sortedNeighbors_linked edges y x).
  apply (sortedNeighbors_linked edges x y) in Hy.
  destruct Hy as (e & He & Hends). exists e. naive_solver.
Qed.

Lemma spread_classes (g : Graph) (comps : list (list string))
    (comp : list string) (a : string) :
  ComponentSpread.componentIds g = Some comps → comp ∈ comps → a ∈ comp →
  ∀ b, b ∈ comp ↔ rtc (linked (getEdges g)) a b.
Proof.
  rewrite spread_componentIds_sorted. intros Hrun Hc Ha b.
  by eapply sortedDecomposition_linked.
Qed.

(** The same for the node lists the spread works with. *)
Lemma spread_node_classes (g : Graph) (comp : list Node) (a b : Node) :
  comp ∈ ComponentSpread.components g → a ∈ comp →
  findById g (n_id b) = Some b →
  (b ∈ comp ↔ rtc (linked (getEdges g)) (n_id a) (n_id b)).
Proof.
  unfold ComponentSpread.components.
  destruct (ComponentSpread.componentIds g) as [comps|] eqn:Hrun;
    [|intros H; by apply elem_of_nil in H].
  intros Hc Ha Hb.
  apply list_elem_of_filter in Hc as [_ Hc].
  apply list_elem_of_fmap in Hc as (ids & -> & Hids).
  apply list_elem_of_omap in Ha as (i & Hi & Hfind).
  apply findById_spec in Hfind as [_ <-].
  rewrite <- (spread_classes g comps ids (n_id a) Hrun Hids Hi (n_id b)).
  rewrite list_elem_of_omap. split.
  - intros (j & Hj & Hfind). by apply findById_spec in Hfind as [_ <-].
  - intros Hj. by exists (n_id b).
Qed.

(** X22: component spread groups the nodes by connectivity.  A component
    holds exactly the ids that a chain of edges, followed in either
    direction, joins to any one of its members; for the node lists the
    spread places, a node that [findById] returns for its id lies in the
    component of a node exactly when such a chain joins their ids. *)
Theorem spread_components_are_connected (g : Graph) (comps : list (list string)) :
  ComponentSpread.componentIds g = Some comps →
  (∀ ids a b, ids ∈ comps → a ∈ ids →
     (b ∈ ids ↔ rtc (linked (getEdges g)) a b))
  ∧ (∀ comp a b, comp ∈ ComponentSpread.components g → a ∈ comp →
       findById g (n_id b) = Some b →
       (b ∈ comp ↔ rtc (linked (getEdges g)) (n_id a) (n_id b))).
Proof.
  intros Hrun. split.
  - intros ids a b Hids Ha. by eapply spread_classes.
  - intros comp a b. apply spread_node_classes.
Qed.

Lemma spread_components_are_connected_witness :
  ∃ comps,
    ComponentSpread.componentIds demoGraph = Some comps
    ∧ (∀ ids a b, ids ∈ comps → a ∈ ids →
         (b ∈ ids ↔ rtc (linked (getEdges demoGraph)) a b))
    ∧ (∀ comp a b, comp ∈ ComponentSpread.components demoGraph → a ∈ comp →
         findById demoGraph (n_id b) = Some b →
         (b ∈ comp ↔ rtc (linked (getEdges demoGraph)) (n_id a) (n_id b))).
Proof.
  exists [["attr-a-id-0-0"; "entity-a-0"]; ["entity-b-1"]].
  assert (Hrun : ComponentSpread.componentIds demoGraph
                 = Some [["attr-a-id-0-0"; "entity-a-0"]; ["entity-b-1"]])
    by (vm_compute; reflexivity).
  split; [exact Hrun|].
  exact (spread_components_are_connected demoGraph _ Hrun).
Defined.

(** X23: the initial placement groups the nodes by connectivity: a
    component of its traversal holds exactly the ids that a chain of
    edges, followed in either direction, joins to any one of its members. *)
Theorem initial_components_are_connected (nodes : list InitialLayout.NodeData)
    (edges : list Edge) (comps : list (list string))
    (ids : list string) (a : string) :
  InitialLayout.componentIds nodes edges = Some comps → ids ∈ comps → a ∈ ids →
  ∀ b, b ∈ ids ↔ rtc (linked edges) a b.
Proof.
  rewrite initial_componentIds_sorted. intros Hrun Hc Ha b.
  by eapply sortedDecomposition_linked.
Qed.

Definition keyedNodes : list InitialLayout.NodeData :=
  [ InitialLayout.mkNodeData "entity-a-0" entity;
    InitialLayout.mkNodeData "attr-a-id-0-0" attribute;
    InitialLayout.mkNodeData "entity-b-1" entity ].

Definition keyedEdges : list Edge := [mkEdge "entity-a-0" "attr-a-id-0-0"].

Lemma initial_components_are_connected_witness :
  "entity-b-1" ∈ ["attr-a-id-0-0"; "entity-a-0"]
  ↔ rtc (linked keyedEdges) "entity-a-0" "entity-b-1".
Proof.
  apply (initial_components_are_connected keyedNodes keyedEdges
           [["attr-a-id-0-0"; "entity-a-0"]; ["entity-b-1"]]).
  - vm_compute. reflexivity.
  - left.
  - right. left.
Defined.

(** An id that [nodeMap] resolves to an entity or a relationship. *)
Definition coreEnd (nm : gmap string Node) (i : string) : Prop :=
  ∃ n, nm !! i = Some n ∧ ForceAlign.isCore (n_type n) = true.

(** Two ids joined by an edge both of whose ends are core nodes. *)
Definition coreLinked (nm : gmap string Node) (edges : list Edge) (a b : string)
    : Prop :=
  ∃ e, e ∈ edges
       ∧ coreEnd nm (e_source e) ∧ coreEnd nm (e_target e)
       ∧ ((e_source e = a ∧ e_target e = b) ∨ (e_source e = b ∧ e_target e = a)).

Lemma coreLinked_snoc nm (edges : list Edge) (e : Edge) (a b : string) :
  coreLinked nm (edges ++ [e]) a b
  ↔ coreLinked nm edges a b
    ∨ (coreEnd nm (e_source e) ∧ coreEnd nm (e_target e)
       ∧ ((a = e_source e ∧ b = e_target e) ∨ (a = e_target e ∧ b = e_source e))).
Proof.
  unfold coreLinked. split.
  - intros (e' & Hin & Hs & Ht & Hends). apply elem_of_app in Hin as [Hin|Hin].
    + left. by exists e'.
    + apply list_elem_of_singleton in Hin as ->. right. naive_solver.
  - intros [(e' & Hin & Hends)|(Hs & Ht & Hends)].
    + exists e'. split; [by apply elem_of_app; left|done].
    + exists e. split; [apply elem_of_app; right; by apply list_elem_of_singleton|].
      split; [done|]. split; [done|].
      destruct Hends as [[-> ->]|[-> ->]]; [by left|by right].
Qed.

(** The core adjacency lists exactly the ids joined by a core edge. *)
Lemma coreAdj_linked nm (edges : list Edge) (a b : string) :
  b ∈ ForceAlign.neighborsOf (ForceAlign.coreAdj nm edges) a
  ↔ coreLinked nm edges a b.
Proof.
  unfold ForceAlign.coreAdj.
  induction edges as [|e edges IH] using rev_ind.
  - simpl. unfold ForceAlign.neighborsOf, coreLinked. rewrite lookup_empty. simpl.
    split; [intros H; by apply elem_of_nil in H|].
    intros (e & He & _). by apply elem_of_nil in He.
  - rewrite foldl_app. simpl foldl. rewrite coreLinked_snoc.
    destruct (nm !! e_source e) as [sNode|] eqn:Hs.
    2: { rewrite IH. split; [by left|]. intros [H|[(n & Hn & _) _]]; [done|].
         by rewrite Hs in Hn. }
    destruct (nm !! e_target e) as [tNode|] eqn:Ht.
    2: { rewrite IH. split; [by left|]. intros [H|(_ & (n & Hn & _) & _)]; [done|].
         by rewrite Ht in Hn. }
    destruct (ForceAlign.isCore (n_type sNode)) eqn:Hcs.
    2: { simpl. rewrite IH. split; [by left|].
         intros [H|[(n & Hn & Hcore) _]]; [done|].
         rewrite Hs in Hn. apply (inj Some) in Hn as <-. congruence. }
    destruct (ForceAlign.isCore (n_type tNode)) eqn:Hct.
    2: { simpl. rewrite IH. split; [by left|].
         intros [H|(_ & (n & Hn & Hcore) & _)]; [done|].
         rewrite Ht in Hn. apply (inj Some) in Hn as <-. congruence. }
    simpl. rewrite elem_of_neighborsOf_addEdge, IH.
    assert (Hse : coreEnd nm (e_source e)) by (by exists sNode).
    assert (Hte : coreEnd nm (e_target e)) by (by exists tNode).
    tauto.
Qed.

Lemma forceAlign_classes (allNodes : list Node) (edges : list Edge)
    (comps : list (list string)) (ids : list string) (a : string) :
  ForceAlign.components allNodes edges = Some comps → ids ∈ comps → a ∈ ids →
  ∀ b, b ∈ ids ↔ rtc (coreLinked (ForceAlign.nodeMap allNodes) edges) a b.
Proof.
  unfold ForceAlign.components. intros Hrun Hc Ha b.
  rewrite <- (reach_ext
                (step (ForceAlign.neighborsOf
                         (ForceAlign.coreAdj (ForceAlign.nodeMap allNodes) edges)))
                _ a b (coreAdj_linked (ForceAlign.nodeMap allNodes) edges)).
  eapply components_classes; [|exact Hrun|exact Hc|exact Ha].
  intros x y. apply coreAdj_symmetric.
Qed.

(** X24: force-align groups the core nodes by connectivity through core
    edges.  A component holds exactly the ids that a chain of edges whose
    two ends are both entities or relationships of the node map, followed
    in either direction, joins to any one of its members; edges that touch
    an attribute or an unknown id join nothing. *)
Theorem forceAlign_components_are_connected (allNodes : list Node)
    (edges : list Edge) (comps : list (list string))
    (ids : list string) (a : string) :
  ForceAlign.components allNodes edges = Some comps → ids ∈ comps → a ∈ ids →
  ∀ b, b ∈ ids ↔ rtc (coreLinked (ForceAlign.nodeMap allNodes) edges) a b.
Proof. apply forceAlign_classes. Qed.

Lemma forceAlign_components_are_connected_witness :
  "entity-a-1" ∈ ["entity-b-0"; "rel-c-b-fk-0"; "entity-c-2"]
  ↔ rtc (coreLinked (ForceAlign.nodeMap tablesBAC) edgesBAC)
        "entity-c-2" "entity-a-1".
Proof.
  apply (forceAlign_components_are_connected tablesBAC edgesBAC
           [["entity-b-0"; "rel-c-b-fk-0"; "entity-c-2"]; ["entity-a-1"]]
           ["entity-b-0"; "rel-c-b-fk-0"; "entity-c-2"]).
  - vm_compute. reflexivity.
  - left.
  - right. right. left.
Defined.

End ConnectedComponents.

(** ** One step of the relaxation of the entity centres *)

Section ArrangeSprings.
Import ArrangeLayout.
Local Open Scope R_scope.

Lemma orElse_nonzero (v d : R) : v ≠ 0 → JS.orElse v d = v.
Proof. intros Hv. unfold JS.orElse. by destruct (Req_dec_T v 0). Qed.

Lemma orElse_of_zero (d : R) : JS.orElse 0 d = d.
Proof. unfold JS.orElse. by destruct (Req_dec_T 0 0). Qed.

Lemma apart_distinct (pos : Targets) (idA idB : string) (pa pb : Pos) :
  pos !! idA = Some pa → pos !! idB = Some pb → 0 < distance pa pb → idA ≠ idB.
Proof.
  intros Ha Hb Hpos Heq. rewrite Heq, Hb in Ha. injection Ha as ->.
  unfold distance in Hpos.
  replace ((px pa - px pa) * (px pa - px pa) + (py pa - py pa) * (py pa - py pa))
    with 0 in Hpos by ring.
  rewrite sqrt_0 in Hpos. lra.
Qed.

(** Both ends moved by [s] along the line through them. *)
Lemma pushed_pair (pos : Targets) (idA idB : string) (pa pb : Pos) (s m : R) :
  let dx := px pb - px pa in
  let dy := py pb - py pa in
  let d := distance pa pb in
  pos !! idA = Some pa → pos !! idB = Some pb → 0 < d →
  s + s = m - d → 0 <= m →
  let t' := alter (Force.shift (dx / d * s) (dy / d * s)) idB
              (alter (Force.unshift (dx / d * s) (dy / d * s)) idA pos) in
  ∃ pa' pb',
    t' !! idA = Some pa' ∧ t' !! idB = Some pb'
    ∧ (∀ i, i ≠ idA → i ≠ idB → t' !! i = pos !! i)
    ∧ distance pa' pb' = m
    ∧ px pa' + px pb' = px pa + px pb
    ∧ py pa' + py pb' = py pa + py pb.
Proof.
  intros dx dy d Ha Hb Hpos Hs Hm t'.
  pose proof (apart_distinct pos idA idB pa pb Ha Hb Hpos) as Hne.
  exists (Force.unshift (dx / d * s) (dy / d * s) pa),
         (Force.shift (dx / d * s) (dy / d * s) pb).
  subst t'. split_and!.
  - rewrite lookup_alter_ne, lookup_alter_eq, Ha by done. reflexivity.
  - rewrite lookup_alter_eq, lookup_alter_ne, Hb by done. reflexivity.
  - intros i Hia Hib. by rewrite !lookup_alter_ne.
  - by apply push_along.
  - apply push_along_midpoint.
  - apply push_along_midpoint.
Qed.

(** Two ends at the same position are not moved. *)
Lemma stuck_pair (pos : Targets) (idA idB : string) (k s : R) :
  alter (Force.shift (0 / k * s) (0 / k * s)) idB
    (alter (Force.unshift (0 / k * s) (0 / k * s)) idA pos) = pos.
Proof.
  rewrite !alter_fixed; [done|intros; apply unshift_nothing|intros; apply shift_nothing].
Qed.

Lemma attract_cases (conn : gmap string (list Node)) (sysR : gmap string R)
    (relNode : Node) (pos : Targets) (maxMove : R)
    (idA idB : string) (pa pb : Pos) (rA rB : R) :
  endpoints conn (n_id relNode) = Some (idA, idB) →
  pos !! idA = Some pa → pos !! idB = Some pb →
  sysR !! idA = Some rA → sysR !! idB = Some rB →
  let d := distance pa pb in
  let desired := rA + rB + 50 in
  (0 < d → Rabs (desired - d) < 1 →
   attract conn sysR relNode (pos, maxMove) = Computed (pos, maxMove))
  ∧ (0 < d → 1 <= Rabs (desired - d) → 0 <= desired →
     ∃ t' pa' pb',
       attract conn sysR relNode (pos, maxMove)
       = Computed (t', Rmax maxMove (Rabs ((desired - d) * 0.2 / 2)))
       ∧ t' !! idA = Some pa' ∧ t' !! idB = Some pb'
       ∧ (∀ i, i ≠ idA → i ≠ idB → t' !! i = pos !! i)
       ∧ distance pa' pb' = d + 0.2 * (desired - d)
       ∧ px pa' + px pb' = px pa + px pb
       ∧ py pa' + py pb' = py pa + py pb)
  ∧ (d = 0 →
     attract conn sysR relNode (pos, maxMove)
     = Computed (pos,
                 if decide (Rabs (desired - 1) < 1) then maxMove
                 else Rmax maxMove (Rabs ((desired - 1) * 0.2 / 2)))).
Proof.
  intros Hend Ha Hb Hra Hrb d desired. unfold attract.
  rewrite Hend, Ha, Hb, Hra, Hrb. cbv zeta.
  change (default 0 (Some rA)) with rA. change (default 0 (Some rB)) with rB.
  rewrite hypot_distance. fold d. unfold safeGap. fold desired. split_and!.
  - intros Hpos Hsmall. rewrite orElse_nonzero by lra.
    destruct (decide (Rabs (desired - d) < 1)) as [_|Hno]; [done|by destruct Hno].
  - intros Hpos Hbig Hdes. rewrite orElse_nonzero by lra.
    destruct (decide (Rabs (desired - d) < 1)) as [Hno|_];
      [by apply Rlt_not_le in Hno|].
    unfold Force.unitVector. destruct (decide (d = 0)) as [Hz|_]; [lra|].
    cbn [mbind Outcome_bind].
    destruct (pushed_pair pos idA idB pa pb ((desired - d) * 0.2 / 2)
                (d + 0.2 * (desired - d)) Ha Hb Hpos)
      as (pa' & pb' & Hfacts); [fold d; lra|fold d; lra|].
    eexists _, pa', pb'. split; [reflexivity|exact Hfacts].
  - intros Hzero. rewrite Hzero, orElse_of_zero.
    destruct (distance_zero pa pb Hzero) as [Hx Hy].
    destruct (decide (Rabs (desired - 1) < 1)) as [_|_]; [done|].
    unfold Force.unitVector. destruct (decide (1 = 0)) as [Hz|_]; [lra|].
    cbn [mbind Outcome_bind].
    replace (px pb - px pa) with 0 by lra. replace (py pb - py pa) with 0 by lra.
    by rewrite stuck_pair.
Qed.

(** X25: the spring of arrange along one two-entity relationship whose
    entities both have a system radius.  With [desired] the sum of the two
    system radii and the gap 50: a pair whose
    distance is within 1 of [desired] is left alone; otherwise the two
    entities move along the line through them by the same amount, so that
    their midpoint stays and their distance moves one fifth of the way to
    [desired]; no other position changes.  Two entities at the same
    position are not moved, although the step may report a move. *)
Theorem attract_step (conn : gmap string (list Node)) (sysR : gmap string R)
    (relNode : Node) (pos : Targets) (maxMove : R)
    (idA idB : string) (pa pb : Pos) (rA rB : R) :
  endpoints conn (n_id relNode) = Some (idA, idB) →
  pos !! idA = Some pa → pos !! idB = Some pb →
  sysR !! idA = Some rA → sysR !! idB = Some rB →
  let d := distance pa pb in
  let desired := rA + rB + 50 in
  (0 < d → Rabs (desired - d) < 1 →
   attract conn sysR relNode (pos, maxMove) = Computed (pos, maxMove))
  ∧ (0 < d → 1 <= Rabs (desired - d) → 0 <= desired →
     ∃ t' pa' pb',
       attract conn sysR relNode (pos, maxMove)
       = Computed (t', Rmax maxMove (Rabs ((desired - d) * 0.2 / 2)))
       ∧ t' !! idA = Some pa' ∧ t' !! idB = Some pb'
       ∧ (∀ i, i ≠ idA → i ≠ idB → t' !! i = pos !! i)
       ∧ distance pa' pb' = d + 0.2 * (desired - d)
       ∧ px pa' + px pb' = px pa + px pb
       ∧ py pa' + py pb' = py pa + py pb)
  ∧ (d = 0 →
     attract conn sysR relNode (pos, maxMove)
     = Computed (pos,
                 if decide (Rabs (desired - 1) < 1) then maxMove
                 else Rmax maxMove (Rabs ((desired - 1) * 0.2 / 2)))).
Proof. apply attract_cases. Qed.

Lemma repel_cases (sysR : gmap string R) (idA idB : string)
    (pos : Targets) (maxMove : R) (pa pb : Pos) (rA rB : R) :
  pos !! idA = Some pa → pos !! idB = Some pb →
  sysR !! idA = Some rA → sysR !! idB = Some rB →
  let d := distance pa pb in
  let minDist := rA + rB + 50 in
  (0 < d → minDist <= d →
   repel sysR idA idB (pos, maxMove) = Computed (pos, maxMove))
  ∧ (0 < d < minDist →
     ∃ t' pa' pb',
       repel sysR idA idB (pos, maxMove)
       = Computed (t', Rmax maxMove ((minDist - d) * 0.5 * 0.5))
       ∧ t' !! idA = Some pa' ∧ t' !! idB = Some pb'
       ∧ (∀ i, i ≠ idA → i ≠ idB → t' !! i = pos !! i)
       ∧ distance pa' pb' = d + (minDist - d) / 2
       ∧ px pa' + px pb' = px pa + px pb
       ∧ py pa' + py pb' = py pa + py pb)
  ∧ (d = 0 →
     repel sysR idA idB (pos, maxMove)
     = Computed (pos,
                 if decide (1 < minDist) then Rmax maxMove ((minDist - 1) * 0.5 * 0.5)
                 else maxMove)).
Proof.
  intros Ha Hb Hra Hrb d minDist. unfold repel. rewrite Ha, Hb, Hra, Hrb. cbv zeta.
  change (default 0 (Some rA)) with rA. change (default 0 (Some rB)) with rB.
  rewrite hypot_distance. fold d. unfold safeGap. fold minDist. split_and!.
  - intros Hpos Hfar. rewrite orElse_nonzero by lra.
    destruct (decide (d < minDist)) as [Hno|_]; [lra|done].
  - intros [Hpos Hnear]. rewrite orElse_nonzero by lra.
    destruct (decide (d < minDist)) as [_|Hno]; [|lra].
    unfold Force.unitVector. destruct (decide (d = 0)) as [Hz|_]; [lra|].
    cbn [mbind Outcome_bind].
    destruct (pushed_pair pos idA idB pa pb ((minDist - d) * 0.5 * 0.5)
                (d + (minDist - d) / 2) Ha Hb Hpos)
      as (pa' & pb' & Hfacts); [fold d; lra|fold d; lra|].
    eexists _, pa', pb'. split; [reflexivity|exact Hfacts].
  - intros Hzero. rewrite Hzero, orElse_of_zero.
    destruct (distance_zero pa pb Hzero) as [Hx Hy].
    destruct (decide (1 < minDist)) as [_|_]; [|done].
    unfold Force.unitVector. destruct (decide (1 = 0)) as [Hz|_]; [lra|].
    cbn [mbind Outcome_bind].
    replace (px pb - px pa) with 0 by lra. replace (py pb - py pa) with 0 by lra.
    by rewrite stuck_pair.
Qed.

(** X26: the repulsion of arrange between two entities that both have a
    system radius.  With [minDist] the sum of the two system radii and the
    gap 50: a pair at least
    [minDist] apart is left alone; a closer pair at different positions is
    pushed apart along the line through them by the same amount, so that
    the midpoint stays and half of the overlap is removed; no other
    position changes.  Two entities at the same position are not moved,
    although the step reports a move. *)
Theorem repel_step (sysR : gmap string R) (idA idB : string)
    (pos : Targets) (maxMove : R) (pa pb : Pos) (rA rB : R) :
  pos !! idA = Some pa → pos !! idB = Some pb →
  sysR !! idA = Some rA → sysR !! idB = Some rB →
  let d := distance pa pb in
  let minDist := rA + rB + 50 in
  (0 < d → minDist <= d →
   repel sysR idA idB (pos, maxMove) = Computed (pos, maxMove))
  ∧ (0 < d < minDist →
     ∃ t' pa' pb',
       repel sysR idA idB (pos, maxMove)
       = Computed (t', Rmax maxMove ((minDist - d) * 0.5 * 0.5))
       ∧ t' !! idA = Some pa' ∧ t' !! idB = Some pb'
       ∧ (∀ i, i ≠ idA → i ≠ idB → t' !! i = pos !! i)
       ∧ distance pa' pb' = d + (minDist - d) / 2
       ∧ px pa' + px pb' = px pa + px pb
       ∧ py pa' + py pb' = py pa + py pb)
  ∧ (d = 0 →
     repel sysR idA idB (pos, maxMove)
     = Computed (pos,
                 if decide (1 < minDist) then Rmax maxMove ((minDist - 1) * 0.5 * 0.5)
                 else maxMove)).
Proof. apply repel_cases. Qed.

(** The distance [ensureRelationshipClearance] asks for between the two
    entities of a relationship. *)
Definition requiredDist (ring : gmap string R) (relNode : Node)
    (idA idB : string) : R :=
  Rmax (JS.orElse (default 0 (ring !! idA)) 40 + getRadius relNode + 12)
       (JS.orElse (default 0 (ring !! idB)) 40 + getRadius relNode + 12) * 2.

Lemma clear_cases (conn : gmap string (list Node)) (ring : gmap string R)
    (relNode : Node) (pos : Targets) (idA idB : string) (pa pb : Pos) :
  endpoints conn (n_id relNode) = Some (idA, idB) →
  pos !! idA = Some pa → pos !! idB = Some pb →
  let d := distance pa pb in
  let required := requiredDist ring relNode idA idB in
  (0 < d → required <= d → clear conn ring relNode pos = Computed pos)
  ∧ (0 < d < required →
     ∃ t' pa' pb',
       clear conn ring relNode pos = Computed t'
       ∧ t' !! idA = Some pa' ∧ t' !! idB = Some pb'
       ∧ (∀ i, i ≠ idA → i ≠ idB → t' !! i = pos !! i)
       ∧ distance pa' pb' = required
       ∧ px pa' + px pb' = px pa + px pb
       ∧ py pa' + py pb' = py pa + py pb)
  ∧ (d = 0 → clear conn ring relNode pos = Computed pos).
Proof.
  intros Hend Ha Hb d required. unfold clear. rewrite Hend, Ha, Hb. cbv zeta.
  rewrite hypot_distance. fold d. unfold clearanceGap.
  change (Rmax (JS.orElse (default 0 (ring !! idA)) 40 + getRadius relNode + 12)
            (JS.orElse (default 0 (ring !! idB)) 40 + getRadius relNode + 12) * 2)
    with required.
  split_and!.
  - intros Hpos Hfar. rewrite orElse_nonzero by lra.
    destruct (decide (required <= d)) as [_|Hno]; [done|lra].
  - intros [Hpos Hnear]. rewrite orElse_nonzero by lra.
    destruct (decide (required <= d)) as [Hno|_]; [lra|].
    unfold Force.unitVector. destruct (decide (d = 0)) as [Hz|_]; [lra|].
    cbn [mbind Outcome_bind].
    destruct (pushed_pair pos idA idB pa pb ((required - d) / 2) required
                Ha Hb Hpos)
      as (pa' & pb' & Hfacts); [fold d; lra|fold d; lra|].
    exists (alter (Force.shift ((px pb - px pa) / d * ((required - d) / 2))
                     ((py pb - py pa) / d * ((required - d) / 2))) idB
              (alter (Force.unshift ((px pb - px pa) / d * ((required - d) / 2))
                        ((py pb - py pa) / d * ((required - d) / 2))) idA pos)),
           pa', pb'.
    split; [|exact Hfacts].
    replace ((px pb - px pa) / d * (required - d) / 2)
      with ((px pb - px pa) / d * ((required - d) / 2)) by (unfold Rdiv; ring).
    replace ((py pb - py pa) / d * (required - d) / 2)
      with ((py pb - py pa) / d * ((required - d) / 2)) by (unfold Rdiv; ring).
    reflexivity.
  - intros Hzero. rewrite Hzero, orElse_of_zero.
    destruct (distance_zero pa pb Hzero) as [Hx Hy].
    destruct (decide (required <= 1)) as [_|_]; [done|].
    unfold Force.unitVector. destruct (decide (1 = 0)) as [Hz|_]; [lra|].
    cbn [mbind Outcome_bind].
    replace (px pb - px pa) with 0 by lra. replace (py pb - py pa) with 0 by lra.
    f_equal.
    replace (0 / 1 * (required - 1) / 2) with (0 / 1 * ((required - 1) / 2))
      by (unfold Rdiv; ring).
    apply stuck_pair.
Qed.

(** X27: the clearance pass of arrange for one two-entity relationship.
    The required distance is twice the larger of the two ring radii (40
    when a ring radius is 0 or missing) plus the radius of the diamond and
    12.  Entities at least that far apart are left alone; closer entities
    at different positions are pushed apart along the line through them by
    the same amount, so that the midpoint stays and the distance becomes
    exactly the required one; no other position changes.  Two entities at
    the same position are not moved. *)
Theorem clear_step (conn : gmap string (list Node)) (ring : gmap string R)
    (relNode : Node) (pos : Targets) (idA idB : string) (pa pb : Pos) :
  endpoints conn (n_id relNode) = Some (idA, idB) →
  pos !! idA = Some pa → pos !! idB = Some pb →
  let d := distance pa pb in
  let required := requiredDist ring relNode idA idB in
  (0 < d → required <= d → clear conn ring relNode pos = Computed pos)
  ∧ (0 < d < required →
     ∃ t' pa' pb',
       clear conn ring relNode pos = Computed t'
       ∧ t' !! idA = Some pa' ∧ t' !! idB = Some pb'
       ∧ (∀ i, i ≠ idA → i ≠ idB → t' !! i = pos !! i)
       ∧ distance pa' pb' = required
       ∧ px pa' + px pb' = px pa + px pb
       ∧ py pa' + py pb' = py pa + py pb)
  ∧ (d = 0 → clear conn ring relNode pos = Computed pos).
Proof. apply clear_cases. Qed.

(** Two entities 50 apart, joined by one relationship whose diamond has
    radius 5. *)
Definition boxOf (w h : R) : BBox := mkBBox 0 w 0 h (w / 2) (h / 2) w h.

Definition endA : Node := mkNode "a" entity 0 0 None (boxOf 6 8).
Definition endB : Node := mkNode "b" entity 30 40 None (boxOf 6 8).
Definition joint : Node := mkNode "r" relationship 15 20 None (boxOf 6 8).

Definition jointConn : gmap string (list Node) := {[ "r" := [endA; endB] ]}.
Definition apart50 : Targets := {[ "a" := mkPos 0 0; "b" := mkPos 30 40 ]}.
Definition radii25 : gmap string R := {[ "a" := 25; "b" := 25 ]}.

Lemma apart50_distance : distance (mkPos 0 0) (mkPos 30 40) = 50.
Proof.
  unfold distance; cbn [px py].
  replace ((0 - 30) * (0 - 30) + (0 - 40) * (0 - 40)) with (50 * 50) by ring.
  apply sqrt_square. lra.
Qed.

Lemma joint_radius : getRadius joint = 5.
Proof.
  unfold getRadius, Utils.getRadius; cbn [n_bbox joint boxOf bwidth bheight].
  replace (6 * 6 + 8 * 8) with (10 * 10) by ring.
  rewrite sqrt_square by lra. lra.
Qed.

Lemma joint_required : requiredDist ∅ joint "a" "b" = 114.
Proof.
  unfold requiredDist. rewrite !lookup_empty.
  change (default 0 None) with 0.
  rewrite orElse_of_zero, joint_radius, Rmax_left by lra. lra.
Qed.

Lemma attract_step_witness :
  ∃ t' pa' pb',
    attract jointConn radii25 joint (apart50, 0)
    = Computed (t', Rmax 0 (Rabs ((100 - 50) * 0.2 / 2)))
    ∧ t' !! "a" = Some pa' ∧ t' !! "b" = Some pb'
    ∧ distance pa' pb' = 50 + 0.2 * (100 - 50).
Proof.
  assert (Hend : endpoints jointConn (n_id joint) = Some ("a", "b"))
    by (vm_compute; reflexivity).
  assert (Ha : apart50 !! "a" = Some (mkPos 0 0)) by (vm_compute; reflexivity).
  assert (Hb : apart50 !! "b" = Some (mkPos 30 40)) by (vm_compute; reflexivity).
  assert (Hra : radii25 !! "a" = Some 25) by (vm_compute; reflexivity).
  assert (Hrb : radii25 !! "b" = Some 25) by (vm_compute; reflexivity).
  destruct (attract_step jointConn radii25 joint apart50 0 "a" "b" _ _ 25 25
              Hend Ha Hb Hra Hrb) as (_ & Hmove & _).
  rewrite apart50_distance in Hmove.
  replace (25 + 25 + 50) with 100 in Hmove by lra.
  destruct Hmove as (t' & pa' & pb' & Hrun & Hpa & Hpb & _ & Hdist & _).
  - lra.
  - rewrite Rabs_right; lra.
  - lra.
  - exists t', pa', pb'. by split_and!.
Defined.

Lemma repel_step_witness :
  ∃ t' pa' pb',
    repel radii25 "a" "b" (apart50, 0)
    = Computed (t', Rmax 0 ((100 - 50) * 0.5 * 0.5))
    ∧ t' !! "a" = Some pa' ∧ t' !! "b" = Some pb'
    ∧ distance pa' pb' = 50 + (100 - 50) / 2.
Proof.
  assert (Ha : apart50 !! "a" = Some (mkPos 0 0)) by (vm_compute; reflexivity).
  assert (Hb : apart50 !! "b" = Some (mkPos 30 40)) by (vm_compute; reflexivity).
  assert (Hra : radii25 !! "a" = Some 25) by (vm_compute; reflexivity).
  assert (Hrb : radii25 !! "b" = Some 25) by (vm_compute; reflexivity).
  destruct (repel_step radii25 "a" "b" apart50 0 _ _ 25 25 Ha Hb Hra Hrb)
    as (_ & Hmove & _).
  rewrite apart50_distance in Hmove.
  replace (25 + 25 + 50) with 100 in Hmove by lra.
  destruct Hmove as (t' & pa' & pb' & Hrun & Hpa & Hpb & _ & Hdist & _).
  - lra.
  - exists t', pa', pb'. by split_and!.
Defined.

Lemma clear_step_witness :
  ∃ t' pa' pb',
    clear jointConn ∅ joint apart50 = Computed t'
    ∧ t' !! "a" = Some pa' ∧ t' !! "b" = Some pb'
    ∧ distance pa' pb' = 114.
Proof.
  assert (Hend : endpoints jointConn (n_id joint) = Some ("a", "b"))
    by (vm_compute; reflexivity).
  assert (Ha : apart50 !! "a" = Some (mkPos 0 0)) by (vm_compute; reflexivity).
  assert (Hb : apart50 !! "b" = Some (mkPos 30 40)) by (vm_compute; reflexivity).
  destruct (clear_step jointConn ∅ joint apart50 "a" "b" _ _ Hend Ha Hb)
    as (_ & Hmove & _).
  rewrite apart50_distance, joint_required in Hmove.
  destruct Hmove as (t' & pa' & pb' & Hrun & Hpa & Hpb & _ & Hdist & _).
  - lra.
  - exists t', pa', pb'. by split_and!.
Defined.

End ArrangeSprings.

(** ** The rings around the entities *)

Section RingRadius.
Import ArrangeLayout.
Local Open Scope R_scope.

Lemma utils_getRadius_nonneg (b : BBox) : 0 <= Utils.getRadius b.
Proof.
  unfold Utils.getRadius.
  pose proof (sqrt_pos (bwidth b * bwidth b + bheight b * bheight b)). lra.
Qed.

Lemma maxSatelliteRadius_ub (info : EntityInfo) (s : Satellite) :
  s ∈ i_satellites info → getRadius (sat_node s) <= maxSatelliteRadius info.
Proof.
  unfold maxSatelliteRadius. intros Hs.
  destruct (i_satellites info) as [|s0 sats] eqn:Hsats;
    [by apply elem_of_nil in Hs|].
  apply maxOf_ub. by apply (list_elem_of_fmap_2 (λ s, getRadius (sat_node s))).
Qed.

Lemma maxSatelliteRadius_nonneg (info : EntityInfo) : 0 <= maxSatelliteRadius info.
Proof.
  destruct (i_satellites info) as [|s0 sats] eqn:Hsats.
  - unfold maxSatelliteRadius. rewrite Hsats. lra.
  - etransitivity; [apply (utils_getRadius_nonneg (n_bbox (sat_node s0)))|].
    apply maxSatelliteRadius_ub. rewrite Hsats. left.
Qed.

Lemma ringRadius_facts (info : EntityInfo) :
  let count := INR (length (i_satellites info)) in
  let maxSat := maxSatelliteRadius info in
  (∀ s, s ∈ i_satellites info → getRadius (sat_node s) <= maxSat)
  ∧ getRadius (i_node info) + maxSat + 25 <= ringRadius info
  ∧ count * (2 * maxSat + 18) <= 2 * PI * ringRadius info.
Proof.
  intros count maxSat.
  pose proof (maxSatelliteRadius_nonneg info) as Hsat. fold maxSat in Hsat.
  pose proof (utils_getRadius_nonneg (n_bbox (i_node info))) as Hent.
  fold (getRadius (i_node info)) in Hent.
  pose proof PI_gt_3 as Hpi.
  split; [intros s; apply maxSatelliteRadius_ub|].
  unfold ringRadius. cbv zeta. fold maxSat. fold count.
  destruct (decide (1 < length (i_satellites info))%nat) as [Hmany|Hfew].
  - split; [apply Rmax_l|].
    apply Rle_trans with (2 * PI * (count * (maxSat * 2 + 18) / (2 * PI)));
      [right; field; lra|].
    apply Rmult_le_compat_l; [lra|apply Rmax_r].
  - split; [lra|].
    assert (Hcount : 0 <= count <= 1).
    { subst count. split; [apply pos_INR|].
      change 1 with (INR 1). apply le_INR. lia. }
    apply Rle_trans with (1 * (2 * maxSat + 18)).
    + apply Rmult_le_compat_r; lra.
    + apply Rle_trans with (2 * 3 * (getRadius (i_node info) + maxSat + 25)); [lra|].
      apply Rmult_le_compat_r; lra.
Qed.

(** X28: the ring of an entity in arrange.  No satellite is larger than
    the greatest satellite radius; the ring radius is at least the radius
    of the entity plus the greatest satellite radius plus 25; and the
    circumference of the ring gives every satellite an arc of at least
    twice the greatest satellite radius plus 18. *)
Theorem ringRadius_room (info : EntityInfo) :
  let count := INR (length (i_satellites info)) in
  let maxSat := maxSatelliteRadius info in
  (∀ s, s ∈ i_satellites info → getRadius (sat_node s) <= maxSat)
  ∧ getRadius (i_node info) + maxSat + 25 <= ringRadius info
  ∧ count * (2 * maxSat + 18) <= 2 * PI * ringRadius info.
Proof. apply ringRadius_facts. Qed.

End RingRadius.

Section AttributeRing.
Import ForceAlign.
Local Open Scope R_scope.

(** A direction that keeps 0.12 away from every relationship direction,
    measured around the circle. *)
Definition clearOf (relAngles : list R) (c : R) : Prop :=
  ∀ ra, ra ∈ relAngles → 0.12 <= Rmin (Rabs (c - ra)) (PI * 2 - Rabs (c - ra)).

(** The direction an attribute starts from. *)
Definition startAngle (step : R) (attrId : string) (idx : nat) : R :=
  Utils.normalizeAngle
    (step * INR idx + step * 0.35
     + (IZR (Utils.deterministicHash attrId (Z.of_nat idx) mod 1000) / 1000 - 0.5)
       * 0.2).

(** The [t]-th direction tried for an attribute. *)
Definition candidateAngle (count : nat) (step : R) (attrId : string) (idx t : nat)
    : R :=
  Utils.normalizeAngle (startAngle step attrId idx + INR t * (step / (INR count + 1))).

Lemma tooClose_false (relAngles : list R) (c : R) :
  existsb (λ ra, bool_decide (Rmin (Rabs (c - ra)) (PI * 2 - Rabs (c - ra)) < 0.12))
          relAngles = false
  ↔ clearOf relAngles c.
Proof.
  unfold clearOf. induction relAngles as [|ra relAngles IH]; simpl.
  - split; [|done]. intros _ ra Hra. by apply elem_of_nil in Hra.
  - rewrite orb_false_iff, IH, bool_decide_eq_false. split.
    + intros [Hra Hrest] x Hx. apply elem_of_cons in Hx as [->|Hx]; [lra|by apply Hrest].
    + intros Hall. split.
      * specialize (Hall ra ltac:(left)). lra.
      * intros x Hx. apply Hall. by right.
Qed.

(** The first index of a range that passes a test. *)
Lemma find_seq_first (tried : nat → bool) (start count : nat) :
  match List.find tried (seq start count) with
  | Some t => (start ≤ t < start + count)%nat ∧ tried t = true
              ∧ ∀ t', (start ≤ t' < t)%nat → tried t' = false
  | None => ∀ t, (start ≤ t < start + count)%nat → tried t = false
  end.
Proof.
  revert start. induction count as [|n IH]; intros start; simpl; [intros t; lia|].
  destruct (tried start) eqn:Hs.
  - split; [lia|]. split; [done|]. intros t'; lia.
  - specialize (IH (S start)).
    destruct (List.find tried (seq (S start) n)) as [t|].
    + destruct IH as (Hrange & Ht & Hbefore). split; [lia|]. split; [done|].
      intros t' Ht'. destruct (decide (t' = start)) as [->|Hne]; [done|].
      apply Hbefore. lia.
    + intros t Ht. destruct (decide (t = start)) as [->|Hne]; [done|].
      apply IH. lia.
Qed.

Lemma attributeAngle_cases (relAngles : list R) (count : nat) (step : R)
    (attrId : string) (idx : nat) :
  let angle := attributeAngle relAngles count step attrId idx in
  0 <= angle < 2 * PI
  ∧ ((∃ t, (t < count)%nat ∧ angle = candidateAngle count step attrId idx t
           ∧ clearOf relAngles angle
           ∧ ∀ t', (t' < t)%nat →
               ¬ clearOf relAngles (candidateAngle count step attrId idx t'))
     ∨ (angle = startAngle step attrId idx
        ∧ ∀ t, (t < count)%nat →
            ¬ clearOf relAngles (candidateAngle count step attrId idx t))).
Proof.
  unfold attributeAngle. cbv zeta. fold (startAngle step attrId idx).
  set (tried := λ t : nat,
         negb (existsb (λ ra,
                 bool_decide
                   (Rmin (Rabs (candidateAngle count step attrId idx t - ra))
                      (PI * 2 - Rabs (candidateAngle count step attrId idx t - ra))
                    < 0.12)) relAngles)).
  change (List.find _ (seq 0 count)) with (List.find tried (seq 0 count)).
  change (λ t : nat,
            Utils.normalizeAngle
              (startAngle step attrId idx + INR t * (step / (INR count + 1))))
    with (candidateAngle count step attrId idx).
  assert (Htried : ∀ t, tried t = true
                        ↔ clearOf relAngles (candidateAngle count step attrId idx t)).
  { intros t. unfold tried. rewrite negb_true_iff. apply tooClose_false. }
  pose proof (find_seq_first tried 0 count) as Hfind.
  destruct (List.find tried (seq 0 count)) as [t|]; simpl.
  - destruct Hfind as (Hrange & Ht & Hbefore). split.
    + unfold candidateAngle. apply normalizeAngle_range.
    + left. exists t. split; [lia|]. split; [done|]. split; [by apply Htried|].
      intros t' Ht' Hclear. apply Htried in Hclear.
      rewrite Hbefore in Hclear by lia. done.
  - split; [apply normalizeAngle_range|]. right. split; [done|].
    intros t Ht Hclear. apply Htried in Hclear.
    rewrite Hfind in Hclear by lia. done.
Qed.

Lemma foldl_keyed {A} (f : Targets → A → Targets) (key : A → string)
    (val : A → Pos) (l : list A) (t : Targets) (i : string) :
  (∀ t x, f t x = <[key x := val x]> t) →
  (foldl f t l !! i = t !! i ∧ i ∉ key <$> l)
  ∨ (∃ x, x ∈ l ∧ key x = i ∧ foldl f t l !! i = Some (val x)).
Proof.
  intros Hf. induction l as [|x l IH] using rev_ind.
  - left. split; [done|]. by intros H%elem_of_nil.
  - rewrite foldl_app. simpl. rewrite Hf.
    destruct (decide (key x = i)) as [<-|Hne].
    + right. exists x. split; [apply elem_of_app; right; left|].
      split; [done|apply lookup_insert_eq].
    + rewrite lookup_insert_ne by done.
      destruct IH as [[Hsame Hnot]|(y & Hy & Hk & Hlook)].
      * left. split; [done|]. rewrite fmap_app, elem_of_app. intros [?|Hx]; [done|].
        simpl in Hx. apply list_elem_of_singleton in Hx. done.
      * right. exists y. split; [apply elem_of_app; by left|done].
Qed.

Lemma on_ring (center : Pos) (angle r : R) :
  0 <= r →
  distance center (mkPos (px center + cos angle * r) (py center + sin angle * r)) = r.
Proof.
  intros Hr. unfold distance; cbn [px py].
  apply sqrt_lem_1; [apply Rplus_le_le_0_compat; apply Rle_0_sqr|done|].
  pose proof (cos_sin_unit angle) as Hunit.
  transitivity (r * r * (cos angle * cos angle + sin angle * sin angle));
    [rewrite Hunit; ring|ring].
Qed.

Lemma maxOf_radius_nonneg (attrs : list Node) :
  0 <= JS.maxOf 0 (getRadius <$> attrs).
Proof.
  destruct attrs as [|a attrs]; [simpl; lra|].
  etransitivity; [apply (utils_getRadius_nonneg (n_bbox a))|].
  apply maxOf_ub. rewrite fmap_cons. left.
Qed.

(** The directions of the relationships around an entity, as
    [placeAttributes] computes them. *)
Definition relAnglesOf (nm : gmap string Node) (adj : Adjacency)
    (targets : Targets) (eid : string) (center : Pos) : list R :=
  (λ rid,
     match targets !! rid with
     | Some rp =>
         Utils.normalizeAngle (JS.atan2 (py rp - py center) (px rp - px center))
     | None => 0
     end) <$> relNeighborsOf nm adj eid.

Lemma placeAttributes_ring (nm : gmap string Node) (adj : Adjacency)
    (targets : Targets) (eid : string) (attrs : list Node)
    (center : Pos) (entityNode : Node) :
  targets !! eid = Some center → nm !! eid = Some entityNode →
  let ring := getRadius entityNode + JS.maxOf 0 (getRadius <$> attrs) + 8 in
  let step := PI * 2 / INR (length attrs) in
  let relAngles := relAnglesOf nm adj targets eid center in
  let t' := placeAttributes nm adj targets (eid, attrs) in
  (∀ i, i ∉ (n_id <$> attrs) → t' !! i = targets !! i)
  ∧ ∀ a, a ∈ attrs →
      getRadius entityNode + getRadius a + 8 <= ring
      ∧ ∃ idx angle p,
          (idx < length attrs)%nat
          ∧ angle = attributeAngle relAngles (length attrs) step (n_id a) idx
          ∧ t' !! n_id a = Some p
          ∧ p = mkPos (px center + cos angle * ring) (py center + sin angle * ring)
          ∧ distance center p = ring.
Proof.
  intros Hcenter Hnode. cbv zeta. destruct attrs as [|a0 attrs0].
  { unfold placeAttributes. cbv beta iota. rewrite Hcenter.
    split; [done|]. intros a Ha. by apply elem_of_nil in Ha. }
  unfold placeAttributes. cbv beta iota. rewrite Hcenter. cbv beta iota zeta.
  remember (a0 :: attrs0) as attrs eqn:Hattrs.
  unfold radiusOf. rewrite Hnode.
  change (default 0 (getRadius <$> Some entityNode)) with (getRadius entityNode).
  set (ring := getRadius entityNode + JS.maxOf 0 (getRadius <$> attrs) + 8).
  set (step := PI * 2 / INR (length attrs)).
  fold (relAnglesOf nm adj targets eid center).
  set (relAngles := relAnglesOf nm adj targets eid center).
  assert (Hring : 0 <= ring).
  { subst ring. pose proof (utils_getRadius_nonneg (n_bbox entityNode)) as He.
    fold (getRadius entityNode) in He.
    pose proof (maxOf_radius_nonneg attrs). lra. }
  set (sorted := JS.sortBy (λ a b, JS.localeLeb (n_id a) (n_id b)) attrs).
  set (key := λ x : nat * Node, n_id x.2).
  set (val := λ x : nat * Node,
         mkPos (px center
                + cos (attributeAngle relAngles (length attrs) step (n_id x.2) x.1)
                  * ring)
               (py center
                + sin (attributeAngle relAngles (length attrs) step (n_id x.2) x.1)
                  * ring)).
  match goal with
  | |- context [foldl ?f targets ?l] =>
      assert (Hf : ∀ t x, f t x = <[key x := val x]> t);
        [|assert (Hkeyed := λ i, foldl_keyed f key val l targets i Hf)]
  end.
  { intros t [idx a]. reflexivity. }
  assert (Hkeys : ∀ x, x ∈ imap (λ idx a, (idx, a)) sorted →
                       (x.1 < length attrs)%nat ∧ x.2 ∈ attrs).
  { intros [idx a] Hx. apply elem_of_lookup_imap in Hx as (j & b & Heq & Hj).
    injection Heq as -> ->. split.
    - apply lookup_lt_Some in Hj. subst sorted.
      by rewrite (Permutation_length (sortBy_perm _ attrs)) in Hj.
    - apply (elem_of_sortBy (λ a b, JS.localeLeb (n_id a) (n_id b))).
      by eapply list_elem_of_lookup_2. }
  split.
  - intros i Hi. destruct (Hkeyed i) as [[Hsame _]|(x & Hx & Hk & _)]; [done|].
    exfalso. apply Hi. rewrite <- Hk. apply (list_elem_of_fmap_2 n_id attrs x.2).
    by apply Hkeys.
  - intros a Ha. split.
    { subst ring. pose proof (maxOf_ub 0 (getRadius <$> attrs) (getRadius a)
                                (list_elem_of_fmap_2 getRadius _ _ Ha)). lra. }
    destruct (Hkeyed (n_id a)) as [[_ Hnot]|(x & Hx & Hk & Hlook)].
    + exfalso. apply Hnot.
      apply (elem_of_sortBy (λ a b, JS.localeLeb (n_id a) (n_id b))) in Ha.
      apply list_elem_of_lookup_1 in Ha as [j Hj].
      apply list_elem_of_fmap. exists (j, a). split; [done|].
      apply elem_of_lookup_imap. by exists j, a.
    + destruct (Hkeys x Hx) as [Hidx _].
      exists x.1, (attributeAngle relAngles (length attrs) step (n_id a) x.1), (val x).
      split; [done|]. split; [done|]. split; [done|].
      subst val key. simpl in Hk |- *. rewrite Hk. split; [done|].
      by apply on_ring.
Qed.

(** X29: the attributes of an entity in force-align.  For an entity that
    has a target and a node, every attribute gets a target on one ring
    around the entity's target: at the distance of the entity's radius plus
    the greatest attribute radius plus 8, which leaves at least 8 between
    the entity's circle and the attribute's; no other target changes.  The
    direction is in [0, 2π); it is the first tried direction that keeps
    0.12 away from the directions of the entity's relationships, or, when
    every tried direction is too close, the starting direction. *)
Theorem attributes_on_ring (nm : gmap string Node) (adj : Adjacency)
    (targets : Targets) (eid : string) (attrs : list Node)
    (center : Pos) (entityNode : Node) :
  targets !! eid = Some center → nm !! eid = Some entityNode →
  let ring := getRadius entityNode + JS.maxOf 0 (getRadius <$> attrs) + 8 in
  let step := PI * 2 / INR (length attrs) in
  let relAngles := relAnglesOf nm adj targets eid center in
  let t' := placeAttributes nm adj targets (eid, attrs) in
  (∀ i, i ∉ (n_id <$> attrs) → t' !! i = targets !! i)
  ∧ (∀ a, a ∈ attrs →
       getRadius entityNode + getRadius a + 8 <= ring
       ∧ ∃ idx angle p,
           (idx < length attrs)%nat
           ∧ angle = attributeAngle relAngles (length attrs) step (n_id a) idx
           ∧ t' !! n_id a = Some p
           ∧ p = mkPos (px center + cos angle * ring) (py center + sin angle * ring)
           ∧ distance center p = ring)
  ∧ ∀ attrId idx,
      let angle := attributeAngle relAngles (length attrs) step attrId idx in
      0 <= angle < 2 * PI
      ∧ ((∃ t, (t < length attrs)%nat
               ∧ angle = candidateAngle (length attrs) step attrId idx t
               ∧ clearOf relAngles angle
               ∧ ∀ t', (t' < t)%nat →
                   ¬ clearOf relAngles
                       (candidateAngle (length attrs) step attrId idx t'))
         ∨ (angle = startAngle step attrId idx
            ∧ ∀ t, (t < length attrs)%nat →
                ¬ clearOf relAngles
                    (candidateAngle (length attrs) step attrId idx t))).
Proof.
  intros Hcenter Hnode ring step relAngles t'.
  destruct (placeAttributes_ring nm adj targets eid attrs center entityNode
              Hcenter Hnode) as [Hframe Hring].
  split; [exact Hframe|]. split; [exact Hring|].
  intros attrId idx. apply attributeAngle_cases.
Qed.

End AttributeRing.

Section AttributeRingExample.
Import ForceAlign.
Local Open Scope R_scope.

Definition keyOfA : Node :=
  mkNode "attr-a-id-0-0" attribute 0 0 (Some "a") (boxOf 6 8).

Lemma attributes_on_ring_witness :
  ∃ p,
    placeAttributes {[ "a" := endA ]} ∅ {[ "a" := mkPos 0 0 ]} ("a", [keyOfA])
      !! "attr-a-id-0-0" = Some p
    ∧ distance (mkPos 0 0) p
      = getRadius endA + JS.maxOf 0 (getRadius <$> [keyOfA]) + 8.
Proof.
  destruct (attributes_on_ring {[ "a" := endA ]} ∅ {[ "a" := mkPos 0 0 ]} "a"
              [keyOfA] (mkPos 0 0) endA)
    as (_ & Hring & _).
  - vm_compute. reflexivity.
  - vm_compute. reflexivity.
  - destruct (Hring keyOfA) as (_ & idx & angle & p & _ & _ & Hp & _ & Hd); [left|].
    exists p. split; [exact Hp|exact Hd].
Defined.

End AttributeRingExample.

Section Triplets.
Import ForceAlign.
Local Open Scope R_scope.

Lemma radiusOf_nonneg (nm : gmap string Node) (i : string) : 0 <= radiusOf nm i.
Proof.
  unfold radiusOf. destruct (nm !! i) as [n|]; simpl; [|lra].
  apply utils_getRadius_nonneg.
Qed.

(** A point put at [reach] beyond [pR] on the ray from [anchor]. *)
Lemma beyond (anchor pR : Pos) (reach : R) :
  let d := distance anchor pR in
  let p' := mkPos (px pR + (px pR - px anchor) / d * reach)
                  (py pR + (py pR - py anchor) / d * reach) in
  0 < d → 0 <= reach →
  distance pR p' = reach ∧ distance anchor p' = d + reach.
Proof.
  intros d p' Hd Hreach.
  pose proof (distance_sqr anchor pR) as Hsq. fold d in Hsq.
  set (dx := px pR - px anchor) in *. set (dy := py pR - py anchor) in *.
  assert (Hsq' : d * d = dx * dx + dy * dy) by (rewrite Hsq; subst dx dy; ring).
  split.
  - unfold distance, p'; cbn [px py].
    apply sqrt_lem_1; [apply Rplus_le_le_0_compat; apply Rle_0_sqr|done|].
    transitivity ((reach / d) * (reach / d) * (d * d)); [field; lra|].
    rewrite Hsq'. field. lra.
  - unfold distance at 1, p'; cbn [px py].
    apply sqrt_lem_1; [apply Rplus_le_le_0_compat; apply Rle_0_sqr|lra|].
    transitivity ((1 + reach / d) * (1 + reach / d) * (d * d)); [field; lra|].
    rewrite Hsq'. subst dx dy. field. lra.
Qed.

Lemma straighten_cases (nm : gmap string Node) (adj : Adjacency)
    (chain : gset string) (relNode : Node) (targets : Targets)
    (e1 e2 : string) (pR p1 p2 : Pos) :
  n_type relNode = relationship →
  entNeighborsOf nm adj (n_id relNode) = [e1; e2] →
  targets !! n_id relNode = Some pR →
  targets !! e1 = Some p1 → targets !! e2 = Some p2 →
  let anchor := if decide (distance p1 pR <= distance p2 pR) then p1 else p2 in
  let moved := if decide (distance p1 pR <= distance p2 pR) then e2 else e1 in
  let reach := radiusOf nm moved + getRadius relNode + 20 in
  20 <= reach
  ∧ (moved ∈ chain →
     straighten nm adj chain relNode targets = Computed targets)
  ∧ (moved ∉ chain → 0 < distance anchor pR →
     ∃ p', straighten nm adj chain relNode targets
           = Computed (<[moved := p']> targets)
           ∧ distance pR p' = reach
           ∧ distance anchor p' = distance anchor pR + reach)
  ∧ (moved ∉ chain → distance anchor pR = 0 →
     straighten nm adj chain relNode targets = Computed (<[moved := pR]> targets)).
Proof.
  intros Htype Hnbrs HpR Hp1 Hp2 anchor moved reach.
  assert (Hreach : 20 <= reach).
  { subst reach. pose proof (radiusOf_nonneg nm moved).
    pose proof (utils_getRadius_nonneg (n_bbox relNode)) as Hr.
    fold (getRadius relNode) in Hr. lra. }
  split; [exact Hreach|].
  unfold straighten. rewrite Htype, Hnbrs, HpR, Hp1, Hp2. cbv zeta.
  rewrite !hypot_distance.
  change (if decide (distance p1 pR <= distance p2 pR) then p1 else p2) with anchor.
  change (if decide (distance p1 pR <= distance p2 pR) then e2 else e1) with moved.
  fold reach.
  assert (Hfirst : moved ∉ chain →
            ¬ (e1 ∈ chain ∧ e2 ∈ chain ∧ n_id relNode ∈ chain)).
  { intros Hnot (H1 & H2 & _). apply Hnot. subst moved.
    by destruct (decide (distance p1 pR <= distance p2 pR)). }
  split_and!.
  - intros Hin.
    destruct (decide (e1 ∈ chain ∧ e2 ∈ chain ∧ n_id relNode ∈ chain)); [done|].
    by destruct (decide (moved ∈ chain)).
  - intros Hnot Hpos.
    destruct (decide (e1 ∈ chain ∧ e2 ∈ chain ∧ n_id relNode ∈ chain)) as [Hall|_];
      [by apply Hfirst in Hall|].
    destruct (decide (moved ∈ chain)) as [?|_]; [done|].
    rewrite orElse_nonzero by lra.
    unfold Force.unitVector.
    destruct (decide (distance anchor pR = 0)) as [?|_]; [lra|].
    cbn [mbind Outcome_bind].
    eexists. split; [reflexivity|]. apply beyond; [done|lra].
  - intros Hnot Hzero.
    destruct (decide (e1 ∈ chain ∧ e2 ∈ chain ∧ n_id relNode ∈ chain)) as [Hall|_];
      [by apply Hfirst in Hall|].
    destruct (decide (moved ∈ chain)) as [?|_]; [done|].
    rewrite Hzero, orElse_of_zero.
    unfold Force.unitVector. destruct (decide (1 = 0)) as [?|_]; [lra|].
    cbn [mbind Outcome_bind].
    destruct (distance_zero anchor pR Hzero) as [Hx Hy].
    do 2 f_equal. destruct pR as [x y]. cbn [px py] in *. f_equal.
    + rewrite Hx. field.
    + rewrite Hy. field.
Qed.

(** X30: one relationship in the straightening pass of force-align.  For a
    relationship with exactly two entity neighbours, all three with a
    target, the entity nearer to the relationship is the anchor and the
    other one is moved, unless it is on the main chain.  The moved entity
    is put beyond the relationship on the ray from the anchor, at its
    radius plus the radius of the relationship plus 20 from the
    relationship, so that the relationship lies on the segment between
    the two entities; when the anchor and the relationship coincide, the
    moved entity is put on the relationship itself. *)
Theorem straighten_step (nm : gmap string Node) (adj : Adjacency)
    (chain : gset string) (relNode : Node) (targets : Targets)
    (e1 e2 : string) (pR p1 p2 : Pos) :
  n_type relNode = relationship →
  entNeighborsOf nm adj (n_id relNode) = [e1; e2] →
  targets !! n_id relNode = Some pR →
  targets !! e1 = Some p1 → targets !! e2 = Some p2 →
  let anchor := if decide (distance p1 pR <= distance p2 pR) then p1 else p2 in
  let moved := if decide (distance p1 pR <= distance p2 pR) then e2 else e1 in
  let reach := radiusOf nm moved + getRadius relNode + 20 in
  20 <= reach
  ∧ (moved ∈ chain →
     straighten nm adj chain relNode targets = Computed targets)
  ∧ (moved ∉ chain → 0 < distance anchor pR →
     ∃ p', straighten nm adj chain relNode targets
           = Computed (<[moved := p']> targets)
           ∧ distance pR p' = reach
           ∧ distance anchor p' = distance anchor pR + reach)
  ∧ (moved ∉ chain → distance anchor pR = 0 →
     straighten nm adj chain relNode targets = Computed (<[moved := pR]> targets)).
Proof. apply straighten_cases. Qed.

(** A relationship between two entities, nearer to the first one. *)
Definition tripletNodes : gmap string Node := nodeMap [endA; endB; joint].

Definition tripletAdj : Adjacency :=
  coreAdj tripletNodes [mkEdge "a" "r"; mkEdge "r" "b"].

Definition tripletTargets : Targets :=
  {[ "a" := mkPos 0 0; "r" := mkPos 30 40; "b" := mkPos 100 40 ]}.

Lemma triplet_far : distance (mkPos 100 40) (mkPos 30 40) = 70.
Proof.
  unfold distance; cbn [px py].
  replace ((100 - 30) * (100 - 30) + (40 - 40) * (40 - 40)) with (70 * 70) by ring.
  apply sqrt_square. lra.
Qed.

Lemma straighten_step_witness :
  ∃ p',
    straighten tripletNodes tripletAdj ∅ joint tripletTargets
    = Computed (<["b" := p']> tripletTargets)
    ∧ distance (mkPos 30 40) p' = radiusOf tripletNodes "b" + getRadius joint + 20
    ∧ distance (mkPos 0 0) p'
      = 50 + (radiusOf tripletNodes "b" + getRadius joint + 20).
Proof.
  assert (Hnbrs : entNeighborsOf tripletNodes tripletAdj (n_id joint) = ["a"; "b"])
    by (vm_compute; reflexivity).
  assert (HpR : tripletTargets !! n_id joint = Some (mkPos 30 40))
    by (vm_compute; reflexivity).
  assert (Hp1 : tripletTargets !! "a" = Some (mkPos 0 0)) by (vm_compute; reflexivity).
  assert (Hp2 : tripletTargets !! "b" = Some (mkPos 100 40))
    by (vm_compute; reflexivity).
  destruct (straighten_step tripletNodes tripletAdj ∅ joint tripletTargets
              "a" "b" _ _ _ eq_refl Hnbrs HpR Hp1 Hp2) as (_ & _ & Hmove & _).
  rewrite apart50_distance, triplet_far in Hmove.
  destruct (decide (50 <= 70)) as [_|Hno]; [|lra].
  rewrite apart50_distance in Hmove.
  apply Hmove; [apply not_elem_of_empty|lra].
Defined.

End Triplets.
